(** * EdOpt chat widget: a shallow embedding of [static/widget.js]

    The widget is one JavaScript closure: a session store over
    [localStorage], a markdown renderer built from a chain of
    [String.prototype.replace] calls, and two [async] functions that talk to
    the chat API.  The development below embeds these parts and states the
    properties the specification gives for them.

    Strings are sequences of UTF-16 code units, as in JavaScript; the
    regular expressions of the source are written as syntax trees and run by
    a backtracking matcher that follows the ECMAScript priorities. *)

From Stdlib Require Import String Ascii.
From Stdlib Require Import List NArith ZArith Bool Lia PeanoNat.
Import ListNotations.

Set Implicit Arguments.
#[local] Set Warnings "-register-all".

(* ================================================================= *)
(** ** Strings of code units *)

Definition jstring := list N.

(** A string literal of the source, one code unit per character.  The
    literals of the source are all ASCII. *)
Definition u (s : string) : jstring := map N_of_ascii (list_ascii_of_string s).

(** The double quote, which the literals below splice in by hand. *)
Definition dq : N := 34%N.

Definition is_nil (s : jstring) : bool :=
  match s with [] => true | _ => false end.

Fixpoint jeqb (a b : jstring) : bool :=
  match a, b with
  | [], [] => true
  | x :: a', y :: b' => N.eqb x y && jeqb a' b'
  | _, _ => false
  end.

(** [strip_prefix p s] removes the literal [p] from the front of [s]. *)
Fixpoint strip_prefix (p s : jstring) : option jstring :=
  match p with
  | [] => Some s
  | x :: p' =>
      match s with
      | y :: s' => if N.eqb x y then strip_prefix p' s' else None
      | [] => None
      end
  end.

(** ECMAScript LineTerminator: LF, CR, LS, PS. *)
Definition is_line_terminator (c : N) : bool :=
  (N.eqb c 10 || N.eqb c 13 || N.eqb c 8232 || N.eqb c 8233)%N.

(** ECMAScript WhiteSpace and LineTerminator, the set that both [\s] and
    [String.prototype.trim] use. *)
Definition is_space (c : N) : bool :=
  ((N.leb 9 c && N.leb c 13) || N.eqb c 32 || N.eqb c 160 || N.eqb c 5760
   || (N.leb 8192 c && N.leb c 8202) || N.eqb c 8232 || N.eqb c 8233
   || N.eqb c 8239 || N.eqb c 8287 || N.eqb c 12288 || N.eqb c 65279)%N.

Fixpoint drop_space (s : jstring) : jstring :=
  match s with
  | c :: s' => if is_space c then drop_space s' else s
  | [] => []
  end.

(** [String.prototype.trim]. *)
Definition trim (s : jstring) : jstring :=
  rev (drop_space (rev (drop_space s))).

(* ================================================================= *)
(** ** Regular expressions *)

(** The fragment of the ECMAScript pattern language that the widget uses.
    Every quantified atom of the source is a character class, so [Rep]
    repeats a class; [Bol] and [Eol] are [^] and [$] under the [m] flag,
    which all patterns that use them carry. *)
Inductive regex : Type :=
| Chars (l : jstring)                              (* a run of literal characters *)
| Bol                                              (* ^ *)
| Eol                                              (* $ *)
| Rep (greedy : bool) (min : nat) (cls : N -> bool) (* cls* cls+ cls*? cls+? *)
| Grp (body : list regex)                          (* ( ... ) *)
| Opt (body : list regex)                          (* (?: ... )? *)
| Alt (l r : list regex).                          (* l | r *)

(** Character classes. *)
Definition dot (c : N) : bool := negb (is_line_terminator c).   (* .  *)
Definition any (c : N) : bool := true.            (* [\s\S], and . under s *)
Definition other_than (x : N) (c : N) : bool := negb (N.eqb c x). (* [^x] *)

Definition at_bol (prev : option N) : bool :=
  match prev with None => true | Some c => is_line_terminator c end.

Definition at_eol (s : jstring) : bool :=
  match s with [] => true | c :: _ => is_line_terminator c end.

Section Matcher.
Variable R : Type.

(** A matcher state is the code unit before the cursor, the input from the
    cursor on, and the captures closed so far.  Matchers are written in
    continuation-passing style, as in the ECMAScript specification: the
    continuation is the rest of the pattern, and a failure of the
    continuation makes the matcher try its next alternative. *)
Definition cont := option N -> jstring -> list jstring -> option R.

(** Greedy repetition of a class: take while possible, give back on failure. *)
Fixpoint rep_greedy (cls : N -> bool) (min : nat) (prev : option N)
         (s : jstring) (k : option N -> jstring -> option R) : option R :=
  let stop := match min with O => k prev s | S _ => None end in
  match s with
  | c :: s' =>
      if cls c then
        match rep_greedy cls (pred min) (Some c) s' k with
        | Some r => Some r
        | None => stop
        end
      else stop
  | [] => stop
  end.

(** Lazy repetition of a class: try the continuation first, take one more
    on failure. *)
Fixpoint rep_lazy (cls : N -> bool) (min : nat) (prev : option N)
         (s : jstring) (k : option N -> jstring -> option R) : option R :=
  let more :=
    match s with
    | c :: s' => if cls c then rep_lazy cls (pred min) (Some c) s' k else None
    | [] => None
    end in
  match min with
  | O => match k prev s with Some r => Some r | None => more end
  | S _ => more
  end.

Fixpoint run (r : regex) : option N -> jstring -> list jstring -> cont -> option R :=
  let seq :=
    fix seq (rs : list regex) : option N -> jstring -> list jstring -> cont -> option R :=
      match rs with
      | [] => fun p s caps k => k p s caps
      | r' :: rs' =>
          fun p s caps k => run r' p s caps (fun p' s' caps' => seq rs' p' s' caps' k)
      end in
  match r with
  | Chars l =>
      fun p s caps k =>
        match strip_prefix l s with
        | Some s' => k (match rev l with c :: _ => Some c | [] => p end) s' caps
        | None => None
        end
  | Bol => fun p s caps k => if at_bol p then k p s caps else None
  | Eol => fun p s caps k => if at_eol s then k p s caps else None
  | Rep greedy min cls =>
      fun p s caps k =>
        (if greedy then rep_greedy else rep_lazy) cls min p s (fun p' s' => k p' s' caps)
  | Grp body =>
      fun p s caps k =>
        seq body p s caps
            (fun p' s' caps' => k p' s' (caps' ++ [firstn (length s - length s') s]))
  | Opt body =>
      fun p s caps k =>
        match seq body p s caps k with
        | Some r' => Some r'
        | None => k p s caps
        end
  | Alt a b =>
      fun p s caps k =>
        match seq a p s caps k with
        | Some r' => Some r'
        | None => seq b p s caps k
        end
  end.

Fixpoint run_seq (rs : list regex) : option N -> jstring -> list jstring -> cont -> option R :=
  match rs with
  | [] => fun p s caps k => k p s caps
  | r' :: rs' =>
      fun p s caps k => run r' p s caps (fun p' s' caps' => run_seq rs' p' s' caps' k)
  end.
End Matcher.

(** [exec re prev s] tries the pattern at the cursor only; it yields the
    captures and the input after the match. *)
Definition exec (re : list regex) (prev : option N) (s : jstring)
  : option (list jstring * jstring) :=
  run_seq re prev s [] (fun _ s' caps => Some (caps, s')).

(** Replacement templates: literal text, [$n], and the whole match (what the
    callback [function (match) { return match; }] returns). *)
Inductive piece : Type :=
| Lit (l : jstring)
| Cap (n : nat)
| Whole.

Definition subst (t : list piece) (whole : jstring) (caps : list jstring) : jstring :=
  flat_map (fun p => match p with
                     | Lit l => l
                     | Cap n => nth (pred n) caps []
                     | Whole => whole
                     end) t.

Definition last_unit (whole : jstring) (prev : option N) : option N :=
  match rev whole with c :: _ => Some c | [] => prev end.

(** [String.prototype.replace] with a global pattern: the leftmost match from
    the cursor is replaced and the search goes on after it; after an empty
    match the cursor moves one unit on.  [fuel] bounds the number of
    iterations; [replace] gives enough. *)
Fixpoint replace_from (fuel : nat) (re : list regex) (t : list piece)
         (prev : option N) (s : jstring) : jstring :=
  match fuel with
  | O => s
  | S fuel' =>
      let copy :=
        match s with
        | c :: s' => c :: replace_from fuel' re t (Some c) s'
        | [] => []
        end in
      match exec re prev s with
      | Some (caps, rest) =>
          let whole := firstn (length s - length rest) s in
          subst t whole caps ++
            (if is_nil whole then copy
             else replace_from fuel' re t (last_unit whole prev) rest)
      | None => copy
      end
  end.

Definition replace (re : list regex) (t : list piece) (s : jstring) : jstring :=
  replace_from (S (length s)) re t None s.

(** [String.prototype.split] with a pattern: the pieces between the matches,
    each followed by the captures of the match that ends it.  A match that is
    empty and sits at the end of the last piece does not split. *)
Fixpoint split_from (fuel : nat) (re : list regex) (prev : option N)
         (acc s : jstring) : list jstring :=
  match fuel with
  | O => [acc ++ s]
  | S fuel' =>
      match s with
      | [] => [acc]
      | c :: s' =>
          let skip := split_from fuel' re (Some c) (acc ++ [c]) s' in
          match exec re prev s with
          | Some (caps, rest) =>
              let whole := firstn (length s - length rest) s in
              if is_nil whole && is_nil acc then skip
              else acc :: caps ++ split_from fuel' re (last_unit whole prev) [] rest
          | None => skip
          end
      end
  end.

Definition split (re : list regex) (s : jstring) : list jstring :=
  match s with
  | [] => match exec re None [] with Some _ => [] | None => [[]] end
  | _ => split_from (2 * length s + 1) re None [] s
  end.

(* ================================================================= *)
(** ** The markdown renderer *)

Module Markdown.

(** The patterns of [renderMarkdown], in source order. *)
Definition re_amp : list regex := [Chars (u "&")].
Definition re_lt : list regex := [Chars (u "<")].
Definition re_gt : list regex := [Chars (u ">")].
(* /^### (.+)$/gm and its two siblings *)
Definition re_h3 : list regex := [Bol; Chars (u "### "); Grp [Rep true 1 dot]; Eol].
Definition re_h2 : list regex := [Bol; Chars (u "## "); Grp [Rep true 1 dot]; Eol].
Definition re_h1 : list regex := [Bol; Chars (u "# "); Grp [Rep true 1 dot]; Eol].
(* /\*\*\*(.+?)\*\*\*/g *)
Definition re_bold_italic : list regex :=
  [Chars (u "***"); Grp [Rep false 1 dot]; Chars (u "***")].
(* /\*\*(.+?)\*\*/g *)
Definition re_bold : list regex := [Chars (u "**"); Grp [Rep false 1 dot]; Chars (u "**")].
(* /\*(.+?)\*/g *)
Definition re_italic : list regex := [Chars (u "*"); Grp [Rep false 1 dot]; Chars (u "*")].
(* /\[([^\]]+)\]\(([^)]+)\)/g *)
Definition re_link : list regex :=
  [Chars (u "["); Grp [Rep true 1 (other_than 93)]; Chars (u "](");
   Grp [Rep true 1 (other_than 41)]; Chars (u ")")].
(* /`([^`]+)`/g *)
Definition re_code : list regex :=
  [Chars (u "`"); Grp [Rep true 1 (other_than 96)]; Chars (u "`")].
(* /^- (.+)$/gm *)
Definition re_item : list regex := [Bol; Chars (u "- "); Grp [Rep true 1 dot]; Eol].
(* /\n\n/g and /\n/g *)
Definition re_blank_line : list regex := [Chars [10; 10]%N].
Definition re_newline : list regex := [Chars [10]%N].
(* /(<li>.*?<\/li>)(?:\s*<br>)?/gs *)
Definition re_item_br : list regex :=
  [Grp [Chars (u "<li>"); Rep false 0 any; Chars (u "</li>")];
   Opt [Rep true 0 is_space; Chars (u "<br>")]].
(* /(?:<br>)?(<li>[\s\S]*?<\/li>)(?:<br>)?/g *)
Definition re_br_item_br : list regex :=
  [Opt [Chars (u "<br>")];
   Grp [Chars (u "<li>"); Rep false 0 any; Chars (u "</li>")];
   Opt [Chars (u "<br>")]].
(* /(<li>|<\/li>)/ *)
Definition re_li_tag : list regex := [Grp [Alt [Chars (u "<li>")] [Chars (u "</li>")]]].
(* /<br>/g *)
Definition re_br : list regex := [Chars (u "<br>")].

(** The replacement strings. *)
Definition wrap_in (tag : string) : list piece :=
  [Lit (u "<" ++ u tag ++ u ">"); Cap 1; Lit (u "</" ++ u tag ++ u ">")].

Definition anchor_open : jstring := u "<a href=" ++ [dq].
Definition anchor_attrs : jstring :=
  [dq] ++ u " target=" ++ [dq] ++ u "_blank" ++ [dq]
       ++ u " rel=" ++ [dq] ++ u "noopener" ++ [dq] ++ u ">".
(* '<a href="$2" target="_blank" rel="noopener">$1</a>' *)
Definition anchor : list piece :=
  [Lit anchor_open; Cap 2; Lit anchor_attrs; Cap 1; Lit (u "</a>")].

(** The chain of substitutions that builds [html] (source lines 57 to 96). *)
Definition escape_html (text : jstring) : jstring :=
  replace re_gt [Lit (u "&gt;")]
    (replace re_lt [Lit (u "&lt;")]
       (replace re_amp [Lit (u "&amp;")] text)).

Definition inline_markup (html : jstring) : jstring :=
  let html := replace re_h3 (wrap_in "h3") html in
  let html := replace re_h2 (wrap_in "h2") html in
  let html := replace re_h1 (wrap_in "h1") html in
  let html := replace re_bold_italic
                      [Lit (u "<strong><em>"); Cap 1; Lit (u "</em></strong>")] html in
  let html := replace re_bold (wrap_in "strong") html in
  let html := replace re_italic (wrap_in "em") html in
  let html := replace re_link anchor html in
  let html := replace re_code (wrap_in "code") html in
  let html := replace re_item (wrap_in "li") html in
  let html := replace re_blank_line [Lit (u "</p><p>")] html in
  replace re_newline [Lit (u "<br>")] html.

Definition tidy_items (html : jstring) : jstring :=
  replace re_br_item_br [Cap 1] (replace re_item_br [Whole] html).

(** The inner loop over [j]: is the next meaningful token another [<li>]? *)
Fixpoint next_is_li (rest : list jstring) : bool :=
  match rest with
  | [] => false
  | l :: rest' =>
      let trimmed := trim (replace re_br [] l) in
      if jeqb trimmed (u "<li>") then true
      else if negb (is_nil trimmed) then false
      else next_is_li rest'
  end.

(** The loop over [lines] (source lines 100 to 127); the result is what is
    appended to [result] from position [i] on, the closing [</ul>] of line
    127 included. *)
Fixpoint group_items (inList : bool) (lines : list jstring) : jstring :=
  match lines with
  | [] => if inList then u "</ul>" else []
  | l :: rest =>
      if jeqb l (u "<li>") then
        (if negb inList then u "<ul>" else []) ++ u "<li>" ++ group_items true rest
      else if jeqb l (u "</li>") then
        u "</li>" ++
          (if negb (next_is_li rest) && inList
           then u "</ul>" ++ group_items false rest
           else group_items inList rest)
      else l ++ group_items inList rest
  end.

(** [renderMarkdown] on a string that is not empty. *)
Definition render (text : jstring) : jstring :=
  let html := tidy_items (inline_markup (escape_html text)) in
  let lines := split re_li_tag html in
  u "<p>" ++ group_items false lines ++ u "</p>".

End Markdown.

(* ================================================================= *)
(** ** JavaScript values *)

Module Js.

(** What [JSON.parse] and [Response.json] can yield.  Numbers are the
    integers: the only arithmetic of the widget is on [Date.now()]
    timestamps, which are integers that doubles hold exactly.  The fields
    of an object are its own properties; the first entry for a key
    counts. *)
Inductive json : Type :=
| JNull
| JBool (b : bool)
| JNum (n : Z)
| JStr (s : jstring)
| JArr (l : list json)
| JObj (fields : list (jstring * json)).

(** What a variable of the widget can hold. *)
Inductive value : Type :=
| Undefined
| Val (j : json).

Definition null : value := Val JNull.
Definition str (s : jstring) : value := Val (JStr s).

(** ToBoolean. *)
Definition truthy (v : value) : bool :=
  match v with
  | Undefined | Val JNull => false
  | Val (JBool b) => b
  | Val (JNum n) => negb (Z.eqb n 0)
  | Val (JStr s) => negb (is_nil s)
  | Val (JArr _) | Val (JObj _) => true
  end.

(** A computation that may throw. *)
Inductive res (A : Type) : Type :=
| Ok (a : A)
| Throw.
Arguments Ok {A} a.
Arguments Throw {A}.

Definition bind {A B} (m : res A) (f : A -> res B) : res B :=
  match m with Ok a => f a | Throw => Throw end.

Fixpoint lookup (k : jstring) (fields : list (jstring * json)) : value :=
  match fields with
  | [] => Undefined
  | (k', v) :: rest => if jeqb k k' then Val v else lookup k rest
  end.

(** [v.k] for the property names the widget reads ([ts], [id],
    [session_id], [answer]), none of which a built-in prototype defines:
    a TypeError on [undefined] and [null], the own property of an object,
    [undefined] on everything else. *)
Definition get (v : value) (k : jstring) : res value :=
  match v with
  | Undefined | Val JNull => Throw
  | Val (JObj fields) => Ok (lookup k fields)
  | Val _ => Ok Undefined
  end.

(** The text of a string: either no JSON text at all, or the JSON text of
    a value.  [JSON.stringify] and [JSON.parse] are inverse to each other
    on JSON values, which is all the widget needs of the syntax. *)
Inductive text : Type :=
| Garbage
| Json (j : json).

(** [JSON.parse(x)] where [x] is a string or [null]; [null] is read as the
    text [null]. *)
Definition JSON_parse (x : option text) : res value :=
  match x with
  | None => Ok null
  | Some (Json j) => Ok (Val j)
  | Some Garbage => Throw
  end.

(** [JSON.stringify({ id: id, ts: ts })]: a property whose value is
    [undefined] is left out. *)
Definition stringify_session (id : value) (ts : Z) : text :=
  match id with
  | Undefined => Json (JObj [(u "ts", JNum ts)])
  | Val j => Json (JObj [(u "id", j); (u "ts", JNum ts)])
  end.

Section Coercion.
(** ToNumber on strings, arrays and objects goes through ToPrimitive and
    the StringNumericLiteral grammar; it is a parameter here.  [None] is
    NaN. *)
Variable coerce : json -> res (option Z).

Definition to_number (v : value) : res (option Z) :=
  match v with
  | Undefined => Ok None
  | Val JNull => Ok (Some 0%Z)
  | Val (JBool b) => Ok (Some (if b then 1 else 0)%Z)
  | Val (JNum n) => Ok (Some n)
  | Val j => coerce j
  end.
End Coercion.

(** [a - b < c] on numbers, false when a side is NaN. *)
Definition minus_lt (a : Z) (b : option Z) (c : Z) : bool :=
  match b with
  | Some b' => Z.ltb (a - b') c
  | None => false
  end.

End Js.

Import Js.

(* ================================================================= *)
(** ** The widget *)

Module Widget.

Definition SESSION_TTL : Z := 24 * 60 * 60 * 1000.

(** What the environment decides when a handler runs: the value of
    [Date.now()], and whether [localStorage] can be used (an access throws
    otherwise: storage disabled, quota exceeded). *)
Record env : Type := { now : Z; storage_ok : bool }.

Inductive role : Type := user | assistant.

(** The content of a message.  For markup set through [innerHTML] the model
    keeps the string that was assigned and the number of elements that
    [hideTyping] has removed from the subtree since. *)
Inductive body : Type :=
| Html (h : jstring) (removed : nat)   (* set through innerHTML *)
| Text (v : value).                    (* set through textContent *)

(** The children of [#edopt-messages]. *)
Inductive node : Type :=
| Message (r : role) (b : body)   (* div.edopt-msg.edopt-msg-<role> *)
| Typing.                         (* div#edopt-typing-indicator *)

(** The ids that the widget looks up and that can be found in a message. *)
Definition typing_id : jstring := u "edopt-typing-indicator".
Definition input_id : jstring := u "edopt-input".
Definition send_id : jstring := u "edopt-send".

(** [document.getElementById] returns the first element with the id in tree
    order, wherever it is.  The panel gives ids to itself, to the message
    list, to the textarea and to the send button; [showTyping] gives one to
    the indicator.  The panel and the message list come before everything
    that is put into them.  The textarea and the button come after the
    message list, and an indicator after the messages shown before it: an
    element with one of their ids inside an earlier message is found in
    their place.  (The page that embeds the widget is taken not to use these
    ids.)

    Which elements a message holds is decided by the HTML parser of the
    browser when the markup is assigned to [innerHTML], and what is left
    after [el.remove()] by its tree; both are parameters here:
    [holds id h k] says that the subtree built from the markup [h], after
    [hideTyping] has removed [k] elements from it, has an element with the id;
    [focusable h k] says that the first element with the id of the textarea
    in that subtree takes the focus. *)
Record browser : Type := {
  holds : jstring -> jstring -> nat -> bool;
  focusable : jstring -> nat -> bool
}.

Inductive request : Type :=
| Greet                                          (* GET /greet *)
| Chat (message : jstring) (session_id : value). (* POST /chat *)

Record response : Type := {
  ok : bool;                (* status in 200..299 *)
  payload : option json     (* what resp.json() settles to; None: it rejects *)
}.

(** A call of an [async] function that is suspended at an [await].  A call
    of [sendMessage] holds the element that it found as [sendBtn]: [own]
    says that it is the send button of the panel. *)
Inductive task : Type :=
| GreetFetch                        (* fetchGreeting, at await fetch(...) *)
| GreetJson (data : option json)    (* fetchGreeting, at await resp.json() *)
| ChatFetch (own : bool)            (* sendMessage, at await fetch(...) *)
| ChatJson (own : bool) (data : option json).
                                    (* sendMessage, at await resp.json() *)

(** The closure variables, the parts of the page that the widget writes,
    the storage entry under [STORAGE_KEY], and the network. *)
Record widget : Type := {
  sessionId : value;
  isOpen : bool;
  isLoading : bool;
  hasGreeted : bool;
  panel_open : bool;          (* class edopt-open on #edopt-chat-panel *)
  messages : list node;
  input_value : jstring;      (* #edopt-input .value *)
  input_height_auto : bool;   (* #edopt-input .style.height is auto *)
  input_focused : bool;
  send_disabled : bool;       (* #edopt-send .disabled *)
  stored : option text;       (* localStorage.getItem(STORAGE_KEY) *)
  sent : list request;        (* the requests issued so far, oldest first *)
  tasks : list task           (* the suspended calls, oldest first *)
}.

Definition set_sessionId v w :=
  {| sessionId := v; isOpen := isOpen w; isLoading := isLoading w;
     hasGreeted := hasGreeted w; panel_open := panel_open w;
     messages := messages w; input_value := input_value w;
     input_height_auto := input_height_auto w; input_focused := input_focused w;
     send_disabled := send_disabled w; stored := stored w; sent := sent w;
     tasks := tasks w |}.
Definition set_isOpen b w :=
  {| sessionId := sessionId w; isOpen := b; isLoading := isLoading w;
     hasGreeted := hasGreeted w; panel_open := panel_open w;
     messages := messages w; input_value := input_value w;
     input_height_auto := input_height_auto w; input_focused := input_focused w;
     send_disabled := send_disabled w; stored := stored w; sent := sent w;
     tasks := tasks w |}.
Definition set_isLoading b w :=
  {| sessionId := sessionId w; isOpen := isOpen w; isLoading := b;
     hasGreeted := hasGreeted w; panel_open := panel_open w;
     messages := messages w; input_value := input_value w;
     input_height_auto := input_height_auto w; input_focused := input_focused w;
     send_disabled := send_disabled w; stored := stored w; sent := sent w;
     tasks := tasks w |}.
Definition set_hasGreeted b w :=
  {| sessionId := sessionId w; isOpen := isOpen w; isLoading := isLoading w;
     hasGreeted := b; panel_open := panel_open w;
     messages := messages w; input_value := input_value w;
     input_height_auto := input_height_auto w; input_focused := input_focused w;
     send_disabled := send_disabled w; stored := stored w; sent := sent w;
     tasks := tasks w |}.
Definition set_panel_open b w :=
  {| sessionId := sessionId w; isOpen := isOpen w; isLoading := isLoading w;
     hasGreeted := hasGreeted w; panel_open := b;
     messages := messages w; input_value := input_value w;
     input_height_auto := input_height_auto w; input_focused := input_focused w;
     send_disabled := send_disabled w; stored := stored w; sent := sent w;
     tasks := tasks w |}.
Definition set_messages l w :=
  {| sessionId := sessionId w; isOpen := isOpen w; isLoading := isLoading w;
     hasGreeted := hasGreeted w; panel_open := panel_open w;
     messages := l; input_value := input_value w;
     input_height_auto := input_height_auto w; input_focused := input_focused w;
     send_disabled := send_disabled w; stored := stored w; sent := sent w;
     tasks := tasks w |}.
Definition set_input v auto w :=
  {| sessionId := sessionId w; isOpen := isOpen w; isLoading := isLoading w;
     hasGreeted := hasGreeted w; panel_open := panel_open w;
     messages := messages w; input_value := v;
     input_height_auto := auto; input_focused := input_focused w;
     send_disabled := send_disabled w; stored := stored w; sent := sent w;
     tasks := tasks w |}.
Definition set_input_focused b w :=
  {| sessionId := sessionId w; isOpen := isOpen w; isLoading := isLoading w;
     hasGreeted := hasGreeted w; panel_open := panel_open w;
     messages := messages w; input_value := input_value w;
     input_height_auto := input_height_auto w; input_focused := b;
     send_disabled := send_disabled w; stored := stored w; sent := sent w;
     tasks := tasks w |}.
Definition set_send_disabled b w :=
  {| sessionId := sessionId w; isOpen := isOpen w; isLoading := isLoading w;
     hasGreeted := hasGreeted w; panel_open := panel_open w;
     messages := messages w; input_value := input_value w;
     input_height_auto := input_height_auto w; input_focused := input_focused w;
     send_disabled := b; stored := stored w; sent := sent w;
     tasks := tasks w |}.
Definition set_stored t w :=
  {| sessionId := sessionId w; isOpen := isOpen w; isLoading := isLoading w;
     hasGreeted := hasGreeted w; panel_open := panel_open w;
     messages := messages w; input_value := input_value w;
     input_height_auto := input_height_auto w; input_focused := input_focused w;
     send_disabled := send_disabled w; stored := t; sent := sent w;
     tasks := tasks w |}.
Definition set_network rq ts w :=
  {| sessionId := sessionId w; isOpen := isOpen w; isLoading := isLoading w;
     hasGreeted := hasGreeted w; panel_open := panel_open w;
     messages := messages w; input_value := input_value w;
     input_height_auto := input_height_auto w; input_focused := input_focused w;
     send_disabled := send_disabled w; stored := stored w; sent := rq;
     tasks := ts |}.

(** *** Session management *)

Section Session.
Variable coerce : json -> res (option Z).

(** [getSession], on the storage entry; the second component is the
    entry afterwards. *)
Definition getSession (e : env) (entry : option text) : value * option text :=
  let attempt :=
    bind (if storage_ok e then JSON_parse entry else Throw) (fun data =>
    if truthy data then
      bind (get data (u "ts")) (fun ts =>
      bind (to_number coerce ts) (fun n =>
      if minus_lt (now e) n SESSION_TTL then get data (u "id") else Ok null))
    else Ok null) in
  (match attempt with Ok v => v | Throw => null end, entry).

(** [saveSession], on the storage entry. *)
Definition saveSession (e : env) (id : value) (entry : option text) : option text :=
  if storage_ok e then Some (stringify_session id (now e)) else entry.
End Session.

(** *** Rendering *)

(** [renderMarkdown]: a falsy argument gives the empty string; on any other
    value that is not a string the call of [text.replace] throws. *)
Definition renderMarkdown (text : value) : res jstring :=
  if negb (truthy text) then Ok []
  else match text with
       | Val (JStr s) => Ok (Markdown.render s)
       | _ => Throw
       end.

(** A handler that throws leaves the state it had reached. *)
Inductive outcome : Type :=
| Done (w : widget)
| Thrown (w : widget).

Definition andThen (o : outcome) (f : widget -> outcome) : outcome :=
  match o with Done w => f w | Thrown w => Thrown w end.

Definition addMessage (content : value) (r : role) (w : widget) : outcome :=
  match r with
  | assistant =>
      match renderMarkdown content with
      | Ok html =>
          Done (set_messages (messages w ++ [Message assistant (Html html 0)]) w)
      | Throw => Thrown w
      end
  | user => Done (set_messages (messages w ++ [Message user (Text content)]) w)
  end.

Definition showTyping (w : widget) : widget :=
  set_messages (messages w ++ [Typing]) w.

Definition greeting_fallback : jstring :=
  u "Welcome! I'm the EdOpt Assistant. How can I help you explore education options in New Hampshire?".
Definition chat_fallback : jstring :=
  u "I'm sorry, I'm having trouble right now. Please try again in a moment.".

Definition settled (o : outcome) : widget :=
  match o with Done w => w | Thrown w => w end.

Definition suspend (t : task) (w : widget) : widget :=
  set_network (sent w) (tasks w ++ [t]) w.

Definition issue (rq : request) (w : widget) : widget :=
  set_network (sent w ++ [rq]) (tasks w) w.

(** [fetchGreeting] up to its first [await]. *)
Definition fetchGreeting (w : widget) : widget :=
  let w := set_hasGreeted true w in
  let w := showTyping w in
  suspend GreetFetch (issue Greet w).

Section Dom.
Variable B : browser.

Definition in_body (id : jstring) (b : body) : bool :=
  match b with
  | Html h k => holds B id h k
  | Text _ => false
  end.

(** The first message of the list that holds an element with the id: its
    markup and the number of elements removed from it. *)
Fixpoint first_with (id : jstring) (l : list node) : option (jstring * nat) :=
  match l with
  | [] => None
  | Message _ (Html h k) :: rest =>
      if holds B id h k then Some (h, k) else first_with id rest
  | _ :: rest => first_with id rest
  end.

Definition planted (id : jstring) (l : list node) : bool :=
  match first_with id l with Some _ => true | None => false end.

(** [el.remove()] on what [getElementById("edopt-typing-indicator")]
    finds in the message list: an element inside a message, when a message
    before the first indicator holds one with that id, and the first
    indicator otherwise. *)
Fixpoint remove_typing (l : list node) : list node :=
  match l with
  | [] => []
  | Typing :: rest => rest
  | Message r (Html h k) :: rest =>
      if holds B typing_id h k then Message r (Html h (S k)) :: rest
      else Message r (Html h k) :: remove_typing rest
  | n :: rest => n :: remove_typing rest
  end.

Definition hideTyping (w : widget) : widget :=
  set_messages (remove_typing (messages w)) w.

(** *** The chat client *)

(** The [catch] block of [fetchGreeting]. *)
Definition greeting_failed (w : widget) : widget :=
  settled (addMessage (str greeting_fallback) assistant (hideTyping w)).

(** [fetchGreeting] after [await resp.json()] has given [data]. *)
Definition greeting_received (e : env) (data : json) (w : widget) : outcome :=
  match get (Val data) (u "session_id") with
  | Throw => Thrown w
  | Ok id =>
      let w := set_sessionId id w in
      let w := set_stored (saveSession e (sessionId w) (stored w)) w in
      let w := hideTyping w in
      match get (Val data) (u "answer") with
      | Throw => Thrown w
      | Ok answer => addMessage answer assistant w
      end
  end.

Definition greeting_settled (e : env) (data : option json) (w : widget) : widget :=
  match data with
  | None => greeting_failed w
  | Some d =>
      match greeting_received e d w with
      | Done w' => w'
      | Thrown w' => greeting_failed w'
      end
  end.

(** The [catch] and [finally] blocks of [sendMessage]; [sendBtn] and
    [input] are the elements that the call found when it started, and
    [input] is the textarea (the call would have thrown otherwise). *)
Definition chat_failed (w : widget) : widget :=
  settled (addMessage (str chat_fallback) assistant (hideTyping w)).

Definition chat_finally (own : bool) (w : widget) : widget :=
  let w := set_isLoading false w in
  let w := if own then set_send_disabled false w else w in
  set_input_focused true w.

Definition chat_received (e : env) (data : json) (w : widget) : outcome :=
  match get (Val data) (u "session_id") with
  | Throw => Thrown w
  | Ok id =>
      let w := set_sessionId id w in
      let w := set_stored (saveSession e (sessionId w) (stored w)) w in
      let w := hideTyping w in
      match get (Val data) (u "answer") with
      | Throw => Thrown w
      | Ok answer => addMessage answer assistant w
      end
  end.

Definition chat_settled (own : bool) (e : env) (data : option json) (w : widget)
  : widget :=
  chat_finally own
    match data with
    | None => chat_failed w
    | Some d =>
        match chat_received e d w with
        | Done w' => w'
        | Thrown w' => chat_failed w'
        end
    end.

Section Handlers.
Variable coerce : json -> res (option Z).

(** [sendMessage] up to its first [await].  When [#edopt-input] is found
    inside a message, [input.value] is [undefined] (the elements that the
    tags of the renderer create have no string [value]) and [.trim()]
    throws before anything is done.  When [#edopt-send] is found inside a
    message, [disabled] is set on that element and the button of the panel
    stays as it is. *)
Definition sendMessage (e : env) (w : widget) : widget :=
  if planted input_id (messages w) then w
  else
    let own := negb (planted send_id (messages w)) in
    let message := trim (input_value w) in
    if is_nil message || isLoading w then w
    else
      let w := settled (addMessage (str message) user w) in
      let w := set_input [] true w in
      let w := if negb (truthy (sessionId w))
               then set_sessionId (fst (getSession coerce e (stored w))) w
               else w in
      let w := set_isLoading true w in
      let w := if own then set_send_disabled true w else w in
      let w := showTyping w in
      suspend (ChatFetch own) (issue (Chat message (sessionId w)) w).

(** [togglePanel]; the focus goes to the element that
    [getElementById("edopt-input")] finds: the textarea, or an element
    inside a message, and then the textarea loses the focus when that
    element takes it. *)
Definition togglePanel (w : widget) : widget :=
  let w := set_isOpen (negb (isOpen w)) w in
  if isOpen w then
    let w := set_panel_open true w in
    let w := if negb (hasGreeted w) then fetchGreeting w else w in
    match first_with input_id (messages w) with
    | None => set_input_focused true w
    | Some (h, k) => if focusable B h k then set_input_focused false w else w
    end
  else set_panel_open false w.

(** The state after [init]: the closure variables at their initial
    values, [sessionId] restored, the panel built and closed. *)
Definition init (e : env) (entry : option text) : widget :=
  {| sessionId := fst (getSession coerce e entry);
     isOpen := false; isLoading := false; hasGreeted := false;
     panel_open := false; messages := []; input_value := [];
     input_height_auto := false; input_focused := false;
     send_disabled := false; stored := entry; sent := []; tasks := [] |}.

(** *** The event loop *)

Inductive event : Type :=
| Toggle                                     (* the button or the close cross *)
| Edit (v : jstring)                         (* the user edits the textarea *)
| Blur                                       (* the textarea loses the focus *)
| Send (e : env)                             (* the send button, or Enter *)
| Fetched (i : nat) (r : option response)    (* a fetch settles; None: it rejects *)
| Parsed (i : nat) (e : env).                (* a resp.json() settles *)

Fixpoint drop_task (i : nat) (l : list task) : list task :=
  match l, i with
  | [], _ => []
  | _ :: rest, O => rest
  | t :: rest, S i' => t :: drop_task i' rest
  end.

Fixpoint put_task (i : nat) (t : task) (l : list task) : list task :=
  match l, i with
  | [], _ => []
  | _ :: rest, O => t :: rest
  | t' :: rest, S i' => t' :: put_task i' t rest
  end.

Definition finish (i : nat) (w : widget) : widget :=
  set_network (sent w) (drop_task i (tasks w)) w.

Definition resume (i : nat) (t : task) (w : widget) : widget :=
  set_network (sent w) (put_task i t (tasks w)) w.

(** The continuation of task [i] when its [fetch] settles. *)
Definition fetched (i : nat) (r : option response) (w : widget) : widget :=
  match nth_error (tasks w) i with
  | Some GreetFetch =>
      match r with
      | Some resp => resume i (GreetJson (payload resp)) w
      | None => greeting_failed (finish i w)
      end
  | Some (ChatFetch own) =>
      match r with
      | Some resp =>
          if negb (ok resp) then chat_finally own (chat_failed (finish i w))
          else resume i (ChatJson own (payload resp)) w
      | None => chat_finally own (chat_failed (finish i w))
      end
  | _ => w
  end.

(** The continuation of task [i] when its [resp.json()] settles. *)
Definition parsed (i : nat) (e : env) (w : widget) : widget :=
  match nth_error (tasks w) i with
  | Some (GreetJson data) => greeting_settled e data (finish i w)
  | Some (ChatJson own data) => chat_settled own e data (finish i w)
  | _ => w
  end.

Definition step (w : widget) (ev : event) : widget :=
  match ev with
  | Toggle => togglePanel w
  | Edit v => set_input v false w
  | Blur => set_input_focused false w
  | Send e => sendMessage e w
  | Fetched i r => fetched i r w
  | Parsed i e => parsed i e w
  end.

Definition run_events (w : widget) (evs : list event) : widget :=
  fold_left step evs w.
End Handlers.
End Dom.

Definition is_chat (t : task) : bool :=
  match t with ChatFetch _ | ChatJson _ _ => true | _ => false end.

(** The call holds the send button of the panel as [sendBtn]. *)
Definition owns_button (t : task) : bool :=
  match t with ChatFetch own | ChatJson own _ => own | _ => false end.
Definition is_greet_request (r : request) : bool :=
  match r with Greet => true | _ => false end.
Definition is_typing (n : node) : bool :=
  match n with Typing => true | _ => false end.

Definition chats_in_flight (w : widget) : nat :=
  List.length (filter is_chat (tasks w)).
Definition greetings_sent (w : widget) : nat :=
  List.length (filter is_greet_request (sent w)).

End Widget.

Import Widget.

(* ================================================================= *)
(** ** Vocabulary of the specification *)

(** A stored entry from which [getSession] reads no time stamp: nothing
    stored, text that is no JSON, a falsy JSON value, or a value whose [ts]
    is missing or does not convert to a number. *)
Inductive unusable (coerce : json -> res (option Z)) : option text -> Prop :=
| Missing : unusable coerce None
| NotJson : unusable coerce (Some Garbage)
| Falsy j : truthy (Val j) = false -> unusable coerce (Some (Json j))
| NoNumber j ts :
    truthy (Val j) = true -> get (Val j) (u "ts") = Ok ts ->
    to_number coerce ts = Ok None \/ to_number coerce ts = Throw ->
    unusable coerce (Some (Json j)).

(** The session payload [{id, ts}] as [saveSession] writes it. *)
Definition payload_of (id : json) (ts : Z) : option text :=
  Some (Json (JObj [(u "id", id); (u "ts", JNum ts)])).

(** The input is usable again: not loading, the button enabled, the
    textarea focused. *)
Definition input_restored (w : widget) : Prop :=
  isLoading w = false /\ send_disabled w = false /\ input_focused w = true.

(** What the two fallback messages look like in the list. *)
Definition greeting_fallback_html : jstring :=
  u "<p>Welcome! I'm the EdOpt Assistant. How can I help you explore education options in New Hampshire?</p>".
Definition chat_fallback_html : jstring :=
  u "<p>I'm sorry, I'm having trouble right now. Please try again in a moment.</p>".

(** An assistant message as [addMessage] appends it. *)
Definition bubble (h : jstring) : node := Message assistant (Html h 0).

(** The list without its first typing indicator. *)
Fixpoint without_indicator (l : list node) : list node :=
  match l with
  | [] => []
  | Typing :: rest => rest
  | n :: rest => n :: without_indicator rest
  end.

(** The number of elements that were removed from inside the messages. *)
Fixpoint pruned (l : list node) : nat :=
  match l with
  | [] => 0
  | Message _ (Html _ k) :: rest => k + pruned rest
  | _ :: rest => pruned rest
  end.

(** A node as it was appended. *)
Definition as_appended (n : node) : node :=
  match n with
  | Message r (Html h _) => Message r (Html h 0)
  | _ => n
  end.

(** The page after [init], before any event. *)
Definition loaded (B : browser) (coerce : json -> res (option Z)) (e : env)
           (entry : option text) (evs : list event) : widget :=
  run_events B coerce (init coerce e entry) evs.

(** What every reachable state satisfies: a chat call is suspended only
    while [isLoading] is set, and there is at most one; a greeting was
    requested only if [hasGreeted] is set, and at most once. *)
Definition consistent (w : widget) : Prop :=
  chats_in_flight w <= 1
  /\ (isLoading w = false -> chats_in_flight w = 0)
  /\ greetings_sent w <= 1
  /\ (hasGreeted w = false -> greetings_sent w = 0).

(** A concrete page for the examples: nothing stored, storage usable, the
    clock at some instant of 2023; a browser that finds no id in any
    message. *)
Definition no_coercion : json -> res (option Z) := fun _ => Ok None.
Definition an_instant : env := {| now := 1700000000000; storage_ok := true |}.
Definition fresh_page : widget := init no_coercion an_instant None.
Definition no_ids : browser :=
  {| holds := fun _ _ _ => false; focusable := fun _ _ => false |}.


(* ================================================================= *)
(** ** What a match looks like *)

(** [sem r p s caps s' caps']: the pattern [r], started before [s] with [p]
    the unit before the cursor, can stop before [s'] with the captures
    [caps'].  This is the declarative reading of the matcher: it forgets the
    order in which the alternatives are tried. *)
Fixpoint sem (r : regex) (p : option N) (s : jstring) (caps : list jstring)
         (s' : jstring) (caps' : list jstring) {struct r} : Prop :=
  let seq :=
    fix seq (rs : list regex) (p : option N) (s : jstring) (caps : list jstring)
        (s' : jstring) (caps' : list jstring) {struct rs} : Prop :=
      match rs with
      | [] => s' = s /\ caps' = caps
      | r' :: rs' =>
          exists p1 s1 caps1, sem r' p s caps s1 caps1 /\ seq rs' p1 s1 caps1 s' caps'
      end in
  match r with
  | Chars l => s = l ++ s' /\ caps' = caps
  | Bol => at_bol p = true /\ s' = s /\ caps' = caps
  | Eol => at_eol s = true /\ s' = s /\ caps' = caps
  | Rep _ min cls =>
      exists x, s = x ++ s' /\ forallb cls x = true /\ min <= List.length x /\ caps' = caps
  | Grp body =>
      exists x caps1, s = x ++ s' /\ seq body p s caps s' caps1 /\ caps' = caps1 ++ [x]
  | Opt body => seq body p s caps s' caps' \/ (s' = s /\ caps' = caps)
  | Alt a b => seq a p s caps s' caps' \/ seq b p s caps s' caps'
  end.

Fixpoint sem_seq (rs : list regex) (p : option N) (s : jstring) (caps : list jstring)
         (s' : jstring) (caps' : list jstring) {struct rs} : Prop :=
  match rs with
  | [] => s' = s /\ caps' = caps
  | r' :: rs' =>
      exists p1 s1 caps1, sem r' p s caps s1 caps1 /\ sem_seq rs' p1 s1 caps1 s' caps'
  end.

(** What is left of the input after a match is a part of the input. *)
Definition suffix_closed (r : regex) : Prop :=
  forall p s caps s' caps', sem r p s caps s' caps' -> exists x, s = x ++ s'.

Definition suffix_closed_seq (rs : list regex) : Prop :=
  forall p s caps s' caps', sem_seq rs p s caps s' caps' -> exists x, s = x ++ s'.

(** What the matcher finds is a match of the declarative reading. *)
Definition sound (R : Type) (r : regex) : Prop :=
  forall p s caps (k : cont R) res,
    run r p s caps k = Some res ->
    exists p' s' caps', sem r p s caps s' caps' /\ k p' s' caps' = Some res.

Definition sound_seq (R : Type) (rs : list regex) : Prop :=
  forall p s caps (k : cont R) res,
    run_seq rs p s caps k = Some res ->
    exists p' s' caps', sem_seq rs p s caps s' caps' /\ k p' s' caps' = Some res.

(** The number of steps that [split_from] can still take. *)
Definition split_measure (acc s : jstring) : nat :=
  2 * List.length s + (if is_nil acc then 0 else 1).

(* ================================================================= *)
(** ** The tags of the renderer *)

Definition lt : N := 60%N.

(** The tags that the replacement strings and the grouping loop write.  The
    anchor is listed up to the quote that opens its [href]. *)
Definition whitelist : list jstring :=
  [u "<h1>"; u "</h1>"; u "<h2>"; u "</h2>"; u "<h3>"; u "</h3>";
   u "<strong>"; u "</strong>"; u "<em>"; u "</em>";
   Markdown.anchor_open; u "</a>"; u "<code>"; u "</code>";
   u "<li>"; u "</li>"; u "<ul>"; u "</ul>";
   u "<p>"; u "</p>"; u "<br>"].

Definition starts_with (t s : jstring) : bool :=
  match strip_prefix t s with Some _ => true | None => false end.

(** Does one of the tags of [W] start the string? *)
Definition opens_tag_in (W : list jstring) (s : jstring) : bool :=
  existsb (fun t => starts_with t s) W.

(** Every [<] of the string opens a tag of [W]. *)
Fixpoint safe_in (W : list jstring) (s : jstring) : bool :=
  match s with
  | [] => true
  | c :: s' => (negb (N.eqb c lt) || opens_tag_in W s) && safe_in W s'
  end.

Definition opens_tag : jstring -> bool := opens_tag_in whitelist.
Definition safe : jstring -> bool := safe_in whitelist.

(** The units that occur inside a tag of [W], after its [<]. *)
Definition in_tag_in (W : list jstring) (c : N) : bool :=
  existsb (N.eqb c) (concat (map (@tl N) W)).

Definition in_tag : N -> bool := in_tag_in whitelist.

(** The tags that can be there before the links are rendered. *)
Definition early_tags : list jstring :=
  [u "<h1>"; u "</h1>"; u "<h2>"; u "</h2>"; u "<h3>"; u "</h3>";
   u "<strong>"; u "</strong>"; u "<em>"; u "</em>"].

Definition all_safe (lines : list jstring) : Prop :=
  Forall (fun l => safe l = true) lines.

Definition gt : N := 62%N.

(** The tags of a string, each from its [<] to the next [>]. *)
Fixpoint tags_of (open : option jstring) (s : jstring) : list jstring :=
  match s with
  | [] => match open with Some t => [rev t] | None => [] end
  | c :: s' =>
      match open with
      | None => if N.eqb c lt then tags_of (Some [c]) s' else tags_of None s'
      | Some t =>
          if N.eqb c gt then rev (c :: t) :: tags_of None s'
          else tags_of (Some (c :: t)) s'
      end
  end.

(** The anchor as the replacement string writes it: [href], [target] and
    [rel], and nothing else. *)
Definition is_anchor_tag (t : jstring) : bool :=
  match strip_prefix Markdown.anchor_open t with
  | Some r =>
      let url := firstn (List.length r - List.length Markdown.anchor_attrs) r in
      jeqb r (url ++ Markdown.anchor_attrs) && negb (existsb (N.eqb dq) url)
  | None => false
  end.

(** The constructs that the renderer is meant to write. *)
Definition whitelisted_construct (t : jstring) : bool :=
  existsb (jeqb t) whitelist || is_anchor_tag t.

Definition only_whitelisted (html : jstring) : bool :=
  forallb whitelisted_construct (tags_of None html).

(** The attributes of a start tag as an HTML tokenizer reads them, for a
    tag whose attributes are written [name="value"] with spaces between
    them. *)
Inductive lexing : Type :=
| InTagName
| Between
| InName (n : jstring)
| AfterEquals (n : jstring)
| InValue (n v : jstring).

Fixpoint attributes_from (st : lexing) (s : jstring) : list (jstring * jstring) :=
  match s with
  | [] => []
  | c :: s' =>
      match st with
      | InTagName =>
          if N.eqb c 32 then attributes_from Between s'
          else if N.eqb c gt then [] else attributes_from InTagName s'
      | Between =>
          if N.eqb c 32 then attributes_from Between s'
          else if N.eqb c gt then [] else attributes_from (InName [c]) s'
      | InName n =>
          if N.eqb c 61 then attributes_from (AfterEquals n) s'
          else if N.eqb c 32 then (n, []) :: attributes_from Between s'
          else if N.eqb c gt then [(n, [])]
          else attributes_from (InName (n ++ [c])) s'
      | AfterEquals n =>
          if N.eqb c dq then attributes_from (InValue n []) s' else []
      | InValue n v =>
          if N.eqb c dq then (n, v) :: attributes_from Between s'
          else attributes_from (InValue n (v ++ [c])) s'
      end
  end.

(** The value that the element has for an attribute: of two attributes
    with the same name the tokenizer keeps the first. *)
Definition attribute (name tag : jstring) : option jstring :=
  match find (fun a => jeqb (fst a) name) (attributes_from InTagName tag) with
  | Some a => Some (snd a)
  | None => None
  end.

Definition li_open : jstring := u "<li>".
Definition li_close : jstring := u "</li>".
Definition br : jstring := u "<br>".

(* ================================================================= *)
(** ** Documents of plain text and links *)

Inductive item : Type :=
| Plain (s : jstring)
| Link (text url : jstring).

Definition markdown_of (i : item) : jstring :=
  match i with
  | Plain s => s
  | Link text url => u "[" ++ text ++ u "](" ++ url ++ u ")"
  end.

(** [<a href="url" target="_blank" rel="noopener">text</a>] *)
Definition anchor_of (text url : jstring) : jstring :=
  Markdown.anchor_open ++ url ++ Markdown.anchor_attrs ++ text ++ u "</a>".

Definition html_of (i : item) : jstring :=
  match i with
  | Plain s => s
  | Link text url => anchor_of text url
  end.

(** Units that no pattern reacts to wherever they stand: all but
    [&], [<], [>], [*], the backtick and the line terminators. *)
Definition inert (c : N) : bool :=
  negb (N.eqb c 38 || N.eqb c 60 || N.eqb c 62 || N.eqb c 42 || N.eqb c 96
        || is_line_terminator c)%N.

Definition without (x : N) (s : jstring) : bool := forallb (other_than x) s.

(** Plain text holds no [[]; the text of a link is not empty and holds no
    []]; its url is not empty and holds neither [)] nor a double quote. *)
Definition well_formed (i : item) : bool :=
  match i with
  | Plain s => forallb inert s && without 91 s
  | Link text url =>
      negb (is_nil text) && forallb inert text && without 93 text
      && negb (is_nil url) && forallb inert url && without 41 url && without dq url
  end.

(** The text does not begin like a header or a list item. *)
Definition starts_plainly (s : jstring) : bool :=
  match s with
  | c :: _ => negb (N.eqb c 35 || N.eqb c 45)%N
  | [] => true
  end.

Definition anchor_tags : list jstring := [Markdown.anchor_open; u "</a>"].

(** [inline_markup], cut at the link pass. *)
Definition before_links (html : jstring) : jstring :=
  let html := replace Markdown.re_h3 (Markdown.wrap_in "h3") html in
  let html := replace Markdown.re_h2 (Markdown.wrap_in "h2") html in
  let html := replace Markdown.re_h1 (Markdown.wrap_in "h1") html in
  let html := replace Markdown.re_bold_italic
                      [Lit (u "<strong><em>"); Cap 1; Lit (u "</em></strong>")] html in
  let html := replace Markdown.re_bold (Markdown.wrap_in "strong") html in
  replace Markdown.re_italic (Markdown.wrap_in "em") html.

Definition after_links (html : jstring) : jstring :=
  let html := replace Markdown.re_code (Markdown.wrap_in "code") html in
  let html := replace Markdown.re_item (Markdown.wrap_in "li") html in
  let html := replace Markdown.re_blank_line [Lit (u "</p><p>")] html in
  replace Markdown.re_newline [Lit (u "<br>")] html.

(** Where a string occurs in another. *)
Definition occurs (l s : jstring) : Prop := exists a b, s = a ++ l ++ b.

(** After every [<a href="] of the string the attributes
    [" target="_blank" rel="noopener">] follow, in the string or, failing
    that, in what comes after it ([Z]). *)
Definition closed_upto (Z : Prop) (s : jstring) : Prop :=
  forall pre post,
    s = pre ++ Markdown.anchor_open ++ post ->
    occurs Markdown.anchor_attrs post \/ Z.

(** The units of the attributes. *)
Definition in_attrs (c : N) : bool := existsb (N.eqb c) Markdown.anchor_attrs.

Fixpoint mentions_anchor (s : jstring) : bool :=
  match s with
  | [] => false
  | _ :: s' => starts_with Markdown.anchor_open s || mentions_anchor s'
  end.

Definition is_li_tag (l : jstring) : bool :=
  jeqb l (u "<li>") || jeqb l (u "</li>").

(** A token that the look-ahead of the grouping loop steps over: only
    [<br>] and white space. *)
Definition blank (sep : jstring) : bool :=
  is_nil (trim (replace Markdown.re_br [] sep)).

(** The tokens of a run of items, each item followed by a separator. *)
Fixpoint item_tokens (items : list (jstring * jstring)) : list jstring :=
  match items with
  | [] => []
  | (x, sep) :: rest => li_open :: x :: li_close :: sep :: item_tokens rest
  end.

(** The items of a run, the list closed after the last of them. *)
Fixpoint one_list (items : list (jstring * jstring)) : jstring :=
  match items with
  | [] => []
  | (x, sep) :: rest =>
      li_open ++ x ++ li_close
        ++ match rest with
           | [] => u "</ul>" ++ sep
           | _ => sep ++ one_list rest
           end
  end.

Definition item_ok (i : jstring * jstring) : Prop :=
  is_li_tag (fst i) = false /\ blank (snd i) = true.

(** In the result of the split, a piece that is no item tag comes last or
    before an item tag. *)
Fixpoint separated (lines : list jstring) : Prop :=
  match lines with
  | [] => True
  | l :: rest =>
      (is_li_tag l = true
       \/ match rest with [] => True | t :: _ => exists r, t = lt :: r end)
      /\ separated rest
  end.

Definition markdown_of_doc (doc : list item) : jstring := concat (map markdown_of doc).
Definition html_of_doc (doc : list item) : jstring := concat (map html_of doc).

(** Neither a backtick nor a line terminator. *)
Definition calm (c : N) : bool := negb (N.eqb c 96 || is_line_terminator c)%N.

Unset Implicit Arguments.
(* ================================================================= *)
(** ** The page around the widget *)

Set Implicit Arguments.

Module Page.

(** [document.currentScript?.getAttribute("data-api")]: [undefined] when
    there is no current script, [null] when the script has no such
    attribute, the value of the attribute otherwise. *)
Definition data_api (script : option (option jstring)) : value :=
  match script with
  | None => Undefined
  | Some None => null
  | Some (Some a) => str a
  end.

(** [API_BASE] (source lines 11 to 15), from the current script and
    [window.location.hostname]. *)
Definition API_BASE (script : option (option jstring)) (hostname : jstring) : value :=
  if truthy (data_api script) then data_api script
  else if jeqb hostname (u "localhost")
       then str (u "http://localhost:5012")
       else str (u "https://chatbot.edopt.org").

(** The elements of the document that carry an id, in document order; of a
    [link] also what [loadCSS] sets. *)
Inductive element : Type :=
| LinkEl (id rel href : jstring)
| OtherEl (id : jstring).

Definition element_id (x : element) : jstring :=
  match x with LinkEl id _ _ => id | OtherEl id => id end.

Record document : Type := { head : list element; body : list element }.

(** [document.getElementById]: the first element with the id. *)
Definition getElementById (id : jstring) (d : document) : option element :=
  find (fun x => jeqb (element_id x) id) (head d ++ body d).

(** [base + "/widget.css"], for the string that [API_BASE] is. *)
Definition css_href (base : value) : jstring :=
  match base with
  | Val (JStr b) => b ++ u "/widget.css"
  | _ => []
  end.

(** [loadCSS] (source lines 25 to 32). *)
Definition loadCSS (base : value) (d : document) : document :=
  match getElementById (u "edopt-chat-css") d with
  | Some _ => d
  | None =>
      {| head := head d ++ [LinkEl (u "edopt-chat-css") (u "stylesheet") (css_href base)];
         body := body d |}
  end.

Definition stylesheets (d : document) : nat :=
  List.length (filter (fun x => jeqb (element_id x) (u "edopt-chat-css"))
                      (head d ++ body d)).

End Page.

(* ================================================================= *)
(** ** What the message list and the network show *)

Definition is_message (n : node) : bool := negb (is_typing n).

(** The messages of the list, the typing indicators left out. *)
Definition history (w : widget) : list node := filter is_message (messages w).

Definition typing_shown (w : widget) : nat :=
  List.length (filter is_typing (messages w)).

(** What the user messages of the list show. *)
Definition shown_by_user (w : widget) : list value :=
  flat_map (fun n => match n with
                     | Message user (Text v) => [v]
                     | _ => []
                     end) (messages w).

(** The messages of the [/chat] requests. *)
Definition posted (w : widget) : list value :=
  flat_map (fun r => match r with
                     | Chat m _ => [str m]
                     | Greet => []
                     end) (sent w).

Definition is_toggle (ev : event) : bool :=
  match ev with Toggle => true | _ => false end.
Definition is_send (ev : event) : bool :=
  match ev with Send _ => true | _ => false end.

Definition toggles (evs : list event) : nat := List.length (filter is_toggle evs).
Definition sends (evs : list event) : nat := List.length (filter is_send evs).

(** What a node of the message list may be: a typing indicator, a user
    message shown as the text of a trimmed string that is not empty, or an
    assistant message whose HTML holds only tags of the renderer. *)
Definition node_ok (n : node) : Prop :=
  match n with
  | Typing => True
  | Message user (Text (Val (JStr m))) => m <> [] /\ trim m = m
  | Message assistant (Html h _) => safe h = true
  | _ => False
  end.

(** The environments in which a response body was parsed. *)
Definition parse_envs (evs : list event) : list env :=
  flat_map (fun ev => match ev with Parsed _ e => [e] | _ => [] end) evs.

(** The environments in which a message was sent. *)
Definition send_envs (evs : list event) : list env :=
  flat_map (fun ev => match ev with Send e => [e] | _ => [] end) evs.

(** A request that carries the session id, if it carries one. *)
Definition carries (sid : value) (r : request) : Prop :=
  match r with Chat _ s => s = sid | Greet => True end.

(** The string is empty or begins with a unit that is no white space. *)
Definition begins_black (s : jstring) : Prop :=
  match s with [] => True | c :: _ => is_space c = false end.

(** The part of the state that the chat client reads and writes. *)
Definition core (w : widget) :=
  (sessionId w, isLoading w, hasGreeted w, messages w, send_disabled w,
   stored w, sent w, tasks w).

(** The markup of no message of the list gives an element with the id. *)
Definition clean_markup (B : browser) (id : jstring) (l : list node) : Prop :=
  Forall (fun n => match n with
                   | Message _ (Html h _) => holds B id h 0 = false
                   | _ => True
                   end) l.

(** A message from which an element was removed held the indicator's id
    when it was appended. *)
Definition marked (B : browser) (l : list node) : Prop :=
  Forall (fun n => match n with
                   | Message _ (Html h k) => k = 0 \/ holds B typing_id h 0 = true
                   | _ => True
                   end) l.

(** Every pending call of [sendMessage] holds the send button of the
    panel. *)
Definition calls_own (l : list task) : bool :=
  forallb (fun t => negb (is_chat t) || owns_button t) l.

(** The [finally] block of a call, if it has one. *)
Definition finally_of (t : task) : widget -> widget :=
  if is_chat t then chat_finally (owns_button t) else fun w => w.

(** An answer whose link closes the [href] with a double quote and gives
    the anchor an id, and what the renderer makes of it. *)
Definition planting_answer (id : jstring) : jstring :=
  u "[x](" ++ [dq] ++ u " id=" ++ [dq] ++ id ++ u ")".
Definition planting_html (id : jstring) : jstring :=
  u "<p><a href=" ++ [dq; dq] ++ u " id=" ++ [dq] ++ id ++ [dq]
    ++ u " target=" ++ [dq] ++ u "_blank" ++ [dq]
    ++ u " rel=" ++ [dq] ++ u "noopener" ++ [dq] ++ u ">x</a></p>".

(** What one event can do to that part. *)
Inductive change (B : browser) (coerce : json -> res (option Z)) (w : widget)
          (ev : event) (w' : widget) : Prop :=
| quiet :
    core w' = core w -> change B coerce w ev w'
| greeting_started :
    ev = Toggle -> hasGreeted w = false ->
    core w' = (sessionId w, isLoading w, true, messages w ++ [Typing],
               send_disabled w, stored w, sent w ++ [Greet],
               tasks w ++ [GreetFetch]) ->
    change B coerce w ev w'
| chat_started e m sid own :
    ev = Send e -> m = trim (input_value w) -> m <> [] -> isLoading w = false ->
    planted B input_id (messages w) = false ->
    own = negb (planted B send_id (messages w)) ->
    sid = (if truthy (sessionId w) then sessionId w
           else fst (getSession coerce e (stored w))) ->
    core w' = (sid, true, hasGreeted w,
               messages w ++ [Message user (Text (str m)); Typing],
               (if own then true else send_disabled w), stored w,
               sent w ++ [Chat m sid], tasks w ++ [ChatFetch own]) ->
    change B coerce w ev w'
| resumed i t t' :
    nth_error (tasks w) i = Some t -> is_chat t' = is_chat t ->
    owns_button t' = owns_button t ->
    core w' = (sessionId w, isLoading w, hasGreeted w, messages w,
               send_disabled w, stored w, sent w, put_task i t' (tasks w)) ->
    change B coerce w ev w'
| call_settled i t sid st l h :
    nth_error (tasks w) i = Some t ->
    l = remove_typing B (messages w)
    \/ l = remove_typing B (remove_typing B (messages w)) ->
    safe h = true ->
    (sid = sessionId w /\ st = stored w)
    \/ (exists e, ev = Parsed i e /\ st = saveSession e sid (stored w)) ->
    core w' = (sid, (if is_chat t then false else isLoading w), hasGreeted w,
               l ++ [Message assistant (Html h 0)],
               (if owns_button t then false else send_disabled w),
               st, sent w, drop_task i (tasks w)) ->
    change B coerce w ev w'.

(* ================================================================= *)
(** ** What the renderer writes *)

(** The three entities of the escaping pass. *)
Definition escape_unit (c : N) : jstring :=
  if N.eqb c 38 then u "&amp;"
  else if N.eqb c 60 then u "&lt;"
  else if N.eqb c 62 then u "&gt;"
  else [c].

(** Replacing one unit by a literal, unit by unit. *)
Definition replace_unit (c : N) (o : jstring) (x : N) : jstring :=
  if N.eqb c x then o else [x].

(** The tags that can be there before the grouping loop runs: all but the
    list container. *)
Definition item_tags : list jstring :=
  [u "<h1>"; u "</h1>"; u "<h2>"; u "</h2>"; u "<h3>"; u "</h3>";
   u "<strong>"; u "</strong>"; u "<em>"; u "</em>";
   Markdown.anchor_open; u "</a>"; u "<code>"; u "</code>";
   u "<li>"; u "</li>"; u "</p>"; u "<p>"; u "<br>"].

(** Does [t] start somewhere in [s]? *)
Fixpoint mentions (t s : jstring) : bool :=
  match s with
  | [] => false
  | _ :: s' => starts_with t s || mentions t s'
  end.

(** A browser for the examples: it finds an element with an id in a message
    when the markup holds the attribute [id="..."] and nothing was removed
    from the message yet; such an element takes the focus. *)
Definition quoted_ids : browser :=
  {| holds := fun id h k =>
       Nat.eqb k 0 && mentions (u " id=" ++ [dq] ++ id ++ [dq]) h;
     focusable := fun _ _ => true |}.

(** A scan of the output for the list tags: [<ul>] only outside a list,
    [</ul>] and [<li>] only inside one, and no list left open at the end. *)
Fixpoint lists_ok (inList : bool) (s : jstring) : bool :=
  match s with
  | [] => negb inList
  | _ :: s' =>
      if starts_with (u "<ul>") s then negb inList && lists_ok true s'
      else if starts_with (u "</ul>") s then inList && lists_ok false s'
      else if starts_with (u "<li>") s then inList && lists_ok inList s'
      else lists_ok inList s'
  end.

(** No [t] starts in [acc], read as the front of [acc ++ s]. *)
Fixpoint clear_of (t acc s : jstring) : bool :=
  match acc with
  | [] => true
  | _ :: acc' => negb (starts_with t (acc ++ s)) && clear_of t acc' s
  end.

(** A piece of the split that is no item tag: every [<] in it opens a tag
    of [item_tags], and none opens an item. *)
Definition piece_ok (l : jstring) : Prop :=
  is_li_tag l = true
  \/ (safe_in item_tags l = true /\ mentions li_open l = false).

(* ================================================================= *)
(** ** A pass of the renderer, segment by segment *)

(** A stretch of the input that one match of the pattern covers, with what
    is written for it, or a stretch in which no match starts. *)
Inductive seg : Type :=
| Hit (whole out : jstring)
| Skip (y : jstring).

Definition seg_src (s : seg) : jstring :=
  match s with Hit w _ => w | Skip y => y end.
Definition seg_out (s : seg) : jstring :=
  match s with Hit _ o => o | Skip y => y end.

Definition src_of (segs : list seg) : jstring := concat (map seg_src segs).
Definition out_of (segs : list seg) : jstring := concat (map seg_out segs).

(** No match starts in [y], read as the front of [y ++ rest]. *)
Fixpoint silent (re : list regex) (p : option N) (y rest : jstring) : Prop :=
  match y with
  | [] => True
  | c :: y' => exec re p (y ++ rest) = None /\ silent re (Some c) y' rest
  end.

Fixpoint segs_ok (re : list regex) (t : list piece) (p : option N)
         (segs : list seg) : Prop :=
  match segs with
  | [] => exec re p [] = None
  | s :: rest =>
      match s with
      | Hit w o =>
          w <> []
          /\ exists caps, exec re p (w ++ src_of rest) = Some (caps, src_of rest)
                         /\ subst t w caps = o
      | Skip y => silent re p y (src_of rest)
      end
      /\ segs_ok re t (last_unit (seg_src s) p) rest
  end.

(** Lines joined by a separator. *)
Fixpoint join (sep : jstring) (lines : list jstring) : jstring :=
  match lines with
  | [] => []
  | l :: rest =>
      match rest with
      | [] => l
      | _ => l ++ sep ++ join sep rest
      end
  end.

(** What a line pattern [^a(.+)$] with the replacement [o$1c] does to one
    line. *)
Definition line_rule (a o c l : jstring) : jstring :=
  match strip_prefix a l with
  | Some (x0 :: x) => o ++ (x0 :: x) ++ c
  | _ => l
  end.

(** The segments of a line pass over lines joined by newlines. *)
Definition line_seg (a o c l : jstring) : seg :=
  match strip_prefix a l with
  | Some (x0 :: x) => Hit l (o ++ (x0 :: x) ++ c)
  | _ => Skip l
  end.

Fixpoint line_segs (a o c : jstring) (lines : list jstring) : list seg :=
  match lines with
  | [] => []
  | l :: rest =>
      line_seg a o c l
        :: match rest with
           | [] => []
           | _ => Skip [10%N] :: line_segs a o c rest
           end
  end.

Definition nl : jstring := [10%N].

(* ================================================================= *)
(** ** Texts made of headings, list items and plain lines *)

Inductive line : Type :=
| Heading (level : nat) (t : jstring)    (* # t, ## t, ### t *)
| Bullet (t : jstring)                   (* - t *)
| Para (t : jstring).                    (* t *)

Definition hashes (level : nat) : jstring := repeat 35%N level ++ [32%N].

Definition source_of (l : line) : jstring :=
  match l with
  | Heading n t => hashes n ++ t
  | Bullet t => u "- " ++ t
  | Para t => t
  end.

Definition digit (n : nat) : N := (48 + N.of_nat n)%N.
Definition heading_open (n : nat) : jstring := [60; 104; digit n; 62]%N.
Definition heading_close (n : nat) : jstring := [60; 47; 104; digit n; 62]%N.

Definition html_of_line (l : line) : jstring :=
  match l with
  | Heading n t => heading_open n ++ t ++ heading_close n
  | Bullet t => li_open ++ t ++ li_close
  | Para t => t
  end.

(** Text without markup: not empty, and none of [&], [<], [>], [*], the
    backtick, [[] and the line terminators in it. *)
Definition plain_text (t : jstring) : bool :=
  negb (is_nil t) && forallb inert t && without 91 t.

Definition begins_blackb (t : jstring) : bool :=
  match t with [] => true | c :: _ => negb (is_space c) end.

(** A heading has level 1, 2 or 3; a plain line begins with a unit that is
    neither white space nor [#] nor [-]. *)
Definition line_ok (l : line) : bool :=
  match l with
  | Heading n t => (Nat.leb 1 n && Nat.leb n 3) && plain_text t
  | Bullet t => plain_text t
  | Para t => plain_text t && starts_plainly t && begins_blackb t
  end.

Definition text_of (lines : list line) : jstring := join nl (map source_of lines).

(** What came before a line. *)
Inductive prev : Type := Start | AfterItem | AfterText.

(** The lines in HTML: a run of items in one list, a [<br>] between two
    lines that are no items. *)
Fixpoint blocks (pv : prev) (lines : list line) : jstring :=
  match lines with
  | [] => match pv with AfterItem => u "</ul>" | _ => [] end
  | Bullet t :: rest =>
      match pv with AfterItem => [] | _ => u "<ul>" end
        ++ li_open ++ t ++ li_close ++ blocks AfterItem rest
  | l :: rest =>
      match pv with Start => [] | AfterItem => u "</ul>" | AfterText => br end
        ++ html_of_line l ++ blocks AfterText rest
  end.

(** The lines after the heading passes. *)
Definition headed (l : line) : jstring :=
  match l with
  | Heading _ _ => html_of_line l
  | _ => source_of l
  end.

(** The segments of the second tidying pass over the lines joined by
    [<br>]. *)
Fixpoint tidy_segs (pv : prev) (lines : list line) : list seg :=
  match lines with
  | [] => []
  | Bullet t :: rest =>
      Hit (match pv with AfterText => br | _ => [] end
             ++ (li_open ++ t ++ li_close)
             ++ match rest with [] => [] | _ => br end)
          (li_open ++ t ++ li_close)
        :: tidy_segs AfterItem rest
  | l :: rest =>
      Skip (match pv with AfterText => br | _ => [] end ++ html_of_line l)
        :: tidy_segs AfterText rest
  end.

(** The pieces that the split at the item tags gives. *)
Fixpoint toks (acc : jstring) (pv : prev) (lines : list line) : list jstring :=
  match lines with
  | [] => [acc]
  | Bullet t :: rest => acc :: li_open :: t :: li_close :: toks [] AfterItem rest
  | l :: rest =>
      toks (acc ++ match pv with AfterText => br | _ => [] end ++ html_of_line l)
           AfterText rest
  end.

(** After the closing tag of an item the loop looks ahead. *)
Definition after_item (lines : list line) : jstring :=
  if negb (Markdown.next_is_li (toks [] AfterItem lines)) && true
  then u "</ul>" ++ Markdown.group_items false (toks [] AfterItem lines)
  else Markdown.group_items true (toks [] AfterItem lines).

(** A piece that begins like text or like a heading. *)
Definition texty (acc : jstring) : Prop :=
  exists c r, acc = c :: r /\ is_space c = false
              /\ (c <> lt \/ exists r', r = 104%N :: r').

(** None of [*], [[] and the backtick. *)
Definition tame (c : N) : bool :=
  negb (N.eqb c 42 || N.eqb c 91 || N.eqb c 96)%N.

(* ================================================================= *)
(** ** Texts made of emphasis, code, links and plain words *)

Inductive span : Type :=
| Words (s : jstring)              (* s *)
| BoldItalic (s : jstring)         (* ***s*** *)
| Bold (s : jstring)               (* **s** *)
| Italic (s : jstring)             (* *s* *)
| Href (text url : jstring)        (* [text](url) *)
| Mono (s : jstring).              (* `s` *)

Definition stars (n : nat) : jstring := repeat 42%N n.

Definition span_source (sp : span) : jstring :=
  match sp with
  | Words s => s
  | BoldItalic s => stars 3 ++ s ++ stars 3
  | Bold s => stars 2 ++ s ++ stars 2
  | Italic s => stars 1 ++ s ++ stars 1
  | Href text url => markdown_of (Link text url)
  | Mono s => [96%N] ++ s ++ [96%N]
  end.

Definition span_html (sp : span) : jstring :=
  match sp with
  | Words s => s
  | BoldItalic s => u "<strong><em>" ++ s ++ u "</em></strong>"
  | Bold s => u "<strong>" ++ s ++ u "</strong>"
  | Italic s => u "<em>" ++ s ++ u "</em>"
  | Href text url => anchor_of text url
  | Mono s => u "<code>" ++ s ++ u "</code>"
  end.

(** The pass that renders the span: the passes of the chain from
    bold-italic (1) to inline code (5). *)
Definition rank (sp : span) : nat :=
  match sp with
  | Words _ => 0
  | BoldItalic _ => 1
  | Bold _ => 2
  | Italic _ => 3
  | Href _ _ => 4
  | Mono _ => 5
  end.

Definition is_emph (sp : span) : bool :=
  match sp with
  | BoldItalic _ | Bold _ | Italic _ => true
  | _ => false
  end.

(** The span after pass [k]. *)
Definition stage (k : nat) (sp : span) : jstring :=
  if Nat.leb (rank sp) k then span_html sp else span_source sp.

Definition classify (k : nat) (sp : span) : seg :=
  if Nat.eqb (rank sp) k then Hit (span_source sp) (span_html sp)
  else Skip (stage (pred k) sp).

Definition span_ok (sp : span) : bool :=
  match sp with
  | Words s | BoldItalic s | Bold s | Italic s | Mono s => plain_text s
  | Href text url => well_formed (Link text url)
  end.

(** No emphasis directly after an emphasis. *)
Fixpoint spaced (spans : list span) : bool :=
  match spans with
  | [] => true
  | a :: rest =>
      match rest with
      | [] => true
      | b :: _ => negb (is_emph a && is_emph b)
      end && spaced rest
  end.

Definition text_of_spans (spans : list span) : jstring :=
  concat (map span_source spans).
Definition html_of_spans (spans : list span) : jstring :=
  concat (map span_html spans).

(** The string is empty or begins with a unit other than [*]. *)
Definition calm_head (z : jstring) : Prop :=
  match z with [] => True | c :: _ => c <> 42%N end.

(** The tags of the inline passes. *)
Definition inline_tags : list jstring :=
  [u "<strong>"; u "</strong>"; u "<em>"; u "</em>";
   Markdown.anchor_open; u "</a>"; u "<code>"; u "</code>"].

(* ================================================================= *)
(** ** Texts of several lines with emphasis, code and links in them *)

Inductive block : Type :=
| Title (level : nat) (spans : list span)   (* # spans, ## spans, ### spans *)
| Entry (spans : list span)                 (* - spans *)
| Prose (spans : list span)                 (* spans *)
| Gap.                                      (* an empty line *)

Definition spans_of (b : block) : list span :=
  match b with
  | Title _ sp | Entry sp | Prose sp => sp
  | Gap => []
  end.

Definition block_source (b : block) : jstring :=
  match b with
  | Title n sp => hashes n ++ text_of_spans sp
  | Entry sp => u "- " ++ text_of_spans sp
  | Prose sp => text_of_spans sp
  | Gap => []
  end.

Definition block_html (b : block) : jstring :=
  match b with
  | Title n sp => heading_open n ++ html_of_spans sp ++ heading_close n
  | Entry sp => li_open ++ html_of_spans sp ++ li_close
  | Prose sp => html_of_spans sp
  | Gap => []
  end.

(** What stands before and after the spans of a line once the heading
    passes are done. *)
Definition before_spans (b : block) : jstring :=
  match b with
  | Title n _ => heading_open n
  | Entry _ => u "- "
  | _ => []
  end.

Definition after_spans (b : block) : jstring :=
  match b with
  | Title n _ => heading_close n
  | _ => []
  end.

(** The line after the inline pass [k]. *)
Definition stage_line (k : nat) (b : block) : jstring :=
  before_spans b ++ concat (map (stage k) (spans_of b)) ++ after_spans b.

(** The spans of a line: at least one, each well formed, no emphasis
    directly after an emphasis. *)
Definition content_ok (sp : list span) : bool :=
  match sp with
  | [] => false
  | _ => forallb span_ok sp && spaced sp
  end.

Definition block_ok (b : block) : bool :=
  match b with
  | Title n sp => (Nat.leb 1 n && Nat.leb n 3) && content_ok sp
  | Entry sp => content_ok sp
  | Prose sp =>
      content_ok sp && starts_plainly (text_of_spans sp)
      && begins_blackb (text_of_spans sp)
  | Gap => true
  end.

Definition follows (b : block) : prev :=
  match b with
  | Gap => Start
  | Entry _ => AfterItem
  | _ => AfterText
  end.

(** An empty line stands between two lines that are not empty; the text
    has a line. *)
Fixpoint gaps_ok (pv : prev) (blocks : list block) : bool :=
  match blocks with
  | [] => match pv with Start => false | _ => true end
  | Gap :: rest => match pv with Start => false | _ => gaps_ok Start rest end
  | b :: rest => gaps_ok (follows b) rest
  end.

Definition text_of_blocks (blocks : list block) : jstring :=
  join nl (map block_source blocks).

(** The lines in HTML: a run of items in one list, a [<br>] between two
    lines that are no items, a new paragraph at an empty line. *)
Fixpoint html_of_blocks (pv : prev) (blocks : list block) : jstring :=
  match blocks with
  | [] => match pv with AfterItem => u "</ul>" | _ => [] end
  | Entry sp :: rest =>
      match pv with AfterItem => [] | _ => u "<ul>" end
        ++ li_open ++ html_of_spans sp ++ li_close ++ html_of_blocks AfterItem rest
  | Gap :: rest =>
      match pv with AfterItem => u "</ul>" | _ => [] end
        ++ u "</p><p>" ++ html_of_blocks Start rest
  | b :: rest =>
      match pv with Start => [] | AfterItem => u "</ul>" | AfterText => br end
        ++ block_html b ++ html_of_blocks AfterText rest
  end.

(** The segments of the inline pass [k] over the lines. *)
Definition block_segs (k : nat) (b : block) (tail : list seg) : list seg :=
  Skip (before_spans b)
    :: map (classify k) (spans_of b) ++ Skip (after_spans b) :: tail.

Fixpoint inline_segs (k : nat) (blocks : list block) : list seg :=
  match blocks with
  | [] => []
  | b :: rest =>
      block_segs k b match rest with
                     | [] => []
                     | _ => Skip nl :: inline_segs k rest
                     end
  end.

(** The segments of the paragraph pass: an empty line with the newline
    before it and the one after it. *)
Fixpoint gap_segs (due : bool) (blocks : list block) : list seg :=
  match blocks with
  | [] => []
  | Gap :: rest => Hit (nl ++ nl) (u "</p><p>") :: gap_segs false rest
  | b :: rest =>
      Skip ((if due then nl else []) ++ block_html b) :: gap_segs true rest
  end.

(** The lines with [</p><p>] for every empty line and [sep] between two
    lines that are not empty. *)
Fixpoint broken (sep : jstring) (due : bool) (blocks : list block) : jstring :=
  match blocks with
  | [] => []
  | Gap :: rest => u "</p><p>" ++ broken sep false rest
  | b :: rest => (if due then sep else []) ++ block_html b ++ broken sep true rest
  end.

(** The [<br>] after an item, when a line follows directly. *)
Definition trailing (rest : list block) : jstring :=
  match rest with
  | [] | Gap :: _ => []
  | _ => br
  end.

(** The segments of the second tidying pass. *)
Fixpoint entry_segs (pv : prev) (blocks : list block) : list seg :=
  match blocks with
  | [] => []
  | Entry sp :: rest =>
      Hit (match pv with AfterText => br | _ => [] end
             ++ (li_open ++ html_of_spans sp ++ li_close) ++ trailing rest)
          (li_open ++ html_of_spans sp ++ li_close)
        :: entry_segs AfterItem rest
  | Gap :: rest => Skip (u "</p><p>") :: entry_segs Start rest
  | b :: rest =>
      Skip (match pv with AfterText => br | _ => [] end ++ block_html b)
        :: entry_segs AfterText rest
  end.

(** The pieces that the split at the item tags gives. *)
Fixpoint pieces (acc : jstring) (pv : prev) (blocks : list block) : list jstring :=
  match blocks with
  | [] => [acc]
  | Entry sp :: rest =>
      acc :: li_open :: html_of_spans sp :: li_close :: pieces [] AfterItem rest
  | Gap :: rest => pieces (acc ++ u "</p><p>") Start rest
  | b :: rest =>
      pieces (acc ++ match pv with AfterText => br | _ => [] end ++ block_html b)
             AfterText rest
  end.

Definition after_entry (blocks : list block) : jstring :=
  if negb (Markdown.next_is_li (pieces [] AfterItem blocks)) && true
  then u "</ul>" ++ Markdown.group_items false (pieces [] AfterItem blocks)
  else Markdown.group_items true (pieces [] AfterItem blocks).

(** A piece that begins like text, like a heading, like an inline tag or
    like the end of a paragraph. *)
Definition opens (s : jstring) : bool :=
  match s with
  | [] => false
  | c :: r =>
      negb (N.eqb c 60)
      || match r with
         | [] => false
         | d :: r' =>
             existsb (N.eqb d) (u "hseac")
             || N.eqb d 47
                && match r' with
                   | [] => false
                   | e :: _ => N.eqb e 112
                   end
         end
  end.

Unset Implicit Arguments.

(* ================================================================= *)
(** ** The matcher is sound for the declarative reading *)

Section RegexInduction.
Variable P : regex -> Prop.
Variable Q : list regex -> Prop.
Hypothesis HChars : forall l, P (Chars l).
Hypothesis HBol : P Bol.
Hypothesis HEol : P Eol.
Hypothesis HRep : forall g m c, P (Rep g m c).
Hypothesis HGrp : forall b, Q b -> P (Grp b).
Hypothesis HOpt : forall b, Q b -> P (Opt b).
Hypothesis HAlt : forall a b, Q a -> Q b -> P (Alt a b).
Hypothesis HNil : Q [].
Hypothesis HCons : forall r rs, P r -> Q rs -> Q (r :: rs).

Fixpoint regex_seq_ind (r : regex) : P r :=
  let seq := fix seq (rs : list regex) : Q rs :=
               match rs with
               | [] => HNil
               | r' :: rs' => HCons r' rs' (regex_seq_ind r') (seq rs')
               end in
  match r with
  | Chars l => HChars l
  | Bol => HBol
  | Eol => HEol
  | Rep g m c => HRep g m c
  | Grp b => HGrp b (seq b)
  | Opt b => HOpt b (seq b)
  | Alt a b => HAlt a b (seq a) (seq b)
  end.

End RegexInduction.

Lemma strip_prefix_Some l s s' : strip_prefix l s = Some s' -> s = l ++ s'.
Proof.
  revert s. induction l as [|x l IH]; intros s H; simpl in *.
  - congruence.
  - destruct s as [|y s]; [discriminate|].
    destruct (N.eqb x y) eqn:E; [|discriminate].
    apply N.eqb_eq in E. subst y. f_equal. apply IH, H.
Qed.

Lemma strip_prefix_app l s : strip_prefix l (l ++ s) = Some s.
Proof.
  induction l as [|x l IH]; simpl; [reflexivity|].
  rewrite N.eqb_refl. exact IH.
Qed.

Lemma firstn_app_minus (x s : jstring) :
  firstn (List.length (x ++ s) - List.length s) (x ++ s) = x.
Proof.
  rewrite length_app.
  replace (List.length x + List.length s - List.length s) with (List.length x) by lia.
  rewrite firstn_app, Nat.sub_diag, firstn_all. simpl. apply app_nil_r.
Qed.

Lemma sem_suffix : forall r, suffix_closed r.
Proof.
  apply (regex_seq_ind suffix_closed suffix_closed_seq);
    unfold suffix_closed, suffix_closed_seq.
  - intros l p s caps s' caps' [-> _]. eauto.
  - intros p s caps s' caps' (_ & -> & _). exists []. reflexivity.
  - intros p s caps s' caps' (_ & -> & _). exists []. reflexivity.
  - intros g m c p s caps s' caps' (x & -> & _). eauto.
  - intros b _ p s caps s' caps' (x & c1 & -> & _). eauto.
  - intros b IH p s caps s' caps' [H | [-> _]]; [exact (IH _ _ _ _ _ H)|].
    exists []. reflexivity.
  - intros a b IHa IHb p s caps s' caps' [H | H];
      [exact (IHa _ _ _ _ _ H) | exact (IHb _ _ _ _ _ H)].
  - intros p s caps s' caps' [-> _]. exists []. reflexivity.
  - intros r rs IHr IHrs p s caps s' caps' (p1 & s1 & c1 & H1 & H2).
    destruct (IHr _ _ _ _ _ H1) as (x & ->).
    destruct (IHrs _ _ _ _ _ H2) as (y & ->).
    exists (x ++ y). apply app_assoc.
Qed.

Lemma sem_seq_suffix : forall rs, suffix_closed_seq rs.
Proof.
  unfold suffix_closed_seq. induction rs as [|r rs IH].
  - intros p s caps s' caps' [-> _]. exists []. reflexivity.
  - intros p s caps s' caps' (p1 & s1 & c1 & H1 & H2).
    destruct (sem_suffix _ _ _ _ _ _ H1) as (x & ->).
    destruct (IH _ _ _ _ _ H2) as (y & ->).
    exists (x ++ y). apply app_assoc.
Qed.

Section Soundness.
Variable R : Type.

Lemma rep_greedy_sound cls (k : option N -> jstring -> option R) res :
  forall s min p,
    rep_greedy cls min p s k = Some res ->
    exists x s' p', s = x ++ s' /\ forallb cls x = true /\ min <= List.length x
                    /\ k p' s' = Some res.
Proof.
  induction s as [|c s IH]; intros min p H; simpl in H.
  - destruct min; [|discriminate]. exists [], [], p. simpl. auto.
  - assert (match min with O => k p (c :: s) | S _ => None end = Some res ->
            exists x s' p', c :: s = x ++ s' /\ forallb cls x = true
                            /\ min <= List.length x /\ k p' s' = Some res) as Stop.
    { destruct min; [|discriminate]. intros K. exists [], (c :: s), p. simpl. auto. }
    destruct (cls c) eqn:C; [|exact (Stop H)].
    destruct (rep_greedy cls (pred min) (Some c) s k) as [r|] eqn:G; [|exact (Stop H)].
    injection H as ->.
    destruct (IH _ _ G) as (x & s' & p' & -> & F & L & K).
    exists (c :: x), s', p'. simpl. rewrite C, F. repeat split; auto. lia.
Qed.

Lemma rep_lazy_sound cls (k : option N -> jstring -> option R) res :
  forall s min p,
    rep_lazy cls min p s k = Some res ->
    exists x s' p', s = x ++ s' /\ forallb cls x = true /\ min <= List.length x
                    /\ k p' s' = Some res.
Proof.
  induction s as [|c s IH]; intros min p H; simpl in H.
  - destruct min; [|discriminate].
    destruct (k p []) eqn:K; [|discriminate].
    injection H as ->. exists [], [], p. simpl. auto.
  - assert ((if cls c then rep_lazy cls (pred min) (Some c) s k else None) = Some res ->
            exists x s' p', c :: s = x ++ s' /\ forallb cls x = true
                            /\ min <= List.length x /\ k p' s' = Some res) as More.
    { destruct (cls c) eqn:C; [|discriminate]. intros G.
      destruct (IH _ _ G) as (x & s' & p' & -> & F & L & K).
      exists (c :: x), s', p'. simpl. rewrite C, F. repeat split; auto. lia. }
    destruct min; [|exact (More H)].
    destruct (k p (c :: s)) eqn:K; [|exact (More H)].
    injection H as ->. exists [], (c :: s), p. simpl. auto.
Qed.

Lemma run_sound : forall r, sound R r.
Proof.
  apply (regex_seq_ind (sound R) (sound_seq R)); unfold sound, sound_seq.
  - intros l p s caps k res H. simpl in H.
    destruct (strip_prefix l s) as [s'|] eqn:E; [|discriminate].
    apply strip_prefix_Some in E. do 3 eexists. split; [|exact H].
    simpl. auto.
  - intros p s caps k res H. simpl in H.
    destruct (at_bol p) eqn:E; [|discriminate].
    exists p, s, caps. simpl. auto.
  - intros p s caps k res H. simpl in H.
    destruct (at_eol s) eqn:E; [|discriminate].
    exists p, s, caps. simpl. auto.
  - intros g m c p s caps k res H. simpl in H.
    destruct g.
    + destruct (rep_greedy_sound _ _ _ _ _ _ H) as (x & s' & p' & -> & F & L & K).
      exists p', s', caps. split; [|exact K]. simpl. exists x. auto.
    + destruct (rep_lazy_sound _ _ _ _ _ _ H) as (x & s' & p' & -> & F & L & K).
      exists p', s', caps. split; [|exact K]. simpl. exists x. auto.
  - intros b IH p s caps k res H.
    change (run (Grp b) p s caps k)
      with (run_seq b p s caps
              (fun p' s' caps' =>
                 k p' s' (caps' ++ [firstn (List.length s - List.length s') s]))) in H.
    destruct (IH _ _ _ _ _ H) as (p' & s' & caps' & S & K).
    exists p', s', (caps' ++ [firstn (List.length s - List.length s') s]).
    split; [|exact K].
    change (sem (Grp b) p s caps s' (caps' ++ [firstn (List.length s - List.length s') s]))
      with (exists x caps1, s = x ++ s' /\ sem_seq b p s caps s' caps1
                            /\ caps' ++ [firstn (List.length s - List.length s') s]
                               = caps1 ++ [x]).
    destruct (sem_seq_suffix _ _ _ _ _ _ S) as (x & ->).
    exists x, caps'. rewrite firstn_app_minus. auto.
  - intros b IH p s caps k res H.
    change (run (Opt b) p s caps k)
      with (match run_seq b p s caps k with
            | Some r' => Some r'
            | None => k p s caps
            end) in H.
    destruct (run_seq b p s caps k) as [r'|] eqn:E.
    + injection H as ->. destruct (IH _ _ _ _ _ E) as (p' & s' & caps' & S & K).
      exists p', s', caps'. split; [left; exact S | exact K].
    + exists p, s, caps. split; [right; auto | exact H].
  - intros a b IHa IHb p s caps k res H.
    change (run (Alt a b) p s caps k)
      with (match run_seq a p s caps k with
            | Some r' => Some r'
            | None => run_seq b p s caps k
            end) in H.
    destruct (run_seq a p s caps k) as [r'|] eqn:E.
    + injection H as ->. destruct (IHa _ _ _ _ _ E) as (p' & s' & caps' & S & K).
      exists p', s', caps'. split; [left; exact S | exact K].
    + destruct (IHb _ _ _ _ _ H) as (p' & s' & caps' & S & K).
      exists p', s', caps'. split; [right; exact S | exact K].
  - intros p s caps k res H. exists p, s, caps. simpl. auto.
  - intros r rs IHr IHrs p s caps k res H.
    change (run_seq (r :: rs) p s caps k)
      with (run r p s caps (fun p' s' caps' => run_seq rs p' s' caps' k)) in H.
    destruct (IHr _ _ _ _ _ H) as (p1 & s1 & c1 & S1 & K1).
    destruct (IHrs _ _ _ _ _ K1) as (p' & s' & caps' & S & K).
    exists p', s', caps'. split; [|exact K].
    exists p1, s1, c1. auto.
Qed.

Lemma run_seq_sound : forall rs, sound_seq R rs.
Proof.
  induction rs as [|r rs IH]; unfold sound_seq in *.
  - intros p s caps k res H. exists p, s, caps. simpl. auto.
  - intros p s caps k res H.
    change (run_seq (r :: rs) p s caps k)
      with (run r p s caps (fun p' s' caps' => run_seq rs p' s' caps' k)) in H.
    destruct (run_sound _ _ _ _ _ _ H) as (p1 & s1 & c1 & S1 & K1).
    destruct (IH _ _ _ _ _ K1) as (p' & s' & caps' & S & K).
    exists p', s', caps'. split; [|exact K].
    exists p1, s1, c1. auto.
Qed.
End Soundness.

(** A match of [exec] is a match of the declarative reading, and what is
    left of the input is a proper part of it. *)
Lemma exec_sound re p s caps rest :
  exec re p s = Some (caps, rest) -> sem_seq re p s [] rest caps.
Proof.
  unfold exec. intros H.
  destruct (run_seq_sound _ _ _ _ _ _ _ H) as (p' & s' & caps' & S & K).
  injection K as -> ->. exact S.
Qed.

Lemma exec_suffix re p s caps rest :
  exec re p s = Some (caps, rest) -> exists m, s = m ++ rest.
Proof. intros H. exact (sem_seq_suffix _ _ _ _ _ _ (exec_sound _ _ _ _ _ H)). Qed.

(* ================================================================= *)
(** ** The fuel of [replace] and [split] is enough *)

Lemma is_nil_length (s : jstring) : is_nil s = true <-> List.length s = 0.
Proof. destruct s; simpl; split; try reflexivity; discriminate. Qed.

(** With more fuel than input, the amount of fuel does not matter: the
    fuel-exhausted branch of [replace_from] is never reached. *)
Lemma replace_from_fuel re t :
  forall f1 f2 p s,
    List.length s < f1 -> List.length s < f2 ->
    replace_from f1 re t p s = replace_from f2 re t p s.
Proof.
  induction f1 as [|f1 IH]; intros f2 p s L1 L2; [lia|].
  destruct f2 as [|f2]; [lia|]. cbn [replace_from].
  assert (match s with
          | c :: s' => c :: replace_from f1 re t (Some c) s'
          | [] => []
          end
          = match s with
            | c :: s' => c :: replace_from f2 re t (Some c) s'
            | [] => []
            end) as Copy.
  { destruct s as [|c s']; [reflexivity|]. simpl in L1, L2.
    rewrite (IH f2 (Some c) s'); [reflexivity | lia | lia]. }
  destruct (exec re p s) as [[caps rest]|] eqn:E; [|exact Copy].
  destruct (exec_suffix _ _ _ _ _ E) as (m & ->).
  rewrite firstn_app_minus. f_equal.
  destruct m as [|c m]; [exact Copy|]. cbn [is_nil].
  rewrite length_app in L1, L2. simpl in L1, L2.
  apply IH; lia.
Qed.

Lemma split_from_fuel re :
  forall f1 f2 p acc s,
    split_measure acc s < f1 -> split_measure acc s < f2 ->
    split_from f1 re p acc s = split_from f2 re p acc s.
Proof.
  unfold split_measure.
  induction f1 as [|f1 IH]; intros f2 p acc s L1 L2; [lia|].
  destruct f2 as [|f2]; [lia|]. cbn [split_from].
  destruct s as [|c s']; [reflexivity|]. cbn [List.length] in L1, L2.
  assert (split_from f1 re (Some c) (acc ++ [c]) s'
          = split_from f2 re (Some c) (acc ++ [c]) s') as Skip.
  { apply IH; destruct acc; simpl; lia. }
  destruct (exec re p (c :: s')) as [[caps rest]|] eqn:E; [|exact Skip].
  destruct (exec_suffix _ _ _ _ _ E) as (m & Hm). rewrite Hm, firstn_app_minus.
  destruct (is_nil m && is_nil acc) eqn:B; [exact Skip|].
  f_equal. f_equal.
  assert (List.length (c :: s') = List.length m + List.length rest) as Hl
      by (rewrite Hm, length_app; reflexivity).
  cbn [List.length] in Hl.
  apply IH; cbn [is_nil];
    destruct m as [|d m]; destruct acc as [|a acc]; simpl in *;
      try discriminate; lia.
Qed.

(* ================================================================= *)
(** ** Strings in which every [<] opens a whitelisted tag *)

Lemma starts_with_app t s y : starts_with t s = true -> starts_with t (s ++ y) = true.
Proof.
  unfold starts_with. destruct (strip_prefix t s) as [r|] eqn:E; [|discriminate].
  intros _. apply strip_prefix_Some in E. subst s.
  rewrite <- app_assoc, strip_prefix_app. reflexivity.
Qed.

Lemma starts_with_spec t s : starts_with t s = true <-> exists r, s = t ++ r.
Proof.
  unfold starts_with. split.
  - destruct (strip_prefix t s) as [r|] eqn:E; [|discriminate].
    intros _. exists r. apply strip_prefix_Some, E.
  - intros (r & ->). rewrite strip_prefix_app. reflexivity.
Qed.

(** A prefix that does not contain [d] cannot reach over a [d]. *)
Lemma starts_with_cut w x d y :
  ~ In d w -> starts_with w (x ++ d :: y) = true -> starts_with w x = true.
Proof.
  unfold starts_with. revert x. induction w as [|a w IH]; intros x Hd H; [reflexivity|].
  destruct x as [|b x]; simpl in *.
  - destruct (N.eqb a d) eqn:E; [|discriminate].
    apply N.eqb_eq in E. exfalso. apply Hd. left. exact E.
  - destruct (N.eqb a b); [|discriminate].
    apply IH; [|exact H]. intros I. apply Hd. right. exact I.
Qed.

Lemma opens_tag_in_app W s y :
  opens_tag_in W s = true -> opens_tag_in W (s ++ y) = true.
Proof.
  unfold opens_tag_in. rewrite !existsb_exists.
  intros (t & I & H). exists t. split; [exact I | apply starts_with_app, H].
Qed.

Lemma safe_in_cons W c s :
  safe_in W (c :: s) = true <->
  (c = lt -> opens_tag_in W (c :: s) = true) /\ safe_in W s = true.
Proof.
  simpl. rewrite andb_true_iff, orb_true_iff, negb_true_iff, N.eqb_neq.
  split; intros [A B]; (split; [|exact B]).
  - intros E. destruct A as [A|A]; [contradiction | exact A].
  - destruct (N.eq_dec c lt) as [E|E]; [right; exact (A E) | left; exact E].
Qed.

Lemma safe_in_app W x y :
  safe_in W x = true -> safe_in W y = true -> safe_in W (x ++ y) = true.
Proof.
  intros Hx Hy. induction x as [|c x IH]; [exact Hy|].
  apply safe_in_cons in Hx as [A B]. rewrite <- app_comm_cons. apply safe_in_cons.
  split; [|exact (IH B)].
  intros E. rewrite app_comm_cons. apply opens_tag_in_app, A, E.
Qed.

Lemma safe_in_suffix W x y : safe_in W (x ++ y) = true -> safe_in W y = true.
Proof.
  induction x as [|c x IH]; intros H; [exact H|].
  rewrite <- app_comm_cons in H. apply safe_in_cons in H as [_ H]. exact (IH H).
Qed.

Lemma no_lt_safe_in W s : ~ In lt s -> safe_in W s = true.
Proof.
  induction s as [|c s IH]; intros H; [reflexivity|].
  apply safe_in_cons. split.
  - intros E. exfalso. apply H. left. exact E.
  - apply IH. intros I. apply H. right. exact I.
Qed.

Section Tags.
Variable W : list jstring.

(** Every tag of [W] starts with [<], and none holds a line terminator. *)
Hypothesis W_head : forall t, In t W -> exists w, t = lt :: w.
Hypothesis W_line : forall c, is_line_terminator c = true -> in_tag_in W c = false.

Lemma in_tag_in_tail t c : In t W -> In c (tl t) -> in_tag_in W c = true.
Proof.
  intros I J. unfold in_tag_in. apply existsb_exists. exists c.
  split; [|apply N.eqb_refl].
  apply in_concat. exists (tl t). split; [|exact J].
  apply in_map, I.
Qed.

(** A tag that opens at the head of [c :: s]: its tail is a prefix of [s]. *)
Lemma opens_tag_in_inv c s :
  opens_tag_in W (c :: s) = true ->
  exists w r, In (lt :: w) W /\ c = lt /\ s = w ++ r.
Proof.
  unfold opens_tag_in. rewrite existsb_exists. intros (t & I & H).
  destruct (W_head _ I) as (w & ->).
  apply starts_with_spec in H as (r & H). injection H as -> ->.
  exists w, r. auto.
Qed.

Lemma opens_tag_in_intro w r :
  In (lt :: w) W -> opens_tag_in W (lt :: w ++ r) = true.
Proof.
  intros I. unfold opens_tag_in. apply existsb_exists. exists (lt :: w).
  split; [exact I|]. apply starts_with_spec. exists r. reflexivity.
Qed.

(** A safe string can be cut before a unit that no tag contains. *)
Lemma safe_in_cut x y :
  safe_in W (x ++ y) = true ->
  match y with [] => True | d :: _ => in_tag_in W d = false end ->
  safe_in W x = true.
Proof.
  intros H Hy. induction x as [|c x IH]; [reflexivity|].
  rewrite <- app_comm_cons in H. apply safe_in_cons in H as [A B].
  apply safe_in_cons. split; [|exact (IH B)].
  intros E. specialize (A E).
  destruct y as [|d y]; [rewrite app_nil_r in A; exact A|].
  destruct (opens_tag_in_inv _ _ A) as (w & r & I & _ & Hw).
  subst c.
  assert (starts_with w x = true) as S.
  { apply starts_with_cut with (d := d) (y := y).
    - intros J. pose proof (in_tag_in_tail (lt :: w) d I J) as K. congruence.
    - apply starts_with_spec. exists r. exact Hw. }
  apply starts_with_spec in S as (r' & ->).
  apply opens_tag_in_intro, I.
Qed.

Lemma at_eol_not_in_tag_in y :
  at_eol y = true -> match y with [] => True | d :: _ => in_tag_in W d = false end.
Proof.
  destruct y as [|d y]; [trivial|]. simpl. apply W_line.
Qed.

Lemma tail_in_tag_in w : In (lt :: w) W -> forallb (in_tag_in W) w = true.
Proof.
  intros I. apply forallb_forall. intros c J.
  exact (in_tag_in_tail (lt :: w) c I J).
Qed.

(* ----------------------------------------------------------------- *)
(** A global replace keeps a string safe. *)

Section ReplaceSafe.
Variable re : list regex.
Variable t : list piece.

(** No match starts inside a tag, and every match consumes input. *)
Hypothesis match_head :
  forall p s caps rest,
    exec re p s = Some (caps, rest) ->
    exists c s', s = c :: s' /\ in_tag_in W c = false
                 /\ List.length rest < List.length s.

(** What is written for a match is safe when the input is. *)
Hypothesis match_safe :
  forall p s caps rest,
    exec re p s = Some (caps, rest) ->
    safe_in W s = true ->
    safe_in W (subst t (firstn (List.length s - List.length rest) s) caps) = true.

Lemma firstn_match_nonempty (s rest : jstring) :
  (exists m, s = m ++ rest) -> List.length rest < List.length s ->
  is_nil (firstn (List.length s - List.length rest) s) = false.
Proof.
  intros (m & ->) L. rewrite firstn_app_minus.
  destruct m; [simpl in L; lia | reflexivity].
Qed.

(** The loop copies a stretch in which no match can start. *)
Lemma replace_from_copies w :
  forallb (in_tag_in W) w = true ->
  forall fuel p s,
  exists fuel' p',
    replace_from fuel re t p (w ++ s) = w ++ replace_from fuel' re t p' s.
Proof.
  induction w as [|a w IH]; intros Hw fuel p s; [exists fuel, p; reflexivity|].
  simpl in Hw. apply andb_true_iff in Hw as [Ha Hw].
  destruct fuel as [|fuel].
  - exists 0, p. reflexivity.
  - cbn [replace_from app].
    destruct (exec re p (a :: w ++ s)) as [[caps rest]|] eqn:E.
    + destruct (match_head _ _ _ _ E) as (c & s' & Hs & Hc & _).
      injection Hs as <- _. congruence.
    + destruct (IH Hw fuel (Some a) s) as (fuel' & p' & ->).
      exists fuel', p'. reflexivity.
Qed.

Lemma replace_from_safe_in fuel :
  forall p s, safe_in W s = true -> safe_in W (replace_from fuel re t p s) = true.
Proof.
  induction fuel as [|fuel IH]; intros p s H; [exact H|].
  assert (safe_in W match s with
                    | c :: s' => c :: replace_from fuel re t (Some c) s'
                    | [] => []
                    end = true) as Copy.
  { destruct s as [|c s']; [reflexivity|].
    apply safe_in_cons in H as [A B]. apply safe_in_cons. split; [|exact (IH _ _ B)].
    intros E. destruct (opens_tag_in_inv _ _ (A E)) as (w & r & I & _ & ->).
    subst c.
    destruct (replace_from_copies w (tail_in_tag_in w I) fuel (Some lt) r)
      as (fuel' & p' & ->).
    apply opens_tag_in_intro, I. }
  cbn [replace_from]. destruct (exec re p s) as [[caps rest]|] eqn:E; [|exact Copy].
  destruct (match_head _ _ _ _ E) as (c & s' & Hs & Hc & L).
  rewrite (firstn_match_nonempty _ _ (exec_suffix _ _ _ _ _ E) L).
  apply safe_in_app; [exact (match_safe _ _ _ _ E H)|].
  apply IH. destruct (exec_suffix _ _ _ _ _ E) as (m & ->).
  exact (safe_in_suffix _ _ _ H).
Qed.

Lemma replace_safe_in s : safe_in W s = true -> safe_in W (replace re t s) = true.
Proof. apply replace_from_safe_in. Qed.
End ReplaceSafe.
End Tags.

(* ================================================================= *)
(** ** The whitelist of the renderer *)

Lemma whitelist_head t : In t whitelist -> exists w, t = lt :: w.
Proof.
  unfold whitelist. simpl.
  intros H; repeat (destruct H as [<- | H]; [eexists; reflexivity|]); destruct H.
Qed.

Lemma line_terminator_not_in_tag c : is_line_terminator c = true -> in_tag c = false.
Proof.
  unfold is_line_terminator. rewrite !orb_true_iff, !N.eqb_eq.
  intros [[[-> | ->] | ->] | ->]; vm_compute; reflexivity.
Qed.

Lemma safe_cons c s :
  safe (c :: s) = true <-> (c = lt -> opens_tag (c :: s) = true) /\ safe s = true.
Proof. apply safe_in_cons. Qed.

Lemma safe_app x y : safe x = true -> safe y = true -> safe (x ++ y) = true.
Proof. apply safe_in_app. Qed.

Lemma safe_suffix x y : safe (x ++ y) = true -> safe y = true.
Proof. apply safe_in_suffix. Qed.

Lemma safe_cut x y :
  safe (x ++ y) = true ->
  match y with [] => True | d :: _ => in_tag d = false end ->
  safe x = true.
Proof. exact (safe_in_cut whitelist whitelist_head x y). Qed.

Lemma no_lt_safe s : ~ In lt s -> safe s = true.
Proof. apply no_lt_safe_in. Qed.

Lemma at_eol_not_in_tag y :
  at_eol y = true -> match y with [] => True | d :: _ => in_tag d = false end.
Proof. exact (at_eol_not_in_tag_in whitelist line_terminator_not_in_tag y). Qed.

Lemma opens_tag_inv c s :
  opens_tag (c :: s) = true ->
  exists w r, In (lt :: w) whitelist /\ c = lt /\ s = w ++ r.
Proof. exact (opens_tag_in_inv whitelist whitelist_head c s). Qed.

Lemma replace_safe re t :
  (forall p s caps rest,
      exec re p s = Some (caps, rest) ->
      exists c s', s = c :: s' /\ in_tag c = false
                   /\ List.length rest < List.length s) ->
  (forall p s caps rest,
      exec re p s = Some (caps, rest) ->
      safe s = true ->
      safe (subst t (firstn (List.length s - List.length rest) s) caps) = true) ->
  forall s, safe s = true -> safe (replace re t s) = true.
Proof. exact (replace_safe_in whitelist whitelist_head re t). Qed.

(** The tags that are there before the links are rendered. *)
Lemma early_tags_head t : In t early_tags -> exists w, t = lt :: w.
Proof.
  unfold early_tags. simpl.
  intros H; repeat (destruct H as [<- | H]; [eexists; reflexivity|]); destruct H.
Qed.

Lemma line_terminator_not_in_early_tag c :
  is_line_terminator c = true -> in_tag_in early_tags c = false.
Proof.
  unfold is_line_terminator. rewrite !orb_true_iff, !N.eqb_eq.
  intros [[[-> | ->] | ->] | ->]; vm_compute; reflexivity.
Qed.

(* ================================================================= *)
(** ** The shape of the matches of the renderer's patterns *)

Ltac break :=
  repeat match goal with
         | H : exists _, _ |- _ => destruct H
         | H : _ /\ _ |- _ => destruct H
         end.

Ltac same_tail :=
  repeat match goal with
         | E : ?x ++ ?s = ?y ++ ?s |- _ => apply app_inv_tail in E
         end.

Ltac shape H :=
  apply exec_sound in H; cbn [sem_seq sem] in H; break; subst; same_tail; subst.

(** [a(cls+)b], [a(cls+?)b] and the like. *)
Lemma shape_delimited a g m cls b p s caps rest :
  exec [Chars a; Grp [Rep g m cls]; Chars b] p s = Some (caps, rest) ->
  exists x, s = a ++ x ++ b ++ rest /\ caps = [x]
            /\ forallb cls x = true /\ m <= List.length x.
Proof. intros H. shape H. eauto. Qed.

(** [^a(.+)$] under the [m] flag. *)
Lemma shape_line a p s caps rest :
  exec [Bol; Chars a; Grp [Rep true 1 dot]; Eol] p s = Some (caps, rest) ->
  exists x, s = a ++ x ++ rest /\ caps = [x]
            /\ at_eol rest = true /\ at_bol p = true.
Proof. intros H. shape H. eauto. Qed.

Lemma shape_link p s caps rest :
  exec Markdown.re_link p s = Some (caps, rest) ->
  exists x y, s = u "[" ++ x ++ u "](" ++ y ++ u ")" ++ rest /\ caps = [x; y]
              /\ forallb (other_than 93) x = true /\ forallb (other_than 41) y = true.
Proof. intros H. unfold Markdown.re_link in H. shape H. eauto 10. Qed.

Lemma shape_chars l p s caps rest :
  exec [Chars l] p s = Some (caps, rest) -> s = l ++ rest /\ caps = [].
Proof. intros H. shape H. auto. Qed.

Lemma shape_br_item_br p s caps rest :
  exec Markdown.re_br_item_br p s = Some (caps, rest) ->
  exists a x b, s = a ++ (li_open ++ x ++ li_close) ++ b ++ rest
                /\ caps = [li_open ++ x ++ li_close]
                /\ (a = [] \/ a = br) /\ (b = [] \/ b = br).
Proof.
  intros H. unfold Markdown.re_br_item_br in H.
  apply exec_sound in H. cbn [sem_seq sem] in H.
  destruct H as (p1 & s1 & c1 & A & p2 & s2 & c2 & G & p3 & s3 & c3 & B & Hr & Hc).
  assert (exists a, s = a ++ s1 /\ c1 = [] /\ (a = [] \/ a = br)) as (a & -> & -> & Ha).
  { destruct A as [A | A]; break; subst; [exists br | exists []]; auto. }
  assert (exists b, s2 = b ++ s3 /\ c3 = c2 /\ (b = [] \/ b = br)) as (b & -> & -> & Hb).
  { destruct B as [B | B]; break; subst; [exists br | exists []]; auto. }
  clear A B. break. subst.
  match goal with
  | E : ?m ++ b ++ s3 = u "<li>" ++ ?y ++ u "</li>" ++ b ++ s3 |- _ =>
      exists a; exists y; exists b;
      assert (m = li_open ++ y ++ li_close) as ->
          by (rewrite !app_assoc in E; apply app_inv_tail in E;
              apply app_inv_tail in E; rewrite <- !app_assoc in E; exact E)
  end.
  rewrite <- !app_assoc. auto.
Qed.

Lemma shape_li_tag p s caps rest :
  exec Markdown.re_li_tag p s = Some (caps, rest) ->
  exists tag, (tag = li_open \/ tag = li_close) /\ s = tag ++ rest /\ caps = [tag].
Proof.
  intros H. unfold Markdown.re_li_tag in H.
  apply exec_sound in H. cbn [sem_seq sem] in H. break.
  match goal with A : _ \/ _ |- _ => destruct A end; break; subst; same_tail; subst.
  - exists li_open. auto.
  - exists li_close. auto.
Qed.

(* ================================================================= *)
(** ** Each pass of the renderer keeps the string safe *)

Ltac len :=
  repeat first [rewrite length_app | progress simpl]; lia.

Lemma subst_wrap o c whole x : subst [Lit o; Cap 1; Lit c] whole [x] = o ++ x ++ c.
Proof. simpl. rewrite app_nil_r. reflexivity. Qed.

Section TagsPasses.
Variable W : list jstring.
Hypothesis W_head : forall t, In t W -> exists w, t = lt :: w.
Hypothesis W_line : forall c, is_line_terminator c = true -> in_tag_in W c = false.

Lemma safe_in_delimited ca a cb b g m cls o c s :
  in_tag_in W ca = false -> in_tag_in W cb = false ->
  safe_in W o = true -> safe_in W c = true ->
  safe_in W s = true ->
  safe_in W (replace [Chars (ca :: a); Grp [Rep g m cls]; Chars (cb :: b)]
                     [Lit o; Cap 1; Lit c] s) = true.
Proof.
  intros Ha Hb Ho Hc. apply (replace_safe_in W W_head).
  - intros p s0 caps rest E.
    destruct (shape_delimited _ _ _ _ _ _ _ _ _ E) as (x & -> & _).
    exists ca, (a ++ x ++ (cb :: b) ++ rest). repeat split; auto.
    len.
  - intros p s0 caps rest E Hs.
    destruct (shape_delimited _ _ _ _ _ _ _ _ _ E) as (x & -> & -> & _).
    rewrite subst_wrap.
    apply safe_in_app; [exact Ho|]. apply safe_in_app; [|exact Hc].
    apply (safe_in_suffix W (ca :: a)) in Hs.
    apply (safe_in_cut W W_head x _ Hs). exact Hb.
Qed.

Lemma safe_in_line ca a o c s :
  in_tag_in W ca = false -> safe_in W o = true -> safe_in W c = true ->
  safe_in W s = true ->
  safe_in W (replace [Bol; Chars (ca :: a); Grp [Rep true 1 dot]; Eol]
                     [Lit o; Cap 1; Lit c] s) = true.
Proof.
  intros Ha Ho Hc. apply (replace_safe_in W W_head).
  - intros p s0 caps rest E.
    destruct (shape_line _ _ _ _ _ E) as (x & -> & _).
    exists ca, (a ++ x ++ rest). repeat split; auto.
    len.
  - intros p s0 caps rest E Hs.
    destruct (shape_line _ _ _ _ _ E) as (x & -> & -> & Eo & _).
    rewrite subst_wrap.
    apply safe_in_app; [exact Ho|]. apply safe_in_app; [|exact Hc].
    apply (safe_in_suffix W (ca :: a)) in Hs.
    apply (safe_in_cut W W_head x _ Hs).
    apply (at_eol_not_in_tag_in W W_line), Eo.
Qed.
End TagsPasses.

Lemma safe_delimited ca a cb b g m cls o c s :
  in_tag ca = false -> in_tag cb = false ->
  safe o = true -> safe c = true ->
  safe s = true ->
  safe (replace [Chars (ca :: a); Grp [Rep g m cls]; Chars (cb :: b)]
                [Lit o; Cap 1; Lit c] s) = true.
Proof. exact (safe_in_delimited whitelist whitelist_head ca a cb b g m cls o c s). Qed.

Lemma safe_line ca a o c s :
  in_tag ca = false -> safe o = true -> safe c = true ->
  safe s = true ->
  safe (replace [Bol; Chars (ca :: a); Grp [Rep true 1 dot]; Eol]
                [Lit o; Cap 1; Lit c] s) = true.
Proof.
  exact (safe_in_line whitelist whitelist_head line_terminator_not_in_tag
                      ca a o c s).
Qed.

Lemma safe_chars c0 l o s :
  in_tag c0 = false -> safe o = true ->
  safe s = true -> safe (replace [Chars (c0 :: l)] [Lit o] s) = true.
Proof.
  intros Hc Ho. apply replace_safe.
  - intros p s0 caps rest E.
    destruct (shape_chars _ _ _ _ _ E) as (-> & _).
    exists c0, (l ++ rest). repeat split; auto.
    len.
  - intros p s0 caps rest E Hs. simpl. rewrite app_nil_r. exact Ho.
Qed.

Lemma safe_link s :
  safe s = true -> safe (replace Markdown.re_link Markdown.anchor s) = true.
Proof.
  apply replace_safe.
  - intros p s0 caps rest E.
    destruct (shape_link _ _ _ _ E) as (x & y & -> & _).
    exists 91%N, (x ++ u "](" ++ y ++ u ")" ++ rest). repeat split; auto.
    len.
  - intros p s0 caps rest E Hs.
    destruct (shape_link _ _ _ _ E) as (x & y & -> & -> & _).
    assert (safe x = true) as Hx.
    { apply (safe_suffix (u "[")) in Hs. apply (safe_cut x _ Hs). reflexivity. }
    assert (safe y = true) as Hy.
    { apply (safe_suffix (u "[")) in Hs. apply (safe_suffix x) in Hs.
      apply (safe_suffix (u "](")) in Hs. apply (safe_cut y _ Hs). reflexivity. }
    unfold Markdown.anchor, subst. cbn [flat_map nth pred]. rewrite app_nil_r.
    apply safe_app; [reflexivity|]. apply safe_app; [exact Hy|].
    apply safe_app; [reflexivity|]. apply safe_app; [exact Hx | reflexivity].
Qed.

Lemma safe_br_item_br s :
  safe s = true -> safe (replace Markdown.re_br_item_br [Cap 1] s) = true.
Proof.
  apply replace_safe.
  - intros p s0 caps rest E.
    destruct (shape_br_item_br _ _ _ _ E) as (a & x & b & -> & _ & Ha & _).
    exists lt. destruct Ha as [-> | ->]; eexists; (split; [reflexivity|]);
      (split; [reflexivity|]); unfold br, li_open, li_close, u; simpl; len.
  - intros p s0 caps rest E Hs.
    destruct (shape_br_item_br _ _ _ _ E) as (a & x & b & -> & -> & _ & _).
    unfold subst. cbn [flat_map nth pred]. rewrite app_nil_r.
    apply (safe_suffix a) in Hs. rewrite <- !app_assoc in Hs.
    rewrite (app_assoc li_open x) in Hs.
    rewrite (app_assoc li_open x). apply safe_app; [|reflexivity].
    apply (safe_cut _ _ Hs). reflexivity.
Qed.

(** Replacing every match by itself changes nothing. *)
Lemma replace_from_whole re fuel : forall p s, replace_from fuel re [Whole] p s = s.
Proof.
  induction fuel as [|fuel IH]; intros p s; [reflexivity|].
  simpl. assert (match s with
                 | c :: s' => c :: replace_from fuel re [Whole] (Some c) s'
                 | [] => []
                 end = s) as Copy
      by (destruct s; [reflexivity | rewrite IH; reflexivity]).
  rewrite Copy.
  destruct (exec re p s) as [[caps rest]|] eqn:E; [|reflexivity].
  destruct (exec_suffix _ _ _ _ _ E) as (m & ->).
  rewrite firstn_app_minus, app_nil_r, IH.
  destruct m; reflexivity.
Qed.

Lemma safe_tidy_items s : safe s = true -> safe (Markdown.tidy_items s) = true.
Proof.
  intros H. unfold Markdown.tidy_items, replace at 2.
  rewrite replace_from_whole. apply safe_br_item_br, H.
Qed.

Lemma safe_inline_markup s : safe s = true -> safe (Markdown.inline_markup s) = true.
Proof.
  intros H. unfold Markdown.inline_markup.
  apply safe_chars; [reflexivity | reflexivity |].
  apply safe_chars; [reflexivity | reflexivity |].
  apply safe_line; [reflexivity | reflexivity | reflexivity |].
  apply safe_delimited; [reflexivity | reflexivity | reflexivity | reflexivity |].
  apply safe_link.
  apply safe_delimited; [reflexivity | reflexivity | reflexivity | reflexivity |].
  apply safe_delimited; [reflexivity | reflexivity | reflexivity | reflexivity |].
  apply safe_delimited; [reflexivity | reflexivity | reflexivity | reflexivity |].
  apply safe_line; [reflexivity | reflexivity | reflexivity |].
  apply safe_line; [reflexivity | reflexivity | reflexivity |].
  apply safe_line; [reflexivity | reflexivity | reflexivity |].
  exact H.
Qed.

(** *** Escaping *)

Lemma exec_single c p s :
  exec [Chars [c]] p s =
  match s with
  | d :: s' => if N.eqb c d then Some ([], s') else None
  | [] => None
  end.
Proof. destruct s as [|d s']; [reflexivity|]. unfold exec. simpl. destruct (N.eqb c d); reflexivity. Qed.

(** Replacing one unit by a literal: the unit is gone when the literal does
    not bring it back. *)
Lemma replace_single_gone c o fuel :
  ~ In c o ->
  forall p s, List.length s < fuel -> ~ In c (replace_from fuel [Chars [c]] [Lit o] p s).
Proof.
  intros Ho. induction fuel as [|fuel IH]; intros p s L; [lia|].
  cbn [replace_from]. rewrite exec_single.
  destruct s as [|d s']; [simpl; tauto|].
  simpl in L. destruct (N.eqb c d) eqn:E.
  - change (d :: s') with ([d] ++ s'). rewrite !firstn_app_minus.
    simpl. rewrite app_nil_r. intros I. apply in_app_or in I as [I | I]; [exact (Ho I)|].
    revert I. apply IH. lia.
  - apply N.eqb_neq in E. intros [I | I]; [congruence|].
    revert I. apply IH. lia.
Qed.

(** Replacing a literal by a literal brings in only what the literal holds. *)
Lemma replace_chars_In d l o fuel :
  forall p s, In d (replace_from fuel [Chars l] [Lit o] p s) -> In d o \/ In d s.
Proof.
  induction fuel as [|fuel IH]; intros p s I; [right; exact I|].
  simpl in I.
  assert (In d match s with
               | c :: s' => c :: replace_from fuel [Chars l] [Lit o] (Some c) s'
               | [] => []
               end -> In d o \/ In d s) as Copy.
  { destruct s as [|c s']; [tauto|]. intros [J | J]; [right; left; exact J|].
    destruct (IH _ _ J) as [K | K]; [left; exact K | right; right; exact K]. }
  destruct (exec [Chars l] p s) as [[caps rest]|] eqn:E; [|exact (Copy I)].
  destruct (exec_suffix _ _ _ _ _ E) as (m & ->).
  rewrite firstn_app_minus in I. simpl in I. rewrite app_nil_r in I.
  apply in_app_or in I as [I | I]; [left; exact I|].
  destruct m as [|c m]; simpl in I.
  - exact (Copy I).
  - destruct (IH _ _ I) as [K | K]; [left; exact K|].
    right. right. apply in_or_app. right. exact K.
Qed.

Lemma escape_html_no_lt text : ~ In lt (Markdown.escape_html text).
Proof.
  unfold Markdown.escape_html, replace at 1. intros I.
  apply replace_chars_In in I as [I | I].
  - revert I. vm_compute. intuition discriminate.
  - revert I. apply (replace_single_gone lt).
    + vm_compute. intuition discriminate.
    + lia.
Qed.

Lemma escape_html_no_gt text : ~ In gt (Markdown.escape_html text).
Proof.
  unfold Markdown.escape_html, replace at 1.
  apply (replace_single_gone gt).
  - vm_compute. intuition discriminate.
  - lia.
Qed.

(** *** Splitting at the item tags, and grouping *)

Lemma split_from_safe fuel :
  forall p acc s,
    safe (acc ++ s) = true ->
    all_safe (split_from fuel Markdown.re_li_tag p acc s).
Proof.
  unfold all_safe.
  induction fuel as [|fuel IH]; intros p acc s H; cbn [split_from].
  - constructor; [exact H | constructor].
  - destruct s as [|c s']; cbv beta iota zeta.
    + rewrite app_nil_r in H. constructor; [exact H | constructor].
    + assert (Forall (fun l => safe l = true)
                     (split_from fuel Markdown.re_li_tag (Some c) (acc ++ [c]) s')) as Skip.
      { apply IH. rewrite <- app_assoc. exact H. }
      destruct (exec Markdown.re_li_tag p (c :: s')) as [[caps rest]|] eqn:E;
        [|exact Skip].
      destruct (is_nil _ && is_nil acc); [exact Skip|].
      destruct (shape_li_tag _ _ _ _ E) as (tag & Ht & Hs & ->).
      rewrite Hs in H.
      constructor.
      * apply (safe_cut acc _ H).
        destruct Ht as [-> | ->]; reflexivity.
      * constructor; [destruct Ht as [-> | ->]; reflexivity|].
        apply IH. simpl.
        apply (safe_suffix (acc ++ tag)). rewrite <- app_assoc. exact H.
Qed.

Lemma split_safe s : safe s = true -> all_safe (split Markdown.re_li_tag s).
Proof.
  intros H. unfold split. destruct s as [|c s'].
  - destruct (exec _ _ _); repeat constructor.
  - apply split_from_safe. exact H.
Qed.

Lemma group_items_safe lines :
  all_safe lines -> forall inList, safe (Markdown.group_items inList lines) = true.
Proof.
  unfold all_safe. induction 1 as [|l lines Hl _ IH]; intros inList; simpl.
  - destruct inList; reflexivity.
  - destruct (jeqb l (u "<li>")).
    + apply safe_app; [destruct (negb inList); reflexivity|].
      apply (safe_app (u "<li>")); [reflexivity | apply IH].
    + destruct (jeqb l (u "</li>")).
      * apply (safe_app (u "</li>")); [reflexivity|].
        destruct (negb (Markdown.next_is_li lines) && inList).
        -- apply (safe_app (u "</ul>")); [reflexivity | apply IH].
        -- apply IH.
      * apply safe_app; [exact Hl | apply IH].
Qed.

Lemma render_safe text : safe (Markdown.render text) = true.
Proof.
  unfold Markdown.render.
  apply (safe_app (u "<p>")); [reflexivity|].
  apply safe_app; [|reflexivity].
  apply group_items_safe, split_safe, safe_tidy_items, safe_inline_markup.
  apply no_lt_safe, escape_html_no_lt.
Qed.

(** What [safe] says, position by position. *)
Lemma safe_spec s :
  safe s = true ->
  forall pre post, s = pre ++ lt :: post ->
                   exists tag rest, In tag whitelist /\ lt :: post = tag ++ rest.
Proof.
  intros H pre post ->. apply safe_suffix in H. apply safe_cons in H as [A _].
  destruct (opens_tag_inv _ _ (A eq_refl)) as (w & r & I & _ & ->).
  exists (lt :: w), r. auto.
Qed.

(* ================================================================= *)
(** ** No tag of the input survives *)

(** X22. [renderMarkdown] escapes [<] and [>] before any
    substitution that writes a tag, so no tag of the input survives: in the
    output of every call, every [<] opens one of the tags that the renderer
    itself writes ([h1] to [h3], [strong], [em], [a href=], [code], [li],
    [ul], [p], [br] and their closing tags).  In particular
    [renderMarkdown("<b>x</b>")] shows the tag as text. *)
Theorem renderMarkdown_tags_whitelisted v out :
  renderMarkdown v = Ok out ->
  (forall pre post,
      out = pre ++ lt :: post ->
      exists tag rest, In tag whitelist /\ lt :: post = tag ++ rest)
  /\ (forall text, ~ In lt (Markdown.escape_html text)
                   /\ ~ In gt (Markdown.escape_html text))
  /\ renderMarkdown (str (u "<b>x</b>")) = Ok (u "<p>&lt;b&gt;x&lt;/b&gt;</p>").
Proof.
  intros H. split; [|split].
  - apply safe_spec. unfold renderMarkdown in H.
    destruct (negb (truthy v)); [injection H as <-; reflexivity|].
    destruct v as [|[]]; try discriminate.
    injection H as <-. apply render_safe.
  - intros text. split; [apply escape_html_no_lt | apply escape_html_no_gt].
  - vm_compute. reflexivity.
Qed.

Lemma renderMarkdown_tags_whitelisted_witness :
  exists tag rest,
    In tag whitelist /\ lt :: u "/strong> and <em>italic</em></p>" = tag ++ rest.
Proof.
  refine (proj1 (renderMarkdown_tags_whitelisted
                   (str (u "**bold** and *italic*"))
                   (u "<p><strong>bold</strong> and <em>italic</em></p>") _)
                (u "<p><strong>bold")
                (u "/strong> and <em>italic</em></p>") _).
  - vm_compute. reflexivity.
  - vm_compute. reflexivity.
Defined.

(** C3 (what the code does). Only [&], [<] and [>] are escaped, not the
    double quote: the url of a link can close the [href] and add attributes
    of its own.  The anchor below carries an [onclick], which is none of
    the constructs of the renderer. *)
Theorem renderMarkdown_attribute_injection :
  let input := u "[x](" ++ [dq] ++ u " onclick=" ++ [dq] ++ u "alert(1))" in
  let output :=
    u "<p><a href=" ++ [dq; dq] ++ u " onclick=" ++ [dq] ++ u "alert(1" ++ [dq]
      ++ u " target=" ++ [dq] ++ u "_blank" ++ [dq]
      ++ u " rel=" ++ [dq] ++ u "noopener" ++ [dq] ++ u ">x</a>)</p>" in
  renderMarkdown (str input) = Ok output
  /\ only_whitelisted output = false.
Proof. vm_compute. split; reflexivity. Qed.

Lemma renderMarkdown_string s :
  s <> [] -> renderMarkdown (str s) = Ok (Markdown.render s).
Proof. destruct s; [congruence | reflexivity]. Qed.

(* ================================================================= *)
(** ** Passes that find nothing to replace *)

Section Idle.
Variable re : list regex.
Variable Q : option N -> jstring -> Prop.

(** [Q] holds at the cursor, rules a match out there, and moves on with the
    cursor. *)
Hypothesis idle : forall p s, Q p s -> exec re p s = None.
Hypothesis step : forall p c s, Q p (c :: s) -> Q (Some c) s.

Lemma replace_from_idle t fuel : forall p s, Q p s -> replace_from fuel re t p s = s.
Proof.
  induction fuel as [|fuel IH]; intros p s H; [reflexivity|].
  cbn [replace_from]. rewrite (idle p s H).
  destruct s as [|c s']; [reflexivity|].
  rewrite (IH (Some c) s' (step p c s' H)). reflexivity.
Qed.

Lemma split_from_idle fuel :
  forall p acc s, Q p s -> split_from fuel re p acc s = [acc ++ s].
Proof.
  induction fuel as [|fuel IH]; intros p acc s H; [reflexivity|].
  cbn [split_from]. destruct s as [|c s']; [rewrite app_nil_r; reflexivity|].
  rewrite (idle p (c :: s') H), (IH (Some c) (acc ++ [c]) s' (step p c s' H)).
  rewrite <- app_assoc. reflexivity.
Qed.
End Idle.

(** A pattern whose matches all start with the unit [c0] leaves a string
    without [c0] alone. *)
Lemma replace_no_trigger re t c0 s :
  (forall p s caps rest, exec re p s = Some (caps, rest) -> exists s', s = c0 :: s') ->
  ~ In c0 s -> replace re t s = s.
Proof.
  intros Hhead H. unfold replace.
  apply (replace_from_idle re (fun _ s => ~ In c0 s)); [| |exact H].
  - intros p s0 H0. destruct (exec re p s0) as [[caps rest]|] eqn:E; [|reflexivity].
    destruct (Hhead _ _ _ _ E) as (s' & ->). exfalso. apply H0. left. reflexivity.
  - intros p c s0 H0 I. apply H0. right. exact I.
Qed.

Lemma head_delimited ca a g m cls b :
  forall p s caps rest,
    exec [Chars (ca :: a); Grp [Rep g m cls]; Chars b] p s = Some (caps, rest) ->
    exists s', s = ca :: s'.
Proof.
  intros p s caps rest E.
  destruct (shape_delimited _ _ _ _ _ _ _ _ _ E) as (x & -> & _). eexists. reflexivity.
Qed.

Lemma head_chars c0 l :
  forall p s caps rest,
    exec [Chars (c0 :: l)] p s = Some (caps, rest) -> exists s', s = c0 :: s'.
Proof.
  intros p s caps rest E.
  destruct (shape_chars _ _ _ _ _ E) as (-> & _). eexists. reflexivity.
Qed.

(** A line pattern [^a(.+)$] leaves alone a string of one line that does
    not start with the first unit of [a]. *)
Lemma replace_line_idle ca a t s :
  forallb dot s = true ->
  match s with c :: _ => c <> ca | [] => True end ->
  replace [Bol; Chars (ca :: a); Grp [Rep true 1 dot]; Eol] t s = s.
Proof.
  intros Hs Hc. unfold replace.
  apply (replace_from_idle _
           (fun p s => forallb dot s = true
                       /\ match p with
                          | None => match s with c :: _ => c <> ca | [] => True end
                          | Some c => is_line_terminator c = false
                          end)); [| |split; assumption].
  - intros p s0 [_ H0]. destruct (exec _ p s0) as [[caps rest]|] eqn:E; [|reflexivity].
    destruct (shape_line _ _ _ _ _ E) as (x & -> & _ & _ & B).
    destruct p as [c|]; simpl in *; [congruence | contradiction].
  - intros p c s0 [H0 _]. simpl in H0. apply andb_true_iff in H0 as [Hd H0].
    split; [exact H0|]. unfold dot in Hd. apply negb_true_iff in Hd. exact Hd.
Qed.

(* ================================================================= *)
(** ** The link pattern on a link *)

Lemma last_unit_cons a x p : last_unit (a :: x) p = last_unit x (Some a).
Proof.
  unfold last_unit. simpl. destruct (rev x) as [|c r] eqn:E; reflexivity.
Qed.

(** A greedy class repetition stops where the class ends, if the rest of the
    pattern matches there. *)
Lemma rep_greedy_max R cls (k : option N -> jstring -> option R) c r res :
  cls c = false ->
  forall x min p,
    forallb cls x = true -> min <= List.length x ->
    k (last_unit x p) (c :: r) = Some res ->
    rep_greedy cls min p (x ++ c :: r) k = Some res.
Proof.
  intros Hc. induction x as [|a x IH]; intros min p Hx Hm K.
  - simpl in *. rewrite Hc. destruct min; [exact K | lia].
  - simpl in Hx. apply andb_true_iff in Hx as [Ha Hx].
    rewrite last_unit_cons in K.
    cbn [app rep_greedy]. rewrite Ha.
    rewrite (IH (pred min) (Some a) Hx); [reflexivity | simpl in Hm; lia | exact K].
Qed.

Lemma run_Chars R l p s caps (k : cont R) :
  run (Chars l) p (l ++ s) caps k = k (last_unit l p) s caps.
Proof. simpl. rewrite strip_prefix_app. reflexivity. Qed.

Lemma run_Grp_greedy R cls min p x c r caps (k : cont R) res :
  forallb cls x = true -> min <= List.length x -> cls c = false ->
  k (last_unit x p) (c :: r) (caps ++ [x]) = Some res ->
  run (Grp [Rep true min cls]) p (x ++ c :: r) caps k = Some res.
Proof.
  intros Hx Hm Hc K.
  change (run (Grp [Rep true min cls]) p (x ++ c :: r) caps k)
    with (rep_greedy cls min p (x ++ c :: r)
            (fun p' s' =>
               k p' s' (caps ++ [firstn (List.length (x ++ c :: r) - List.length s')
                                        (x ++ c :: r)]))).
  apply rep_greedy_max; try assumption.
  rewrite firstn_app_minus. exact K.
Qed.

Lemma exec_link text url p rest :
  text <> [] -> without 93 text = true ->
  url <> [] -> without 41 url = true ->
  exec Markdown.re_link p (markdown_of (Link text url) ++ rest)
  = Some ([text; url], rest).
Proof.
  intros Ht Ht' Hu Hu'. unfold exec, Markdown.re_link, markdown_of.
  rewrite <- !app_assoc.
  cbn [run_seq]. rewrite run_Chars.
  change (u "](" ++ url ++ u ")" ++ rest) with (93%N :: u "(" ++ url ++ u ")" ++ rest).
  apply run_Grp_greedy;
    [exact Ht' | destruct text; [congruence | simpl; lia] | reflexivity |].
  change (93%N :: u "(" ++ url ++ u ")" ++ rest) with (u "](" ++ url ++ u ")" ++ rest).
  rewrite run_Chars.
  change (u ")" ++ rest) with (41%N :: rest).
  apply run_Grp_greedy;
    [exact Hu' | destruct url; [congruence | simpl; lia] | reflexivity |].
  change (41%N :: rest) with (u ")" ++ rest).
  rewrite run_Chars. reflexivity.
Qed.

(* ================================================================= *)
(** ** The link pass on a document *)

Lemma exec_link_none p c s : c <> 91%N -> exec Markdown.re_link p (c :: s) = None.
Proof.
  intros Hc. destruct (exec Markdown.re_link p (c :: s)) as [[caps rest]|] eqn:E;
    [|reflexivity].
  destruct (shape_link _ _ _ _ E) as (x & y & H & _).
  simpl in H. injection H as -> _. congruence.
Qed.

Lemma without_cons x c s : without x (c :: s) = true -> c <> x /\ without x s = true.
Proof.
  unfold without, other_than. simpl. rewrite andb_true_iff, negb_true_iff, N.eqb_neq.
  tauto.
Qed.

Lemma link_pass_plain s x :
  without 91 x = true ->
  forall fuel p,
    replace_from (List.length x + fuel) Markdown.re_link Markdown.anchor p (x ++ s)
    = x ++ replace_from fuel Markdown.re_link Markdown.anchor (last_unit x p) s.
Proof.
  induction x as [|a x IH]; intros Hx fuel p; [reflexivity|].
  apply without_cons in Hx as [Ha Hx].
  cbn [List.length Nat.add app replace_from].
  rewrite (exec_link_none p a (x ++ s) Ha), (IH Hx fuel (Some a)), last_unit_cons.
  reflexivity.
Qed.

Lemma subst_anchor whole text url :
  subst Markdown.anchor whole [text; url] = anchor_of text url.
Proof.
  unfold Markdown.anchor, subst, anchor_of. cbn [flat_map nth pred].
  rewrite app_nil_r. reflexivity.
Qed.

Lemma link_pass_link text url rest fuel p :
  text <> [] -> without 93 text = true ->
  url <> [] -> without 41 url = true ->
  replace_from (S fuel) Markdown.re_link Markdown.anchor p
               (markdown_of (Link text url) ++ rest)
  = anchor_of text url
    ++ replace_from fuel Markdown.re_link Markdown.anchor
         (last_unit (markdown_of (Link text url)) p) rest.
Proof.
  intros Ht Ht' Hu Hu'. cbn [replace_from].
  rewrite (exec_link text url p rest Ht Ht' Hu Hu'), firstn_app_minus, subst_anchor.
  reflexivity.
Qed.

Lemma well_formed_link text url :
  well_formed (Link text url) = true ->
  text <> [] /\ without 93 text = true /\ url <> [] /\ without 41 url = true
  /\ forallb inert text = true /\ forallb inert url = true.
Proof.
  simpl. rewrite !andb_true_iff, !negb_true_iff.
  intros ((((((A & B) & C) & D) & E) & F) & G).
  repeat split; try assumption.
  - intros ->. discriminate.
  - intros ->. discriminate.
Qed.

Lemma link_pass doc :
  forallb well_formed doc = true ->
  forall fuel p,
    List.length (markdown_of_doc doc) < fuel ->
    replace_from fuel Markdown.re_link Markdown.anchor p (markdown_of_doc doc)
    = html_of_doc doc.
Proof.
  unfold markdown_of_doc, html_of_doc.
  induction doc as [|i doc IH]; intros Hd fuel p L.
  - destruct fuel; reflexivity.
  - simpl in Hd. apply andb_true_iff in Hd as [Hi Hd].
    cbn [map concat] in *. rewrite length_app in L.
    destruct i as [x | text url].
    + cbn [markdown_of html_of] in *.
      apply andb_true_iff in Hi as [_ Hx].
      replace fuel with (List.length x + (fuel - List.length x)) by lia.
      rewrite (link_pass_plain _ x Hx), (IH Hd); [reflexivity | lia].
    + destruct (well_formed_link _ _ Hi) as (Ht & Ht' & Hu & Hu' & _).
      destruct fuel as [|fuel]; [lia|].
      rewrite (link_pass_link text url _ fuel p Ht Ht' Hu Hu'), (IH Hd);
        [reflexivity|].
      assert (1 <= List.length (markdown_of (Link text url)))
        by (unfold markdown_of; rewrite length_app; simpl; lia).
      lia.
Qed.

(* ================================================================= *)
(** ** The other passes on a document *)

Lemma forallb_not_In (P : N -> bool) c s :
  P c = false -> forallb P s = true -> ~ In c s.
Proof.
  intros Hc Hs I. rewrite forallb_forall in Hs. specialize (Hs c I). congruence.
Qed.

Lemma forallb_weaken (P Q : N -> bool) s :
  (forall c, P c = true -> Q c = true) -> forallb P s = true -> forallb Q s = true.
Proof.
  intros H Hs. rewrite forallb_forall in *. intros c I. apply H, Hs, I.
Qed.

Lemma inert_calm c : inert c = true -> calm c = true.
Proof.
  unfold inert, calm. rewrite !negb_true_iff, !orb_false_iff.
  intros (((((_ & _) & _) & _) & B) & L). auto.
Qed.

Lemma inert_dot c : inert c = true -> dot c = true.
Proof.
  unfold inert, dot. rewrite !negb_true_iff, !orb_false_iff. tauto.
Qed.

Lemma calm_dot c : calm c = true -> dot c = true.
Proof.
  unfold calm, dot. rewrite !negb_true_iff, !orb_false_iff. tauto.
Qed.

Lemma markdown_of_doc_inert doc :
  forallb well_formed doc = true -> forallb inert (markdown_of_doc doc) = true.
Proof.
  unfold markdown_of_doc. induction doc as [|i doc IH]; intros Hd; [reflexivity|].
  simpl in Hd. apply andb_true_iff in Hd as [Hi Hd].
  cbn [map concat]. rewrite forallb_app, (IH Hd), andb_true_r.
  destruct i as [x | text url].
  - apply andb_true_iff in Hi as [Hx _]. exact Hx.
  - destruct (well_formed_link _ _ Hi) as (_ & _ & _ & _ & Ht & Hu).
    unfold markdown_of. rewrite !forallb_app, Ht, Hu. reflexivity.
Qed.

Lemma html_of_doc_calm doc :
  forallb well_formed doc = true -> forallb calm (html_of_doc doc) = true.
Proof.
  unfold html_of_doc. induction doc as [|i doc IH]; intros Hd; [reflexivity|].
  simpl in Hd. apply andb_true_iff in Hd as [Hi Hd].
  cbn [map concat]. rewrite forallb_app, (IH Hd), andb_true_r.
  destruct i as [x | text url].
  - apply andb_true_iff in Hi as [Hx _].
    exact (forallb_weaken _ _ _ inert_calm Hx).
  - destruct (well_formed_link _ _ Hi) as (_ & _ & _ & _ & Ht & Hu).
    unfold html_of, anchor_of.
    rewrite !forallb_app, (forallb_weaken _ _ _ inert_calm Ht),
      (forallb_weaken _ _ _ inert_calm Hu).
    reflexivity.
Qed.

Lemma html_of_doc_anchors doc :
  forallb well_formed doc = true -> safe_in anchor_tags (html_of_doc doc) = true.
Proof.
  unfold html_of_doc. induction doc as [|i doc IH]; intros Hd; [reflexivity|].
  simpl in Hd. apply andb_true_iff in Hd as [Hi Hd].
  cbn [map concat]. apply safe_in_app; [|exact (IH Hd)].
  destruct i as [x | text url].
  - apply andb_true_iff in Hi as [Hx _].
    apply no_lt_safe_in, (forallb_not_In inert); [reflexivity | exact Hx].
  - destruct (well_formed_link _ _ Hi) as (_ & _ & _ & _ & Ht & Hu).
    unfold html_of, anchor_of.
    apply safe_in_app; [reflexivity|].
    apply safe_in_app;
      [apply no_lt_safe_in, (forallb_not_In inert); [reflexivity | exact Hu]|].
    apply safe_in_app; [reflexivity|].
    apply safe_in_app;
      [apply no_lt_safe_in, (forallb_not_In inert); [reflexivity | exact Ht]|].
    reflexivity.
Qed.

Lemma html_of_doc_starts_plainly doc :
  starts_plainly (markdown_of_doc doc) = true ->
  starts_plainly (html_of_doc doc) = true.
Proof.
  unfold markdown_of_doc, html_of_doc.
  induction doc as [|i doc IH]; intros H; [reflexivity|].
  cbn [map concat] in *. destruct i as [[|c x] | text url].
  - exact (IH H).
  - exact H.
  - reflexivity.
Qed.

Lemma starts_plainly_head s c0 :
  starts_plainly s = true -> c0 = 35%N \/ c0 = 45%N ->
  match s with c :: _ => c <> c0 | [] => True end.
Proof.
  destruct s as [|c s]; [trivial|]. simpl.
  rewrite negb_true_iff, orb_false_iff, !N.eqb_neq.
  intros [A B] [-> | ->]; assumption.
Qed.

(** The escapes, the headers and the emphasis find nothing in the source of
    a document. *)
Lemma escape_html_doc s : forallb inert s = true -> Markdown.escape_html s = s.
Proof.
  intros H. unfold Markdown.escape_html.
  rewrite (replace_no_trigger Markdown.re_amp _ 38%N s (head_chars _ _));
    [|apply (forallb_not_In inert); [reflexivity | exact H]].
  rewrite (replace_no_trigger Markdown.re_lt _ 60%N s (head_chars _ _));
    [|apply (forallb_not_In inert); [reflexivity | exact H]].
  apply (replace_no_trigger Markdown.re_gt _ 62%N s (head_chars _ _)).
  apply (forallb_not_In inert); [reflexivity | exact H].
Qed.

Lemma inline_markup_doc doc :
  forallb well_formed doc = true ->
  starts_plainly (markdown_of_doc doc) = true ->
  Markdown.inline_markup (markdown_of_doc doc) = html_of_doc doc.
Proof.
  intros Hd Hs. pose proof (markdown_of_doc_inert doc Hd) as Hi.
  pose proof (html_of_doc_calm doc Hd) as Hc.
  pose proof (html_of_doc_starts_plainly doc Hs) as Hs'.
  assert (forall t, replace Markdown.re_h3 t (markdown_of_doc doc) = markdown_of_doc doc) as H3.
  { intros t. apply (replace_line_idle 35%N).
    - exact (forallb_weaken _ _ _ inert_dot Hi).
    - apply starts_plainly_head; auto. }
  assert (forall t, replace Markdown.re_h2 t (markdown_of_doc doc) = markdown_of_doc doc) as H2.
  { intros t. apply (replace_line_idle 35%N).
    - exact (forallb_weaken _ _ _ inert_dot Hi).
    - apply starts_plainly_head; auto. }
  assert (forall t, replace Markdown.re_h1 t (markdown_of_doc doc) = markdown_of_doc doc) as H1.
  { intros t. apply (replace_line_idle 35%N).
    - exact (forallb_weaken _ _ _ inert_dot Hi).
    - apply starts_plainly_head; auto. }
  assert (~ In 42%N (markdown_of_doc doc)) as Hstar
      by (apply (forallb_not_In inert); [reflexivity | exact Hi]).
  unfold Markdown.inline_markup.
  rewrite H3, H2, H1.
  rewrite (replace_no_trigger Markdown.re_bold_italic _ 42%N _ (head_delimited _ _ _ _ _ _) Hstar).
  rewrite (replace_no_trigger Markdown.re_bold _ 42%N _ (head_delimited _ _ _ _ _ _) Hstar).
  rewrite (replace_no_trigger Markdown.re_italic _ 42%N _ (head_delimited _ _ _ _ _ _) Hstar).
  assert (replace Markdown.re_link Markdown.anchor (markdown_of_doc doc) = html_of_doc doc)
    as -> by (apply link_pass; [exact Hd | lia]).
  rewrite (replace_no_trigger Markdown.re_code _ 96%N _ (head_delimited _ _ _ _ _ _));
    [|apply (forallb_not_In calm); [reflexivity | exact Hc]].
  assert (replace Markdown.re_item (Markdown.wrap_in "li") (html_of_doc doc)
          = html_of_doc doc) as ->.
  { apply (replace_line_idle 45%N).
    - exact (forallb_weaken _ _ _ calm_dot Hc).
    - apply starts_plainly_head; auto. }
  rewrite (replace_no_trigger Markdown.re_blank_line _ 10%N _ (head_chars _ _));
    [|apply (forallb_not_In calm); [reflexivity | exact Hc]].
  apply (replace_no_trigger Markdown.re_newline _ 10%N _ (head_chars _ _)).
  apply (forallb_not_In calm); [reflexivity | exact Hc].
Qed.

(** No item tag starts a string whose tags are anchor tags. *)
Lemma anchors_no_item p s :
  safe_in anchor_tags s = true -> exec Markdown.re_br_item_br p s = None.
Proof.
  intros H. destruct (exec _ p s) as [[caps rest]|] eqn:E; [|reflexivity].
  destruct (shape_br_item_br _ _ _ _ E) as (a & x & b & -> & _ & [-> | ->] & _);
    simpl in H; discriminate.
Qed.

Lemma anchors_no_li_tag p s :
  safe_in anchor_tags s = true -> exec Markdown.re_li_tag p s = None.
Proof.
  intros H. destruct (exec _ p s) as [[caps rest]|] eqn:E; [|reflexivity].
  destruct (shape_li_tag _ _ _ _ E) as (tag & [-> | ->] & -> & _);
    simpl in H; discriminate.
Qed.

Lemma anchors_step (p : option N) c s :
  safe_in anchor_tags (c :: s) = true -> safe_in anchor_tags s = true.
Proof. intros H. apply safe_in_cons in H as [_ H]. exact H. Qed.

Lemma tidy_items_doc s :
  safe_in anchor_tags s = true -> Markdown.tidy_items s = s.
Proof.
  intros H. unfold Markdown.tidy_items, replace.
  rewrite replace_from_whole.
  apply (replace_from_idle _ (fun _ s => safe_in anchor_tags s = true)
                           anchors_no_item anchors_step).
  exact H.
Qed.

Lemma jeqb_eq a : forall b, jeqb a b = true -> a = b.
Proof.
  induction a as [|x a IH]; intros [|y b] H; simpl in H; try discriminate.
  - reflexivity.
  - apply andb_true_iff in H as [E H]. apply N.eqb_eq in E.
    rewrite E, (IH b H). reflexivity.
Qed.

Lemma group_items_doc s :
  safe_in anchor_tags s = true ->
  Markdown.group_items false (split Markdown.re_li_tag s) = s.
Proof.
  intros H.
  assert (split Markdown.re_li_tag s = [s]) as ->.
  { unfold split. destruct s as [|c s']; [reflexivity|].
    apply (split_from_idle _ (fun _ s => safe_in anchor_tags s = true)
                           anchors_no_li_tag anchors_step).
    exact H. }
  cbn [Markdown.group_items].
  destruct (jeqb s (u "<li>")) eqn:E1;
    [apply jeqb_eq in E1; subst s; simpl in H; discriminate|].
  destruct (jeqb s (u "</li>")) eqn:E2;
    [apply jeqb_eq in E2; subst s; simpl in H; discriminate|].
  apply app_nil_r.
Qed.

Lemma render_doc doc :
  forallb well_formed doc = true ->
  starts_plainly (markdown_of_doc doc) = true ->
  Markdown.render (markdown_of_doc doc) = u "<p>" ++ html_of_doc doc ++ u "</p>".
Proof.
  intros Hd Hs. unfold Markdown.render.
  rewrite (escape_html_doc _ (markdown_of_doc_inert doc Hd)).
  rewrite (inline_markup_doc doc Hd Hs).
  rewrite (tidy_items_doc _ (html_of_doc_anchors doc Hd)).
  rewrite (group_items_doc _ (html_of_doc_anchors doc Hd)).
  reflexivity.
Qed.

(* ================================================================= *)
(** ** Every anchor carries its attributes *)

Local Notation "'OPEN'" := Markdown.anchor_open.
Local Notation "'ATTRS'" := Markdown.anchor_attrs.

Lemma occurs_app_l l x y : occurs l x -> occurs l (x ++ y).
Proof. intros (a & b & ->). exists a, (b ++ y). rewrite <- !app_assoc. reflexivity. Qed.

Lemma occurs_app_r l x y : occurs l y -> occurs l (x ++ y).
Proof. intros (a & b & ->). exists (x ++ a), b. rewrite <- !app_assoc. reflexivity. Qed.

(** An occurrence does not reach over a unit that the string lacks. *)
Lemma occurs_skip l d x y :
  ~ In d l -> occurs l (x ++ d :: y) -> occurs l x \/ occurs l y.
Proof.
  intros Hd (a & b & E).
  apply app_eq_app in E as (k & [[-> E] | [-> E]]).
  - apply app_eq_app in E as (k' & [[-> E] | [-> E]]).
    + destruct k' as [|c k'].
      * left. exists a, []. rewrite !app_nil_r. reflexivity.
      * injection E as -> _. exfalso. apply Hd, in_or_app. right. left. reflexivity.
    + left. exists a, k'. reflexivity.
  - destruct k as [|c k].
    + destruct l as [|c l].
      * left. exists x, []. rewrite !app_nil_r. reflexivity.
      * injection E as -> _. exfalso. apply Hd. left. reflexivity.
    + injection E as _ ->. right. exists k, b. reflexivity.
Qed.

(** An occurrence does not start at a unit other than its first. *)
Lemma occurs_drop c0 l w s :
  (forall c, In c w -> c <> c0) -> occurs (c0 :: l) (w ++ s) -> occurs (c0 :: l) s.
Proof.
  induction w as [|c w IH]; intros Hw H; [exact H|].
  apply IH; [intros c' I; apply Hw; right; exact I|].
  destruct H as ([|c' a] & b & E).
  - injection E as E _. exfalso. apply (Hw c); [left; reflexivity | exact E].
  - injection E as _ E. exists a, b. exact E.
Qed.

Lemma attrs_head : ATTRS = dq :: tl ATTRS.
Proof. reflexivity. Qed.

Lemma attrs_drop w s :
  forallb (other_than dq) w = true -> occurs ATTRS (w ++ s) -> occurs ATTRS s.
Proof.
  intros Hw. rewrite attrs_head. apply occurs_drop.
  intros c I. rewrite forallb_forall in Hw. specialize (Hw c I).
  unfold other_than in Hw. apply negb_true_iff, N.eqb_neq in Hw. exact Hw.
Qed.

Lemma attrs_skip d x y :
  in_attrs d = false -> occurs ATTRS (x ++ d :: y) -> occurs ATTRS x \/ occurs ATTRS y.
Proof.
  intros Hd. apply occurs_skip. intros I.
  assert (in_attrs d = true) as K
      by (apply existsb_exists; exists d; split; [exact I | apply N.eqb_refl]).
  congruence.
Qed.

Lemma mentions_anchor_spec x :
  mentions_anchor x = false -> forall pre post, x <> pre ++ OPEN ++ post.
Proof.
  induction x as [|c x IH]; intros H pre post E.
  - destruct pre; discriminate.
  - cbn [mentions_anchor] in H. apply orb_false_iff in H as [H1 H2].
    destruct pre as [|c' pre].
    + assert (starts_with OPEN (c :: x) = true) as K
          by (apply starts_with_spec; exists post; exact E).
      congruence.
    + injection E as _ E. exact (IH H2 pre post E).
Qed.

(* ----------------------------------------------------------------- *)
(** The algebra of [closed_upto]. *)

Lemma closed_mono (Z Z' : Prop) s :
  (Z -> Z') -> closed_upto Z s -> closed_upto Z' s.
Proof. intros HZ H pre post E. destruct (H pre post E); auto. Qed.

Lemma closed_suffix Z x y : closed_upto Z (x ++ y) -> closed_upto Z y.
Proof.
  intros H pre post ->. apply (H (x ++ pre) post). rewrite <- app_assoc. reflexivity.
Qed.

Lemma closed_free Z x : mentions_anchor x = false -> closed_upto Z x.
Proof. intros H pre post E. exfalso. exact (mentions_anchor_spec x H pre post E). Qed.

(** The tail of a whitelisted tag that starts where the tail of the anchor
    starts is the tail of the anchor. *)
Lemma whitelist_anchor_tail w z post :
  In (lt :: w) whitelist -> w ++ z = tl OPEN ++ post -> w = tl OPEN /\ z = post.
Proof.
  unfold whitelist. cbn [In].
  intros H E.
  repeat (destruct H as [H | H];
          [cbv in H; injection H as <-; simpl in E; unfold dq in E;
           first [discriminate | split; [reflexivity | congruence]]|]).
  destruct H.
Qed.

(** In a safe string, an anchor does not straddle a cut. *)
Lemma anchor_within x :
  safe x = true ->
  forall y pre post,
    x ++ y = pre ++ OPEN ++ post ->
    (exists q, x = pre ++ OPEN ++ q /\ post = q ++ y)
    \/ (exists pre', pre = x ++ pre' /\ y = pre' ++ OPEN ++ post).
Proof.
  induction x as [|c x IH]; intros Hx y pre post E.
  - right. exists pre. auto.
  - apply safe_cons in Hx as [A B]. destruct pre as [|c' pre].
    + left. change (OPEN ++ post) with (lt :: tl OPEN ++ post) in E.
      rewrite <- app_comm_cons in E. injection E as -> E.
      destruct (opens_tag_inv _ _ (A eq_refl)) as (w & r & I & _ & ->).
      rewrite <- app_assoc in E.
      destruct (whitelist_anchor_tail w (r ++ y) post I E) as (-> & <-).
      exists r. auto.
    + rewrite <- !app_comm_cons in E. injection E as -> E.
      destruct (IH B y pre post E) as [(q & -> & ->) | (pre' & -> & ->)].
      * left. exists q. auto.
      * right. exists pre'. auto.
Qed.

Lemma closed_app Z x y :
  safe x = true ->
  closed_upto (occurs ATTRS y \/ Z) x -> closed_upto Z y ->
  closed_upto Z (x ++ y).
Proof.
  intros Sx Hx Hy pre post E.
  destruct (anchor_within x Sx y pre post E) as [(q & E1 & ->) | (pre' & -> & E2)].
  - destruct (Hx pre q E1) as [K | [K | K]].
    + left. apply occurs_app_l, K.
    + left. apply occurs_app_r, K.
    + right. exact K.
  - exact (Hy pre' post E2).
Qed.

(** A part of a closed string, cut before a unit that the attributes lack. *)
Lemma closed_sub Z a x b :
  closed_upto Z (a ++ x ++ b) ->
  match b with [] => True | d :: _ => in_attrs d = false end ->
  closed_upto (occurs ATTRS b \/ Z) x.
Proof.
  intros H Hb pre post ->.
  destruct (H (a ++ pre) (post ++ b)) as [K | K].
  - rewrite <- !app_assoc. reflexivity.
  - destruct b as [|d b]; [rewrite app_nil_r in K; auto|].
    destruct (attrs_skip d post b Hb K) as [K' | K']; [auto|].
    right. left. apply (occurs_app_r ATTRS [d] b), K'.
  - auto.
Qed.

Lemma shift_over o :
  ~ In lt o ->
  forall P pre R,
    o ++ P = pre ++ lt :: R -> exists pre', pre = o ++ pre' /\ P = pre' ++ lt :: R.
Proof.
  induction o as [|a o IH]; intros Ho P pre R E.
  - exists pre. auto.
  - destruct pre as [|a' pre].
    + injection E as -> _. exfalso. apply Ho. left. reflexivity.
    + injection E as -> E.
      destruct (IH (fun I => Ho (or_intror I)) P pre R E) as (pre' & -> & ->).
      exists pre'. auto.
Qed.

Lemma closed_anchor Z P :
  occurs ATTRS P -> closed_upto Z P -> closed_upto Z (OPEN ++ P).
Proof.
  intros HL HP pre post E. destruct pre as [|c pre].
  - cbn [app] in E. apply app_inv_head in E. subst post. left. exact HL.
  - change (OPEN ++ P) with (lt :: tl OPEN ++ P) in E.
    change (OPEN ++ post) with (lt :: tl OPEN ++ post) in E.
    injection E as <- E.
    destruct (shift_over (tl OPEN) (fun I => ltac:(vm_compute in I; intuition discriminate))
                         P pre (tl OPEN ++ post) E)
      as (pre' & -> & E').
    exact (HP pre' post E').
Qed.

(* ----------------------------------------------------------------- *)
(** A global replace keeps the attributes behind every anchor. *)

Lemma replace_from_copies_by re t (P : N -> bool) :
  (forall p s caps rest,
      exec re p s = Some (caps, rest) -> exists c s', s = c :: s' /\ P c = false) ->
  forall w, forallb P w = true ->
  forall fuel p s,
  exists fuel' p',
    replace_from fuel re t p (w ++ s) = w ++ replace_from fuel' re t p' s.
Proof.
  intros Hhead. induction w as [|a w IH]; intros Hw fuel p s;
    [exists fuel, p; reflexivity|].
  simpl in Hw. apply andb_true_iff in Hw as [Ha Hw].
  destruct fuel as [|fuel].
  - exists 0, p. reflexivity.
  - cbn [replace_from app].
    destruct (exec re p (a :: w ++ s)) as [[caps rest]|] eqn:E.
    + destruct (Hhead _ _ _ _ E) as (c & s' & Hs & Hc).
      injection Hs as <- _. congruence.
    + destruct (IH Hw fuel (Some a) s) as (fuel' & p' & ->).
      exists fuel', p'. reflexivity.
Qed.

Section ReplaceAnchors.
Variable re : list regex.
Variable t : list piece.

Hypothesis match_head :
  forall p s caps rest,
    exec re p s = Some (caps, rest) ->
    exists c s', s = c :: s' /\ in_tag c = false /\ in_attrs c = false
                 /\ List.length rest < List.length s.

Hypothesis match_safe :
  forall p s caps rest,
    exec re p s = Some (caps, rest) ->
    safe s = true ->
    safe (subst t (firstn (List.length s - List.length rest) s) caps) = true.

(** Attributes that a match covers are written again. *)
Hypothesis match_occurs :
  forall p s caps rest,
    exec re p s = Some (caps, rest) ->
    occurs ATTRS s ->
    occurs ATTRS (subst t (firstn (List.length s - List.length rest) s) caps)
    \/ occurs ATTRS rest.

(** An anchor that is written again has its attributes in what is written
    or after the match. *)
Hypothesis match_closed :
  forall p s caps rest,
    exec re p s = Some (caps, rest) ->
    safe s = true ->
    forall Z, closed_upto Z s ->
              closed_upto (occurs ATTRS rest \/ Z)
                          (subst t (firstn (List.length s - List.length rest) s) caps).

Lemma replace_from_occurs fuel :
  forall p s, occurs ATTRS s -> occurs ATTRS (replace_from fuel re t p s).
Proof.
  induction fuel as [|fuel IH]; intros p s H; [exact H|].
  destruct H as (a & b & ->). destruct a as [|c a].
  - destruct (replace_from_copies_by re t in_attrs) with
      (w := ATTRS) (fuel := S fuel) (p := p) (s := b) as (fuel' & p' & E).
    + intros p0 s0 caps rest E.
      destruct (match_head _ _ _ _ E) as (c & s' & Hs & _ & Hc & _). eauto.
    + reflexivity.
    + cbn [app] in *. rewrite E. exists [], (replace_from fuel' re t p' b). reflexivity.
  - cbn [replace_from].
    assert (occurs ATTRS (c :: replace_from fuel re t (Some c) (a ++ ATTRS ++ b))) as Copy.
    { apply (occurs_app_r ATTRS [c]), IH. exists a, b. reflexivity. }
    rewrite <- app_comm_cons.
    destruct (exec re p (c :: a ++ ATTRS ++ b)) as [[caps rest]|] eqn:E; [|exact Copy].
    destruct (match_head _ _ _ _ E) as (c' & s' & _ & _ & _ & Len).
    rewrite (firstn_match_nonempty _ _ (exec_suffix _ _ _ _ _ E) Len).
    destruct (match_occurs _ _ _ _ E) as [K | K].
    + exists (c :: a), b. reflexivity.
    + apply occurs_app_l, K.
    + apply occurs_app_r, IH, K.
Qed.

Lemma replace_from_closed fuel :
  forall p s Z,
    safe s = true -> closed_upto Z s -> closed_upto Z (replace_from fuel re t p s).
Proof.
  induction fuel as [|fuel IH]; intros p s Z Hs H; [exact H|].
  cbn [replace_from].
  destruct (exec re p s) as [[caps rest]|] eqn:E.
  - destruct (match_head _ _ _ _ E) as (c' & s' & _ & _ & _ & Len).
    rewrite (firstn_match_nonempty _ _ (exec_suffix _ _ _ _ _ E) Len).
    destruct (exec_suffix _ _ _ _ _ E) as (m & Hm).
    apply closed_app.
    + exact (match_safe _ _ _ _ E Hs).
    + apply (closed_mono (occurs ATTRS rest \/ Z));
        [|exact (match_closed _ _ _ _ E Hs Z H)].
      intros [K | K]; [left; apply replace_from_occurs, K | right; exact K].
    + apply IH; rewrite Hm in *.
      * exact (safe_suffix _ _ Hs).
      * exact (closed_suffix _ _ _ H).
  - destruct s as [|c s']; [apply closed_free; reflexivity|].
    intros pre post E'. destruct pre as [|c' pre].
    + change (OPEN ++ post) with (lt :: tl OPEN ++ post) in E'.
      cbn [app] in E'. injection E' as -> E'.
      apply safe_cons in Hs as [A B].
      destruct (opens_tag_inv _ _ (A eq_refl)) as (w & r & I & _ & ->).
      destruct (replace_from_copies_by re t in_tag) with
        (w := w) (fuel := fuel) (p := Some lt) (s := r) as (fuel' & p' & Ec).
      * intros p0 s0 caps rest E0.
        destruct (match_head _ _ _ _ E0) as (c & s'' & Hs' & Hc & _). eauto.
      * exact (tail_in_tag_in whitelist w I).
      * rewrite Ec in E'.
        destruct (whitelist_anchor_tail w _ post I E') as (-> & <-).
        destruct (H [] r eq_refl) as [K | K]; [|right; exact K].
        left. apply replace_from_occurs, K.
    + rewrite <- app_comm_cons in E'. injection E' as -> E'.
      apply safe_cons in Hs as [_ B].
      exact (IH (Some c') s' Z B (closed_suffix Z [c'] s' H) pre post E').
Qed.

Lemma replace_closed s Z :
  safe s = true -> closed_upto Z s -> closed_upto Z (replace re t s).
Proof. apply replace_from_closed. Qed.
End ReplaceAnchors.

(* ----------------------------------------------------------------- *)
(** The passes after the link pass. *)

Lemma line_terminator_not_in_attrs c : is_line_terminator c = true -> in_attrs c = false.
Proof.
  unfold is_line_terminator. rewrite !orb_true_iff, !N.eqb_eq.
  intros [[[-> | ->] | ->] | ->]; vm_compute; reflexivity.
Qed.

Lemma wrap_occurs o x c : occurs ATTRS x -> occurs ATTRS (o ++ x ++ c).
Proof. intros H. apply occurs_app_r, occurs_app_l, H. Qed.

(** [o ++ x ++ c] where [x] is a part of a closed string. *)
Lemma wrap_closed Z o c a x b rest :
  safe o = true -> mentions_anchor o = false ->
  safe c = true -> mentions_anchor c = false ->
  safe x = true ->
  closed_upto Z (a ++ x ++ b) ->
  match b with [] => True | d :: _ => in_attrs d = false end ->
  (occurs ATTRS b -> occurs ATTRS rest) ->
  closed_upto (occurs ATTRS rest \/ Z) (o ++ x ++ c).
Proof.
  intros So Mo Sc Mc Sx H Hb Hr.
  apply closed_app; [exact So | apply closed_free, Mo|].
  apply closed_app; [exact Sx | | apply closed_free, Mc].
  apply (closed_mono (occurs ATTRS b \/ Z)); [|exact (closed_sub Z a x b H Hb)].
  intros [K | K]; auto.
Qed.

Lemma code_closed s Z :
  safe s = true -> closed_upto Z s ->
  closed_upto Z (replace Markdown.re_code (Markdown.wrap_in "code") s).
Proof.
  apply replace_closed.
  - intros p s0 caps rest E.
    destruct (shape_delimited _ _ _ _ _ _ _ _ _ E) as (x & -> & _).
    exists 96%N, (x ++ u "`" ++ rest). repeat split; auto. len.
  - intros p s0 caps rest E Hs.
    destruct (shape_delimited _ _ _ _ _ _ _ _ _ E) as (x & -> & -> & _).
    unfold Markdown.wrap_in. rewrite subst_wrap.
    apply safe_app; [reflexivity|]. apply safe_app; [|reflexivity].
    apply (safe_suffix (u "`")) in Hs. apply (safe_cut x _ Hs). reflexivity.
  - intros p s0 caps rest E H.
    destruct (shape_delimited _ _ _ _ _ _ _ _ _ E) as (x & -> & -> & _).
    unfold Markdown.wrap_in. rewrite subst_wrap.
    apply (attrs_drop (u "`")) in H; [|reflexivity].
    destruct (attrs_skip 96%N x rest eq_refl H) as [K | K];
      [left; apply wrap_occurs, K | right; exact K].
  - intros p s0 caps rest E Hs Z0 H.
    destruct (shape_delimited _ _ _ _ _ _ _ _ _ E) as (x & -> & -> & _).
    unfold Markdown.wrap_in. rewrite subst_wrap.
    apply (wrap_closed Z0 _ _ (u "`") x (u "`" ++ rest) rest);
      try reflexivity; try exact H.
    + apply (safe_suffix (u "`")) in Hs. apply (safe_cut x _ Hs). reflexivity.
    + apply (attrs_drop (u "`")). reflexivity.
Qed.

Lemma item_closed s Z :
  safe s = true -> closed_upto Z s ->
  closed_upto Z (replace Markdown.re_item (Markdown.wrap_in "li") s).
Proof.
  apply replace_closed.
  - intros p s0 caps rest E.
    destruct (shape_line _ _ _ _ _ E) as (x & -> & _).
    exists 45%N, (u " " ++ x ++ rest). repeat split; auto. len.
  - intros p s0 caps rest E Hs.
    destruct (shape_line _ _ _ _ _ E) as (x & -> & -> & Eo & _).
    unfold Markdown.wrap_in. rewrite subst_wrap.
    apply safe_app; [reflexivity|]. apply safe_app; [|reflexivity].
    apply (safe_suffix (u "- ")) in Hs. apply (safe_cut x _ Hs).
    apply at_eol_not_in_tag, Eo.
  - intros p s0 caps rest E H.
    destruct (shape_line _ _ _ _ _ E) as (x & -> & -> & Eo & _).
    unfold Markdown.wrap_in. rewrite subst_wrap.
    apply (attrs_drop (u "- ")) in H; [|reflexivity].
    destruct rest as [|d rest].
    + rewrite app_nil_r in H. left. apply wrap_occurs, H.
    + destruct (attrs_skip d x rest (line_terminator_not_in_attrs d Eo) H) as [K | K].
      * left. apply wrap_occurs, K.
      * right. apply (occurs_app_r ATTRS [d] rest), K.
  - intros p s0 caps rest E Hs Z0 H.
    destruct (shape_line _ _ _ _ _ E) as (x & -> & -> & Eo & _).
    unfold Markdown.wrap_in. rewrite subst_wrap.
    apply (wrap_closed Z0 _ _ (u "- ") x rest rest);
      try reflexivity; try exact H.
    + apply (safe_suffix (u "- ")) in Hs. apply (safe_cut x _ Hs).
      apply at_eol_not_in_tag, Eo.
    + destruct rest as [|d rest]; [trivial|].
      apply line_terminator_not_in_attrs, Eo.
    + trivial.
Qed.

Lemma chars_closed c0 l o s Z :
  in_tag c0 = false -> in_attrs c0 = false ->
  forallb (other_than dq) (c0 :: l) = true ->
  safe o = true -> mentions_anchor o = false ->
  safe s = true -> closed_upto Z s ->
  closed_upto Z (replace [Chars (c0 :: l)] [Lit o] s).
Proof.
  intros Hc Ha Hq So Mo. apply replace_closed.
  - intros p s0 caps rest E.
    destruct (shape_chars _ _ _ _ _ E) as (-> & _).
    exists c0, (l ++ rest). repeat split; auto. len.
  - intros p s0 caps rest E Hs. simpl. rewrite app_nil_r. exact So.
  - intros p s0 caps rest E H.
    destruct (shape_chars _ _ _ _ _ E) as (-> & _).
    right. exact (attrs_drop _ _ Hq H).
  - intros p s0 caps rest E Hs Z0 H. simpl. rewrite app_nil_r.
    apply closed_free, Mo.
Qed.

Lemma br_item_br_closed s Z :
  safe s = true -> closed_upto Z s ->
  closed_upto Z (replace Markdown.re_br_item_br [Cap 1] s).
Proof.
  assert (forall a, a = [] \/ a = br -> forallb (other_than dq) a = true) as Hbr
      by (intros a [-> | ->]; reflexivity).
  apply replace_closed.
  - intros p s0 caps rest E.
    destruct (shape_br_item_br _ _ _ _ E) as (a & x & b & -> & _ & Ha & _).
    exists lt. destruct Ha as [-> | ->]; eexists; (split; [reflexivity|]);
      (split; [reflexivity|]); (split; [reflexivity|]);
        unfold br, li_open, li_close, u; simpl; len.
  - intros p s0 caps rest E Hs.
    destruct (shape_br_item_br _ _ _ _ E) as (a & x & b & -> & -> & _ & _).
    unfold subst. cbn [flat_map nth pred]. rewrite app_nil_r.
    apply (safe_suffix a) in Hs. rewrite <- !app_assoc in Hs.
    rewrite (app_assoc li_open x) in Hs.
    rewrite (app_assoc li_open x). apply safe_app; [|reflexivity].
    apply (safe_cut _ _ Hs). reflexivity.
  - intros p s0 caps rest E H.
    destruct (shape_br_item_br _ _ _ _ E) as (a & x & b & -> & -> & Ha & Hb).
    unfold subst. cbn [flat_map nth pred]. rewrite app_nil_r.
    apply (attrs_drop a) in H; [|exact (Hbr a Ha)].
    rewrite <- !app_assoc in H.
    apply (attrs_drop li_open) in H; [|reflexivity].
    destruct (attrs_skip lt x (tl li_close ++ b ++ rest) eq_refl H) as [K | K].
    + left. apply wrap_occurs, K.
    + right. apply (attrs_drop (tl li_close)) in K; [|reflexivity].
      exact (attrs_drop b _ (Hbr b Hb) K).
  - intros p s0 caps rest E Hs Z0 H.
    destruct (shape_br_item_br _ _ _ _ E) as (a & x & b & -> & -> & Ha & Hb).
    unfold subst. cbn [flat_map nth pred]. rewrite app_nil_r.
    apply (wrap_closed Z0 li_open li_close (a ++ li_open) x (li_close ++ b ++ rest) rest);
      try reflexivity.
    + apply (safe_suffix a) in Hs. rewrite <- !app_assoc in Hs.
      apply (safe_suffix li_open) in Hs. apply (safe_cut x _ Hs). reflexivity.
    + rewrite <- !app_assoc in *. exact H.
    + intros K. apply (attrs_drop li_close) in K; [|reflexivity].
      exact (attrs_drop b _ (Hbr b Hb) K).
Qed.

Lemma after_links_closed s Z :
  safe s = true -> closed_upto Z s -> closed_upto Z (after_links s).
Proof.
  intros Hs H. unfold after_links.
  assert (safe (replace Markdown.re_code (Markdown.wrap_in "code") s) = true) as S1
      by (apply safe_delimited; try reflexivity; exact Hs).
  assert (safe (replace Markdown.re_item (Markdown.wrap_in "li")
                        (replace Markdown.re_code (Markdown.wrap_in "code") s)) = true)
    as S2 by (apply safe_line; try reflexivity; exact S1).
  assert (safe (replace Markdown.re_blank_line [Lit (u "</p><p>")]
                  (replace Markdown.re_item (Markdown.wrap_in "li")
                     (replace Markdown.re_code (Markdown.wrap_in "code") s))) = true)
    as S3 by (apply safe_chars; try reflexivity; exact S2).
  apply chars_closed; try reflexivity; [exact S3|].
  apply chars_closed; try reflexivity; [exact S2|].
  apply item_closed; [exact S1|].
  apply code_closed; assumption.
Qed.

Lemma tidy_items_closed s Z :
  safe s = true -> closed_upto Z s -> closed_upto Z (Markdown.tidy_items s).
Proof.
  intros Hs H. unfold Markdown.tidy_items, replace at 2.
  rewrite replace_from_whole. apply br_item_br_closed; assumption.
Qed.

(* ----------------------------------------------------------------- *)
(** Before the link pass there is no anchor. *)

Lemma safe_in_mono W W' s :
  incl W W' -> safe_in W s = true -> safe_in W' s = true.
Proof.
  intros HW. induction s as [|c s IH]; intros H; [reflexivity|].
  apply safe_in_cons in H as [A B]. apply safe_in_cons. split; [|exact (IH B)].
  intros E. specialize (A E). unfold opens_tag_in in *.
  rewrite existsb_exists in *. destruct A as (t & I & K). exists t. auto.
Qed.

Lemma early_tags_whitelisted : incl early_tags whitelist.
Proof.
  unfold incl, early_tags, whitelist. cbn [In]. intros t H.
  repeat (destruct H as [<- | H]; [tauto|]). destruct H.
Qed.

Lemma early_safe s : safe_in early_tags s = true -> safe s = true.
Proof. apply safe_in_mono, early_tags_whitelisted. Qed.

Lemma early_no_anchor s : safe_in early_tags s = true -> mentions_anchor s = false.
Proof.
  induction s as [|c s IH]; intros H; [reflexivity|].
  apply safe_in_cons in H as [A B]. cbn [mentions_anchor].
  rewrite (IH B), orb_false_r.
  destruct (starts_with OPEN (c :: s)) eqn:E; [|reflexivity].
  apply starts_with_spec in E as (r & E).
  change (OPEN ++ r) with (lt :: 97%N :: tl (tl OPEN) ++ r) in E.
  injection E as -> ->. specialize (A eq_refl). simpl in A. discriminate.
Qed.

Lemma before_links_early s :
  safe_in early_tags s = true -> safe_in early_tags (before_links s) = true.
Proof.
  intros H. unfold before_links.
  apply (safe_in_delimited early_tags early_tags_head); try reflexivity.
  apply (safe_in_delimited early_tags early_tags_head); try reflexivity.
  apply (safe_in_delimited early_tags early_tags_head); try reflexivity.
  apply (safe_in_line early_tags early_tags_head line_terminator_not_in_early_tag);
    try reflexivity.
  apply (safe_in_line early_tags early_tags_head line_terminator_not_in_early_tag);
    try reflexivity.
  apply (safe_in_line early_tags early_tags_head line_terminator_not_in_early_tag);
    try reflexivity.
  exact H.
Qed.

Lemma inline_markup_split s :
  Markdown.inline_markup s
  = after_links (replace Markdown.re_link Markdown.anchor (before_links s)).
Proof.
  cbv beta zeta delta [Markdown.inline_markup after_links before_links].
  reflexivity.
Qed.

(* ----------------------------------------------------------------- *)
(** The link pass writes every anchor with its attributes. *)

Lemma link_head p s caps rest :
  exec Markdown.re_link p s = Some (caps, rest) ->
  exists c s', s = c :: s' /\ in_tag_in early_tags c = false.
Proof.
  intros E. destruct (shape_link _ _ _ _ E) as (x & y & -> & _).
  exists 91%N. eexists. split; reflexivity.
Qed.

Lemma anchor_closed Z text url X :
  safe_in early_tags text = true -> safe_in early_tags url = true ->
  closed_upto Z X ->
  closed_upto Z (anchor_of text url ++ X).
Proof.
  intros Ht Hu HX. unfold anchor_of. rewrite <- !app_assoc.
  apply closed_anchor.
  - exists url, (text ++ u "</a>" ++ X). reflexivity.
  - apply closed_app; [exact (early_safe _ Hu) | apply closed_free, early_no_anchor, Hu|].
    apply closed_app; [reflexivity | apply closed_free; reflexivity|].
    apply closed_app; [exact (early_safe _ Ht) | apply closed_free, early_no_anchor, Ht|].
    apply closed_app; [reflexivity | apply closed_free; reflexivity | exact HX].
Qed.

Lemma early_anchor_tail w z post :
  In (lt :: w) early_tags -> w ++ z = tl OPEN ++ post -> False.
Proof.
  unfold early_tags. cbn [In]. intros H E.
  repeat (destruct H as [H | H];
          [cbv in H; injection H as <-; simpl in E; discriminate|]).
  destruct H.
Qed.

Lemma link_pass_closed fuel :
  forall p s Z,
    safe_in early_tags s = true ->
    closed_upto Z (replace_from fuel Markdown.re_link Markdown.anchor p s).
Proof.
  induction fuel as [|fuel IH]; intros p s Z Hs;
    [apply closed_free, early_no_anchor, Hs|].
  cbn [replace_from].
  destruct (exec Markdown.re_link p s) as [[caps rest]|] eqn:E.
  - destruct (shape_link _ _ _ _ E) as (x & y & -> & -> & _).
    replace (u "[" ++ x ++ u "](" ++ y ++ u ")" ++ rest)
      with ((u "[" ++ x ++ u "](" ++ y ++ u ")") ++ rest)
      by (rewrite <- !app_assoc; reflexivity).
    rewrite firstn_app_minus, subst_anchor.
    change (is_nil (u "[" ++ x ++ u "](" ++ y ++ u ")")) with false. cbv iota.
    apply (safe_in_suffix early_tags (u "[")) in Hs.
    apply anchor_closed.
    + apply (safe_in_cut early_tags early_tags_head x _ Hs). reflexivity.
    + apply (safe_in_suffix early_tags x) in Hs.
      apply (safe_in_suffix early_tags (u "](")) in Hs.
      apply (safe_in_cut early_tags early_tags_head y _ Hs). reflexivity.
    + apply IH. apply (safe_in_suffix early_tags x) in Hs.
      apply (safe_in_suffix early_tags (u "](")) in Hs.
      apply (safe_in_suffix early_tags y) in Hs.
      exact (safe_in_suffix early_tags (u ")") _ Hs).
  - destruct s as [|c s']; [apply closed_free; reflexivity|].
    intros pre post E'. destruct pre as [|c' pre].
    + change (OPEN ++ post) with (lt :: tl OPEN ++ post) in E'.
      cbn [app] in E'. injection E' as -> E'.
      apply safe_in_cons in Hs as [A B].
      destruct (opens_tag_in_inv early_tags early_tags_head _ _ (A eq_refl))
        as (w & r & I & _ & ->).
      destruct (replace_from_copies_by Markdown.re_link Markdown.anchor
                  (in_tag_in early_tags) link_head w
                  (tail_in_tag_in early_tags w I) fuel (Some lt) r)
        as (fuel' & p' & Ec).
      rewrite Ec in E'. destruct (early_anchor_tail w _ post I E').
    + rewrite <- app_comm_cons in E'. injection E' as -> E'.
      apply safe_in_cons in Hs as [_ B].
      exact (IH (Some c') s' Z B pre post E').
Qed.

(* ----------------------------------------------------------------- *)
(** The grouping loop. *)

Lemma split_from_concat fuel :
  forall p acc s, concat (split_from fuel Markdown.re_li_tag p acc s) = acc ++ s.
Proof.
  induction fuel as [|fuel IH]; intros p acc s; cbn [split_from].
  - simpl. apply app_nil_r.
  - destruct s as [|c s']; [simpl; rewrite !app_nil_r; reflexivity|].
    assert (concat (split_from fuel Markdown.re_li_tag (Some c) (acc ++ [c]) s')
            = acc ++ c :: s') as Skip
        by (rewrite IH, <- app_assoc; reflexivity).
    destruct (exec Markdown.re_li_tag p (c :: s')) as [[caps rest]|] eqn:E;
      [|exact Skip].
    destruct (is_nil _ && is_nil acc); [exact Skip|].
    destruct (shape_li_tag _ _ _ _ E) as (tag & _ & -> & ->).
    cbn [concat app]. rewrite IH. simpl. reflexivity.
Qed.

Lemma split_concat s : concat (split Markdown.re_li_tag s) = s.
Proof.
  unfold split. destruct s as [|c s']; [reflexivity|].
  apply split_from_concat.
Qed.

Lemma split_from_separated fuel :
  forall p acc s, separated (split_from fuel Markdown.re_li_tag p acc s).
Proof.
  induction fuel as [|fuel IH]; intros p acc s; cbn [split_from].
  - simpl. auto.
  - destruct s as [|c s']; [simpl; auto|].
    destruct (exec Markdown.re_li_tag p (c :: s')) as [[caps rest]|] eqn:E;
      [|apply IH].
    destruct (is_nil _ && is_nil acc); [apply IH|].
    destruct (shape_li_tag _ _ _ _ E) as (tag & Ht & _ & ->).
    cbn [app separated]. split; [|split].
    + right. destruct Ht as [-> | ->]; eexists; reflexivity.
    + left. destruct Ht as [-> | ->]; reflexivity.
    + apply IH.
Qed.

Lemma split_separated s : separated (split Markdown.re_li_tag s).
Proof.
  unfold split. destruct s as [|c s'].
  - destruct (exec _ _ _); simpl; auto.
  - apply split_from_separated.
Qed.

Lemma attrs_not_nil : ~ occurs ATTRS [].
Proof. intros ([|c a] & b & E); discriminate. Qed.

(** Attributes after a piece that an item tag follows lie in the piece or
    after the tag. *)
Lemma separated_occurs l rest :
  match rest with [] => True | t :: _ => exists r, t = lt :: r end ->
  occurs ATTRS (l ++ concat rest) -> occurs ATTRS l \/ occurs ATTRS (concat rest).
Proof.
  destruct rest as [|t rest]; intros Ht H.
  - simpl in H. rewrite app_nil_r in H. auto.
  - destruct Ht as (r & ->). cbn [concat app] in *.
    destruct (attrs_skip lt l _ eq_refl H) as [K | K]; [auto|].
    right. apply (occurs_app_r ATTRS [lt]), K.
Qed.

Lemma group_items_occurs lines :
  separated lines ->
  forall inList,
    occurs ATTRS (concat lines) -> occurs ATTRS (Markdown.group_items inList lines).
Proof.
  induction lines as [|l rest IH]; intros Hsep inList H;
    [destruct (attrs_not_nil H)|].
  destruct Hsep as [Hl Hsep]. cbn [concat Markdown.group_items] in *.
  destruct (jeqb l (u "<li>")) eqn:E1.
  - apply jeqb_eq in E1. subst l.
    apply (attrs_drop (u "<li>")) in H; [|reflexivity].
    apply occurs_app_r, occurs_app_r, IH; assumption.
  - destruct (jeqb l (u "</li>")) eqn:E2.
    + apply jeqb_eq in E2. subst l.
      apply (attrs_drop (u "</li>")) in H; [|reflexivity].
      apply occurs_app_r.
      destruct (negb (Markdown.next_is_li rest) && inList);
        [apply occurs_app_r|]; apply IH; assumption.
    + destruct Hl as [Hl | Hl];
        [unfold is_li_tag in Hl; rewrite E1, E2 in Hl; discriminate|].
      destruct (separated_occurs l rest Hl H) as [K | K].
      * apply occurs_app_l, K.
      * apply occurs_app_r, IH; assumption.
Qed.

Lemma group_items_closed lines :
  all_safe lines -> separated lines ->
  forall inList Z,
    closed_upto Z (concat lines) ->
    closed_upto Z (Markdown.group_items inList lines).
Proof.
  unfold all_safe. induction 1 as [|l rest Sl _ IH]; intros Hsep inList Z H.
  - cbn [Markdown.group_items]. destruct inList; apply closed_free; reflexivity.
  - destruct Hsep as [Hl Hsep]. cbn [concat Markdown.group_items] in *.
    pose proof (closed_suffix Z l (concat rest) H) as Hrest.
    destruct (jeqb l (u "<li>")) eqn:E1.
    + apply closed_app;
        [destruct (negb inList); reflexivity
        | destruct (negb inList); apply closed_free; reflexivity|].
      apply (closed_app Z (u "<li>")); [reflexivity | apply closed_free; reflexivity|].
      apply IH; assumption.
    + destruct (jeqb l (u "</li>")) eqn:E2.
      * apply (closed_app Z (u "</li>")); [reflexivity | apply closed_free; reflexivity|].
        destruct (negb (Markdown.next_is_li rest) && inList).
        -- apply (closed_app Z (u "</ul>"));
             [reflexivity | apply closed_free; reflexivity|].
           apply IH; assumption.
        -- apply IH; assumption.
      * destruct Hl as [Hl | Hl];
          [unfold is_li_tag in Hl; rewrite E1, E2 in Hl; discriminate|].
        apply closed_app; [exact Sl | | apply IH; assumption].
        intros pre post ->.
        destruct (H pre (post ++ concat rest)) as [K | K];
          [rewrite <- !app_assoc; reflexivity | | auto].
        destruct (separated_occurs post rest Hl K) as [K' | K']; [auto|].
        right. left. apply group_items_occurs; assumption.
Qed.

Lemma render_closed text : closed_upto False (Markdown.render text).
Proof.
  unfold Markdown.render.
  set (html := Markdown.tidy_items (Markdown.inline_markup (Markdown.escape_html text))).
  assert (safe_in early_tags (Markdown.escape_html text) = true) as S0
      by (apply no_lt_safe_in, escape_html_no_lt).
  assert (safe html = true) as Sh
      by (apply safe_tidy_items, safe_inline_markup, early_safe, S0).
  assert (closed_upto False html) as Ch.
  { unfold html. rewrite inline_markup_split.
    pose proof (before_links_early _ S0) as S1.
    assert (safe (replace Markdown.re_link Markdown.anchor
                          (before_links (Markdown.escape_html text))) = true) as S2
        by (apply safe_link, early_safe, S1).
    apply tidy_items_closed.
    - rewrite <- inline_markup_split.
      apply safe_inline_markup, early_safe, S0.
    - apply after_links_closed; [exact S2|].
      apply link_pass_closed, S1. }
  apply (closed_app False (u "<p>")); [reflexivity | apply closed_free; reflexivity|].
  apply closed_app.
  - apply group_items_safe, split_safe, Sh.
  - apply (closed_mono False); [tauto|].
    apply group_items_closed;
      [apply split_safe, Sh | apply split_separated | rewrite split_concat; exact Ch].
  - apply closed_free. reflexivity.
Qed.

(* ================================================================= *)
(** ** Links *)



(** C8 (what the code does). The double quote is not escaped, so the url of
    a link can close the [href] and write a [target] and a [rel] of its own
    ahead of those of the renderer.  Of two attributes with the same name
    the element keeps the first: the anchor below opens in the same tab and
    keeps its opener. *)
Theorem renderMarkdown_link_retargeted :
  let input :=
    u "[x](" ++ [dq] ++ u " target=" ++ [dq] ++ u "_self" ++ [dq]
      ++ u " rel=" ++ [dq] ++ u "opener)" in
  let anchor :=
    u "<a href=" ++ [dq; dq]
      ++ u " target=" ++ [dq] ++ u "_self" ++ [dq]
      ++ u " rel=" ++ [dq] ++ u "opener" ++ [dq]
      ++ u " target=" ++ [dq] ++ u "_blank" ++ [dq]
      ++ u " rel=" ++ [dq] ++ u "noopener" ++ [dq] ++ u ">" in
  renderMarkdown (str input) = Ok (u "<p>" ++ anchor ++ u "x</a></p>")
  /\ tags_of None (u "<p>" ++ anchor ++ u "x</a></p>")
     = [u "<p>"; anchor; u "</a>"; u "</p>"]
  /\ attribute (u "target") anchor = Some (u "_self")
  /\ attribute (u "rel") anchor = Some (u "opener").
Proof. vm_compute. repeat split; reflexivity. Qed.
(* ================================================================= *)
(** ** The session store *)

Section SessionStore.
Variable coerce : json -> res (option Z).

Lemma getSession_keeps_entry e entry :
  snd (getSession coerce e entry) = entry.
Proof. reflexivity. Qed.

Lemma getSession_object e fields ts :
  storage_ok e = true ->
  lookup (u "ts") fields = Val (JNum ts) ->
  fst (getSession coerce e (Some (Json (JObj fields)))) =
  if Z.ltb (now e - ts) SESSION_TTL
  then lookup (u "id") fields else null.
Proof.
  intros Hok Hts. unfold getSession. rewrite Hok. simpl.
  rewrite Hts. simpl. destruct (Z.ltb _ _); reflexivity.
Qed.

Lemma getSession_unusable e entry :
  unusable coerce entry -> fst (getSession coerce e entry) = null.
Proof.
  intros H. unfold getSession.
  destruct (storage_ok e); [|reflexivity].
  destruct H as [| |j Hf|j ts Ht Hts Hn]; try reflexivity.
  - unfold JSON_parse, bind. rewrite Hf. reflexivity.
  - unfold JSON_parse, bind. rewrite Ht, Hts.
    destruct Hn as [-> | ->]; reflexivity.
Qed.

(** C2 (as amended). A stored payload [{id, ts}] that is younger than
    [SESSION_TTL] gives back its id; one that is [SESSION_TTL] old or
    older gives [null]; so does an entry that is missing, is no JSON, is a
    falsy JSON value, or has no [ts] that converts to a number, and any
    entry when the storage cannot be read.  The entry stays in the store
    as it is in every case. *)
Theorem getSession_spec e id ts entry :
  (storage_ok e = true -> (now e - ts < SESSION_TTL)%Z ->
   getSession coerce e (payload_of id ts) = (Val id, payload_of id ts))
  /\ ((now e - ts >= SESSION_TTL)%Z ->
      getSession coerce e (payload_of id ts) = (null, payload_of id ts))
  /\ (unusable coerce entry -> getSession coerce e entry = (null, entry))
  /\ (storage_ok e = false -> getSession coerce e entry = (null, entry))
  /\ snd (getSession coerce e entry) = entry.
Proof.
  split; [|split; [|split; [|split]]].
  - intros Hok Hlt.
    rewrite (surjective_pairing (getSession coerce e (payload_of id ts))).
    rewrite getSession_keeps_entry.
    unfold payload_of.
    rewrite getSession_object with (ts := ts); [|assumption|reflexivity].
    apply Z.ltb_lt in Hlt. rewrite Hlt. reflexivity.
  - intros Hge.
    rewrite (surjective_pairing (getSession coerce e (payload_of id ts))).
    rewrite getSession_keeps_entry. f_equal.
    unfold getSession. destruct (storage_ok e); [|reflexivity].
    simpl. assert (Z.ltb (now e - ts) SESSION_TTL = false) as ->
        by (apply Z.ltb_ge; lia).
    reflexivity.
  - intros H.
    rewrite (surjective_pairing (getSession coerce e entry)).
    rewrite getSession_keeps_entry, (getSession_unusable e entry H). reflexivity.
  - intros H. unfold getSession. rewrite H. reflexivity.
  - reflexivity.
Qed.

End SessionStore.

(** C2 (as stated) fails: the payload is not checked for its shape.  A
    stored object with a fresh [ts] and no [id] (what [saveSession] writes
    for an id that is [undefined]) gives [undefined], not [null]. *)
Lemma getSession_without_id :
  let entry := Some (Json (JObj [(u "ts", JNum (now an_instant))])) in
  fst (getSession no_coercion an_instant entry) = Undefined
  /\ fst (getSession no_coercion an_instant entry) <> null.
Proof. vm_compute. split; [reflexivity | discriminate]. Qed.

(* ================================================================= *)
(** ** What one event does *)

Lemma greeting_fallback_not_nil : greeting_fallback <> [].
Proof. discriminate. Qed.

Lemma chat_fallback_not_nil : chat_fallback <> [].
Proof. discriminate. Qed.

Lemma render_greeting_fallback :
  Markdown.render greeting_fallback = greeting_fallback_html.
Proof. vm_compute. reflexivity. Qed.

Lemma render_chat_fallback : Markdown.render chat_fallback = chat_fallback_html.
Proof. vm_compute. reflexivity. Qed.

Lemma renderMarkdown_safe c h : renderMarkdown c = Ok h -> safe h = true.
Proof.
  unfold renderMarkdown. destruct (negb (truthy c)).
  - intros E. injection E as <-. reflexivity.
  - destruct c as [|[]]; try discriminate.
    intros E. injection E as <-. apply render_safe.
Qed.

Lemma failed_shape B (fallback : jstring) w :
  fallback <> [] ->
  settled (addMessage (str fallback) assistant (hideTyping B w))
  = set_messages (remove_typing B (messages w)
                    ++ [Message assistant (Html (Markdown.render fallback) 0)]) w.
Proof.
  intros Hf. unfold addMessage. rewrite (renderMarkdown_string fallback Hf).
  destruct w. reflexivity.
Qed.

(** What a call that settles leaves: the session id and the store as they
    were or as the response gave them, [hideTyping] run once or twice, one
    assistant message appended. *)
Lemma settled_shape B (fallback : jstring) e d w :
  fallback <> [] ->
  exists sid st l h,
    match greeting_received B e d w with
    | Done w' => w'
    | Thrown w' => settled (addMessage (str fallback) assistant (hideTyping B w'))
    end
    = set_messages (l ++ [Message assistant (Html h 0)])
                   (set_stored st (set_sessionId sid w))
    /\ (l = remove_typing B (messages w)
        \/ l = remove_typing B (remove_typing B (messages w)))
    /\ safe h = true
    /\ ((sid = sessionId w /\ st = stored w)
        \/ (get (Val d) (u "session_id") = Ok sid
            /\ st = saveSession e sid (stored w))).
Proof.
  intros Hf. destruct w as [sid0 op lo gr po ms iv ia ifo sd st0 sn tk].
  unfold greeting_received.
  destruct (get (Val d) (u "session_id")) as [id|] eqn:G.
  - destruct (get (Val d) (u "answer")) as [answer|] eqn:A.
    + unfold addMessage at 1.
      destruct (renderMarkdown answer) as [h|] eqn:R.
      * exists id, (saveSession e id st0), (remove_typing B ms), h.
        split; [reflexivity|]. split; [left; reflexivity|].
        split; [exact (renderMarkdown_safe _ _ R)|]. right. split; reflexivity.
      * unfold addMessage. rewrite (renderMarkdown_string fallback Hf).
        exists id, (saveSession e id st0),
               (remove_typing B (remove_typing B ms)), (Markdown.render fallback).
        split; [reflexivity|]. split; [right; reflexivity|].
        split; [apply render_safe|]. right. split; reflexivity.
    + unfold addMessage. rewrite (renderMarkdown_string fallback Hf).
      exists id, (saveSession e id st0),
             (remove_typing B (remove_typing B ms)), (Markdown.render fallback).
      split; [reflexivity|]. split; [right; reflexivity|].
      split; [apply render_safe|]. right. split; reflexivity.
  - unfold addMessage. rewrite (renderMarkdown_string fallback Hf).
    exists sid0, st0, (remove_typing B ms), (Markdown.render fallback).
    split; [reflexivity|]. split; [left; reflexivity|].
    split; [apply render_safe|]. left. split; reflexivity.
Qed.

Section Steps.
Variable B : browser.
Variable coerce : json -> res (option Z).

Lemma togglePanel_change w : change B coerce w Toggle (togglePanel B w).
Proof.
  destruct w as [sid0 op lo gr po ms iv ia ifo sd st0 sn tk].
  unfold togglePanel. simpl.
  destruct op; simpl; [apply quiet; reflexivity|].
  destruct gr; simpl.
  - destruct (first_with B input_id ms) as [[h k]|];
      [destruct (focusable B h k)|]; apply quiet; reflexivity.
  - destruct (first_with B input_id (ms ++ [Typing])) as [[h k]|];
      [destruct (focusable B h k)|]; apply greeting_started; reflexivity.
Qed.

Lemma sendMessage_change e w : change B coerce w (Send e) (sendMessage B coerce e w).
Proof.
  unfold sendMessage.
  destruct (planted B input_id (messages w)) eqn:P; [apply quiet; reflexivity|].
  destruct (is_nil (trim (input_value w)) || isLoading w) eqn:G;
    [apply quiet; reflexivity|].
  apply orb_false_iff in G as [G L].
  apply chat_started with
    (e := e) (m := trim (input_value w))
    (own := negb (planted B send_id (messages w)))
    (sid := if truthy (sessionId w) then sessionId w
            else fst (getSession coerce e (stored w)));
    try reflexivity; try assumption.
  - intros E. rewrite E in G. discriminate.
  - destruct w as [sid0 op lo gr po ms iv ia ifo sd st0 sn tk]. simpl.
    destruct (truthy sid0), (planted B send_id ms); unfold core; simpl;
      rewrite <- app_assoc; reflexivity.
Qed.

Lemma failed_change (fallback : jstring) i t ev w :
  fallback <> [] ->
  nth_error (tasks w) i = Some t ->
  change B coerce w ev
         (finally_of t
            (settled (addMessage (str fallback) assistant
                                 (hideTyping B (finish i w))))).
Proof.
  intros Hf T. rewrite (failed_shape B fallback _ Hf).
  apply call_settled with
    (i := i) (t := t) (sid := sessionId w) (st := stored w)
    (l := remove_typing B (messages w)) (h := Markdown.render fallback); auto.
  - apply render_safe.
  - destruct w as [sid0 op lo gr po ms iv ia ifo sd st0 sn tk].
    destruct t as [|data|[|]|[|] data]; reflexivity.
Qed.

Lemma received_change (fallback : jstring) i t e d w :
  fallback <> [] ->
  nth_error (tasks w) i = Some t ->
  change B coerce w (Parsed i e)
         (finally_of t
            match greeting_received B e d (finish i w) with
            | Done w' => w'
            | Thrown w' =>
                settled (addMessage (str fallback) assistant (hideTyping B w'))
            end).
Proof.
  intros Hf T.
  destruct (settled_shape B fallback e d (finish i w) Hf)
    as (sid & st & l & h & -> & Hl & Hh & Hs).
  apply call_settled with (i := i) (t := t) (sid := sid) (st := st) (l := l) (h := h);
    auto.
  - destruct Hs as [Hs | [_ Hs]]; [left; exact Hs|].
    right. exists e. split; [reflexivity | exact Hs].
  - destruct w as [sid0 op lo gr po ms iv ia ifo sd st0 sn tk].
    destruct t as [|data|[|]|[|] data]; reflexivity.
Qed.

Lemma fetched_change i r w : change B coerce w (Fetched i r) (fetched B i r w).
Proof.
  unfold fetched.
  destruct (nth_error (tasks w) i) as [t|] eqn:T; [|apply quiet; reflexivity].
  destruct t as [|data|own|own data]; try (apply quiet; reflexivity).
  - destruct r as [resp|].
    + apply resumed with (i := i) (t := GreetFetch) (t' := GreetJson (payload resp));
        auto.
    + apply (failed_change greeting_fallback i GreetFetch _ w
                           greeting_fallback_not_nil T).
  - pose proof (failed_change chat_fallback i (ChatFetch own) (Fetched i r) w
                              chat_fallback_not_nil T) as K.
    destruct r as [resp|]; [|exact K].
    destruct (negb (ok resp)); [exact K|].
    apply resumed with (i := i) (t := ChatFetch own)
                       (t' := ChatJson own (payload resp)); auto.
Qed.

Lemma parsed_change i e w : change B coerce w (Parsed i e) (parsed B i e w).
Proof.
  unfold parsed.
  destruct (nth_error (tasks w) i) as [t|] eqn:T; [|apply quiet; reflexivity].
  destruct t as [|data|own|own data]; try (apply quiet; reflexivity).
  - unfold greeting_settled. destruct data as [d|].
    + apply (received_change greeting_fallback i (GreetJson (Some d)) e d w
                             greeting_fallback_not_nil T).
    + apply (failed_change greeting_fallback i (GreetJson None) _ w
                           greeting_fallback_not_nil T).
  - unfold chat_settled. destruct data as [d|].
    + apply (received_change chat_fallback i (ChatJson own (Some d)) e d w
                             chat_fallback_not_nil T).
    + apply (failed_change chat_fallback i (ChatJson own None) _ w
                           chat_fallback_not_nil T).
Qed.

Lemma step_change w ev : change B coerce w ev (step B coerce w ev).
Proof.
  destruct ev; simpl.
  - apply togglePanel_change.
  - apply quiet. reflexivity.
  - apply quiet. reflexivity.
  - apply sendMessage_change.
  - apply fetched_change.
  - apply parsed_change.
Qed.

Lemma run_invariant (P : widget -> Prop) :
  (forall w ev, P w -> P (step B coerce w ev)) ->
  forall evs w, P w -> P (run_events B coerce w evs).
Proof.
  intros Hstep. induction evs as [|ev evs IH]; intros w H; simpl; [exact H|].
  apply IH, Hstep, H.
Qed.

Lemma run_events_app w evs evs' :
  run_events B coerce w (evs ++ evs')
  = run_events B coerce (run_events B coerce w evs) evs'.
Proof. unfold run_events. apply fold_left_app. Qed.

End Steps.

Lemma core_fields w a b c d e f g h :
  core w = (a, b, c, d, e, f, g, h) ->
  sessionId w = a /\ isLoading w = b /\ hasGreeted w = c /\ messages w = d
  /\ send_disabled w = e /\ stored w = f /\ sent w = g /\ tasks w = h.
Proof. unfold core. intros H. inversion H. repeat split. Qed.

Ltac fields H :=
  apply core_fields in H;
  destruct H as (?Esid & ?Elo & ?Egr & ?Ems & ?Esd & ?Est & ?Esn & ?Etk).

Lemma filter_drop_task f i l t :
  nth_error l i = Some t ->
  List.length (filter f (drop_task i l)) + (if f t then 1 else 0) =
  List.length (filter f l).
Proof.
  revert i. induction l as [|x l IH]; intros [|i] H; simpl in *; try discriminate.
  - injection H as ->. destruct (f t); simpl; lia.
  - specialize (IH i H). destruct (f x); simpl; lia.
Qed.

Lemma filter_put_task f i l t t' :
  nth_error l i = Some t -> f t' = f t ->
  List.length (filter f (put_task i t' l)) = List.length (filter f l).
Proof.
  revert i. induction l as [|x l IH]; intros [|i] H E; simpl in *; try discriminate.
  - injection H as ->. rewrite E. destruct (f t); reflexivity.
  - specialize (IH i H E). destruct (f x); simpl; lia.
Qed.

Lemma filter_app_length {A} (f : A -> bool) l x :
  List.length (filter f (l ++ [x])) =
  List.length (filter f l) + (if f x then 1 else 0).
Proof.
  rewrite filter_app, length_app. simpl. destruct (f x); reflexivity.
Qed.
(* ================================================================= *)
(** ** The chat client and the panel *)

Section Reachable.
Variable B : browser.
Variable coerce : json -> res (option Z).

Lemma consistent_init e entry : consistent (init coerce e entry).
Proof. unfold consistent, chats_in_flight, greetings_sent. simpl. lia. Qed.

Lemma consistent_step w ev : consistent w -> consistent (step B coerce w ev).
Proof.
  unfold consistent, chats_in_flight, greetings_sent. intros (A & L & C & D).
  destruct (step_change B coerce w ev)
    as [K | _ G K | e m sid own _ _ _ L' _ _ _ K | i t t' T F _ K
        | i t sid st l h T _ _ _ K];
    fields K; rewrite Elo, Egr, Esn, Etk.
  - auto.
  - rewrite !filter_app_length. simpl. rewrite (D G).
    repeat split; try intros; try lia; try discriminate.
    rewrite Nat.add_0_r. auto.
  - rewrite !filter_app_length. simpl. rewrite (L L').
    repeat split; try intros; try lia; try discriminate; rewrite ?Nat.add_0_r; auto.
  - rewrite (filter_put_task is_chat i (tasks w) t t' T F). auto.
  - pose proof (filter_drop_task is_chat i (tasks w) t T) as E.
    destruct (is_chat t).
    + repeat split; try intros; try lia; auto.
    + rewrite Nat.add_0_r in E. rewrite E. auto.
Qed.

Lemma consistent_run evs :
  forall w, consistent w -> consistent (run_events B coerce w evs).
Proof. apply run_invariant. exact consistent_step. Qed.

Lemma consistent_loaded e entry evs : consistent (loaded B coerce e entry evs).
Proof. apply consistent_run, consistent_init. Qed.
End Reachable.

(** *** [hideTyping] on a list in which no message holds the indicator's id *)

Lemma planted_cons_false B id n l :
  planted B id (n :: l) = false ->
  match n with Message _ b => in_body B id b = false | Typing => True end
  /\ planted B id l = false.
Proof.
  unfold planted. simpl. destruct n as [r [h k|v]|]; simpl; auto.
  destruct (holds B id h k); [discriminate | auto].
Qed.

Lemma planted_app B id l l' :
  planted B id (l ++ l') = planted B id l || planted B id l'.
Proof.
  unfold planted. induction l as [|[r [h k|v]|] l IH]; simpl; auto.
  destruct (holds B id h k); [reflexivity | exact IH].
Qed.

Lemma remove_typing_clean B l :
  planted B typing_id l = false -> remove_typing B l = without_indicator l.
Proof.
  induction l as [|n l IH]; intros H; [reflexivity|].
  apply planted_cons_false in H as [Hn H].
  destruct n as [r [h k|v]|]; simpl in *; [rewrite Hn | |]; rewrite ?(IH H); reflexivity.
Qed.

Lemma planted_without_indicator B id l :
  planted B id l = false -> planted B id (without_indicator l) = false.
Proof.
  unfold planted. induction l as [|[r [h k|v]|] l IH]; simpl; auto.
  destruct (holds B id h k); [discriminate | exact IH].
Qed.

Lemma chat_failed_messages B w :
  planted B typing_id (messages w) = false ->
  messages (chat_failed B w)
  = without_indicator (messages w) ++ [bubble chat_fallback_html].
Proof.
  intros H. unfold chat_failed.
  rewrite (failed_shape B chat_fallback w chat_fallback_not_nil).
  rewrite render_chat_fallback, (remove_typing_clean B _ H). reflexivity.
Qed.

Lemma greeting_failed_messages B w :
  planted B typing_id (messages w) = false ->
  messages (greeting_failed B w)
  = without_indicator (messages w) ++ [bubble greeting_fallback_html].
Proof.
  intros H. unfold greeting_failed.
  rewrite (failed_shape B greeting_fallback w greeting_fallback_not_nil).
  rewrite render_greeting_fallback, (remove_typing_clean B _ H). reflexivity.
Qed.

Lemma tasks_chat_finally own w : tasks (chat_finally own w) = tasks w.
Proof. destruct own; reflexivity. Qed.

Lemma messages_chat_finally own w : messages (chat_finally own w) = messages w.
Proof. destruct own; reflexivity. Qed.

Lemma chat_settled_tasks B own e data w :
  tasks (chat_settled B own e data w) = tasks w.
Proof.
  unfold chat_settled. rewrite tasks_chat_finally.
  destruct data as [d|].
  - destruct (settled_shape B chat_fallback e d w chat_fallback_not_nil)
      as (sid & st & l & h & E & _).
    assert (match chat_received B e d w with
            | Done w' => w'
            | Thrown w' => chat_failed B w'
            end
            = set_messages (l ++ [Message assistant (Html h 0)])
                           (set_stored st (set_sessionId sid w))) as -> by exact E.
    reflexivity.
  - unfold chat_failed.
    rewrite (failed_shape B chat_fallback _ chat_fallback_not_nil). reflexivity.
Qed.

(** C9. A falsy argument (the empty string, [null], [undefined], ...) makes
    [renderMarkdown] return the empty string, without the paragraph
    wrapper. *)
Theorem renderMarkdown_falsy v :
  truthy v = false -> renderMarkdown v = Ok [].
Proof. intros H. unfold renderMarkdown. rewrite H. reflexivity. Qed.

Lemma renderMarkdown_falsy_witness :
  renderMarkdown (str []) = Ok [] /\ renderMarkdown null = Ok []
  /\ renderMarkdown Undefined = Ok [].
Proof.
  split; [|split].
  - apply (renderMarkdown_falsy (str [])). reflexivity.
  - apply (renderMarkdown_falsy null). reflexivity.
  - apply (renderMarkdown_falsy Undefined). reflexivity.
Defined.

Lemma blank_not_li_tag sep : blank sep = true -> is_li_tag sep = false.
Proof.
  intros H. unfold is_li_tag.
  destruct (jeqb sep (u "<li>")) eqn:E1;
    [apply jeqb_eq in E1; subst sep; vm_compute in H; discriminate|].
  destruct (jeqb sep (u "</li>")) eqn:E2;
    [apply jeqb_eq in E2; subst sep; vm_compute in H; discriminate|].
  reflexivity.
Qed.

Lemma is_li_tag_false l :
  is_li_tag l = false -> jeqb l (u "<li>") = false /\ jeqb l (u "</li>") = false.
Proof. unfold is_li_tag. apply orb_false_iff. Qed.

Lemma next_is_li_blank sep rest :
  blank sep = true ->
  Markdown.next_is_li (sep :: rest) = Markdown.next_is_li rest.
Proof.
  intros H. cbn [Markdown.next_is_li]. unfold blank in H.
  destruct (trim (replace Markdown.re_br [] sep)); [reflexivity | discriminate].
Qed.

Lemma next_is_li_items items :
  Markdown.next_is_li (item_tokens items)
  = match items with [] => false | _ => true end.
Proof. destruct items as [|[x sep] rest]; reflexivity. Qed.

Lemma group_items_plain inList l rest :
  is_li_tag l = false ->
  Markdown.group_items inList (l :: rest) = l ++ Markdown.group_items inList rest.
Proof.
  intros H. destruct (is_li_tag_false l H) as [H1 H2].
  cbn [Markdown.group_items]. rewrite H1, H2. reflexivity.
Qed.

Lemma group_items_open rest :
  Markdown.group_items true (li_open :: rest)
  = li_open ++ Markdown.group_items true rest.
Proof. reflexivity. Qed.

Lemma group_items_close rest :
  Markdown.group_items true (li_close :: rest)
  = li_close ++ (if Markdown.next_is_li rest
                 then Markdown.group_items true rest
                 else u "</ul>" ++ Markdown.group_items false rest).
Proof.
  cbn [Markdown.group_items].
  change (jeqb li_close (u "<li>")) with false.
  change (jeqb li_close (u "</li>")) with true. cbv iota.
  destruct (Markdown.next_is_li rest); reflexivity.
Qed.

(** Inside a list, a run of items closes the list once, after its last
    item. *)
Lemma group_items_run items :
  Forall item_ok items -> items <> [] ->
  Markdown.group_items true (item_tokens items) = one_list items.
Proof.
  induction 1 as [|[x sep] rest [Hx Hs] _ IH]; intros Hne; [congruence|].
  cbn [fst snd] in *.
  pose proof (blank_not_li_tag sep Hs) as Hs'.
  cbn [item_tokens one_list].
  rewrite group_items_open, (group_items_plain _ _ _ Hx), group_items_close.
  rewrite (next_is_li_blank sep _ Hs), next_is_li_items.
  rewrite !(group_items_plain _ _ _ Hs').
  destruct rest as [|i rest].
  - cbn [item_tokens Markdown.group_items]. rewrite app_nil_r. reflexivity.
  - rewrite IH by discriminate. reflexivity.
Qed.

(** C4. [renderMarkdown("- a\n- b")] is one [<ul>] that holds both
    [<li>] items; and in general the grouping loop puts a run of items, with
    only [<br>] and white space between them, into one [<ul>]. *)
Theorem renderMarkdown_two_items items :
  renderMarkdown (str (u "- a" ++ [10%N] ++ u "- b"))
  = Ok (u "<p><ul><li>a</li><li>b</li></ul></p>")
  /\ (Forall item_ok items -> items <> [] ->
      Markdown.group_items false (item_tokens items) = u "<ul>" ++ one_list items).
Proof.
  split; [vm_compute; reflexivity|].
  intros H Hne. rewrite <- (group_items_run items H Hne).
  destruct items as [|[x sep] rest]; [congruence|]. reflexivity.
Qed.

Lemma renderMarkdown_two_items_witness :
  Markdown.group_items false (item_tokens [(u "a", br); (u "b", [])])
  = u "<ul>" ++ one_list [(u "a", br); (u "b", [])].
Proof.
  apply (proj2 (renderMarkdown_two_items [(u "a", br); (u "b", [])])).
  - repeat constructor.
  - discriminate.
Defined.

(** C5. [sendMessage] returns the state it was given when the text trims to
    the empty string or a send is in flight; and however the page is driven,
    at most one call of [sendMessage] is suspended on the network. *)
Theorem sendMessage_guard B coerce e w entry evs :
  (is_nil (trim (input_value w)) = true \/ isLoading w = true ->
   sendMessage B coerce e w = w)
  /\ chats_in_flight (loaded B coerce e entry evs) <= 1.
Proof.
  split.
  - intros H. unfold sendMessage.
    destruct (planted B input_id (messages w)); [reflexivity|].
    assert (is_nil (trim (input_value w)) || isLoading w = true) as ->
        by (apply orb_true_iff; exact H).
    reflexivity.
  - apply (consistent_loaded B coerce e entry evs).
Qed.

Lemma sendMessage_guard_witness :
  let blank := step no_ids no_coercion fresh_page (Edit (u "  ")) in
  let busy :=
    loaded no_ids no_coercion an_instant None
           [Toggle; Edit (u "hi"); Send an_instant; Edit (u "again")] in
  sendMessage no_ids no_coercion an_instant blank = blank
  /\ sendMessage no_ids no_coercion an_instant busy = busy
  /\ chats_in_flight
       (loaded no_ids no_coercion an_instant None
               [Toggle; Edit (u "hi"); Send an_instant; Edit (u "again");
                Send an_instant]) <= 1.
Proof.
  intros blank busy. split; [|split].
  - apply (sendMessage_guard no_ids no_coercion an_instant blank None []).
    left. reflexivity.
  - apply (sendMessage_guard no_ids no_coercion an_instant busy None []).
    right. reflexivity.
  - apply (sendMessage_guard no_ids no_coercion an_instant fresh_page None
             [Toggle; Edit (u "hi"); Send an_instant; Edit (u "again");
              Send an_instant]).
Defined.

Lemma render_planting :
  Markdown.render (planting_answer typing_id) = planting_html typing_id.
Proof. vm_compute. reflexivity. Qed.

Lemma planted_page B :
  let greeting :=
    {| ok := true;
       payload := Some (JObj [(u "session_id", JStr (u "s-1"));
                              (u "answer", JStr (planting_answer typing_id))]) |} in
  let w :=
    loaded B no_coercion an_instant None
           [Toggle; Fetched 0 (Some greeting); Parsed 0 an_instant; Edit (u "hi")] in
  messages w = [Message assistant (Html (planting_html typing_id) 0)]
  /\ isLoading w = false /\ input_value w = u "hi" /\ tasks w = [].
Proof. vm_compute. repeat split. Qed.

(** A message is sent from a page whose only message holds an element with
    the indicator's id, and the call fails. *)
Lemma send_then_fail B coerce e h m w :
  holds B typing_id h 0 = true ->
  holds B input_id h 0 = false ->
  messages w = [Message assistant (Html h 0)] ->
  isLoading w = false -> trim (input_value w) = m -> m <> [] -> tasks w = [] ->
  messages (fetched B 0 None (sendMessage B coerce e w))
  = [Message assistant (Html h 1); Message user (Text (str m)); Typing;
     bubble chat_fallback_html]
  /\ tasks (fetched B 0 None (sendMessage B coerce e w)) = [].
Proof.
  intros H1 H2 Hm Hl Hv Hn Ht.
  assert (planted B input_id (messages w) = false) as P
      by (rewrite Hm; unfold planted; cbn [first_with]; rewrite H2; reflexivity).
  destruct (sendMessage_change B coerce e w)
    as [C | D _ C | e0 m0 sid own _ Em _ _ _ _ _ C | j t t' T' _ _ C
        | j t sid st l h0 T' _ _ _ C]; try discriminate.
  - exfalso. revert C. unfold sendMessage. rewrite P, Hv, Hl.
    destruct m; [congruence|]. cbn [is_nil orb]. intros C. fields C.
    destruct (negb (truthy (sessionId _))), (negb (planted B send_id (messages w)));
      cbn in Etk; rewrite Ht in Etk; discriminate.
  - fields C. rewrite Hv in Em. subst m0.
    assert (nth_error (tasks (sendMessage B coerce e w)) 0 = Some (ChatFetch own))
      as T by (rewrite Etk, Ht; reflexivity).
    unfold fetched. rewrite T.
    rewrite messages_chat_finally, tasks_chat_finally. unfold chat_failed.
    rewrite (failed_shape B chat_fallback _ chat_fallback_not_nil).
    rewrite render_chat_fallback.
    cbn [messages tasks set_messages finish set_network].
    rewrite Ems, Etk, Hm, Ht. cbn [app remove_typing drop_task]. rewrite H1.
    split; reflexivity.
  - rewrite Ht in T'. destruct j; discriminate.
  - rewrite Ht in T'. destruct j; discriminate.
Qed.

(** C6 (what the code does). A reply can give an anchor the id of the
    typing indicator: the double quote is not escaped, so the link
    [[x](" id="edopt-typing-indicator)] closes the [href] and adds the
    attribute.  When a later [/chat] call fails, [hideTyping] finds that
    anchor, which comes first in the document, and removes it: the fallback
    message is appended, but the typing indicator stays in the list although
    no call is pending. *)
Theorem hideTyping_misses_indicator B :
  holds B typing_id (planting_html typing_id) 0 = true ->
  holds B input_id (planting_html typing_id) 0 = false ->
  let greeting :=
    {| ok := true;
       payload := Some (JObj [(u "session_id", JStr (u "s-1"));
                              (u "answer", JStr (planting_answer typing_id))]) |} in
  let w :=
    loaded B no_coercion an_instant None
           [Toggle; Fetched 0 (Some greeting); Parsed 0 an_instant;
            Edit (u "hi"); Send an_instant; Fetched 0 None] in
  messages w = [Message assistant (Html (planting_html typing_id) 1);
                Message user (Text (str (u "hi")));
                Typing;
                bubble chat_fallback_html]
  /\ tasks w = [].
Proof.
  intros H1 H2 greeting w. subst w.
  destruct (planted_page B) as (Hm & Hl & Hv & Ht). fold greeting in Hm, Hl, Hv, Ht.
  change (loaded B no_coercion an_instant None
            [Toggle; Fetched 0 (Some greeting); Parsed 0 an_instant;
             Edit (u "hi"); Send an_instant; Fetched 0 None])
    with (fetched B 0 None
            (sendMessage B no_coercion an_instant
               (loaded B no_coercion an_instant None
                  [Toggle; Fetched 0 (Some greeting); Parsed 0 an_instant;
                   Edit (u "hi")]))).
  apply (send_then_fail B no_coercion an_instant _ (u "hi") _ H1 H2 Hm Hl);
    [rewrite Hv; reflexivity | discriminate | exact Ht].
Qed.

Lemma hideTyping_misses_indicator_witness :
  typing_shown
    (loaded quoted_ids no_coercion an_instant None
            [Toggle;
             Fetched 0 (Some {| ok := true;
                                payload := Some (JObj [(u "session_id", JStr (u "s-1"));
                                                       (u "answer",
                                                        JStr (planting_answer typing_id))]) |});
             Parsed 0 an_instant; Edit (u "hi"); Send an_instant; Fetched 0 None])
  = 1.
Proof.
  unfold typing_shown.
  rewrite (proj1 (hideTyping_misses_indicator quoted_ids eq_refl eq_refl)).
  reflexivity.
Defined.

(** X21. When no message holds an element with the indicator's id: a [/chat]
    call that fails (the fetch rejects, the status is not 2xx, or the body
    is no JSON) removes the typing indicator and appends the one fallback
    message, [<p>I'm sorry, I'm having trouble right now. Please try again
    in a moment.</p>]; and whenever the call ends, failed or not,
    [isLoading] is cleared, the textarea has the focus, the call is no
    longer pending, and the send button is enabled if the call had found
    it. *)
Theorem chat_failure_shown B i w own :
  planted B typing_id (messages w) = false ->
  (nth_error (tasks w) i = Some (ChatFetch own) ->
   forall r, (r = None \/ exists resp, r = Some resp /\ ok resp = false) ->
     messages (fetched B i r w)
     = without_indicator (messages w) ++ [bubble chat_fallback_html]
     /\ isLoading (fetched B i r w) = false
     /\ input_focused (fetched B i r w) = true
     /\ (own = true -> send_disabled (fetched B i r w) = false)
     /\ tasks (fetched B i r w) = drop_task i (tasks w))
  /\ (nth_error (tasks w) i = Some (ChatJson own None) ->
      forall e,
        messages (parsed B i e w)
        = without_indicator (messages w) ++ [bubble chat_fallback_html])
  /\ (forall data, nth_error (tasks w) i = Some (ChatJson own data) ->
      forall e,
        isLoading (parsed B i e w) = false
        /\ input_focused (parsed B i e w) = true
        /\ (own = true -> send_disabled (parsed B i e w) = false)
        /\ tasks (parsed B i e w) = drop_task i (tasks w)).
Proof.
  intros P.
  assert (planted B typing_id (messages (finish i w)) = false) as P' by exact P.
  assert (forall w0, isLoading (chat_finally own w0) = false
                     /\ input_focused (chat_finally own w0) = true
                     /\ (own = true -> send_disabled (chat_finally own w0) = false))
    as Fin.
  { intros w0. destruct own; repeat split; intros; try reflexivity; discriminate. }
  split; [|split].
  - intros T r Hr. unfold fetched. rewrite T.
    assert (messages (chat_finally own (chat_failed B (finish i w)))
            = without_indicator (messages w) ++ [bubble chat_fallback_html]
            /\ tasks (chat_finally own (chat_failed B (finish i w)))
               = drop_task i (tasks w)) as [M K].
    { split.
      - rewrite messages_chat_finally, (chat_failed_messages B _ P'). reflexivity.
      - rewrite tasks_chat_finally. unfold chat_failed.
        rewrite (failed_shape B chat_fallback _ chat_fallback_not_nil).
        reflexivity. }
    destruct (Fin (chat_failed B (finish i w))) as (F1 & F2 & F3).
    destruct Hr as [-> | (resp & -> & Hok)]; [|rewrite Hok; simpl negb; cbv iota];
      repeat split; assumption.
  - intros T e. unfold parsed. rewrite T. unfold chat_settled.
    rewrite messages_chat_finally. apply (chat_failed_messages B _ P').
  - intros data T e. unfold parsed. rewrite T.
    rewrite chat_settled_tasks. unfold chat_settled.
    match goal with
    | |- context [chat_finally own ?x] => destruct (Fin x) as (F1 & F2 & F3)
    end.
    repeat split; assumption.
Qed.

Lemma chat_failure_shown_witness :
  let busy :=
    loaded no_ids no_coercion an_instant None [Edit (u "hi"); Send an_instant] in
  let down := {| ok := false; payload := Some (JObj [(u "detail", JStr (u "down"))]) |} in
  let up := {| ok := true; payload := None |} in
  messages (fetched no_ids 0 None busy) =
    [Message user (Text (str (u "hi"))); bubble chat_fallback_html]
  /\ messages (fetched no_ids 0 (Some down) busy) =
       [Message user (Text (str (u "hi"))); bubble chat_fallback_html]
  /\ send_disabled (fetched no_ids 0 (Some down) busy) = false
  /\ messages (parsed no_ids 0 an_instant (fetched no_ids 0 (Some up) busy)) =
       [Message user (Text (str (u "hi"))); bubble chat_fallback_html]
  /\ isLoading (parsed no_ids 0 an_instant (fetched no_ids 0 (Some up) busy)) = false.
Proof.
  intros busy down up.
  assert (nth_error (tasks busy) 0 = Some (ChatFetch true)) as T by reflexivity.
  assert (nth_error (tasks (fetched no_ids 0 (Some up) busy)) 0
          = Some (ChatJson true None)) as T' by reflexivity.
  split; [|split; [|split; [|split]]].
  - apply (proj1 (chat_failure_shown no_ids 0 busy true eq_refl) T None).
    left. reflexivity.
  - apply (proj1 (chat_failure_shown no_ids 0 busy true eq_refl) T (Some down)).
    right. exists down. split; reflexivity.
  - destruct (proj1 (chat_failure_shown no_ids 0 busy true eq_refl) T (Some down)
                    (or_intror (ex_intro _ down (conj eq_refl eq_refl))))
      as (_ & _ & _ & S & _).
    exact (S eq_refl).
  - apply (proj1 (proj2 (chat_failure_shown no_ids 0 (fetched no_ids 0 (Some up) busy)
                                            true eq_refl)) T' an_instant).
  - destruct (proj2 (proj2 (chat_failure_shown no_ids 0
                              (fetched no_ids 0 (Some up) busy) true eq_refl))
                    None T' an_instant) as (L & _).
    exact L.
Defined.

(** C7. However the page is driven, at most one greeting request is
    issued: [fetchGreeting] sets [hasGreeted] in the same run in which it
    issues the request, and [togglePanel] calls it only while the flag is
    clear. *)
Theorem greeting_requested_once B coerce e entry evs w :
  greetings_sent (loaded B coerce e entry evs) <= 1
  /\ hasGreeted (fetchGreeting w) = true
  /\ sent (fetchGreeting w) = sent w ++ [Greet]
  /\ (hasGreeted w = true -> sent (togglePanel B w) = sent w).
Proof.
  split; [|split; [|split]]; try reflexivity.
  - apply (consistent_loaded B coerce e entry evs).
  - intros H. unfold togglePanel. simpl.
    destruct (isOpen w); simpl; [reflexivity|].
    rewrite H. simpl.
    destruct (first_with B input_id (messages w)) as [[h k]|];
      [destruct (focusable B h k)|]; reflexivity.
Qed.

Lemma greeting_requested_once_witness :
  let toggles := [Toggle; Toggle; Toggle; Fetched 0 None; Toggle; Toggle] in
  greetings_sent (loaded no_ids no_coercion an_instant None toggles) <= 1
  /\ sent (togglePanel no_ids (togglePanel no_ids (togglePanel no_ids fresh_page)))
     = sent (togglePanel no_ids (togglePanel no_ids fresh_page)).
Proof.
  intros toggles. split.
  - apply (greeting_requested_once no_ids no_coercion an_instant None toggles
                                   fresh_page).
  - apply (greeting_requested_once no_ids no_coercion an_instant None []
             (togglePanel no_ids (togglePanel no_ids fresh_page))).
    reflexivity.
Defined.

(** C1 (what the code does). A [/greet] response with status 500 and a JSON
    body is not treated as a failure: [fetchGreeting] has no [resp.ok] test,
    so it reads [session_id] and [answer] off the error body, both
    [undefined], stores a payload without id and shows an empty assistant
    message.  A rejected fetch and a body that is no JSON do give the
    fallback welcome. *)
Theorem fetchGreeting_ignores_status B :
  let opened := togglePanel B fresh_page in
  let error_500 :=
    {| ok := false;
       payload := Some (JObj [(u "detail", JStr (u "Internal Server Error"))]) |} in
  let shown := parsed B 0 an_instant (fetched B 0 (Some error_500) opened) in
  messages shown = [Message assistant (Html [] 0)]
  /\ messages shown <> [bubble greeting_fallback_html]
  /\ sessionId shown = Undefined
  /\ stored shown = Some (Json (JObj [(u "ts", JNum (now an_instant))]))
  /\ messages (fetched B 0 None opened) = [bubble greeting_fallback_html]
  /\ messages (parsed B 0 an_instant
                 (fetched B 0 (Some {| ok := false; payload := None |}) opened))
     = [bubble greeting_fallback_html].
Proof.
  vm_compute. repeat split; try reflexivity. discriminate.
Qed.

Lemma getSession_spec_witness :
  let late := {| now := now an_instant + SESSION_TTL; storage_ok := true |} in
  let entry := payload_of (JStr (u "s-1")) (now an_instant) in
  getSession no_coercion an_instant entry = (str (u "s-1"), entry)
  /\ getSession no_coercion late entry = (null, entry)
  /\ getSession no_coercion an_instant (Some Garbage) = (null, Some Garbage)
  /\ getSession no_coercion {| now := 0; storage_ok := false |} entry = (null, entry).
Proof.
  intros late entry. split; [|split; [|split]].
  - apply (proj1 (getSession_spec no_coercion an_instant (JStr (u "s-1"))
                                  (now an_instant) None)).
    + reflexivity.
    + vm_compute. reflexivity.
  - apply (proj1 (proj2 (getSession_spec no_coercion late (JStr (u "s-1"))
                                         (now an_instant) None))).
    vm_compute. discriminate.
  - apply (proj1 (proj2 (proj2 (getSession_spec no_coercion an_instant JNull 0
                                                (Some Garbage))))).
    exact (NotJson no_coercion).
  - apply (proj1 (proj2 (proj2 (proj2
             (getSession_spec no_coercion {| now := 0; storage_ok := false |}
                              JNull 0 entry))))).
    reflexivity.
Defined.

(* ================================================================= *)
(** ** Runs of the widget *)

(** *** [trim] *)

Lemma drop_space_black s : begins_black (drop_space s).
Proof.
  induction s as [|c s IH]; simpl; [exact I|].
  destruct (is_space c) eqn:E; [exact IH | exact E].
Qed.

Lemma drop_space_id s : begins_black s -> drop_space s = s.
Proof. destruct s as [|c s]; simpl; [reflexivity|]. intros ->. reflexivity. Qed.

Lemma drop_space_suffix s : exists sp, s = sp ++ drop_space s.
Proof.
  induction s as [|c s [sp IH]]; simpl; [exists []; reflexivity|].
  destruct (is_space c).
  - exists (c :: sp). simpl. rewrite <- IH. reflexivity.
  - exists []. reflexivity.
Qed.

Lemma trim_black s : begins_black (trim s).
Proof.
  unfold trim.
  pose proof (drop_space_black s) as D.
  destruct (drop_space_suffix (rev (drop_space s))) as [sp E].
  apply (f_equal (@rev N)) in E. rewrite rev_involutive, rev_app_distr in E.
  destruct (rev (drop_space (rev (drop_space s)))) as [|c r]; [exact I|].
  rewrite E in D. exact D.
Qed.

Lemma trim_trim s : trim (trim s) = trim s.
Proof.
  pose proof (trim_black s) as B. unfold trim at 1.
  rewrite (drop_space_id _ B). unfold trim.
  rewrite rev_involutive, (drop_space_id _ (drop_space_black _)).
  reflexivity.
Qed.

(** *** The message list *)

Lemma typing_app l l' :
  List.length (filter is_typing (l ++ l'))
  = List.length (filter is_typing l) + List.length (filter is_typing l').
Proof. rewrite filter_app, length_app. reflexivity. Qed.

Lemma pruned_app l l' : pruned (l ++ l') = pruned l + pruned l'.
Proof.
  induction l as [|[r [h k|v]|] l IH]; simpl; auto. rewrite IH. lia.
Qed.

(** [hideTyping] removes an indicator, or an element inside a message, or
    finds nothing because there is no indicator. *)
Lemma remove_typing_cases B l :
  (S (List.length (filter is_typing (remove_typing B l)))
   = List.length (filter is_typing l)
   /\ pruned (remove_typing B l) = pruned l)
  \/ (List.length (filter is_typing (remove_typing B l))
      = List.length (filter is_typing l)
      /\ pruned (remove_typing B l) = S (pruned l))
  \/ (remove_typing B l = l /\ filter is_typing l = []).
Proof.
  induction l as [|[r [h k|v]|] l IH]; simpl.
  - right. right. auto.
  - destruct (holds B typing_id h k); simpl.
    + right. left. split; [reflexivity | lia].
    + destruct IH as [[A C] | [[A C] | [A C]]].
      * left. split; [exact A | lia].
      * right. left. split; [exact A | lia].
      * right. right. rewrite A. auto.
  - destruct IH as [[A C] | [[A C] | [A C]]].
    + left. auto.
    + right. left. auto.
    + right. right. rewrite A. auto.
  - left. auto.
Qed.

Lemma typing_remove B l n :
  List.length (filter is_typing l) <= S n + pruned l ->
  List.length (filter is_typing (remove_typing B l))
  <= n + pruned (remove_typing B l).
Proof.
  intros H. destruct (remove_typing_cases B l) as [[A C] | [[A C] | [A C]]].
  - lia.
  - lia.
  - rewrite A, C. simpl. lia.
Qed.

Lemma typing_remove_again B l n :
  List.length (filter is_typing l) <= n + pruned l ->
  List.length (filter is_typing (remove_typing B l))
  <= n + pruned (remove_typing B l).
Proof.
  intros H. destruct (remove_typing_cases B l) as [[A C] | [[A C] | [A C]]].
  - lia.
  - lia.
  - rewrite A, C. simpl. lia.
Qed.

Lemma pruned_remove B l : pruned l <= pruned (remove_typing B l).
Proof.
  destruct (remove_typing_cases B l) as [[A C] | [[A C] | [A C]]];
    [lia | lia | rewrite A; lia].
Qed.

Lemma history_remove B l :
  map as_appended (filter is_message (remove_typing B l))
  = map as_appended (filter is_message l).
Proof.
  induction l as [|[r [h k|v]|] l IH]; simpl; auto.
  - destruct (holds B typing_id h k); simpl; [reflexivity|].
    rewrite IH. reflexivity.
  - rewrite IH. reflexivity.
Qed.

Lemma shown_remove B l :
  flat_map (fun n => match n with
                     | Message user (Text v) => [v]
                     | _ => []
                     end) (remove_typing B l)
  = flat_map (fun n => match n with
                       | Message user (Text v) => [v]
                       | _ => []
                       end) l.
Proof.
  induction l as [|[r [h k|v]|] l IH]; simpl; auto.
  - destruct (holds B typing_id h k); simpl; [destruct r; reflexivity|].
    rewrite IH. reflexivity.
  - rewrite IH. reflexivity.
Qed.

Lemma node_ok_remove B l : Forall node_ok l -> Forall node_ok (remove_typing B l).
Proof.
  induction 1 as [|n l Hn Hl IH]; simpl; [constructor|].
  destruct n as [r [h k|v]|]; [| constructor; assumption | assumption].
  destruct (holds B typing_id h k); constructor; try assumption;
    destruct r; exact Hn.
Qed.

(** A message that is as it was appended. *)
Lemma as_appended_id l : pruned l = 0 -> map as_appended l = l.
Proof.
  induction l as [|[r [h k|v]|] l IH]; simpl; intros H; auto.
  - assert (k = 0) as -> by lia. rewrite IH by lia. reflexivity.
  - rewrite IH by exact H. reflexivity.
  - rewrite IH by exact H. reflexivity.
Qed.

Lemma pruned_filter l : pruned (filter is_message l) = pruned l.
Proof.
  induction l as [|[r [h k|v]|] l IH]; simpl; auto.
Qed.

Lemma length_drop_task i l t :
  nth_error l i = Some t -> S (List.length (drop_task i l)) = List.length l.
Proof.
  revert i. induction l as [|x l IH]; intros [|i] H; simpl in *; try discriminate.
  - reflexivity.
  - rewrite (IH i H). reflexivity.
Qed.

Lemma length_put_task i t l : List.length (put_task i t l) = List.length l.
Proof.
  revert i. induction l as [|x l IH]; intros [|i]; simpl; auto.
Qed.

Section Runs.
Variable B : browser.
Variable coerce : json -> res (option Z).

Lemma typing_step w ev :
  typing_shown w <= List.length (tasks w) + pruned (messages w) ->
  typing_shown (step B coerce w ev)
  <= List.length (tasks (step B coerce w ev)) + pruned (messages (step B coerce w ev)).
Proof.
  unfold typing_shown. intros H.
  destruct (step_change B coerce w ev)
    as [C | _ _ C | e m sid own _ _ _ _ _ _ _ C | i t t' T _ _ C
        | i t sid st l h T Hl _ _ C];
    fields C; rewrite Ems, Etk.
  - exact H.
  - rewrite typing_app, pruned_app, length_app. simpl. lia.
  - rewrite typing_app, pruned_app, length_app. simpl. lia.
  - rewrite length_put_task. exact H.
  - pose proof (length_drop_task i _ _ T) as D.
    rewrite typing_app, pruned_app. simpl. rewrite !Nat.add_0_r.
    rewrite <- D in H.
    destruct Hl as [-> | ->].
    + apply typing_remove, H.
    + apply typing_remove_again, typing_remove, H.
Qed.

Lemma pruned_step w ev :
  pruned (messages w) <= pruned (messages (step B coerce w ev)).
Proof.
  destruct (step_change B coerce w ev)
    as [C | _ _ C | e m sid own _ _ _ _ _ _ _ C | i t t' T _ _ C
        | i t sid st l h T Hl _ _ C];
    fields C; rewrite Ems; rewrite ?pruned_app; simpl; try lia.
  destruct Hl as [-> | ->].
  - pose proof (pruned_remove B (messages w)). lia.
  - pose proof (pruned_remove B (messages w)).
    pose proof (pruned_remove B (remove_typing B (messages w))). lia.
Qed.

Lemma pruned_run evs : forall w,
  pruned (messages w) <= pruned (messages (run_events B coerce w evs)).
Proof.
  induction evs as [|ev evs IH]; intros w; simpl; [lia|].
  pose proof (pruned_step w ev). specialize (IH (step B coerce w ev)). lia.
Qed.

Lemma history_step w ev :
  exists added,
    map as_appended (history (step B coerce w ev))
    = map as_appended (history w) ++ added
    /\ List.length added <= 1.
Proof.
  unfold history.
  destruct (step_change B coerce w ev)
    as [C | _ _ C | e m sid own _ _ _ _ _ _ _ C | i t t' T _ _ C
        | i t sid st l h T Hl _ _ C];
    fields C; rewrite Ems.
  - exists []. rewrite app_nil_r. auto.
  - exists []. rewrite filter_app, app_nil_r. simpl. rewrite app_nil_r. auto.
  - exists [Message user (Text (str m))]. rewrite filter_app, map_app. simpl. auto.
  - exists []. rewrite app_nil_r. auto.
  - exists [Message assistant (Html h 0)]. rewrite filter_app, map_app. simpl.
    destruct Hl as [-> | ->]; rewrite !history_remove; auto.
Qed.

Lemma history_run evs : forall w,
  exists added,
    map as_appended (history (run_events B coerce w evs))
    = map as_appended (history w) ++ added
    /\ List.length added <= List.length evs.
Proof.
  induction evs as [|ev evs IH]; intros w; simpl.
  - exists []. rewrite app_nil_r. auto.
  - destruct (history_step w ev) as (a1 & E1 & L1).
    destruct (IH (step B coerce w ev)) as (a2 & E2 & L2).
    exists (a1 ++ a2). rewrite E2, E1, <- app_assoc, length_app.
    split; [reflexivity | lia].
Qed.

End Runs.

Lemma marked_remove B l : marked B l -> marked B (remove_typing B l).
Proof.
  unfold marked. induction 1 as [|n l Hn Hl IH]; simpl; [constructor|].
  destruct n as [r [h k|v]|]; [| constructor; assumption | assumption].
  destruct (holds B typing_id h k) eqn:E; constructor; try assumption.
  right. destruct Hn as [-> | Hn]; assumption.
Qed.

Lemma clean_remove B id l :
  clean_markup B id (remove_typing B l) -> clean_markup B id l.
Proof.
  unfold clean_markup. induction l as [|n l IH]; simpl; intros H; [constructor|].
  destruct n as [r [h k|v]|].
  - destruct (holds B typing_id h k); inversion H; subst; constructor; auto.
  - inversion H; subst. constructor; auto.
  - constructor; [exact I|]. exact H.
Qed.

Lemma clean_app B id l l' :
  clean_markup B id (l ++ l') -> clean_markup B id l.
Proof. unfold clean_markup. intros H. apply Forall_app in H as [H _]. exact H. Qed.

Lemma marked_pruned B l :
  marked B l -> clean_markup B typing_id l -> pruned l = 0.
Proof.
  unfold marked, clean_markup. induction 1 as [|n l Hn Hl IH]; intros C; [reflexivity|].
  inversion C as [|? ? Cn Cl]; subst. simpl.
  destruct n as [r [h k|v]|]; try (apply IH, Cl).
  rewrite (IH Cl). destruct Hn as [-> | Hn]; [reflexivity | congruence].
Qed.

Lemma marked_planted B id l :
  marked B l -> clean_markup B typing_id l -> clean_markup B id l ->
  planted B id l = false.
Proof.
  unfold marked, clean_markup, planted.
  induction 1 as [|n l Hn Hl IH]; intros C D; [reflexivity|].
  inversion C as [|? ? Cn Cl]; subst. inversion D as [|? ? Dn Dl]; subst.
  simpl. destruct n as [r [h k|v]|]; try (apply IH; assumption).
  destruct Hn as [-> | Hn]; [|congruence].
  rewrite Dn. apply IH; assumption.
Qed.

Lemma existsb_put_task (f : task -> bool) i l t t' :
  nth_error l i = Some t -> f t' = f t ->
  existsb f (put_task i t' l) = existsb f l.
Proof.
  revert i. induction l as [|x l IH]; intros [|i] H E; simpl in *; try discriminate.
  - injection H as ->. rewrite E. reflexivity.
  - rewrite (IH i H E). reflexivity.
Qed.

Lemma forallb_put_task (f : task -> bool) i l t t' :
  nth_error l i = Some t -> f t' = f t ->
  forallb f (put_task i t' l) = forallb f l.
Proof.
  revert i. induction l as [|x l IH]; intros [|i] H E; simpl in *; try discriminate.
  - injection H as ->. rewrite E. reflexivity.
  - rewrite (IH i H E). reflexivity.
Qed.

Lemma forallb_drop_task (f : task -> bool) i l :
  forallb f l = true -> forallb f (drop_task i l) = true.
Proof.
  revert i. induction l as [|x l IH]; intros [|i] H; simpl in *; auto.
  - apply andb_true_iff in H as [_ H]. exact H.
  - apply andb_true_iff in H as [A H]. rewrite A, (IH i H). reflexivity.
Qed.

Lemma existsb_drop_other (f : task -> bool) i l t :
  nth_error l i = Some t -> f t = false ->
  existsb f (drop_task i l) = existsb f l.
Proof.
  revert i. induction l as [|x l IH]; intros [|i] H E; simpl in *; try discriminate.
  - injection H as ->. rewrite E. reflexivity.
  - rewrite (IH i H E). reflexivity.
Qed.

Lemma owner_is_chat t : owns_button t = true -> is_chat t = true.
Proof. destruct t; simpl; auto. Qed.

Lemma no_chat_no_owner l :
  List.length (filter is_chat l) = 0 -> existsb owns_button l = false.
Proof.
  induction l as [|t l IH]; simpl; [reflexivity|].
  destruct (owns_button t) eqn:O.
  - rewrite (owner_is_chat t O). discriminate.
  - destruct (is_chat t); [discriminate | exact IH].
Qed.

Lemma calls_own_owner l :
  calls_own l = true -> existsb owns_button l = existsb is_chat l.
Proof.
  unfold calls_own. induction l as [|t l IH]; simpl; [reflexivity|].
  intros H. apply andb_true_iff in H as [A H]. rewrite (IH H).
  destruct (is_chat t) eqn:C; simpl in A; [rewrite A; reflexivity|].
  destruct (owns_button t) eqn:O; [|reflexivity].
  rewrite (owner_is_chat t O) in C. discriminate.
Qed.

Lemma existsb_filter_length {A} (f : A -> bool) l :
  existsb f l = negb (Nat.eqb (List.length (filter f l)) 0).
Proof.
  induction l as [|x l IH]; simpl; [reflexivity|].
  destruct (f x); simpl; [reflexivity | exact IH].
Qed.

Section MoreRuns.
Variable B : browser.
Variable coerce : json -> res (option Z).

Lemma marked_step w ev :
  marked B (messages w) -> marked B (messages (step B coerce w ev)).
Proof.
  intros H.
  destruct (step_change B coerce w ev)
    as [C | _ _ C | e m sid own _ _ _ _ _ _ _ C | i t t' T _ _ C
        | i t sid st l h T Hl _ _ C];
    fields C; rewrite Ems.
  - exact H.
  - apply Forall_app. split; [exact H | repeat constructor].
  - apply Forall_app. split; [exact H | repeat constructor].
  - exact H.
  - apply Forall_app. split; [|repeat constructor; left; reflexivity].
    destruct Hl as [-> | ->]; repeat apply marked_remove; exact H.
Qed.

Lemma clean_step id w ev :
  clean_markup B id (messages (step B coerce w ev)) ->
  clean_markup B id (messages w).
Proof.
  destruct (step_change B coerce w ev)
    as [C | _ _ C | e m sid own _ _ _ _ _ _ _ C | i t t' T _ _ C
        | i t sid st l h T Hl _ _ C];
    fields C; rewrite Ems; intros H; try exact H;
      try (apply clean_app in H; exact H).
  apply clean_app in H.
  destruct Hl as [-> | ->]; repeat apply clean_remove in H; exact H.
Qed.

(** The send button follows the calls that hold it. *)
Lemma loading_step w ev :
  marked B (messages w) ->
  chats_in_flight w = (if isLoading w then 1 else 0)
  /\ send_disabled w = existsb owns_button (tasks w)
  /\ (calls_own (tasks w) = true
      \/ ~ (clean_markup B typing_id (messages w)
            /\ clean_markup B send_id (messages w))) ->
  chats_in_flight (step B coerce w ev)
  = (if isLoading (step B coerce w ev) then 1 else 0)
  /\ send_disabled (step B coerce w ev)
     = existsb owns_button (tasks (step B coerce w ev))
  /\ (calls_own (tasks (step B coerce w ev)) = true
      \/ ~ (clean_markup B typing_id (messages (step B coerce w ev))
            /\ clean_markup B send_id (messages (step B coerce w ev)))).
Proof.
  unfold chats_in_flight. intros M (H & D & O).
  assert (~ (clean_markup B typing_id (messages w)
             /\ clean_markup B send_id (messages w)) ->
          ~ (clean_markup B typing_id (messages (step B coerce w ev))
             /\ clean_markup B send_id (messages (step B coerce w ev)))) as Anti.
  { intros N [C1 C2]. apply N. split; eapply clean_step; eassumption. }
  destruct (step_change B coerce w ev)
    as [C | _ _ C | e m sid own _ _ _ L _ Eo _ C | i t t' T F F' C
        | i t sid st l h T _ _ _ C].
  - pose proof C as C'. fields C. rewrite Esd, Elo, Etk.
    split; [exact H|]. split; [exact D|].
    destruct O as [O | O]; [left; exact O | right; apply Anti, O].
  - pose proof C as C'. fields C. rewrite Esd, Elo, Etk.
    rewrite filter_app_length, existsb_app. simpl.
    rewrite Nat.add_0_r, orb_false_r.
    split; [exact H|]. split; [exact D|].
    destruct O as [O | O]; [left | right; apply Anti, O].
    unfold calls_own. rewrite forallb_app. simpl. rewrite andb_true_r. exact O.
  - assert (existsb owns_button (tasks w) = false) as No
        by (apply no_chat_no_owner; rewrite H, L; reflexivity).
    destruct O as [O | O]; [|fields C; rewrite Esd, Elo, Etk].
    + destruct (planted B send_id (messages w)) eqn:P.
      * (* an element with the button's id stands in a message *)
        assert (~ (clean_markup B typing_id (messages w)
                   /\ clean_markup B send_id (messages w))) as N.
        { intros [C1 C2]. rewrite (marked_planted B send_id _ M C1 C2) in P.
          discriminate. }
        fields C. rewrite Esd, Elo, Etk.
        rewrite filter_app_length, existsb_app. simpl.
        rewrite H, L, No, D, No. subst own.
        repeat split. right. apply Anti, N.
      * fields C. rewrite Esd, Elo, Etk.
        rewrite filter_app_length, existsb_app. simpl.
        rewrite H, L, No. subst own. simpl.
        repeat split. left.
        unfold calls_own. rewrite forallb_app. simpl. rewrite andb_true_r. exact O.
    + rewrite filter_app_length, existsb_app. simpl.
      rewrite H, L, No, D, No.
      split; [reflexivity|]. split; [destruct own; reflexivity|].
      right. apply Anti, O.
  - pose proof C as C'. fields C. rewrite Esd, Elo, Etk.
    rewrite (filter_put_task is_chat i (tasks w) t t' T F).
    rewrite (existsb_put_task owns_button i (tasks w) t t' T F').
    split; [exact H|]. split; [exact D|].
    destruct O as [O | O]; [left | right; apply Anti, O].
    unfold calls_own.
    rewrite (forallb_put_task _ i (tasks w) t t' T); [exact O|].
    rewrite F, F'. reflexivity.
  - pose proof C as C'. fields C. rewrite Esd, Elo, Etk.
    pose proof (filter_drop_task is_chat i (tasks w) t T) as K.
    assert (calls_own (drop_task i (tasks w)) = true
            \/ ~ (clean_markup B typing_id (messages (step B coerce w ev))
                  /\ clean_markup B send_id (messages (step B coerce w ev)))) as O'.
    { destruct O as [O | O]; [left; apply forallb_drop_task, O | right; apply Anti, O]. }
    destruct (is_chat t) eqn:Ct.
    + assert (List.length (filter is_chat (drop_task i (tasks w))) = 0) as Z
          by (destruct (isLoading w); lia).
      rewrite Z, (no_chat_no_owner _ Z).
      split; [reflexivity|]. split; [|exact O'].
      destruct (owns_button t) eqn:Ot; [reflexivity|].
      rewrite D. rewrite <- (existsb_drop_other owns_button i (tasks w) t T Ot).
      apply no_chat_no_owner, Z.
    + assert (owns_button t = false) as Ot
          by (destruct (owns_button t) eqn:E; [|reflexivity];
              rewrite (owner_is_chat t E) in Ct; discriminate).
      rewrite Ot, Nat.add_0_r in *. rewrite K.
      rewrite (existsb_drop_other owns_button i (tasks w) t T Ot).
      split; [exact H|]. split; [exact D | exact O'].
Qed.

Lemma node_ok_step w ev :
  Forall node_ok (messages w) -> Forall node_ok (messages (step B coerce w ev)).
Proof.
  intros H.
  destruct (step_change B coerce w ev)
    as [C | _ _ C | e m sid own _ M N _ _ _ _ C | i t t' _ _ _ C
        | i t sid st l h _ Hl Hh _ C];
    fields C; rewrite Ems.
  - exact H.
  - apply Forall_app. split; [exact H | repeat constructor].
  - apply Forall_app. split; [exact H|].
    constructor; [|repeat constructor].
    simpl. split; [exact N|]. rewrite M. apply trim_trim.
  - exact H.
  - apply Forall_app. split; [|constructor; [exact Hh | constructor]].
    destruct Hl as [-> | ->]; repeat apply node_ok_remove; exact H.
Qed.

Lemma posted_step w ev :
  shown_by_user w = posted w ->
  shown_by_user (step B coerce w ev) = posted (step B coerce w ev).
Proof.
  unfold shown_by_user, posted. intros H.
  destruct (step_change B coerce w ev)
    as [C | _ _ C | e m sid own _ _ _ _ _ _ _ C | i t t' _ _ _ C
        | i t sid st l h _ Hl _ _ C];
    fields C; rewrite Ems, Esn.
  - exact H.
  - rewrite !flat_map_app. simpl. rewrite H. reflexivity.
  - rewrite !flat_map_app. simpl. rewrite H. reflexivity.
  - exact H.
  - rewrite flat_map_app. simpl. rewrite app_nil_r.
    destruct Hl as [-> | ->]; rewrite !shown_remove; exact H.
Qed.

Lemma posted_run evs : forall w,
  List.length (posted (run_events B coerce w evs)) <= List.length (posted w) + sends evs.
Proof.
  unfold sends.
  induction evs as [|ev evs IH]; intros w; simpl; [lia|].
  specialize (IH (step B coerce w ev)).
  assert (List.length (posted (step B coerce w ev))
          <= List.length (posted w) + (if is_send ev then 1 else 0)) as K.
  { unfold posted.
    destruct (step_change B coerce w ev)
      as [C | _ _ C | e m sid own -> _ _ _ _ _ _ C | i t t' _ _ _ C
          | i t sid st l h _ _ _ _ C];
      fields C; rewrite Esn; try lia.
    - rewrite flat_map_app, length_app. simpl. lia.
    - rewrite flat_map_app, length_app. simpl. lia. }
  destruct (is_send ev); simpl in *; lia.
Qed.

Lemma stored_run evs : forall w,
  stored (run_events B coerce w evs) = stored w
  \/ exists e' id,
       In e' (parse_envs evs) /\ storage_ok e' = true
       /\ stored (run_events B coerce w evs) = Some (stringify_session id (now e')).
Proof.
  induction evs as [|ev evs IH]; intros w; simpl; [left; reflexivity|].
  destruct (IH (step B coerce w ev)) as [E | (e' & id & I & S & E)].
  - rewrite E.
    destruct (step_change B coerce w ev)
      as [C | _ _ C | e m sid own _ _ _ _ _ _ _ C | i t t' _ _ _ C
          | i t sid st l h _ _ _ Hs C];
      fields C; rewrite Est; auto.
    destruct Hs as [[_ ->] | (e' & -> & ->)]; [left; reflexivity|].
    unfold saveSession. destruct (storage_ok e') eqn:S; [|left; reflexivity].
    right. exists e', sid. simpl. auto.
  - right. exists e', id. split; [|split; assumption].
    unfold parse_envs in *. simpl. apply in_or_app. right. exact I.
Qed.

End MoreRuns.

(** X1. However the page is driven, there are never more typing indicators
    in the message list than calls suspended on the network and elements
    that [hideTyping] took out of a message in place of an indicator.  So
    when the markup of no message gives an element with the indicator's id,
    there are at most as many indicators as pending calls, and none when no
    call is pending. *)
Theorem typing_bounded B coerce e entry evs :
  let w := loaded B coerce e entry evs in
  typing_shown w <= List.length (tasks w) + pruned (messages w)
  /\ (clean_markup B typing_id (messages w) ->
      typing_shown w <= List.length (tasks w)
      /\ (tasks w = [] -> filter is_typing (messages w) = [])).
Proof.
  intros w.
  assert (typing_shown w <= List.length (tasks w) + pruned (messages w)) as H.
  { apply (run_invariant B coerce
             (fun w => typing_shown w
                       <= List.length (tasks w) + pruned (messages w))
             (typing_step B coerce)).
    unfold typing_shown. simpl. lia. }
  split; [exact H|]. intros C.
  assert (marked B (messages w)) as M.
  { apply (run_invariant B coerce (fun w => marked B (messages w))
                         (marked_step B coerce)).
    constructor. }
  rewrite (marked_pruned B _ M C), Nat.add_0_r in H.
  split; [exact H|].
  intros E. rewrite E in H. unfold typing_shown in H. simpl in H.
  destruct (filter is_typing (messages w)); [reflexivity | simpl in H; lia].
Qed.

Lemma typing_bounded_witness :
  let w :=
    loaded no_ids no_coercion an_instant None
           [Toggle; Edit (u "hi"); Send an_instant; Fetched 1 None; Fetched 0 None] in
  tasks w = [] /\ filter is_typing (messages w) = [].
Proof.
  intros w. split; [reflexivity|].
  refine (proj2 (proj2 (typing_bounded no_ids no_coercion an_instant None
                          [Toggle; Edit (u "hi"); Send an_instant;
                           Fetched 1 None; Fetched 0 None]) _) eq_refl).
  unfold clean_markup. vm_compute. repeat constructor.
Defined.

(** X2. No event removes a message, reorders the messages or changes the
    text or the markup that a message was given; each event adds at most
    one.  The one thing that can happen to a message is that [hideTyping]
    takes an element out of it; when that never happened, the messages
    shown before are still there as they were. *)
Theorem history_grows B coerce w evs :
  exists added,
    map as_appended (history (run_events B coerce w evs))
    = map as_appended (history w) ++ added
    /\ List.length added <= List.length evs
    /\ (pruned (messages (run_events B coerce w evs)) = 0 ->
        history (run_events B coerce w evs) = history w ++ added).
Proof.
  destruct (history_run B coerce evs w) as (added & E & L).
  exists added. split; [exact E|]. split; [exact L|].
  intros Z. pose proof (pruned_run B coerce evs w) as P.
  unfold history in *.
  rewrite as_appended_id in E by (rewrite pruned_filter; exact Z).
  rewrite as_appended_id in E by (rewrite pruned_filter; lia).
  exact E.
Qed.

Lemma history_grows_witness :
  let w :=
    loaded no_ids no_coercion an_instant None [Edit (u "hi"); Send an_instant] in
  exists added,
    history (run_events no_ids no_coercion w [Fetched 0 None; Toggle])
    = history w ++ added.
Proof.
  intros w.
  destruct (history_grows no_ids no_coercion w [Fetched 0 None; Toggle])
    as (added & _ & _ & H).
  exists added. exact (H eq_refl).
Defined.

(** X3. However the page is driven, [isLoading] is set exactly while a call
    of [sendMessage] is suspended on the network, and the send button is
    disabled exactly while such a call holds it: the call disables what
    [getElementById("edopt-send")] finds, which is the button unless a
    message holds an element with that id.  When the markup of no message
    gives an element with the id of the button or of the indicator, the
    button is disabled exactly while [isLoading] is set. *)
Theorem loading_while_in_flight B coerce e entry evs :
  let w := loaded B coerce e entry evs in
  chats_in_flight w = (if isLoading w then 1 else 0)
  /\ send_disabled w = existsb owns_button (tasks w)
  /\ (clean_markup B typing_id (messages w) ->
      clean_markup B send_id (messages w) ->
      send_disabled w = isLoading w).
Proof.
  intros w.
  assert (marked B (messages w)
          /\ chats_in_flight w = (if isLoading w then 1 else 0)
          /\ send_disabled w = existsb owns_button (tasks w)
          /\ (calls_own (tasks w) = true
              \/ ~ (clean_markup B typing_id (messages w)
                    /\ clean_markup B send_id (messages w)))) as (M & H & D & O).
  { apply (run_invariant B coerce
             (fun w => marked B (messages w)
                       /\ chats_in_flight w = (if isLoading w then 1 else 0)
                       /\ send_disabled w = existsb owns_button (tasks w)
                       /\ (calls_own (tasks w) = true
                           \/ ~ (clean_markup B typing_id (messages w)
                                 /\ clean_markup B send_id (messages w))))).
    - intros w0 ev [M0 I0]. split; [apply marked_step, M0|].
      apply loading_step; assumption.
    - split; [constructor|]. repeat split. left. reflexivity. }
  split; [exact H|]. split; [exact D|].
  intros C1 C2. destruct O as [O | O]; [|exfalso; apply O; auto].
  rewrite D, (calls_own_owner _ O), existsb_filter_length.
  unfold chats_in_flight in H. rewrite H. destruct (isLoading w); reflexivity.
Qed.

Lemma loading_while_in_flight_witness :
  let w :=
    loaded no_ids no_coercion an_instant None
           [Toggle; Edit (u "hi"); Send an_instant; Fetched 0 None] in
  send_disabled w = isLoading w.
Proof.
  intros w.
  refine (proj2 (proj2 (loading_while_in_flight no_ids no_coercion an_instant None
                          [Toggle; Edit (u "hi"); Send an_instant; Fetched 0 None]))
                _ _);
    unfold clean_markup; vm_compute; repeat constructor.
Defined.

(** X4. However the page is driven, what the user typed is only ever shown
    as text, never as HTML: every user message of the list is the text
    content of a trimmed string that is not empty, and every assistant
    message is HTML in which each [<] opens a tag of the renderer. *)
Theorem messages_well_formed B coerce e entry evs :
  Forall node_ok (messages (loaded B coerce e entry evs)).
Proof.
  apply (run_invariant B coerce (fun w => Forall node_ok (messages w))
                       (node_ok_step B coerce)).
  constructor.
Qed.

(** X5. However the page is driven, the user messages of the list are the
    messages of the [/chat] requests, in the same order: a message is shown
    if and only if it was posted. *)
Theorem shown_iff_posted B coerce e entry evs :
  shown_by_user (loaded B coerce e entry evs) = posted (loaded B coerce e entry evs).
Proof.
  apply (run_invariant B coerce (fun w => shown_by_user w = posted w)
                       (posted_step B coerce)).
  reflexivity.
Qed.

(** X6. Nothing is retried: a response that arrives or fails issues no
    request, so there are at most as many [/chat] requests as send
    actions. *)
Theorem no_retry B coerce e entry evs w i r e' :
  List.length (posted (loaded B coerce e entry evs)) <= sends evs
  /\ sent (fetched B i r w) = sent w
  /\ sent (parsed B i e' w) = sent w.
Proof.
  split; [|split].
  - apply (posted_run B coerce evs (init coerce e entry)).
  - destruct (fetched_change B coerce i r w)
      as [C | D _ C | e0 m sid own D _ _ _ _ _ _ C | j t t' _ _ _ C
          | j t sid st l h _ _ _ _ C];
      try discriminate; fields C; exact Esn.
  - destruct (parsed_change B coerce i e' w)
      as [C | D _ C | e0 m sid own D _ _ _ _ _ _ C | j t t' _ _ _ C
          | j t sid st l h _ _ _ _ C];
      try discriminate; fields C; exact Esn.
Qed.

(** X7. The widget never deletes the storage entry and writes nothing but
    session payloads: after any run the entry is the one the page was
    loaded with, or a payload that [saveSession] wrote when a response
    body had been parsed, stamped with the time of that event. *)
Theorem stored_is_payload B coerce e entry evs :
  stored (loaded B coerce e entry evs) = entry
  \/ exists e' id,
       In e' (parse_envs evs) /\ storage_ok e' = true
       /\ stored (loaded B coerce e entry evs)
          = Some (stringify_session id (now e')).
Proof. apply (stored_run B coerce evs (init coerce e entry)). Qed.

(** *** The panel *)

Section Panel.
Variable B : browser.
Variable coerce : json -> res (option Z).

Lemma open_failed (fallback : jstring) w :
  fallback <> [] ->
  let w' := settled (addMessage (str fallback) assistant (hideTyping B w)) in
  isOpen w' = isOpen w /\ panel_open w' = panel_open w.
Proof.
  intros Hf. cbv zeta. rewrite (failed_shape B fallback w Hf). split; reflexivity.
Qed.

Lemma open_received (fallback : jstring) e d w :
  fallback <> [] ->
  let w' := match greeting_received B e d w with
            | Done w' => w'
            | Thrown w' =>
                settled (addMessage (str fallback) assistant (hideTyping B w'))
            end in
  isOpen w' = isOpen w /\ panel_open w' = panel_open w.
Proof.
  intros Hf. cbv zeta.
  destruct (settled_shape B fallback e d w Hf) as (sid & st & l & h & -> & _).
  split; reflexivity.
Qed.

Lemma open_finally own w :
  isOpen (chat_finally own w) = isOpen w
  /\ panel_open (chat_finally own w) = panel_open w.
Proof. destruct own; split; reflexivity. Qed.

Lemma open_step w ev :
  is_toggle ev = false ->
  isOpen (step B coerce w ev) = isOpen w
  /\ panel_open (step B coerce w ev) = panel_open w.
Proof.
  destruct ev as [|v| |e|i r|i e]; simpl; intros N; try discriminate.
  - split; reflexivity.
  - split; reflexivity.
  - unfold sendMessage.
    destruct (planted B input_id (messages w)); [split; reflexivity|].
    destruct (is_nil (trim (input_value w)) || isLoading w); [split; reflexivity|].
    destruct (negb (truthy (sessionId _))), (negb (planted B send_id (messages w)));
      split; reflexivity.
  - unfold fetched.
    destruct (nth_error (tasks w) i) as [[|data|own|own data]|];
      try (split; reflexivity).
    + destruct r as [resp|]; [split; reflexivity|].
      apply (open_failed greeting_fallback (finish i w) greeting_fallback_not_nil).
    + pose proof (open_failed chat_fallback (finish i w) chat_fallback_not_nil) as K.
      cbv zeta in K.
      destruct (open_finally own
                  (settled (addMessage (str chat_fallback) assistant
                                       (hideTyping B (finish i w))))) as [A1 A2].
      assert (isOpen (chat_finally own (chat_failed B (finish i w))) = isOpen w
              /\ panel_open (chat_finally own (chat_failed B (finish i w)))
                 = panel_open w) as K'
          by (unfold chat_failed; rewrite A1, A2; exact K).
      destruct r as [resp|]; [|exact K'].
      destruct (negb (ok resp)); [exact K' | split; reflexivity].
  - unfold parsed.
    destruct (nth_error (tasks w) i) as [[|data|own|own data]|];
      try (split; reflexivity).
    + unfold greeting_settled. destruct data as [d|].
      * apply (open_received greeting_fallback e d (finish i w)
                             greeting_fallback_not_nil).
      * apply (open_failed greeting_fallback (finish i w) greeting_fallback_not_nil).
    + unfold chat_settled.
      match goal with
      | |- context [chat_finally own ?x] => destruct (open_finally own x) as [A1 A2]
      end.
      rewrite A1, A2. destruct data as [d|].
      * apply (open_received chat_fallback e d (finish i w) chat_fallback_not_nil).
      * apply (open_failed chat_fallback (finish i w) chat_fallback_not_nil).
Qed.

Lemma open_toggle w :
  isOpen (togglePanel B w) = negb (isOpen w)
  /\ panel_open (togglePanel B w) = negb (isOpen w).
Proof.
  unfold togglePanel. simpl. destruct (isOpen w); simpl; [split; reflexivity|].
  destruct (negb (hasGreeted w)); simpl;
    match goal with
    | |- context [first_with B input_id ?l] =>
        destruct (first_with B input_id l) as [[h k]|];
          [destruct (focusable B h k)|]
    end; split; reflexivity.
Qed.

Lemma open_run evs : forall w,
  panel_open w = isOpen w ->
  isOpen (run_events B coerce w evs) = xorb (isOpen w) (Nat.odd (toggles evs))
  /\ panel_open (run_events B coerce w evs) = isOpen (run_events B coerce w evs).
Proof.
  unfold toggles.
  induction evs as [|ev evs IH]; intros w H; simpl.
  - rewrite xorb_false_r. auto.
  - destruct (is_toggle ev) eqn:T.
    + destruct ev; try discriminate. simpl.
      destruct (open_toggle w) as [A C].
      destruct (IH (togglePanel B w)) as [E D]; [congruence|].
      split; [|exact D]. rewrite E, A. simpl List.length. rewrite Nat.odd_succ.
      rewrite <- Nat.negb_odd. destruct (isOpen w), (Nat.odd _); reflexivity.
    + destruct (open_step w ev T) as [A C].
      destruct (IH (step B coerce w ev)) as [E D]; [congruence|].
      split; [|exact D]. rewrite E, A. reflexivity.
Qed.

End Panel.

(** X8. The panel is a two-state machine that starts closed: after any run
    it is open exactly when the toggle was activated an odd number of
    times, whatever the network did in between, and the class [edopt-open]
    of the panel follows [isOpen]. *)
Theorem panel_open_iff_odd_toggles B coerce e entry evs :
  let w := loaded B coerce e entry evs in
  isOpen w = Nat.odd (toggles evs) /\ panel_open w = isOpen w.
Proof.
  apply (open_run B coerce evs (init coerce e entry)). reflexivity.
Qed.

Section Greeting.
Variable B : browser.
Variable coerce : json -> res (option Z).

Lemma greeted_toggle w :
  (hasGreeted w = false -> isOpen w = false) ->
  greetings_sent w = (if hasGreeted w then 1 else 0) ->
  hasGreeted (togglePanel B w) = true /\ greetings_sent (togglePanel B w) = 1.
Proof.
  destruct w as [sid0 op lo gr po ms iv ia ifo sd st0 sn tk].
  unfold greetings_sent, togglePanel. simpl. intros J G.
  destruct gr.
  - destruct op; simpl; [auto|].
    destruct (first_with B input_id ms) as [[h k]|];
      [destruct (focusable B h k)|]; simpl; auto.
  - rewrite (J eq_refl). simpl.
    destruct (first_with B input_id (ms ++ [Typing])) as [[h k]|];
      [destruct (focusable B h k)|]; simpl;
      rewrite filter_app_length, G; auto.
Qed.

Lemma greeted_step w ev :
  is_toggle ev = false ->
  hasGreeted (step B coerce w ev) = hasGreeted w
  /\ greetings_sent (step B coerce w ev) = greetings_sent w.
Proof.
  unfold greetings_sent. intros N.
  destruct (step_change B coerce w ev)
    as [C | D _ C | e m sid own _ _ _ _ _ _ _ C | i t t' _ _ _ C
        | i t sid st l h _ _ _ _ C];
    [| subst ev; discriminate | | |]; fields C; rewrite Egr, Esn; auto.
  rewrite filter_app_length. simpl. auto.
Qed.

Lemma greeted_run evs : forall w,
  (hasGreeted w = false -> isOpen w = false) ->
  greetings_sent w = (if hasGreeted w then 1 else 0) ->
  hasGreeted (run_events B coerce w evs) = hasGreeted w || existsb is_toggle evs
  /\ greetings_sent (run_events B coerce w evs)
     = (if hasGreeted w || existsb is_toggle evs then 1 else 0).
Proof.
  induction evs as [|ev evs IH]; intros w J G; simpl.
  - rewrite orb_false_r. auto.
  - destruct (is_toggle ev) eqn:T.
    + destruct ev; try discriminate. simpl.
      destruct (greeted_toggle w J G) as [A C].
      destruct (IH (togglePanel B w)) as [E D];
        [rewrite A; discriminate | rewrite A; exact C |].
      rewrite E, D, A, orb_true_r. auto.
    + destruct (greeted_step w ev T) as [A C].
      destruct (open_step B coerce w ev T) as [O _].
      destruct (IH (step B coerce w ev)) as [E D];
        [rewrite A, O; exact J | rewrite A, C; exact G |].
      rewrite E, D, A. auto.
Qed.

End Greeting.

(** X9. The greeting is requested when the panel is opened for the first
    time and at no other moment: after a run without a toggle no greeting
    request was sent and [hasGreeted] is clear; after a run with a toggle
    exactly one was sent and [hasGreeted] is set. *)
Theorem greeting_on_first_open B coerce e entry evs :
  let w := loaded B coerce e entry evs in
  hasGreeted w = existsb is_toggle evs
  /\ greetings_sent w = (if existsb is_toggle evs then 1 else 0).
Proof.
  apply (greeted_run B coerce evs (init coerce e entry)); reflexivity.
Qed.
(* ================================================================= *)
(** ** Replies *)

Lemma addMessage_ok c h w :
  renderMarkdown c = Ok h ->
  addMessage c assistant w
  = Done (set_messages (messages w ++ [bubble h]) w).
Proof. unfold addMessage. intros ->. reflexivity. Qed.

Lemma addMessage_throw c w :
  renderMarkdown c = Throw -> addMessage c assistant w = Thrown w.
Proof. unfold addMessage. intros ->. reflexivity. Qed.

(** A response body that was parsed, for either call. *)
Lemma parsed_body B i e w t d :
  nth_error (tasks w) i = Some t ->
  t = GreetJson (Some d) \/ (exists own, t = ChatJson own (Some d)) ->
  parsed B i e w
  = finally_of t
      match greeting_received B e d (finish i w) with
      | Done w' => w'
      | Thrown w' =>
          settled (addMessage (str (if is_chat t then chat_fallback
                                    else greeting_fallback))
                              assistant (hideTyping B w'))
      end.
Proof.
  intros T [-> | [own ->]]; unfold parsed; rewrite T; reflexivity.
Qed.

Lemma finally_of_fields t w :
  sessionId (finally_of t w) = sessionId w
  /\ stored (finally_of t w) = stored w
  /\ messages (finally_of t w) = messages w
  /\ tasks (finally_of t w) = tasks w
  /\ (is_chat t = true ->
      isLoading (finally_of t w) = false /\ input_focused (finally_of t w) = true)
  /\ (owns_button t = true -> input_restored (finally_of t w)).
Proof.
  unfold finally_of, input_restored.
  destruct t as [|data|own|own data]; simpl;
    try (repeat split; intros; try reflexivity; discriminate);
    destruct own; repeat split; intros; try reflexivity; discriminate.
Qed.

Lemma render_fallback t :
  Markdown.render (if is_chat t then chat_fallback else greeting_fallback)
  = (if is_chat t then chat_fallback_html else greeting_fallback_html).
Proof.
  destruct (is_chat t); [apply render_chat_fallback | apply render_greeting_fallback].
Qed.

(** X10. A reply whose body has a usable [answer] (a string, or a falsy
    value): the session id of the body is adopted and saved, whatever it
    is, [hideTyping] runs once and the rendered answer is appended as an
    assistant message; the call is gone from the pending ones.  When no
    message holds an element with the indicator's id, [hideTyping] removes
    the first typing indicator and nothing else.  After a reply to a
    message [isLoading] is clear and the textarea has the focus, and the
    send button is enabled again if the call had found it. *)
Theorem reply_shown B i e w t d sid answer h :
  nth_error (tasks w) i = Some t ->
  t = GreetJson (Some d) \/ (exists own, t = ChatJson own (Some d)) ->
  get (Val d) (u "session_id") = Ok sid ->
  get (Val d) (u "answer") = Ok answer ->
  renderMarkdown answer = Ok h ->
  let w' := parsed B i e w in
  sessionId w' = sid
  /\ stored w' = saveSession e sid (stored w)
  /\ messages w' = remove_typing B (messages w) ++ [bubble h]
  /\ (planted B typing_id (messages w) = false ->
      messages w' = without_indicator (messages w) ++ [bubble h])
  /\ tasks w' = drop_task i (tasks w)
  /\ (is_chat t = true -> isLoading w' = false /\ input_focused w' = true)
  /\ (owns_button t = true -> input_restored w').
Proof.
  intros T Ht S A R w'. subst w'. rewrite (parsed_body B i e w t d T Ht).
  unfold greeting_received. rewrite S, A, (addMessage_ok _ _ _ R).
  match goal with
  | |- context [finally_of t ?x] =>
      destruct (finally_of_fields t x) as (F1 & F2 & F3 & F4 & F5 & F6)
  end.
  rewrite F1, F2, F3, F4.
  assert (forall l, messages (hideTyping B (set_stored (saveSession e sid (stored w))
                                 (set_sessionId sid (finish i w)))) ++ l
                    = remove_typing B (messages w) ++ l) as M
      by (intros l; destruct w; reflexivity).
  split; [destruct w; reflexivity|].
  split; [destruct w; reflexivity|].
  split; [destruct w; reflexivity|].
  split; [intros P; rewrite <- (remove_typing_clean B _ P); destruct w; reflexivity|].
  split; [destruct w; reflexivity|].
  split; [exact F5 | exact F6].
Qed.

Lemma reply_shown_witness :
  let busy :=
    loaded no_ids no_coercion an_instant None [Edit (u "hi"); Send an_instant] in
  let body := JObj [(u "session_id", JStr (u "s-1")); (u "answer", JStr (u "**ok**"))] in
  let w' := parsed no_ids 0 an_instant
                   (fetched no_ids 0 (Some {| ok := true; payload := Some body |})
                            busy) in
  sessionId w' = str (u "s-1")
  /\ messages w' = [Message user (Text (str (u "hi")));
                    bubble (u "<p><strong>ok</strong></p>")]
  /\ input_restored w'.
Proof.
  intros busy body w'.
  pose proof (reply_shown no_ids 0 an_instant
                (fetched no_ids 0 (Some {| ok := true; payload := Some body |}) busy)
                (ChatJson true (Some body)) body (str (u "s-1")) (str (u "**ok**"))
                (u "<p><strong>ok</strong></p>")
                eq_refl (or_intror (ex_intro _ true eq_refl)) eq_refl eq_refl) as H.
  assert (renderMarkdown (str (u "**ok**")) = Ok (u "<p><strong>ok</strong></p>")) as R
      by (vm_compute; reflexivity).
  destruct (H R) as (A & _ & _ & M & _ & _ & D).
  split; [exact A|]. split; [exact (M eq_refl) | exact (D eq_refl)].
Defined.

(** X11. A reply that cannot be shown.  A body that is [null] makes the
    read of [session_id] throw: session id and store stay as they were and
    the [catch] block runs [hideTyping] once.  An [answer] that is neither
    falsy nor a string makes [renderMarkdown] throw after the session id was
    adopted and saved and [hideTyping] has run: the [catch] block then runs
    it once more.  Either way the one fallback message of the call is
    appended: [<p>I'm sorry, I'm having trouble right now. Please try again
    in a moment.</p>] for a message, [<p>Welcome! I'm the EdOpt Assistant.
    How can I help you explore education options in New Hampshire?</p>] for
    the greeting.  When no message holds an element with the indicator's
    id, each run of [hideTyping] removes the first typing indicator, if
    there is one, and nothing else. *)
Theorem reply_unusable B i e w t d :
  nth_error (tasks w) i = Some t ->
  t = GreetJson (Some d) \/ (exists own, t = ChatJson own (Some d)) ->
  let w' := parsed B i e w in
  let fallback :=
    bubble (if is_chat t then chat_fallback_html else greeting_fallback_html) in
  (d = JNull ->
   sessionId w' = sessionId w /\ stored w' = stored w
   /\ messages w' = remove_typing B (messages w) ++ [fallback]
   /\ (planted B typing_id (messages w) = false ->
       messages w' = without_indicator (messages w) ++ [fallback]))
  /\ (forall sid answer,
        get (Val d) (u "session_id") = Ok sid ->
        get (Val d) (u "answer") = Ok answer ->
        renderMarkdown answer = Throw ->
        sessionId w' = sid /\ stored w' = saveSession e sid (stored w)
        /\ messages w'
           = remove_typing B (remove_typing B (messages w)) ++ [fallback]
        /\ (planted B typing_id (messages w) = false ->
            messages w'
            = without_indicator (without_indicator (messages w)) ++ [fallback])).
Proof.
  intros T Ht w' fallback. subst w' fallback.
  rewrite (parsed_body B i e w t d T Ht).
  assert ((if is_chat t then chat_fallback else greeting_fallback) <> []) as Hf
      by (destruct (is_chat t); discriminate).
  split.
  - intros ->. unfold greeting_received. simpl get. cbv iota.
    rewrite (failed_shape B _ _ Hf), render_fallback.
    match goal with
    | |- context [finally_of t ?x] =>
        destruct (finally_of_fields t x) as (F1 & F2 & F3 & _)
    end.
    rewrite F1, F2, F3.
    split; [destruct w; reflexivity|].
    split; [destruct w; reflexivity|].
    split; [destruct w; reflexivity|].
    intros P. rewrite <- (remove_typing_clean B _ P). destruct w; reflexivity.
  - intros sid answer S A R. unfold greeting_received. rewrite S, A.
    rewrite (addMessage_throw _ _ R), (failed_shape B _ _ Hf), render_fallback.
    match goal with
    | |- context [finally_of t ?x] =>
        destruct (finally_of_fields t x) as (F1 & F2 & F3 & _)
    end.
    rewrite F1, F2, F3.
    split; [destruct w; reflexivity|].
    split; [destruct w; reflexivity|].
    split; [destruct w; reflexivity|].
    intros P.
    rewrite <- (remove_typing_clean B (without_indicator (messages w)))
      by (apply planted_without_indicator, P).
    rewrite <- (remove_typing_clean B _ P). destruct w; reflexivity.
Qed.

Lemma reply_unusable_witness :
  let busy :=
    loaded no_ids no_coercion an_instant None
           [Toggle; Edit (u "hi"); Send an_instant] in
  let body := JObj [(u "session_id", JStr (u "s-1")); (u "answer", JNum 42)] in
  let w' := parsed no_ids 1 an_instant
                   (fetched no_ids 1 (Some {| ok := true; payload := Some body |})
                            busy) in
  sessionId w' = str (u "s-1")
  /\ messages w' = [Message user (Text (str (u "hi")));
                    bubble chat_fallback_html].
Proof.
  intros busy body w'.
  destruct (proj2 (reply_unusable no_ids 1 an_instant
                     (fetched no_ids 1 (Some {| ok := true; payload := Some body |})
                              busy)
                     (ChatJson true (Some body)) body eq_refl
                     (or_intror (ex_intro _ true eq_refl)))
                  (str (u "s-1")) (Val (JNum 42)) eq_refl eq_refl eq_refl)
    as (A & _ & _ & M).
  split; [exact A | exact (M eq_refl)].
Defined.
(* ================================================================= *)
(** ** The session across page loads *)

Section Reload.
Variable B : browser.
Variable coerce : json -> res (option Z).

Lemma stored_after_reply i e w t d sid :
  nth_error (tasks w) i = Some t ->
  t = GreetJson (Some d) \/ (exists own, t = ChatJson own (Some d)) ->
  get (Val d) (u "session_id") = Ok sid ->
  stored (parsed B i e w) = saveSession e sid (stored w).
Proof.
  intros T Ht S. rewrite (parsed_body B i e w t d T Ht).
  assert ((if is_chat t then chat_fallback else greeting_fallback) <> []) as Hf
      by (destruct (is_chat t); discriminate).
  match goal with
  | |- context [finally_of t ?x] =>
      destruct (finally_of_fields t x) as (_ & F2 & _)
  end.
  rewrite F2. unfold greeting_received. rewrite S.
  destruct (get (Val d) (u "answer")) as [answer|].
  - destruct (renderMarkdown answer) as [h|] eqn:R.
    + rewrite (addMessage_ok _ _ _ R). destruct w; reflexivity.
    + rewrite (addMessage_throw _ _ R), (failed_shape B _ _ Hf).
      destruct w; reflexivity.
  - rewrite (failed_shape B _ _ Hf). destruct w; reflexivity.
Qed.

Lemma getSession_saved e1 e2 (id : value) entry :
  storage_ok e1 = true -> storage_ok e2 = true ->
  (now e2 - now e1 < SESSION_TTL)%Z ->
  fst (getSession coerce e2 (saveSession e1 id entry)) = id.
Proof.
  intros H1 H2 Hlt. unfold saveSession. rewrite H1.
  apply Z.ltb_lt in Hlt.
  destruct id as [|j]; unfold stringify_session.
  - rewrite getSession_object with (ts := now e1); [|assumption|reflexivity].
    rewrite Hlt. reflexivity.
  - rewrite getSession_object with (ts := now e1); [|assumption|reflexivity].
    rewrite Hlt. reflexivity.
Qed.

Lemma first_send e2 e3 entry v :
  trim v <> [] ->
  sent (run_events B coerce (init coerce e2 entry) [Edit v; Send e3])
  = [Chat (trim v)
          (if truthy (fst (getSession coerce e2 entry))
           then fst (getSession coerce e2 entry)
           else fst (getSession coerce e3 entry))].
Proof.
  intros V. unfold run_events, init. cbn [fold_left step]. unfold sendMessage.
  cbn [input_value set_input isLoading messages planted first_with negb].
  rewrite orb_false_r.
  destruct (is_nil (trim v)) eqn:N; [destruct (trim v); [congruence | discriminate]|].
  cbn -[getSession trim].
  destruct (truthy (fst (getSession coerce e2 entry))); reflexivity.
Qed.

(** Until a response body is parsed, the session id of the page and the
    stored entry stay, and every message carries the id. *)
Lemma session_kept_step e1 id entry w ev :
  storage_ok e1 = true ->
  (forall i e, ev <> Parsed i e) ->
  (truthy id = true
   \/ forall e, ev = Send e ->
                storage_ok e = true /\ (now e - now e1 < SESSION_TTL)%Z) ->
  sessionId w = id /\ stored w = saveSession e1 id entry
  /\ Forall (carries id) (sent w) ->
  sessionId (step B coerce w ev) = id
  /\ stored (step B coerce w ev) = saveSession e1 id entry
  /\ Forall (carries id) (sent (step B coerce w ev)).
Proof.
  intros O1 NP Hs (S & St & F).
  destruct (step_change B coerce w ev)
    as [C | _ _ C | e m sid own -> _ _ _ _ _ Hsid C | i t t' _ _ _ C
        | i t sid st l h _ _ _ Hst C];
    fields C; rewrite Esid, Est, Esn.
  - auto.
  - split; [exact S|]. split; [exact St|].
    apply Forall_app. split; [exact F | repeat constructor].
  - assert (sid = id) as ->.
    { rewrite Hsid, S, St. destruct (truthy id) eqn:Tr; [reflexivity|].
      destruct Hs as [Hs | Hs]; [discriminate|].
      destruct (Hs e eq_refl) as [Oe Le].
      apply getSession_saved; assumption. }
    split; [reflexivity|]. split; [exact St|].
    apply Forall_app. split; [exact F | repeat constructor].
  - auto.
  - destruct Hst as [[-> ->] | (e & E & _)]; [auto|].
    exfalso. exact (NP i e E).
Qed.

Lemma session_kept_run e1 id entry evs : forall w,
  storage_ok e1 = true ->
  parse_envs evs = [] ->
  (truthy id = true
   \/ Forall (fun e => storage_ok e = true /\ (now e - now e1 < SESSION_TTL)%Z)
             (send_envs evs)) ->
  sessionId w = id /\ stored w = saveSession e1 id entry
  /\ Forall (carries id) (sent w) ->
  sessionId (run_events B coerce w evs) = id
  /\ Forall (carries id) (sent (run_events B coerce w evs)).
Proof.
  induction evs as [|ev evs IH]; intros w O1 NP Hs H.
  - destruct H as (S & _ & F). split; assumption.
  - unfold parse_envs in NP. simpl in NP. apply app_eq_nil in NP as [NP1 NP2].
    apply (IH (step B coerce w ev) O1 NP2).
    + destruct Hs as [Hs | Hs]; [left; exact Hs | right].
      unfold send_envs in Hs. simpl in Hs. apply Forall_app in Hs as [_ Hs].
      exact Hs.
    + apply (session_kept_step e1 id entry w ev O1); [| |exact H].
      * intros i e ->. discriminate.
      * destruct Hs as [Hs | Hs]; [left; exact Hs | right].
        intros e ->. unfold send_envs in Hs. simpl in Hs.
        inversion Hs; subst. assumption.
Qed.

(** X12. The session outlives the page.  When a reply with a session id
    was parsed while the storage worked, a page that is loaded less than
    [SESSION_TTL] later starts with that id.  Until a response body is
    parsed on the new page it keeps the id, and every message sent from it
    carries the id: always when the id is truthy, and for a falsy id when
    the messages are sent within [SESSION_TTL] while the storage works.  In
    particular a message typed and sent as the first thing on the new page
    is the one request of the page, and carries the id. *)
Theorem session_survives_reload i e1 e2 w t d id :
  nth_error (tasks w) i = Some t ->
  t = GreetJson (Some d) \/ (exists own, t = ChatJson own (Some d)) ->
  get (Val d) (u "session_id") = Ok (Val id) ->
  storage_ok e1 = true -> storage_ok e2 = true ->
  (now e2 - now e1 < SESSION_TTL)%Z ->
  let page := init coerce e2 (stored (parsed B i e1 w)) in
  sessionId page = Val id
  /\ (forall evs,
        parse_envs evs = [] ->
        truthy (Val id) = true
        \/ Forall (fun e => storage_ok e = true /\ (now e - now e1 < SESSION_TTL)%Z)
                  (send_envs evs) ->
        sessionId (run_events B coerce page evs) = Val id
        /\ Forall (carries (Val id)) (sent (run_events B coerce page evs)))
  /\ (forall v e3,
        storage_ok e3 = true -> (now e3 - now e1 < SESSION_TTL)%Z ->
        trim v <> [] ->
        sent (run_events B coerce page [Edit v; Send e3]) = [Chat (trim v) (Val id)]).
Proof.
  intros T Ht S O1 O2 L2 page. subst page.
  rewrite (stored_after_reply i e1 w t d (Val id) T Ht S).
  pose proof (getSession_saved e1 e2 (Val id) (stored w) O1 O2 L2) as G2.
  split; [exact G2|]. split.
  - intros evs NP Hs.
    apply (session_kept_run e1 (Val id) (stored w) evs _ O1 NP Hs).
    split; [exact G2|]. split; [reflexivity | constructor].
  - intros v e3 O3 L3 V.
    pose proof (getSession_saved e1 e3 (Val id) (stored w) O1 O3 L3) as G3.
    rewrite (first_send e2 e3 _ v V), G2, G3.
    destruct (truthy (Val id)); reflexivity.
Qed.

(** X13. [getSession] vouches for what it returns: a result other than
    [null] comes from a stored object whose [ts], as a number, is less than
    [SESSION_TTL] before now, read while the storage worked, and is the [id]
    of that object. *)
Theorem getSession_only_fresh e entry :
  fst (getSession coerce e entry) <> null ->
  storage_ok e = true
  /\ exists fields n,
       entry = Some (Json (JObj fields))
       /\ to_number coerce (lookup (u "ts") fields) = Ok (Some n)
       /\ (now e - n < SESSION_TTL)%Z
       /\ fst (getSession coerce e entry) = lookup (u "id") fields.
Proof.
  unfold getSession. simpl fst.
  destruct (storage_ok e); [|intros H; exfalso; apply H; reflexivity].
  intros H. split; [reflexivity|].
  destruct entry as [[|j]|]; try (exfalso; apply H; reflexivity).
  simpl JSON_parse in *. unfold bind at 1 in H. unfold bind at 1.
  destruct (truthy (Val j)) eqn:Tr; [|exfalso; apply H; reflexivity].
  destruct j as [|b|n|s|l|fields];
    try (exfalso; apply H; reflexivity).
  exists fields. simpl get in *. unfold bind at 1 in H. unfold bind at 1.
  destruct (to_number coerce (lookup (u "ts") fields)) as [[n|]|] eqn:N;
    try (exfalso; apply H; reflexivity).
  exists n. simpl in *.
  destruct (Z.ltb (now e - n) SESSION_TTL) eqn:L;
    [|exfalso; apply H; reflexivity].
  apply Z.ltb_lt in L. auto.
Qed.

End Reload.

Lemma session_survives_reload_witness :
  let busy :=
    loaded no_ids no_coercion an_instant None [Edit (u "hi"); Send an_instant] in
  let body := JObj [(u "session_id", JStr (u "s-1")); (u "answer", JStr (u "ok"))] in
  let replied :=
    fetched no_ids 0 (Some {| ok := true; payload := Some body |}) busy in
  let later := {| now := now an_instant + 3600000; storage_ok := true |} in
  let page :=
    init no_coercion later (stored (parsed no_ids 0 an_instant replied)) in
  sessionId page = str (u "s-1")
  /\ Forall (carries (str (u "s-1")))
            (sent (run_events no_ids no_coercion page
                              [Toggle; Fetched 0 None; Edit (u "a"); Send later;
                               Fetched 0 None; Edit (u "b"); Send later]))
  /\ sent (run_events no_ids no_coercion page [Edit (u " more "); Send later])
     = [Chat (trim (u " more ")) (str (u "s-1"))].
Proof.
  intros busy body replied later.
  destruct (session_survives_reload no_ids no_coercion 0 an_instant later replied
              (ChatJson true (Some body)) body (JStr (u "s-1"))
              eq_refl (or_intror (ex_intro _ true eq_refl)) eq_refl eq_refl eq_refl
              eq_refl) as (A & R & F).
  split; [exact A|]. split.
  - exact (proj2 (R [Toggle; Fetched 0 None; Edit (u "a"); Send later;
                     Fetched 0 None; Edit (u "b"); Send later]
                    eq_refl (or_introl eq_refl))).
  - apply (F (u " more ") later eq_refl eq_refl). discriminate.
Defined.

Lemma getSession_only_fresh_witness :
  let entry := payload_of (JStr (u "s-1")) (now an_instant) in
  storage_ok an_instant = true
  /\ exists fields n,
       entry = Some (Json (JObj fields))
       /\ to_number no_coercion (lookup (u "ts") fields) = Ok (Some n)
       /\ (now an_instant - n < SESSION_TTL)%Z
       /\ fst (getSession no_coercion an_instant entry) = lookup (u "id") fields.
Proof.
  intros entry.
  apply (getSession_only_fresh no_coercion an_instant entry).
  discriminate.
Defined.

(* ================================================================= *)
(** ** The stylesheet and the base URL *)

Lemma find_none_filter {A} (f : A -> bool) l : find f l = None -> filter f l = [].
Proof.
  induction l as [|x l IH]; simpl; [reflexivity|].
  destruct (f x); [discriminate | exact IH].
Qed.

Lemma find_some_filter {A} (f : A -> bool) l x :
  find f l = Some x -> 1 <= List.length (filter f l).
Proof.
  induction l as [|y l IH]; simpl; [discriminate|].
  destruct (f y); simpl; [lia | exact IH].
Qed.

Lemma find_app_none {A} (f : A -> bool) l l' :
  find f l = None -> find f (l ++ l') = find f l'.
Proof.
  induction l as [|x l IH]; simpl; [reflexivity|].
  destruct (f x); [discriminate | exact IH].
Qed.

(** X14. [loadCSS] adds the stylesheet link at most once: a second call,
    from this or another copy of the script, changes nothing; after a call
    the document holds one element with the id [edopt-chat-css] if it held
    none, and as many as before otherwise; the body is never touched. *)
Theorem loadCSS_once base base' d :
  Page.loadCSS base' (Page.loadCSS base d) = Page.loadCSS base d
  /\ Page.stylesheets (Page.loadCSS base d) = Nat.max 1 (Page.stylesheets d)
  /\ Page.body (Page.loadCSS base d) = Page.body d.
Proof.
  unfold Page.loadCSS, Page.stylesheets, Page.getElementById.
  destruct (find _ (Page.head d ++ Page.body d)) as [x|] eqn:F.
  - rewrite F. split; [reflexivity|]. split; [|reflexivity].
    apply find_some_filter in F. lia.
  - simpl. split; [|split; [|reflexivity]].
    + apply find_app_none with (l' := Page.body d) in F as F'.
      assert (find (fun x => jeqb (Page.element_id x) (u "edopt-chat-css"))
                   (Page.head d) = None) as Fh.
      { clear F'. revert F. generalize (Page.head d) as l.
        induction l as [|y l IH]; simpl; [reflexivity|].
        destruct (jeqb _ _); [discriminate | exact IH]. }
      rewrite <- app_assoc, (find_app_none _ _ _ Fh). reflexivity.
    + pose proof (find_none_filter _ _ F) as Fa. rewrite Fa.
      rewrite filter_app in Fa. apply app_eq_nil in Fa as [Fh Fb].
      rewrite !filter_app, Fh, Fb. reflexivity.
Qed.

(** X15. [API_BASE] is never the empty string: a [data-api] attribute that
    is not empty is taken as it is; without a current script, without the
    attribute or with an empty one, the base is the local server on
    [localhost] and the public one elsewhere. *)
Theorem API_BASE_spec script hostname :
  (forall a, script = Some (Some a) -> a <> [] ->
             Page.API_BASE script hostname = str a)
  /\ (Page.data_api script = Undefined \/ Page.data_api script = null
      \/ Page.data_api script = str [] ->
      Page.API_BASE script hostname
      = str (if jeqb hostname (u "localhost")
             then u "http://localhost:5012" else u "https://chatbot.edopt.org"))
  /\ exists b, Page.API_BASE script hostname = str b /\ b <> [].
Proof.
  unfold Page.API_BASE. split; [|split].
  - intros a -> Ha. simpl. destruct a; [congruence | reflexivity].
  - intros [-> | [-> | ->]]; simpl; destruct (jeqb hostname _); reflexivity.
  - destruct script as [[[|c a]|]|]; simpl.
    + destruct (jeqb hostname _); eexists; split; try reflexivity; discriminate.
    + eexists; split; [reflexivity | discriminate].
    + destruct (jeqb hostname _); eexists; split; try reflexivity; discriminate.
    + destruct (jeqb hostname _); eexists; split; try reflexivity; discriminate.
Qed.

Lemma API_BASE_spec_witness :
  Page.API_BASE (Some (Some (u "http://h:1"))) (u "localhost") = str (u "http://h:1")
  /\ Page.API_BASE (Some (Some [])) (u "localhost") = str (u "http://localhost:5012").
Proof.
  split.
  - apply (proj1 (API_BASE_spec (Some (Some (u "http://h:1"))) (u "localhost"))
                 (u "http://h:1") eq_refl).
    discriminate.
  - apply (proj1 (proj2 (API_BASE_spec (Some (Some [])) (u "localhost")))).
    right. right. reflexivity.
Defined.
(* ================================================================= *)
(** ** Escaping, unit by unit *)

Lemma replace_single_units c o fuel :
  forall p s, List.length s < fuel ->
    replace_from fuel [Chars [c]] [Lit o] p s = flat_map (replace_unit c o) s.
Proof.
  induction fuel as [|fuel IH]; intros p s L; [lia|].
  cbn [replace_from]. rewrite exec_single.
  destruct s as [|d s']; [reflexivity|].
  simpl in L. cbn [flat_map]. unfold replace_unit at 1.
  destruct (N.eqb c d) eqn:E.
  - change (d :: s') with ([d] ++ s'). rewrite !firstn_app_minus.
    cbn [subst flat_map is_nil app]. rewrite app_nil_r, IH by lia. reflexivity.
  - rewrite IH by lia. reflexivity.
Qed.

Lemma replace_units c o s :
  replace [Chars [c]] [Lit o] s = flat_map (replace_unit c o) s.
Proof. unfold replace. apply replace_single_units. lia. Qed.

Lemma flat_map_flat_map {A B C} (f : A -> list B) (g : B -> list C) l :
  flat_map g (flat_map f l) = flat_map (fun x => flat_map g (f x)) l.
Proof.
  induction l as [|x l IH]; simpl; [reflexivity|].
  rewrite flat_map_app, IH. reflexivity.
Qed.

(** X16. The three escaping passes amount to one pass over the units of the
    text: [&] becomes [&amp;], [<] becomes [&lt;], [>] becomes [&gt;], every
    other unit stays, and the [&] of an entity written by an earlier pass is
    not escaped again. *)
Theorem escape_html_units text :
  Markdown.escape_html text = flat_map escape_unit text.
Proof.
  unfold Markdown.escape_html, Markdown.re_gt, Markdown.re_lt, Markdown.re_amp.
  change (u ">") with [62%N]. change (u "<") with [60%N]. change (u "&") with [38%N].
  rewrite !replace_units, !flat_map_flat_map.
  apply flat_map_ext. intros c. unfold replace_unit at 3, escape_unit.
  rewrite N.eqb_sym.
  destruct (N.eqb c 38) eqn:E1; [reflexivity|].
  cbn [flat_map]. unfold replace_unit at 2. rewrite N.eqb_sym.
  destruct (N.eqb c 60) eqn:E2; [reflexivity|].
  cbn [flat_map app]. unfold replace_unit. rewrite N.eqb_sym.
  destruct (N.eqb c 62) eqn:E3; reflexivity.
Qed.

(* ================================================================= *)
(** ** Before the grouping loop: no list container *)

Lemma item_tags_head t : In t item_tags -> exists w, t = lt :: w.
Proof.
  unfold item_tags. simpl.
  intros H; repeat (destruct H as [<- | H]; [eexists; reflexivity|]); destruct H.
Qed.

Lemma item_tags_line c :
  is_line_terminator c = true -> in_tag_in item_tags c = false.
Proof.
  unfold is_line_terminator. rewrite !orb_true_iff, !N.eqb_eq.
  intros [[[-> | ->] | ->] | ->]; vm_compute; reflexivity.
Qed.

Lemma items_chars c0 l o s :
  in_tag_in item_tags c0 = false -> safe_in item_tags o = true ->
  safe_in item_tags s = true ->
  safe_in item_tags (replace [Chars (c0 :: l)] [Lit o] s) = true.
Proof.
  intros Hc Ho. apply (replace_safe_in item_tags item_tags_head).
  - intros p s0 caps rest E.
    destruct (shape_chars _ _ _ _ _ E) as (-> & _).
    exists c0, (l ++ rest). repeat split; auto.
    len.
  - intros p s0 caps rest E Hs. simpl. rewrite app_nil_r. exact Ho.
Qed.

Lemma items_link s :
  safe_in item_tags s = true ->
  safe_in item_tags (replace Markdown.re_link Markdown.anchor s) = true.
Proof.
  apply (replace_safe_in item_tags item_tags_head).
  - intros p s0 caps rest E.
    destruct (shape_link _ _ _ _ E) as (x & y & -> & _).
    exists 91%N, (x ++ u "](" ++ y ++ u ")" ++ rest). repeat split; auto.
    len.
  - intros p s0 caps rest E Hs.
    destruct (shape_link _ _ _ _ E) as (x & y & -> & -> & _).
    assert (safe_in item_tags x = true) as Hx.
    { apply (safe_in_suffix item_tags (u "[")) in Hs.
      apply (safe_in_cut item_tags item_tags_head x _ Hs). reflexivity. }
    assert (safe_in item_tags y = true) as Hy.
    { apply (safe_in_suffix item_tags (u "[")) in Hs.
      apply (safe_in_suffix item_tags x) in Hs.
      apply (safe_in_suffix item_tags (u "](")) in Hs.
      apply (safe_in_cut item_tags item_tags_head y _ Hs). reflexivity. }
    unfold Markdown.anchor, subst. cbn [flat_map nth pred]. rewrite app_nil_r.
    apply safe_in_app; [reflexivity|]. apply safe_in_app; [exact Hy|].
    apply safe_in_app; [reflexivity|]. apply safe_in_app; [exact Hx | reflexivity].
Qed.

Lemma items_br_item_br s :
  safe_in item_tags s = true ->
  safe_in item_tags (replace Markdown.re_br_item_br [Cap 1] s) = true.
Proof.
  apply (replace_safe_in item_tags item_tags_head).
  - intros p s0 caps rest E.
    destruct (shape_br_item_br _ _ _ _ E) as (a & x & b & -> & _ & Ha & _).
    exists lt. destruct Ha as [-> | ->]; eexists; (split; [reflexivity|]);
      (split; [reflexivity|]); unfold br, li_open, li_close, u; simpl; len.
  - intros p s0 caps rest E Hs.
    destruct (shape_br_item_br _ _ _ _ E) as (a & x & b & -> & -> & _ & _).
    unfold subst. cbn [flat_map nth pred]. rewrite app_nil_r.
    apply (safe_in_suffix item_tags a) in Hs. rewrite <- !app_assoc in Hs.
    rewrite (app_assoc li_open x) in Hs.
    rewrite (app_assoc li_open x). apply safe_in_app; [|reflexivity].
    apply (safe_in_cut item_tags item_tags_head _ _ Hs). reflexivity.
Qed.

Lemma items_delimited ca a cb b g m cls o c s :
  in_tag_in item_tags ca = false -> in_tag_in item_tags cb = false ->
  safe_in item_tags o = true -> safe_in item_tags c = true ->
  safe_in item_tags s = true ->
  safe_in item_tags (replace [Chars (ca :: a); Grp [Rep g m cls]; Chars (cb :: b)]
                             [Lit o; Cap 1; Lit c] s) = true.
Proof. exact (safe_in_delimited item_tags item_tags_head ca a cb b g m cls o c s). Qed.

Lemma items_line ca a o c s :
  in_tag_in item_tags ca = false ->
  safe_in item_tags o = true -> safe_in item_tags c = true ->
  safe_in item_tags s = true ->
  safe_in item_tags (replace [Bol; Chars (ca :: a); Grp [Rep true 1 dot]; Eol]
                             [Lit o; Cap 1; Lit c] s) = true.
Proof. exact (safe_in_line item_tags item_tags_head item_tags_line ca a o c s). Qed.

Lemma items_inline_markup s :
  safe_in item_tags s = true -> safe_in item_tags (Markdown.inline_markup s) = true.
Proof.
  intros H. unfold Markdown.inline_markup.
  apply items_chars; [reflexivity | reflexivity |].
  apply items_chars; [reflexivity | reflexivity |].
  apply items_line; [reflexivity | reflexivity | reflexivity |].
  apply items_delimited; [reflexivity | reflexivity | reflexivity | reflexivity |].
  apply items_link.
  apply items_delimited; [reflexivity | reflexivity | reflexivity | reflexivity |].
  apply items_delimited; [reflexivity | reflexivity | reflexivity | reflexivity |].
  apply items_delimited; [reflexivity | reflexivity | reflexivity | reflexivity |].
  apply items_line; [reflexivity | reflexivity | reflexivity |].
  apply items_line; [reflexivity | reflexivity | reflexivity |].
  apply items_line; [reflexivity | reflexivity | reflexivity |].
  exact H.
Qed.

Lemma items_tidy_items s :
  safe_in item_tags s = true -> safe_in item_tags (Markdown.tidy_items s) = true.
Proof.
  intros H. unfold Markdown.tidy_items, replace at 2.
  rewrite replace_from_whole. apply items_br_item_br, H.
Qed.

Lemma items_html text :
  safe_in item_tags
          (Markdown.tidy_items (Markdown.inline_markup (Markdown.escape_html text)))
  = true.
Proof.
  apply items_tidy_items, items_inline_markup, no_lt_safe_in, escape_html_no_lt.
Qed.

(* ================================================================= *)
(** ** The pieces of the split *)

Lemma exec_li_tag_none p s :
  exec Markdown.re_li_tag p s = None -> starts_with li_open s = false.
Proof.
  unfold exec, Markdown.re_li_tag, starts_with, li_open. cbn [run_seq run].
  destruct (strip_prefix (u "<li>") s); [discriminate | reflexivity].
Qed.

Lemma clear_of_snoc t acc c s :
  clear_of t acc (c :: s) = true -> starts_with t (c :: s) = false ->
  clear_of t (acc ++ [c]) s = true.
Proof.
  intros H Hc. induction acc as [|a acc IH]; simpl in *.
  - rewrite Hc. reflexivity.
  - apply andb_true_iff in H as [A B]. rewrite <- app_assoc. simpl.
    rewrite A, (IH B). reflexivity.
Qed.

Lemma clear_of_mentions t acc s : clear_of t acc s = true -> mentions t acc = false.
Proof.
  induction acc as [|a acc IH]; simpl; [reflexivity|].
  intros H. apply andb_true_iff in H as [A B]. rewrite (IH B), orb_false_r.
  destruct (starts_with t (a :: acc)) eqn:E; [|reflexivity].
  apply (starts_with_app t (a :: acc) s) in E. simpl in E.
  rewrite E in A. discriminate.
Qed.

Lemma split_from_pieces fuel :
  forall p acc s,
    List.length s < fuel ->
    safe_in item_tags (acc ++ s) = true ->
    clear_of li_open acc s = true ->
    Forall piece_ok (split_from fuel Markdown.re_li_tag p acc s).
Proof.
  induction fuel as [|fuel IH]; intros p acc s L H C; [lia|].
  cbn [split_from]. destruct s as [|c s']; cbv beta iota zeta.
  - rewrite app_nil_r in H. constructor; [|constructor].
    right. split; [exact H | exact (clear_of_mentions _ _ _ C)].
  - destruct (exec Markdown.re_li_tag p (c :: s')) as [[caps rest]|] eqn:E.
    + destruct (shape_li_tag _ _ _ _ E) as (tag & Ht & Hs & ->).
      rewrite Hs. rewrite Hs in H, L.
      rewrite firstn_app_minus.
      assert (is_nil tag = false) as -> by (destruct Ht as [-> | ->]; reflexivity).
      cbn [andb app].
      constructor; [|constructor].
      * right. split; [|exact (clear_of_mentions _ _ _ C)].
        apply (safe_in_cut item_tags item_tags_head acc _ H).
        destruct Ht as [-> | ->]; reflexivity.
      * left. destruct Ht as [-> | ->]; reflexivity.
      * apply IH.
        -- rewrite length_app in L.
           destruct Ht as [-> | ->]; simpl in L; lia.
        -- apply (safe_in_suffix item_tags (acc ++ tag)).
           rewrite <- app_assoc. exact H.
        -- reflexivity.
    + apply IH.
      * simpl in L. lia.
      * rewrite <- app_assoc. exact H.
      * apply clear_of_snoc; [exact C | exact (exec_li_tag_none _ _ E)].
Qed.

Lemma split_pieces s :
  safe_in item_tags s = true -> Forall piece_ok (split Markdown.re_li_tag s).
Proof.
  intros H. unfold split. destruct s as [|c s'].
  - destruct (exec _ _ _); [constructor|].
    constructor; [right; split; reflexivity | constructor].
  - apply split_from_pieces; [simpl; lia | exact H | reflexivity].
Qed.

(* ================================================================= *)
(** ** Items lie in lists *)

Lemma starts_with_head x t c s : starts_with (x :: t) (c :: s) = true -> c = x.
Proof.
  unfold starts_with. simpl. destruct (N.eqb x c) eqn:E; [|discriminate].
  intros _. apply N.eqb_eq in E. congruence.
Qed.

(** A tag of [item_tags] is the beginning of no list tag but [<li>]. *)
Lemma item_tag_apart t z :
  In t item_tags ->
  starts_with (u "<ul>") (t ++ z) = false
  /\ starts_with (u "</ul>") (t ++ z) = false
  /\ (starts_with li_open (t ++ z) = false ->
      starts_with (u "<li>") (t ++ z) = false).
Proof.
  unfold item_tags. simpl In.
  intros H;
    repeat (destruct H as [<- | H]; [repeat split; try reflexivity; auto|]);
    destruct H.
Qed.

Lemma scan_piece l :
  safe_in item_tags l = true -> mentions li_open l = false ->
  forall b rest, lists_ok b (l ++ rest) = lists_ok b rest.
Proof.
  induction l as [|c l IH]; intros S M b rest; [reflexivity|].
  apply safe_in_cons in S as [A S]. simpl in M.
  apply orb_false_iff in M as [M0 M].
  assert (starts_with (u "<ul>") ((c :: l) ++ rest) = false
          /\ starts_with (u "</ul>") ((c :: l) ++ rest) = false
          /\ starts_with (u "<li>") ((c :: l) ++ rest) = false) as (U1 & U2 & U3).
  { destruct (N.eqb c lt) eqn:E.
    - apply N.eqb_eq in E. specialize (A E).
      destruct (opens_tag_in_inv item_tags item_tags_head _ _ A)
        as (w & r & I & -> & ->).
      change ((lt :: w ++ r) ++ rest) with (((lt :: w) ++ r) ++ rest).
      rewrite <- app_assoc.
      destruct (item_tag_apart (lt :: w) (r ++ rest) I) as (U1 & U2 & U3).
      repeat split; auto. apply U3.
      destruct (starts_with li_open ((lt :: w) ++ r ++ rest)) eqn:K; [|reflexivity].
      exfalso.
      assert (lt :: w = li_open) as Hw.
      { revert K. clear - I. unfold item_tags in I. simpl In in I.
        repeat (destruct I as [I | I];
                [injection I as <-; try reflexivity; intros K; discriminate K|]).
        destruct I. }
      rewrite <- Hw in M0.
      assert (starts_with (lt :: w) (lt :: w ++ r) = true) as K'
          by (apply starts_with_spec; exists r; reflexivity).
      congruence.
    - apply N.eqb_neq in E.
      repeat split;
        (match goal with
         | |- ?x = false => destruct x eqn:K; [|reflexivity]
         end;
         apply starts_with_head in K; exfalso; apply E; rewrite K; reflexivity). }
  cbn [app lists_ok] in *. rewrite U1, U2, U3. apply IH; assumption.
Qed.

Lemma scan_li y : lists_ok true (u "<li>" ++ y) = lists_ok true y.
Proof. reflexivity. Qed.

Lemma scan_ul_li y : lists_ok false (u "<ul>" ++ u "<li>" ++ y) = lists_ok true y.
Proof. reflexivity. Qed.

Lemma scan_li_ul y : lists_ok true (u "</li>" ++ u "</ul>" ++ y) = lists_ok false y.
Proof. reflexivity. Qed.

Lemma scan_close b y : lists_ok b (u "</li>" ++ y) = lists_ok b y.
Proof. destruct b; reflexivity. Qed.

Lemma scan_p y : lists_ok false (u "<p>" ++ y) = lists_ok false y.
Proof. reflexivity. Qed.

Lemma scan_group lines :
  Forall piece_ok lines ->
  forall b z,
    lists_ok b (Markdown.group_items b lines ++ z) = lists_ok false z.
Proof.
  induction 1 as [|l rest Hl _ IH]; intros b z.
  - destruct b; reflexivity.
  - cbn [Markdown.group_items].
    destruct (jeqb l (u "<li>")) eqn:E1.
    + destruct b; cbn [negb]; rewrite <- !app_assoc, ?app_nil_l.
      * rewrite scan_li. apply IH.
      * rewrite scan_ul_li. apply IH.
    + destruct (jeqb l (u "</li>")) eqn:E2.
      * rewrite <- app_assoc.
        destruct (negb (Markdown.next_is_li rest) && b) eqn:N.
        -- apply andb_true_iff in N as [_ ->]. rewrite <- app_assoc.
           rewrite scan_li_ul. apply IH.
        -- rewrite scan_close. apply IH.
      * destruct Hl as [Hl | [Hs Hm]];
          [unfold is_li_tag in Hl; rewrite E1, E2 in Hl; discriminate|].
        rewrite <- app_assoc, (scan_piece l Hs Hm). apply IH.
Qed.

Lemma render_lists_ok text : lists_ok false (Markdown.render text) = true.
Proof.
  unfold Markdown.render. rewrite scan_p.
  rewrite (scan_group _ (split_pieces _ (items_html text))). reflexivity.
Qed.


(* ================================================================= *)
(** ** Passes, segment by segment *)

Lemma last_unit_app x y p : last_unit (x ++ y) p = last_unit y (last_unit x p).
Proof.
  revert p. induction x as [|a x IH]; intros p; [reflexivity|].
  cbn [app]. rewrite !last_unit_cons. apply IH.
Qed.

Lemma replace_silent re t y rest :
  forall fuel p,
    silent re p y rest ->
    replace_from (List.length y + fuel) re t p (y ++ rest)
    = y ++ replace_from fuel re t (last_unit y p) rest.
Proof.
  induction y as [|c y IH]; intros fuel p Q; [reflexivity|].
  destruct Q as [E Q].
  cbn [List.length Nat.add replace_from]. rewrite E. cbn [app].
  rewrite (IH fuel (Some c) Q), last_unit_cons. reflexivity.
Qed.

Lemma replace_segs re t segs :
  forall fuel p,
    List.length (src_of segs) < fuel ->
    segs_ok re t p segs ->
    replace_from fuel re t p (src_of segs) = out_of segs.
Proof.
  unfold src_of, out_of.
  induction segs as [|s segs IH]; intros fuel p L H.
  - destruct fuel as [|fuel]; [reflexivity|]. cbn [replace_from map concat].
    cbn [segs_ok] in H. rewrite H. reflexivity.
  - cbn [map concat] in *. rewrite length_app in L. destruct H as [Hs H].
    destruct s as [w o | y]; cbn [seg_src seg_out] in *.
    + destruct Hs as (Hw & caps & E & Ho).
      destruct fuel as [|fuel]; [lia|]. cbn [replace_from].
      unfold src_of in E. rewrite E, firstn_app_minus, Ho.
      assert (is_nil w = false) as -> by (destruct w; [congruence | reflexivity]).
      rewrite (IH fuel _); [reflexivity | | exact H].
      destruct w; [congruence | simpl in L; lia].
    + replace fuel with (List.length y + (fuel - List.length y)) by lia.
      rewrite (replace_silent re t y _ _ p Hs).
      rewrite (IH _ _); [reflexivity | lia | exact H].
Qed.

Lemma replace_by_segs re t segs s out :
  s = src_of segs -> out = out_of segs ->
  segs_ok re t None segs -> replace re t s = out.
Proof.
  intros -> -> H. unfold replace. apply replace_segs; [lia | exact H].
Qed.

(** A stretch without the unit that every match starts with is silent. *)
Lemma silent_no_trigger re c0 y rest :
  (forall p s caps rest, exec re p s = Some (caps, rest) -> exists s', s = c0 :: s') ->
  ~ In c0 y -> forall p, silent re p y rest.
Proof.
  intros Hhead. induction y as [|c y IH]; intros H p; [exact I|].
  split.
  - destruct (exec re p ((c :: y) ++ rest)) as [[caps r]|] eqn:E; [|reflexivity].
    destruct (Hhead _ _ _ _ E) as (s' & K). injection K as -> _.
    exfalso. apply H. left. reflexivity.
  - apply IH. intros K. apply H. right. exact K.
Qed.

Lemma silent_app re y1 y2 rest p :
  silent re p y1 (y2 ++ rest) -> silent re (last_unit y1 p) y2 rest ->
  silent re p (y1 ++ y2) rest.
Proof.
  revert p. induction y1 as [|c y1 IH]; intros p Q1 Q2; [exact Q2|].
  destruct Q1 as [E Q1]. cbn [app silent]. rewrite <- app_assoc. split; [exact E|].
  apply IH; [exact Q1|]. rewrite last_unit_cons in Q2. exact Q2.
Qed.

(** To show that the pattern fails, suppose it matched. *)
Ltac suppose E :=
  match goal with
  | |- ?x = None => destruct x as [[? ?]|] eqn:E; [exfalso | reflexivity]
  end.

(* ================================================================= *)
(** ** Line patterns on lines *)

Lemma run_Bol R p s caps (k : cont R) :
  run Bol p s caps k = if at_bol p then k p s caps else None.
Proof. reflexivity. Qed.

Lemma run_Eol R p s caps (k : cont R) :
  run Eol p s caps k = if at_eol s then k p s caps else None.
Proof. reflexivity. Qed.

(** A greedy class repetition takes all of [x] when the class ends there. *)
Lemma rep_greedy_all R cls (k : option N -> jstring -> option R) rest res :
  match rest with [] => True | c :: _ => cls c = false end ->
  forall x min p,
    forallb cls x = true -> min <= List.length x ->
    k (last_unit x p) rest = Some res ->
    rep_greedy cls min p (x ++ rest) k = Some res.
Proof.
  intros Hr. induction x as [|a x IH]; intros min p Hx Hm K.
  - simpl in Hm. assert (min = 0) as -> by lia.
    cbn [app]. destruct rest as [|c r]; simpl; [exact K|].
    rewrite Hr. exact K.
  - simpl in Hx. apply andb_true_iff in Hx as [Ha Hx].
    rewrite last_unit_cons in K.
    cbn [app rep_greedy]. rewrite Ha.
    rewrite (IH (pred min) (Some a) Hx); [reflexivity | simpl in Hm; lia | exact K].
Qed.

Lemma run_Grp_all R cls min p x rest caps (k : cont R) res :
  forallb cls x = true -> min <= List.length x ->
  match rest with [] => True | c :: _ => cls c = false end ->
  k (last_unit x p) rest (caps ++ [x]) = Some res ->
  run (Grp [Rep true min cls]) p (x ++ rest) caps k = Some res.
Proof.
  intros Hx Hm Hc K.
  change (run (Grp [Rep true min cls]) p (x ++ rest) caps k)
    with (rep_greedy cls min p (x ++ rest)
            (fun p' s' =>
               k p' s' (caps ++ [firstn (List.length (x ++ rest) - List.length s')
                                        (x ++ rest)]))).
  apply rep_greedy_all; try assumption.
  rewrite firstn_app_minus. exact K.
Qed.

Lemma at_eol_stop rest :
  at_eol rest = true -> match rest with [] => True | c :: _ => dot c = false end.
Proof.
  destruct rest as [|c r]; [trivial|]. simpl. unfold dot. intros ->. reflexivity.
Qed.

Lemma exec_line a x rest p :
  at_bol p = true -> x <> [] -> forallb dot x = true -> at_eol rest = true ->
  exec [Bol; Chars a; Grp [Rep true 1 dot]; Eol] p (a ++ x ++ rest)
  = Some ([x], rest).
Proof.
  intros Hp Hx Hd Hr. unfold exec. cbn [run_seq].
  rewrite run_Bol, Hp, run_Chars.
  apply run_Grp_all;
    [exact Hd | destruct x; [congruence | simpl; lia] | apply at_eol_stop, Hr |].
  rewrite run_Eol, Hr. reflexivity.
Qed.

Lemma shape_line_full a p s caps rest :
  exec [Bol; Chars a; Grp [Rep true 1 dot]; Eol] p s = Some (caps, rest) ->
  exists x, s = a ++ x ++ rest /\ caps = [x] /\ x <> []
            /\ forallb dot x = true /\ at_eol rest = true /\ at_bol p = true.
Proof.
  intros H. shape H.
  match goal with
  | L : 1 <= List.length ?x |- _ =>
      exists x; repeat split; auto; intros ->; simpl in L; lia
  end.
Qed.

Section LinePass.
Variables a o c : jstring.
Hypothesis a_not_nil : a <> [].
Hypothesis a_dot : forallb dot a = true.

Let re : list regex := [Bol; Chars a; Grp [Rep true 1 dot]; Eol].
Let t : list piece := [Lit o; Cap 1; Lit c].

Lemma line_head p s caps rest :
  exec re p s = Some (caps, rest) -> exists d s', s = d :: s' /\ dot d = true.
Proof.
  intros E. destruct (shape_line_full _ _ _ _ _ E) as (x & -> & _).
  destruct a as [|d a']; [congruence|]. simpl in a_dot.
  apply andb_true_iff in a_dot as [Hd _]. exists d, (a' ++ x ++ rest). auto.
Qed.

Lemma silent_nl p rest : silent re p nl rest.
Proof.
  split; [|exact I]. suppose E.
  destruct (line_head _ _ _ _ E) as (d & s' & K & Hd).
  injection K as <- _. discriminate.
Qed.

Lemma silent_inside y rest d :
  dot d = true -> forallb dot y = true -> silent re (Some d) y rest.
Proof.
  revert d. induction y as [|e y IH]; intros d Hd Hy; [exact I|].
  simpl in Hy. apply andb_true_iff in Hy as [He Hy]. split; [|apply IH; assumption].
  suppose E.
  destruct (shape_line_full _ _ _ _ _ E) as (x & _ & _ & _ & _ & _ & B).
  simpl in B. unfold dot in Hd. rewrite B in Hd. discriminate.
Qed.

(** A prefix without line terminators that is not at the front of a line
    is not at the front of the line with what follows it. *)
Lemma strip_prefix_line l rest :
  forall a', forallb dot a' = true -> at_eol rest = true ->
    strip_prefix a' l = None -> strip_prefix a' (l ++ rest) = None.
Proof.
  induction l as [|e l IH]; intros [|d a'] Ha Hr H; simpl in *; try discriminate.
  - apply andb_true_iff in Ha as [Hd _].
    destruct rest as [|r0 rest]; [reflexivity|]. simpl in Hr.
    destruct (N.eqb d r0) eqn:E; [|reflexivity].
    apply N.eqb_eq in E. subst r0. unfold dot in Hd. rewrite Hr in Hd. discriminate.
  - apply andb_true_iff in Ha as [_ Ha].
    destruct (N.eqb d e); [apply IH; assumption | reflexivity].
Qed.

Lemma silent_line l rest p :
  forallb dot l = true -> at_eol rest = true ->
  match strip_prefix a l with Some (_ :: _) => False | _ => True end ->
  silent re p l rest.
Proof.
  intros Hl Hr Hm. destruct l as [|e l]; [exact I|].
  simpl in Hl. apply andb_true_iff in Hl as [He Hl].
  split; [|apply silent_inside; assumption].
  suppose E.
  destruct (shape_line_full _ _ _ _ _ E) as (x & Hs & _ & Hx & Hd & Hr' & _).
  destruct (strip_prefix a (e :: l)) as [[|x0 x']|] eqn:S; [| contradiction |].
  - apply strip_prefix_Some in S. rewrite S, <- app_assoc in Hs.
    apply app_inv_head in Hs. cbn [app] in Hs.
    destruct x as [|x0 x]; [congruence|]. simpl in Hd.
    apply andb_true_iff in Hd as [Hd _].
    destruct rest as [|r0 rest]; [discriminate|].
    injection Hs as <- _. simpl in Hr. unfold dot in Hd. rewrite Hr in Hd.
    discriminate.
  - apply (strip_prefix_line _ rest a a_dot Hr) in S.
    rewrite Hs, strip_prefix_app in S. discriminate.
Qed.

Lemma src_line_segs lines : src_of (line_segs a o c lines) = join nl lines.
Proof.
  unfold src_of. induction lines as [|l rest IH]; [reflexivity|].
  cbn [line_segs map concat join].
  assert (seg_src (line_seg a o c l) = l) as ->
      by (unfold line_seg; destruct (strip_prefix a l) as [[|? ?]|]; reflexivity).
  destruct rest as [|l' rest]; [apply app_nil_r|].
  cbn [map concat seg_src]. rewrite IH. reflexivity.
Qed.

Lemma out_line_segs lines :
  out_of (line_segs a o c lines) = join nl (map (line_rule a o c) lines).
Proof.
  unfold out_of. induction lines as [|l rest IH]; [reflexivity|].
  cbn [line_segs map concat join].
  assert (seg_out (line_seg a o c l) = line_rule a o c l) as ->
      by (unfold line_seg, line_rule;
          destruct (strip_prefix a l) as [[|? ?]|]; reflexivity).
  destruct rest as [|l' rest]; [apply app_nil_r|].
  cbn [map concat seg_out] in *. rewrite IH. reflexivity.
Qed.

Lemma at_eol_join_tail rest :
  at_eol (src_of match rest with
                 | [] => []
                 | _ => Skip nl :: line_segs a o c rest
                 end) = true.
Proof. destruct rest; reflexivity. Qed.

Lemma line_segs_ok lines :
  Forall (fun l => forallb dot l = true) lines ->
  forall p, at_bol p = true -> segs_ok re t p (line_segs a o c lines).
Proof.
  induction 1 as [|l rest Hl _ IH]; intros p Hp.
  - cbn [line_segs segs_ok]. suppose E.
    destruct (line_head _ _ _ _ E) as (d & s' & K & _). discriminate.
  - cbn [line_segs segs_ok]. split.
    + pose proof (at_eol_join_tail rest) as Hr.
      unfold line_seg.
      destruct (strip_prefix a l) as [[|x0 x]|] eqn:S.
      * apply silent_line; [exact Hl | exact Hr | rewrite S; exact I].
      * apply strip_prefix_Some in S. split; [subst l; destruct a; discriminate|].
        exists [x0 :: x]. split.
        -- subst l. rewrite <- app_assoc. apply exec_line; try assumption.
           ++ discriminate.
           ++ rewrite forallb_app in Hl. apply andb_true_iff in Hl as [_ Hl].
              exact Hl.
        -- unfold t. rewrite subst_wrap. reflexivity.
      * apply silent_line; [exact Hl | exact Hr | rewrite S; exact I].
    + destruct rest as [|l' rest]; [|].
      * cbn [segs_ok]. suppose E.
        destruct (line_head _ _ _ _ E) as (d & s' & K & _). discriminate.
      * cbn [segs_ok]. split; [apply silent_nl|].
        apply IH. reflexivity.
Qed.

Lemma line_pass lines :
  Forall (fun l => forallb dot l = true) lines ->
  replace re t (join nl lines) = join nl (map (line_rule a o c) lines).
Proof.
  intros H.
  apply (replace_by_segs re t (line_segs a o c lines)).
  - symmetry. apply src_line_segs.
  - symmetry. apply out_line_segs.
  - apply line_segs_ok; [exact H | reflexivity].
Qed.

End LinePass.

(* ================================================================= *)
(** ** Lazy repetition, groups and options *)

(** A lazy class repetition stops at the first place where the rest of the
    pattern matches; it passes the units at which the rest cannot start. *)
Lemma rep_lazy_until R cls (k : option N -> jstring -> option R) b0 rest res :
  (forall p' c s, c <> b0 -> k p' (c :: s) = None) ->
  forall x min p,
    forallb cls x = true -> ~ In b0 x -> min <= List.length x ->
    k (last_unit x p) rest = Some res ->
    rep_lazy cls min p (x ++ rest) k = Some res.
Proof.
  intros Hk. induction x as [|a x IH]; intros min p Hx Hb Hm K.
  - simpl in Hm. assert (min = 0) as -> by lia.
    change (last_unit [] p) with p in K.
    cbn [app]. destruct rest as [|c r]; simpl; rewrite K; reflexivity.
  - simpl in Hx. apply andb_true_iff in Hx as [Ha Hx].
    rewrite last_unit_cons in K.
    assert (a <> b0) as Hab by (intros ->; apply Hb; left; reflexivity).
    assert (~ In b0 x) as Hb' by (intros I; apply Hb; right; exact I).
    cbn [app rep_lazy]. rewrite Ha.
    destruct min as [|min].
    + rewrite (Hk p a (x ++ rest) Hab).
      apply (IH 0 (Some a) Hx Hb'); [lia | exact K].
    + apply (IH min (Some a) Hx Hb'); [simpl in Hm; lia | exact K].
Qed.

Lemma run_Grp1 R r p s caps (k : cont R) :
  run (Grp [r]) p s caps k
  = run r p s caps
        (fun p' s' caps' =>
           k p' s' (caps' ++ [firstn (List.length s - List.length s') s])).
Proof. reflexivity. Qed.

Lemma run_Grp3 R r1 r2 r3 p s caps (k : cont R) :
  run (Grp [r1; r2; r3]) p s caps k
  = run r1 p s caps (fun p1 s1 c1 =>
      run r2 p1 s1 c1 (fun p2 s2 c2 =>
        run r3 p2 s2 c2 (fun p' s' caps' =>
          k p' s' (caps' ++ [firstn (List.length s - List.length s') s])))).
Proof. reflexivity. Qed.

Lemma run_Opt1 R r p s caps (k : cont R) :
  run (Opt [r]) p s caps k
  = match run r p s caps k with
    | Some res => Some res
    | None => k p s caps
    end.
Proof. reflexivity. Qed.

Lemma run_Rep_lazy R min cls p s caps (k : cont R) :
  run (Rep false min cls) p s caps k
  = rep_lazy cls min p s (fun p' s' => k p' s' caps).
Proof. reflexivity. Qed.

Lemma run_Chars_none R l p s caps (k : cont R) :
  starts_with l s = false -> run (Chars l) p s caps k = None.
Proof.
  unfold starts_with. simpl. destruct (strip_prefix l s); [discriminate | reflexivity].
Qed.

Lemma run_Chars_other R l0 l p c s caps (k : cont R) :
  c <> l0 -> run (Chars (l0 :: l)) p (c :: s) caps k = None.
Proof.
  intros H. apply run_Chars_none. unfold starts_with. cbn [strip_prefix].
  destruct (N.eqb l0 c) eqn:E; [|reflexivity].
  apply N.eqb_eq in E. congruence.
Qed.

(** [a(.+?)b], when [x] holds neither a line terminator nor the first unit
    of [b]. *)
Lemma exec_lazy a b0 b x rest p :
  x <> [] -> forallb dot x = true -> ~ In b0 x ->
  exec [Chars a; Grp [Rep false 1 dot]; Chars (b0 :: b)] p
       (a ++ x ++ (b0 :: b) ++ rest)
  = Some ([x], rest).
Proof.
  intros Hx Hd Hb. unfold exec. cbn [run_seq].
  rewrite run_Chars, run_Grp1, run_Rep_lazy.
  apply (rep_lazy_until _ dot _ b0).
  - intros p' c s Hc. apply run_Chars_other. exact Hc.
  - exact Hd.
  - exact Hb.
  - destruct x; [congruence | simpl; lia].
  - rewrite run_Chars, firstn_app_minus. reflexivity.
Qed.

(** [a([^b]+)b]. *)
Lemma exec_greedy a b0 x rest p :
  x <> [] -> forallb (other_than b0) x = true ->
  exec [Chars a; Grp [Rep true 1 (other_than b0)]; Chars [b0]] p
       (a ++ x ++ [b0] ++ rest)
  = Some ([x], rest).
Proof.
  intros Hx Hb. unfold exec. cbn [run_seq].
  rewrite run_Chars.
  apply run_Grp_all;
    [exact Hb | destruct x; [congruence | simpl; lia]
    | simpl; unfold other_than; rewrite N.eqb_refl; reflexivity |].
  rewrite run_Chars. reflexivity.
Qed.
(* ================================================================= *)
(** ** Headings, list items and plain lines *)

Lemma plain_text_spec t :
  plain_text t = true ->
  (exists c t', t = c :: t') /\ forallb inert t = true /\ without 91 t = true.
Proof.
  unfold plain_text. rewrite !andb_true_iff, negb_true_iff.
  intros [[N I] W]. repeat split; try assumption.
  destruct t as [|c t']; [discriminate | eauto].
Qed.

Lemma forallb_join (P : N -> bool) sep lines :
  forallb P sep = true ->
  Forall (fun l => forallb P l = true) lines ->
  forallb P (join sep lines) = true.
Proof.
  intros Hs. induction 1 as [|l rest Hl _ IH]; [reflexivity|].
  cbn [join]. destruct rest as [|l' rest]; [exact Hl|].
  rewrite !forallb_app, Hl, Hs, IH. reflexivity.
Qed.

Lemma Forall_map_lines (P : jstring -> Prop) (f : line -> jstring) lines :
  (forall l, line_ok l = true -> P (f l)) ->
  forallb line_ok lines = true -> Forall P (map f lines).
Proof.
  intros H. induction lines as [|l rest IH]; intros Hl; [constructor|].
  simpl in Hl. apply andb_true_iff in Hl as [A B].
  constructor; [exact (H l A) | exact (IH B)].
Qed.

Lemma level_cases n : Nat.leb 1 n && Nat.leb n 3 = true -> n = 1 \/ n = 2 \/ n = 3.
Proof.
  rewrite andb_true_iff, !Nat.leb_le. lia.
Qed.

(** What holds of the units of plain text and of the units that the
    renderer writes around it holds of all units of a line. *)
Section Units.
Variable P : N -> bool.
Hypothesis P_plain :
  forall c, inert c = true -> other_than 91%N c = true -> P c = true.

Lemma plain_forall t : plain_text t = true -> forallb P t = true.
Proof.
  intros H. destruct (plain_text_spec t H) as (_ & I & W).
  unfold without in W. rewrite forallb_forall in *.
  intros c Hc. apply P_plain; [apply I | apply W]; exact Hc.
Qed.

Lemma source_forall l :
  P 35%N = true -> P 32%N = true -> P 45%N = true ->
  line_ok l = true -> forallb P (source_of l) = true.
Proof.
  intros H1 H2 H3 H. destruct l as [n t | t | t]; simpl in H.
  - apply andb_true_iff in H as [Hn Ht].
    unfold source_of, hashes.
    destruct (level_cases n Hn) as [-> | [-> | ->]]; simpl;
      rewrite ?H1, ?H2, (plain_forall t Ht); reflexivity.
  - simpl. rewrite H3, H2, (plain_forall t H). reflexivity.
  - apply andb_true_iff in H as [H _]. apply andb_true_iff in H as [H _].
    exact (plain_forall t H).
Qed.

Lemma html_forall l :
  forallb P (u "</hli123>") = true ->
  line_ok l = true -> forallb P (html_of_line l) = true.
Proof.
  intros HP H. simpl in HP. rewrite !andb_true_iff in HP.
  destruct HP as (A & B & C & D & E & F & G & H3 & I9 & _).
  destruct l as [n t | t | t]; simpl in H.
  - apply andb_true_iff in H as [Hn Ht].
    unfold html_of_line, heading_open, heading_close, digit.
    destruct (level_cases n Hn) as [-> | [-> | ->]];
      rewrite !forallb_app, (plain_forall t Ht); simpl;
      rewrite ?A, ?B, ?C, ?D, ?E, ?F, ?G, ?H3, ?I9; reflexivity.
  - unfold html_of_line. rewrite !forallb_app, (plain_forall t H). simpl.
    rewrite ?A, ?B, ?C, ?D, ?E, ?F, ?G, ?H3, ?I9. reflexivity.
  - apply andb_true_iff in H as [H _]. apply andb_true_iff in H as [H _].
    exact (plain_forall t H).
Qed.

Lemma headed_forall l :
  forallb P (u "</hli123>") = true ->
  P 32%N = true -> P 45%N = true ->
  line_ok l = true -> forallb P (headed l) = true.
Proof.
  intros HP H2 H3 H. destruct l as [n t | t | t].
  - apply html_forall; assumption.
  - simpl in *. rewrite H3, H2, (plain_forall t H). reflexivity.
  - exact (html_forall (Para t) HP H).
Qed.
End Units.

Lemma plain_dot c : inert c = true -> other_than 91%N c = true -> dot c = true.
Proof. intros H _. apply inert_dot, H. Qed.

Lemma plain_tame c : inert c = true -> other_than 91%N c = true -> tame c = true.
Proof.
  unfold inert, tame, other_than. rewrite !negb_true_iff, !orb_false_iff.
  intros (((((_ & _) & _) & S) & B) & _) K. auto.
Qed.

Lemma plain_unescaped c :
  inert c = true -> other_than 91%N c = true ->
  negb (N.eqb c 38 || N.eqb c 60 || N.eqb c 62)%N = true.
Proof.
  unfold inert. rewrite !negb_true_iff, !orb_false_iff.
  intros (((((A & B) & C) & _) & _) & _) _. auto.
Qed.

Lemma plain_not_nl c :
  inert c = true -> other_than 91%N c = true -> other_than 10%N c = true.
Proof.
  unfold inert, other_than, is_line_terminator.
  rewrite !negb_true_iff, !orb_false_iff.
  intros (_ & ((A & _) & _) & _) _. exact A.
Qed.

Lemma plain_not_lt c :
  inert c = true -> other_than 91%N c = true -> other_than 60%N c = true.
Proof.
  unfold inert, other_than. rewrite !negb_true_iff, !orb_false_iff.
  intros (((((_ & B) & _) & _) & _) & _) _. exact B.
Qed.

(** *** Escaping and the heading passes *)

Lemma flat_map_id (f : N -> jstring) (P : N -> bool) s :
  (forall c, P c = true -> f c = [c]) -> forallb P s = true -> flat_map f s = s.
Proof.
  intros H. induction s as [|c s IH]; intros Hs; [reflexivity|].
  simpl in Hs. apply andb_true_iff in Hs as [Hc Hs].
  cbn [flat_map]. rewrite (H c Hc), (IH Hs). reflexivity.
Qed.

Lemma text_of_forall (P : N -> bool) lines :
  (forall c, inert c = true -> other_than 91%N c = true -> P c = true) ->
  P 35%N = true -> P 32%N = true -> P 45%N = true -> P 10%N = true ->
  forallb line_ok lines = true -> forallb P (text_of lines) = true.
Proof.
  intros HP H1 H2 H3 H4 H. unfold text_of.
  apply forallb_join; [simpl; rewrite H4; reflexivity|].
  apply Forall_map_lines; [|exact H].
  intros l Hl. apply source_forall; assumption.
Qed.

Lemma escape_html_lines lines :
  forallb line_ok lines = true ->
  Markdown.escape_html (text_of lines) = text_of lines.
Proof.
  intros H. rewrite escape_html_units.
  apply (flat_map_id _ (fun c => negb (N.eqb c 38 || N.eqb c 60 || N.eqb c 62)%N)).
  - intros c Hc. unfold escape_unit.
    apply negb_true_iff in Hc. rewrite !orb_false_iff in Hc.
    destruct Hc as [[-> ->] ->]. reflexivity.
  - apply text_of_forall; try reflexivity; [exact plain_unescaped | exact H].
Qed.

Lemma line_rule_dot a o c l :
  forallb dot o = true -> forallb dot c = true -> forallb dot l = true ->
  forallb dot (line_rule a o c l) = true.
Proof.
  intros Ho Hc Hl. unfold line_rule.
  destruct (strip_prefix a l) as [[|x0 x]|] eqn:S; try exact Hl.
  apply strip_prefix_Some in S. subst l.
  rewrite forallb_app in Hl. apply andb_true_iff in Hl as [_ Hl].
  rewrite !forallb_app, Ho, Hc, Hl. reflexivity.
Qed.

Lemma para_head t :
  line_ok (Para t) = true ->
  exists c t', t = c :: t' /\ N.eqb 35%N c = false /\ N.eqb 45%N c = false
               /\ is_space c = false /\ N.eqb 60%N c = false.
Proof.
  cbn [line_ok]. rewrite !andb_true_iff. intros [[Hp Hs] Hb].
  destruct (plain_text_spec t Hp) as ((c & t' & ->) & Hi & Hw).
  exists c, t'. simpl in Hs, Hb, Hi, Hw.
  apply negb_true_iff in Hs, Hb. apply orb_false_iff in Hs as [S1 S2].
  apply andb_true_iff in Hi as [Hi _]. apply andb_true_iff in Hw as [Hw _].
  pose proof (plain_not_lt c Hi Hw) as K. unfold other_than in K.
  apply negb_true_iff in K.
  rewrite (N.eqb_sym 35%N), (N.eqb_sym 45%N), (N.eqb_sym 60%N). auto.
Qed.

Lemma line_rule_skip a o c c0 s :
  match a with a0 :: _ => N.eqb a0 c0 = false | [] => False end ->
  line_rule a o c (c0 :: s) = c0 :: s.
Proof.
  destruct a as [|a0 a]; [contradiction|]. intros H.
  unfold line_rule. cbn [strip_prefix]. rewrite H. reflexivity.
Qed.

Lemma heading_rules l :
  line_ok l = true ->
  line_rule (u "# ") (u "<" ++ u "h1" ++ u ">") (u "</" ++ u "h1" ++ u ">")
    (line_rule (u "## ") (u "<" ++ u "h2" ++ u ">") (u "</" ++ u "h2" ++ u ">")
       (line_rule (u "### ") (u "<" ++ u "h3" ++ u ">") (u "</" ++ u "h3" ++ u ">")
          (source_of l)))
  = headed l.
Proof.
  intros H. destruct l as [n t | t | t].
  - simpl in H. apply andb_true_iff in H as [Hn Ht].
    destruct (plain_text_spec t Ht) as ((c & t' & ->) & _).
    destruct (level_cases n Hn) as [-> | [-> | ->]]; reflexivity.
  - reflexivity.
  - destruct (para_head t H) as (c & t' & -> & H35 & _).
    unfold source_of, headed. rewrite !line_rule_skip by exact H35. reflexivity.
Qed.

Lemma item_rule l :
  line_ok l = true ->
  line_rule (u "- ") (u "<" ++ u "li" ++ u ">") (u "</" ++ u "li" ++ u ">") (headed l)
  = html_of_line l.
Proof.
  intros H. destruct l as [n t | t | t].
  - simpl in H. apply andb_true_iff in H as [Hn Ht].
    destruct (level_cases n Hn) as [-> | [-> | ->]]; reflexivity.
  - simpl in H. destruct (plain_text_spec t H) as ((c & t' & ->) & _). reflexivity.
  - destruct (para_head t H) as (c & t' & -> & _ & H45 & _).
    unfold html_of_line, headed, source_of.
    rewrite line_rule_skip by exact H45. reflexivity.
Qed.

Lemma Forall_dot_map (f : line -> jstring) lines :
  (forall l, line_ok l = true -> forallb dot (f l) = true) ->
  forallb line_ok lines = true ->
  Forall (fun l => forallb dot l = true) (map f lines).
Proof. intros H. apply Forall_map_lines. exact H. Qed.

Lemma map_ext_ok (f g : line -> jstring) lines :
  (forall l, line_ok l = true -> f l = g l) ->
  forallb line_ok lines = true -> map f lines = map g lines.
Proof.
  intros H. induction lines as [|l rest IH]; intros Hl; [reflexivity|].
  simpl in Hl. apply andb_true_iff in Hl as [A B].
  cbn [map]. rewrite (H l A), (IH B). reflexivity.
Qed.

Lemma source_dot l : line_ok l = true -> forallb dot (source_of l) = true.
Proof. apply source_forall; [exact plain_dot | reflexivity..]. Qed.

Lemma headed_dot l : line_ok l = true -> forallb dot (headed l) = true.
Proof. apply headed_forall; [exact plain_dot | reflexivity..]. Qed.

Lemma html_dot l : line_ok l = true -> forallb dot (html_of_line l) = true.
Proof. apply html_forall; [exact plain_dot | reflexivity]. Qed.

(** The three heading passes. *)
Lemma heading_passes lines :
  forallb line_ok lines = true ->
  replace Markdown.re_h1 (Markdown.wrap_in "h1")
    (replace Markdown.re_h2 (Markdown.wrap_in "h2")
       (replace Markdown.re_h3 (Markdown.wrap_in "h3") (text_of lines)))
  = join nl (map headed lines).
Proof.
  intros H. unfold text_of, Markdown.re_h1, Markdown.re_h2, Markdown.re_h3,
    Markdown.wrap_in.
  rewrite (line_pass (u "### ")); [|discriminate | reflexivity |].
  2: { apply Forall_dot_map; [exact source_dot | exact H]. }
  rewrite (line_pass (u "## ")); [|discriminate | reflexivity |].
  2: { rewrite map_map. apply Forall_dot_map; [|exact H].
       intros l Hl. apply line_rule_dot; [reflexivity | reflexivity |].
       apply source_dot, Hl. }
  rewrite (line_pass (u "# ")); [|discriminate | reflexivity |].
  2: { rewrite !map_map. apply Forall_dot_map; [|exact H].
       intros l Hl. apply line_rule_dot; [reflexivity | reflexivity |].
       apply line_rule_dot; [reflexivity | reflexivity |].
       apply source_dot, Hl. }
  rewrite !map_map. f_equal. apply map_ext_ok; [|exact H].
  exact heading_rules.
Qed.

Lemma item_pass lines :
  forallb line_ok lines = true ->
  replace Markdown.re_item (Markdown.wrap_in "li") (join nl (map headed lines))
  = join nl (map html_of_line lines).
Proof.
  intros H. unfold Markdown.re_item, Markdown.wrap_in.
  rewrite (line_pass (u "- ")); [|discriminate | reflexivity |].
  2: { apply Forall_dot_map; [exact headed_dot | exact H]. }
  rewrite map_map. f_equal. apply map_ext_ok; [|exact H].
  exact item_rule.
Qed.

(** *** The inline passes find nothing; the line breaks *)

Lemma link_trigger p s caps rest :
  exec Markdown.re_link p s = Some (caps, rest) -> exists s', s = 91%N :: s'.
Proof.
  intros E. destruct (shape_link _ _ _ _ E) as (x & y & -> & _).
  eexists. reflexivity.
Qed.

Lemma mentions_no_head t0 t s : ~ In t0 s -> mentions (t0 :: t) s = false.
Proof.
  induction s as [|c s IH]; intros H; [reflexivity|].
  cbn [mentions]. rewrite IH by (intros K; apply H; right; exact K).
  rewrite orb_false_r. unfold starts_with. cbn [strip_prefix].
  destruct (N.eqb t0 c) eqn:E; [|reflexivity].
  apply N.eqb_eq in E. subst c. exfalso. apply H. left. reflexivity.
Qed.

Lemma clear_of_no_head t0 t x s : ~ In t0 x -> clear_of (t0 :: t) x s = true.
Proof.
  induction x as [|c x IH]; intros H; [reflexivity|].
  cbn [clear_of]. rewrite IH by (intros K; apply H; right; exact K).
  rewrite andb_true_r. unfold starts_with. cbn [app strip_prefix].
  destruct (N.eqb t0 c) eqn:E; [|reflexivity].
  apply N.eqb_eq in E. subst c. exfalso. apply H. left. reflexivity.
Qed.

Lemma mentions_app t x y :
  mentions t (x ++ y) = negb (clear_of t x y) || mentions t y.
Proof.
  induction x as [|c x IH]; [reflexivity|].
  cbn [app mentions clear_of]. rewrite IH.
  destruct (starts_with t (c :: x ++ y)); [reflexivity|].
  destruct (clear_of t x y); reflexivity.
Qed.

Lemma join_cons sep l l' rest :
  join sep (l :: l' :: rest) = l ++ sep ++ join sep (l' :: rest).
Proof. reflexivity. Qed.

Lemma join_head (P : N -> bool) sep lines :
  Forall (fun l => exists c r, l = c :: r /\ P c = true) lines ->
  match join sep lines with [] => lines = [] | c :: _ => P c = true end.
Proof.
  intros H. destruct H as [|l rest (c & r & -> & Hc) _]; [reflexivity|].
  cbn [join]. destruct rest; exact Hc.
Qed.

Lemma no_blank_line lines :
  Forall (fun l => forallb (other_than 10) l = true /\ l <> []) lines ->
  mentions [10; 10]%N (join nl lines) = false.
Proof.
  induction 1 as [|l rest [Hl Hn] Hrest IH]; [reflexivity|].
  assert (~ In 10%N l) as Hl'
      by (apply (forallb_not_In (other_than 10)); [reflexivity | exact Hl]).
  destruct rest as [|l' rest]; [exact (mentions_no_head _ _ _ Hl')|].
  rewrite join_cons, mentions_app, (clear_of_no_head _ _ _ _ Hl').
  cbn [negb orb].
  change (nl ++ join nl (l' :: rest)) with (10%N :: join nl (l' :: rest)).
  cbn [mentions]. rewrite IH, orb_false_r.
  inversion Hrest as [|? ? [Hl2 Hn2] _]; subst.
  destruct l' as [|c r]; [congruence|].
  simpl in Hl2. apply andb_true_iff in Hl2 as [Hc _].
  unfold other_than in Hc. apply negb_true_iff in Hc. rewrite N.eqb_sym in Hc.
  unfold starts_with. cbn [strip_prefix]. rewrite N.eqb_refl.
  destruct rest; cbn [join app]; rewrite Hc; reflexivity.
Qed.

Lemma blank_line_idle t s :
  mentions [10; 10]%N s = false -> replace Markdown.re_blank_line t s = s.
Proof.
  intros H. unfold replace.
  apply (replace_from_idle _ (fun _ s => mentions [10; 10]%N s = false));
    [| |exact H].
  - intros p s0 H0. suppose E.
    destruct (shape_chars _ _ _ _ _ E) as (-> & _). discriminate.
  - intros p c s0 H0. cbn [mentions] in H0. apply orb_false_iff in H0 as [_ H0].
    exact H0.
Qed.

Lemma newline_pass lines :
  Forall (fun l => forallb (other_than 10) l = true) lines ->
  replace Markdown.re_newline [Lit (u "<br>")] (join nl lines) = join br lines.
Proof.
  intros H. unfold Markdown.re_newline. rewrite replace_units.
  induction H as [|l rest Hl _ IH]; [reflexivity|].
  assert (flat_map (replace_unit 10 (u "<br>")) l = l) as K.
  { apply (flat_map_id _ (other_than 10)); [|exact Hl].
    intros c Hc. unfold replace_unit, other_than in *.
    apply negb_true_iff in Hc. rewrite N.eqb_sym, Hc. reflexivity. }
  destruct rest as [|l' rest]; [exact K|].
  rewrite !join_cons, !flat_map_app, K.
  f_equal. f_equal. exact IH.
Qed.

Lemma html_not_nl l :
  line_ok l = true -> forallb (other_than 10) (html_of_line l) = true.
Proof. apply html_forall; [exact plain_not_nl | reflexivity]. Qed.

Lemma html_not_nil l : line_ok l = true -> html_of_line l <> [].
Proof.
  intros H. destruct l as [n t | t | t]; try discriminate.
  destruct (para_head t H) as (c & t' & -> & _). discriminate.
Qed.

Lemma inline_markup_lines lines :
  forallb line_ok lines = true ->
  Markdown.inline_markup (text_of lines) = join br (map html_of_line lines).
Proof.
  intros H. unfold Markdown.inline_markup. rewrite (heading_passes lines H).
  assert (forallb tame (join nl (map headed lines)) = true) as T.
  { apply forallb_join; [reflexivity|]. apply Forall_map_lines; [|exact H].
    intros l Hl. apply headed_forall; [exact plain_tame | reflexivity..| exact Hl]. }
  assert (~ In 42%N (join nl (map headed lines))) as T42
      by (apply (forallb_not_In tame); [reflexivity | exact T]).
  assert (~ In 91%N (join nl (map headed lines))) as T91
      by (apply (forallb_not_In tame); [reflexivity | exact T]).
  assert (~ In 96%N (join nl (map headed lines))) as T96
      by (apply (forallb_not_In tame); [reflexivity | exact T]).
  rewrite (replace_no_trigger Markdown.re_bold_italic _ 42%N _
             (head_delimited _ _ _ _ _ _) T42).
  rewrite (replace_no_trigger Markdown.re_bold _ 42%N _
             (head_delimited _ _ _ _ _ _) T42).
  rewrite (replace_no_trigger Markdown.re_italic _ 42%N _
             (head_delimited _ _ _ _ _ _) T42).
  rewrite (replace_no_trigger Markdown.re_link _ 91%N _ link_trigger T91).
  rewrite (replace_no_trigger Markdown.re_code _ 96%N _
             (head_delimited _ _ _ _ _ _) T96).
  rewrite (item_pass lines H).
  rewrite blank_line_idle.
  - apply newline_pass. apply Forall_map_lines; [exact html_not_nl | exact H].
  - apply no_blank_line. apply Forall_map_lines; [|exact H].
    intros l Hl. split; [apply html_not_nl, Hl | apply html_not_nil, Hl].
Qed.

(** *** The tidying pass *)

Lemma exec_item a t b rest p :
  a = [] \/ a = br ->
  b = br \/ (b = [] /\ starts_with br rest = false) ->
  ~ In lt t ->
  exec Markdown.re_br_item_br p (a ++ (li_open ++ t ++ li_close) ++ b ++ rest)
  = Some ([li_open ++ t ++ li_close], rest).
Proof.
  intros Ha Hb Ht. unfold exec, Markdown.re_br_item_br. cbn [run_seq].
  assert (forall p',
             run (Grp [Chars (u "<li>"); Rep false 0 any; Chars (u "</li>")]) p'
                 ((li_open ++ t ++ li_close) ++ b ++ rest) []
                 (fun p1 s1 c1 =>
                    run (Opt [Chars (u "<br>")]) p1 s1 c1
                        (fun _ s' caps => Some (caps, s')))
             = Some ([li_open ++ t ++ li_close], rest)) as G.
  { intros p'. rewrite run_Grp3.
    replace ((li_open ++ t ++ li_close) ++ b ++ rest)
      with (li_open ++ t ++ li_close ++ b ++ rest) at 1
      by (rewrite <- !app_assoc; reflexivity).
    unfold li_open at 1. rewrite run_Chars, run_Rep_lazy.
    apply (rep_lazy_until _ any _ lt).
    - intros p1 c s Hc. apply run_Chars_other. exact Hc.
    - apply forallb_forall. reflexivity.
    - exact Ht.
    - lia.
    - unfold li_close at 1. rewrite run_Chars, firstn_app_minus, run_Opt1.
      destruct Hb as [-> | [-> Hr]].
      + unfold br. rewrite run_Chars. reflexivity.
      + cbn [app]. rewrite (run_Chars_none _ _ _ _ _ _ Hr). reflexivity. }
  rewrite run_Opt1. destruct Ha as [-> | ->].
  - cbn [app]. rewrite run_Chars_none by reflexivity. apply G.
  - unfold br at 1. rewrite run_Chars, G. reflexivity.
Qed.

Lemma silent_by re heads p y rest :
  (forall p s caps r,
      exec re p s = Some (caps, r) -> exists h, In h heads /\ starts_with h s = true) ->
  (forall h, In h heads -> clear_of h y rest = true) ->
  silent re p y rest.
Proof.
  intros Hre. revert p. induction y as [|c y IH]; intros p H; [exact I|].
  split.
  - suppose E. destruct (Hre _ _ _ _ E) as (h & Ih & Sh).
    specialize (H h Ih). cbn [clear_of] in H. rewrite Sh in H. discriminate.
  - apply IH. intros h Ih. specialize (H h Ih). cbn [clear_of] in H.
    apply andb_true_iff in H as [_ H]. exact H.
Qed.

Lemma br_item_heads p s caps r :
  exec Markdown.re_br_item_br p s = Some (caps, r) ->
  exists h, In h [li_open; br ++ li_open] /\ starts_with h s = true.
Proof.
  intros E. destruct (shape_br_item_br _ _ _ _ E) as (a & x & b & -> & _ & Ha & _).
  destruct Ha as [-> | ->].
  - exists li_open. split; [left; reflexivity|].
    apply starts_with_spec. eexists. cbn [app]. rewrite <- app_assoc. reflexivity.
  - exists (br ++ li_open). split; [right; left; reflexivity|].
    apply starts_with_spec. eexists. rewrite <- !app_assoc. reflexivity.
Qed.

Lemma li_tag_heads p s caps r :
  exec Markdown.re_li_tag p s = Some (caps, r) ->
  exists h, In h [li_open; li_close] /\ starts_with h s = true.
Proof.
  intros E. destruct (shape_li_tag _ _ _ _ E) as (tag & Ht & -> & _).
  exists tag. split; [destruct Ht as [-> | ->]; simpl; auto|].
  apply starts_with_spec. eexists. reflexivity.
Qed.

Lemma clear_of_app t x y s :
  clear_of t (x ++ y) s = clear_of t x (y ++ s) && clear_of t y s.
Proof.
  induction x as [|c x IH]; [reflexivity|].
  cbn [app clear_of]. rewrite IH, <- !app_assoc, andb_assoc. reflexivity.
Qed.

Lemma plain_no_lt t : plain_text t = true -> ~ In lt t.
Proof.
  intros H. apply (forallb_not_In (other_than 60)); [reflexivity|].
  exact (plain_forall _ plain_not_lt t H).
Qed.

(** A line that is no item, with or without the [<br>] before it, holds no
    place where an item or an item tag starts. *)
Lemma text_line_clear h l sep rest :
  In h [li_open; li_close; br ++ li_open] ->
  line_ok l = true ->
  match l with Bullet _ => False | _ => True end ->
  sep = [] \/ sep = br ->
  clear_of h (sep ++ html_of_line l) rest = true.
Proof.
  intros Hh Hl Hb Hsep. destruct l as [n t | t | t]; [|contradiction|].
  - simpl in Hl. apply andb_true_iff in Hl as [Hn Ht].
    pose proof (plain_no_lt t Ht) as Hlt.
    destruct (plain_text_spec t Ht) as ((c & t' & E) & _).
    unfold html_of_line. rewrite !clear_of_app.
    assert (forall z, clear_of h t z = true) as ->.
    { intros z. simpl in Hh.
      destruct Hh as [<- | [<- | [<- | []]]]; apply clear_of_no_head, Hlt. }
    subst t. simpl in Hh.
    destruct (level_cases n Hn) as [-> | [-> | ->]];
      destruct Hsep as [-> | ->];
      destruct Hh as [<- | [<- | [<- | []]]]; reflexivity.
  - destruct (para_head t Hl) as (c & t' & -> & _ & _ & _ & H60).
    simpl in Hl. apply andb_true_iff in Hl as [Hl _].
    apply andb_true_iff in Hl as [Hp _].
    pose proof (plain_no_lt _ Hp) as Hlt.
    unfold html_of_line. rewrite clear_of_app.
    assert (clear_of h (c :: t') rest = true) as ->.
    { simpl in Hh.
      destruct Hh as [<- | [<- | [<- | []]]]; apply clear_of_no_head, Hlt. }
    rewrite andb_true_r. simpl in Hh.
    destruct Hsep as [-> | ->]; [reflexivity|].
    destruct Hh as [<- | [<- | [<- | []]]]; try reflexivity.
    cbv -[N.eqb]. rewrite H60. reflexivity.
Qed.

Lemma src_tidy_segs lines :
  forall pv,
    src_of (tidy_segs pv lines)
    = match pv with
      | AfterText =>
          match lines with
          | [] => []
          | _ => br ++ join br (map html_of_line lines)
          end
      | _ => join br (map html_of_line lines)
      end.
Proof.
  unfold src_of.
  induction lines as [|l rest IH]; intros pv; [destruct pv; reflexivity|].
  assert (forall x : jstring,
             x ++ match rest with
                  | [] => []
                  | _ => br ++ join br (map html_of_line rest)
                  end
             = join br (x :: map html_of_line rest)) as J.
  { intros x. destruct rest; [apply app_nil_r | reflexivity]. }
  destruct l as [n t | t | t]; cbn [tidy_segs map concat seg_src]; rewrite IH.
  - rewrite <- app_assoc, J. destruct pv; reflexivity.
  - rewrite <- !app_assoc.
    replace (match rest with [] => [] | _ :: _ => br end
               ++ join br (map html_of_line rest))
      with (match rest with
            | [] => []
            | _ => br ++ join br (map html_of_line rest)
            end) by (destruct rest; reflexivity).
    rewrite (app_assoc li_open), (app_assoc (li_open ++ t)), J.
    rewrite <- !app_assoc. destruct pv; reflexivity.
  - rewrite <- app_assoc, J. destruct pv; reflexivity.
Qed.

Lemma tidy_segs_ok lines :
  forallb line_ok lines = true ->
  forall pv p, segs_ok Markdown.re_br_item_br [Cap 1] p (tidy_segs pv lines).
Proof.
  induction lines as [|l rest IH]; intros H pv p.
  - cbn [tidy_segs segs_ok]. suppose E.
    destruct (br_item_heads _ _ _ _ E) as (h & [<- | [<- | []]] & K); discriminate.
  - simpl in H. apply andb_true_iff in H as [Hl H].
    assert (forall sep, sep = match pv with AfterText => br | _ => [] end ->
                        sep = [] \/ sep = br) as Hsep
        by (intros sep ->; destruct pv; auto).
    destruct l as [n t | t | t]; cbn [tidy_segs segs_ok]; (split; [|apply IH, H]).
    + apply (silent_by _ [li_open; br ++ li_open] _ _ _ br_item_heads).
      intros h Ih. apply text_line_clear; auto.
      simpl in *. tauto.
    + split; [destruct pv; discriminate|].
      exists [li_open ++ t ++ li_close].
      split; [|unfold subst; cbn [flat_map nth pred]; apply app_nil_r].
      rewrite <- !app_assoc.
      rewrite (app_assoc li_open), (app_assoc (li_open ++ t)).
      rewrite <- (app_assoc li_open).
      apply exec_item.
      * apply Hsep. reflexivity.
      * destruct rest; [right; split; reflexivity | left; reflexivity].
      * apply plain_no_lt. exact Hl.
    + apply (silent_by _ [li_open; br ++ li_open] _ _ _ br_item_heads).
      intros h Ih. apply text_line_clear; auto.
      simpl in *. tauto.
Qed.

Lemma tidy_items_lines lines :
  forallb line_ok lines = true ->
  Markdown.tidy_items (join br (map html_of_line lines))
  = out_of (tidy_segs Start lines).
Proof.
  intros H. unfold Markdown.tidy_items, replace at 2.
  rewrite replace_from_whole.
  apply (replace_by_segs _ _ (tidy_segs Start lines));
    [rewrite src_tidy_segs; reflexivity | reflexivity | apply tidy_segs_ok, H].
Qed.

(** *** The split *)

Lemma run_Alt1 R r1 r2 p s caps (k : cont R) :
  run (Alt [r1] [r2]) p s caps k
  = match run r1 p s caps k with
    | Some res => Some res
    | None => run r2 p s caps k
    end.
Proof. reflexivity. Qed.

Lemma exec_li_tag tag rest p :
  tag = li_open \/ tag = li_close ->
  exec Markdown.re_li_tag p (tag ++ rest) = Some ([tag], rest).
Proof.
  intros Ht. unfold exec, Markdown.re_li_tag. cbn [run_seq].
  rewrite run_Grp1, run_Alt1. destruct Ht as [-> | ->].
  - unfold li_open. rewrite run_Chars, firstn_app_minus. reflexivity.
  - rewrite run_Chars_none by reflexivity.
    unfold li_close. rewrite run_Chars, firstn_app_minus. reflexivity.
Qed.

Lemma split_from_silent re y :
  forall f p acc rest,
    silent re p y rest ->
    split_from (List.length y + f) re p acc (y ++ rest)
    = split_from f re (last_unit y p) (acc ++ y) rest.
Proof.
  induction y as [|c y IH]; intros f p acc rest Q.
  - rewrite app_nil_r. reflexivity.
  - destruct Q as [E Q]. cbn [List.length Nat.add app split_from].
    cbn [app] in E. rewrite E, (IH f (Some c) (acc ++ [c]) rest Q).
    rewrite last_unit_cons, <- app_assoc. reflexivity.
Qed.

(** The split goes over a stretch in which no tag starts. *)
Lemma split_over re y rest acc p f (X : list jstring) :
  silent re p y rest ->
  split_measure acc (y ++ rest) < f ->
  (forall f', split_measure (acc ++ y) rest < f' ->
              split_from f' re (last_unit y p) (acc ++ y) rest = X) ->
  split_from f re p acc (y ++ rest) = X.
Proof.
  intros Q L K.
  rewrite (split_from_fuel re f (List.length y + (f + 2)) p acc (y ++ rest) L)
    by lia.
  rewrite (split_from_silent re y _ p acc rest Q).
  apply K. unfold split_measure in *. rewrite length_app in L.
  destruct (is_nil (acc ++ y)), (is_nil acc); lia.
Qed.

(** The split at a tag. *)
Lemma split_at tag rest acc p f (X : list jstring) :
  tag = li_open \/ tag = li_close ->
  split_measure acc (tag ++ rest) < f ->
  (forall f', split_measure [] rest < f' ->
              split_from f' Markdown.re_li_tag (last_unit tag p) [] rest = X) ->
  split_from f Markdown.re_li_tag p acc (tag ++ rest) = acc :: tag :: X.
Proof.
  intros Ht L K. destruct f as [|f]; [lia|].
  pose proof (exec_li_tag tag rest p Ht) as E.
  assert (exists t0 tag', tag = t0 :: tag') as (t0 & tag' & Hc)
      by (destruct Ht as [-> | ->]; eexists; eexists; reflexivity).
  rewrite Hc in E |- *. cbn [app split_from]. cbn [app] in E. rewrite E.
  change (t0 :: tag' ++ rest) with ((t0 :: tag') ++ rest).
  rewrite firstn_app_minus. cbn [is_nil andb app].
  rewrite <- Hc. f_equal. f_equal. apply K.
  unfold split_measure in *. rewrite length_app in L. simpl. clear Hc E.
  destruct Ht as [-> | ->]; simpl in L; destruct (is_nil acc); lia.
Qed.

Lemma split_tidy lines :
  forallb line_ok lines = true ->
  forall pv acc p f,
    split_measure acc (out_of (tidy_segs pv lines)) < f ->
    split_from f Markdown.re_li_tag p acc (out_of (tidy_segs pv lines))
    = toks acc pv lines.
Proof.
  unfold out_of.
  induction lines as [|l rest IH]; intros H pv acc p f L.
  - destruct f as [|f]; [lia | reflexivity].
  - simpl in H. apply andb_true_iff in H as [Hl H].
    assert (forall y,
               y = match pv with AfterText => br | _ => [] end ++ html_of_line l ->
               match l with Bullet _ => False | _ => True end ->
               split_from f Markdown.re_li_tag p acc
                          (y ++ concat (map seg_out (tidy_segs AfterText rest)))
               = toks (acc ++ y) AfterText rest) as Text.
    { intros y Hy Hb. cbn [tidy_segs map concat seg_out] in L.
      apply split_over.
      - apply (silent_by _ [li_open; li_close] _ _ _ li_tag_heads).
        intros h Ih. subst y. apply text_line_clear; auto.
        + simpl in *. tauto.
        + destruct pv; auto.
      - subst y. destruct l; [exact L | contradiction | exact L].
      - intros f' L'. apply IH; assumption. }
    destruct l as [n t | t | t]; cbn [tidy_segs map concat seg_out toks].
    + apply Text; [reflexivity | exact I].
    + cbn [tidy_segs map concat seg_out] in L.
      rewrite <- !app_assoc. rewrite <- !app_assoc in L.
      apply split_at; [left; reflexivity | exact L |].
      intros f1 L1. apply split_over.
      * apply (silent_by _ [li_open; li_close] _ _ _ li_tag_heads).
        intros h Ih. simpl in Ih.
        destruct Ih as [<- | [<- | []]];
          apply clear_of_no_head, plain_no_lt, Hl.
      * exact L1.
      * intros f2 L2. cbn [app] in *.
        apply split_at; [right; reflexivity | exact L2 |].
        intros f3 L3. apply IH; assumption.
    + apply Text; [reflexivity | exact I].
Qed.

Lemma split_lines lines :
  forallb line_ok lines = true ->
  split Markdown.re_li_tag (out_of (tidy_segs Start lines)) = toks [] Start lines.
Proof.
  intros H. unfold split.
  destruct (out_of (tidy_segs Start lines)) as [|c s] eqn:E.
  - destruct lines as [|[n t | t | t] rest]; try discriminate.
    + reflexivity.
    + simpl in H. apply andb_true_iff in H as [Hl _].
      destruct (para_head t Hl) as (c & t' & -> & _). discriminate.
  - rewrite <- E. apply split_tidy; [exact H|].
    unfold split_measure. rewrite E. simpl. lia.
Qed.

(** *** The grouping loop *)

Lemma drop_space_snoc l c :
  is_space c = false -> drop_space (l ++ [c]) = drop_space l ++ [c].
Proof.
  intros Hc. induction l as [|d l IH]; simpl; [rewrite Hc; reflexivity|].
  destruct (is_space d); [exact IH | reflexivity].
Qed.

Lemma rtrim_cons c x :
  is_space c = false ->
  rev (drop_space (rev (c :: x))) = c :: rev (drop_space (rev x)).
Proof.
  intros Hc. cbn [rev]. rewrite (drop_space_snoc _ _ Hc), rev_app_distr.
  reflexivity.
Qed.

Lemma trim_cons c x :
  is_space c = false -> trim (c :: x) = c :: rev (drop_space (rev x)).
Proof.
  intros Hc. unfold trim. cbn [drop_space]. rewrite Hc. apply rtrim_cons, Hc.
Qed.

Lemma replace_br_head c r :
  c <> lt -> exists x, replace Markdown.re_br [] (c :: r) = c :: x.
Proof.
  intros Hc. unfold replace. cbn [List.length replace_from].
  assert (exec Markdown.re_br None (c :: r) = None) as ->
      by (unfold exec, Markdown.re_br; cbn [run_seq];
          apply run_Chars_other; exact Hc).
  eexists. reflexivity.
Qed.

Lemma replace_br_heading r :
  exists x, replace Markdown.re_br [] (60%N :: 104%N :: r) = 60%N :: 104%N :: x.
Proof.
  unfold replace. cbn [List.length replace_from].
  assert (exec Markdown.re_br None (60%N :: 104%N :: r) = None) as ->
      by (unfold exec, Markdown.re_br; cbn [run_seq];
          apply run_Chars_none; reflexivity).
  assert (exec Markdown.re_br (Some 60%N) (104%N :: r) = None) as ->
      by (unfold exec, Markdown.re_br; cbn [run_seq];
          apply run_Chars_none; reflexivity).
  eexists. reflexivity.
Qed.

Lemma texty_app acc z : texty acc -> texty (acc ++ z).
Proof.
  intros (c & r & -> & Hc & H). exists c, (r ++ z). repeat split; auto.
  destruct H as [H | (r' & ->)]; [left; exact H | right; eexists; reflexivity].
Qed.

Lemma texty_html l :
  line_ok l = true -> match l with Bullet _ => False | _ => True end ->
  texty (html_of_line l).
Proof.
  intros H Hb. destruct l as [n t | t | t]; [|contradiction|].
  - unfold html_of_line, heading_open. eexists. eexists.
    split; [reflexivity|]. split; [reflexivity|]. right. eexists. reflexivity.
  - destruct (para_head t H) as (c & t' & -> & _ & _ & Hs & H60).
    exists c, t'. repeat split; auto. left. intros ->. discriminate.
Qed.

Lemma texty_not_tag acc : texty acc -> is_li_tag acc = false.
Proof.
  intros (c & r & -> & _ & H). unfold is_li_tag.
  destruct H as [H | (r' & ->)].
  - assert (N.eqb c 60 = false) as E by (apply N.eqb_neq; exact H).
    cbn [u map list_ascii_of_string jeqb].
    change (N_of_ascii "<") with 60%N. rewrite E. reflexivity.
  - destruct (N.eqb c 60) eqn:E.
    + apply N.eqb_eq in E. subst c. reflexivity.
    + cbn [u map list_ascii_of_string jeqb].
      change (N_of_ascii "<") with 60%N. rewrite E. reflexivity.
Qed.

Lemma texty_next acc rest : texty acc -> Markdown.next_is_li (acc :: rest) = false.
Proof.
  intros (c & r & -> & Hc & H). cbn [Markdown.next_is_li].
  assert (exists d y, trim (replace Markdown.re_br [] (c :: r)) = d :: y
                      /\ (d <> lt \/ exists y', y = 104%N :: y')) as (d & y & -> & Hd).
  { destruct (N.eqb c 60) eqn:E.
    - apply N.eqb_eq in E. subst c.
      destruct H as [H | (r' & ->)]; [exfalso; apply H; reflexivity|].
      destruct (replace_br_heading r') as (x & ->).
      rewrite (trim_cons _ _ Hc), rtrim_cons by reflexivity.
      eexists. eexists. split; [reflexivity|]. right. eexists. reflexivity.
    - apply N.eqb_neq in E.
      destruct (replace_br_head c r E) as (x & ->).
      rewrite (trim_cons _ _ Hc).
      eexists. eexists. split; [reflexivity|]. left. exact E. }
  assert (jeqb (d :: y) (u "<li>") = false) as ->.
  { destruct Hd as [Hd | (y' & ->)].
    - assert (N.eqb d 60 = false) as E by (apply N.eqb_neq; exact Hd).
      cbn [u map list_ascii_of_string jeqb].
      change (N_of_ascii "<") with 60%N. rewrite E. reflexivity.
    - destruct (N.eqb d 60) eqn:E.
      + apply N.eqb_eq in E. subst d. reflexivity.
      + cbn [u map list_ascii_of_string jeqb].
        change (N_of_ascii "<") with 60%N. rewrite E. reflexivity. }
  reflexivity.
Qed.

Lemma toks_head lines :
  forall acc pv, exists z tail, toks acc pv lines = (acc ++ z) :: tail.
Proof.
  induction lines as [|l rest IH]; intros acc pv.
  - exists [], []. rewrite app_nil_r. reflexivity.
  - destruct l as [n t | t | t]; cbn [toks].
    + destruct (IH (acc ++ match pv with AfterText => br | _ => [] end
                        ++ html_of_line (Heading n t)) AfterText)
        as (z & tail & ->).
      eexists. eexists. rewrite <- app_assoc. reflexivity.
    + exists [], (li_open :: t :: li_close :: toks [] AfterItem rest).
      rewrite app_nil_r. reflexivity.
    + destruct (IH (acc ++ match pv with AfterText => br | _ => [] end
                        ++ html_of_line (Para t)) AfterText)
        as (z & tail & ->).
      eexists. eexists. rewrite <- app_assoc. reflexivity.
Qed.

Lemma plain_not_tag t : plain_text t = true -> is_li_tag t = false.
Proof.
  intros H. pose proof (plain_no_lt t H) as Hlt.
  destruct (plain_text_spec t H) as ((c & t' & ->) & _).
  unfold is_li_tag.
  assert (N.eqb c 60 = false) as E
      by (apply N.eqb_neq; intros ->; apply Hlt; left; reflexivity).
  cbn [u map list_ascii_of_string jeqb].
  change (N_of_ascii "<") with 60%N. rewrite E. reflexivity.
Qed.

Lemma group_items_open_any b rest :
  Markdown.group_items b (li_open :: rest)
  = (if negb b then u "<ul>" else []) ++ li_open ++ Markdown.group_items true rest.
Proof. reflexivity. Qed.

Lemma group_items_bullet b acc t rest :
  is_li_tag acc = false -> plain_text t = true ->
  Markdown.group_items b (acc :: li_open :: t :: li_close :: toks [] AfterItem rest)
  = acc ++ (if negb b then u "<ul>" else []) ++ li_open ++ t ++ li_close
        ++ after_item rest.
Proof.
  intros Ha Ht. rewrite (group_items_plain b acc _ Ha), group_items_open_any.
  rewrite (group_items_plain true t _ (plain_not_tag t Ht)), group_items_close.
  unfold after_item. rewrite andb_true_r.
  destruct (Markdown.next_is_li (toks [] AfterItem rest)); reflexivity.
Qed.

Lemma group_items_lines lines :
  forallb line_ok lines = true ->
  (forall acc, texty acc ->
     Markdown.group_items false (toks acc AfterText lines)
     = acc ++ blocks AfterText lines)
  /\ Markdown.group_items false (toks [] Start lines) = blocks Start lines
  /\ after_item lines = blocks AfterItem lines.
Proof.
  induction lines as [|l rest IH]; intros H.
  - split; [|split].
    + intros acc Ha. cbn [toks blocks].
      rewrite (group_items_plain false acc [] (texty_not_tag acc Ha)). reflexivity.
    + reflexivity.
    + reflexivity.
  - simpl in H. apply andb_true_iff in H as [Hl H].
    destruct (IH H) as (T & S & A).
    destruct l as [n t | t | t].
    + pose proof (texty_html (Heading n t) Hl I) as Hh.
      split; [|split].
      * intros acc Ha. cbn [toks blocks].
        rewrite T by (apply texty_app, Ha). rewrite <- !app_assoc. reflexivity.
      * cbn [toks blocks app]. rewrite T by exact Hh. reflexivity.
      * unfold after_item. cbn [toks blocks app].
        destruct (toks_head rest (html_of_line (Heading n t)) AfterText)
          as (z & tail & E).
        rewrite E.
        pose proof (texty_next _ tail (texty_app _ z Hh)) as K.
        unfold jstring in K |- *. rewrite K, <- E. cbn [negb andb].
        rewrite T by exact Hh. reflexivity.
    + simpl in Hl. split; [|split].
      * intros acc Ha. cbn [toks blocks].
        rewrite (group_items_bullet false acc t rest (texty_not_tag acc Ha) Hl), A.
        reflexivity.
      * cbn [toks blocks].
        rewrite (group_items_bullet false [] t rest eq_refl Hl), A. reflexivity.
      * unfold after_item. cbn [toks blocks].
        change (Markdown.next_is_li ([] :: li_open :: ?x)) with true.
        cbn [negb andb].
        rewrite (group_items_bullet true [] t rest eq_refl Hl), A. reflexivity.
    + pose proof (texty_html (Para t) Hl I) as Hh.
      split; [|split].
      * intros acc Ha. cbn [toks blocks].
        rewrite T by (apply texty_app, Ha). rewrite <- !app_assoc. reflexivity.
      * cbn [toks blocks app]. rewrite T by exact Hh. reflexivity.
      * unfold after_item. cbn [toks blocks app].
        destruct (toks_head rest (html_of_line (Para t)) AfterText)
          as (z & tail & E).
        rewrite E.
        pose proof (texty_next _ tail (texty_app _ z Hh)) as K.
        unfold jstring in K |- *. rewrite K, <- E. cbn [negb andb].
        rewrite T by exact Hh. reflexivity.
Qed.

Lemma render_lines lines :
  forallb line_ok lines = true ->
  Markdown.render (text_of lines) = u "<p>" ++ blocks Start lines ++ u "</p>".
Proof.
  intros H. unfold Markdown.render.
  rewrite (escape_html_lines lines H), (inline_markup_lines lines H).
  rewrite (tidy_items_lines lines H), (split_lines lines H).
  destruct (group_items_lines lines H) as (_ & -> & _). reflexivity.
Qed.

Lemma text_of_not_nil lines :
  forallb line_ok lines = true -> lines <> [] -> text_of lines <> [].
Proof.
  intros H Hn. destruct lines as [|l rest]; [congruence|].
  simpl in H. apply andb_true_iff in H as [Hl _].
  assert (exists c r, source_of l = c :: r) as (c & r & E).
  { destruct l as [n t | t | t].
    - simpl in Hl. apply andb_true_iff in Hl as [Hn' _].
      destruct (level_cases n Hn') as [-> | [-> | ->]]; eexists; eexists; reflexivity.
    - eexists; eexists; reflexivity.
    - destruct (para_head t Hl) as (c & t' & -> & _). eexists; eexists; reflexivity. }
  unfold text_of. cbn [map join]. rewrite E.
  destruct (map source_of rest); discriminate.
Qed.

(** X18. A text of headings ([# ], [## ], [### ]), list items ([- ]) and
    plain lines, each with plain text in it and separated by single
    newlines: every heading becomes [<h1>] to [<h3>], every run of
    consecutive items becomes one [<ul>] of [<li>] elements, and lines that
    are no items are separated by [<br>]; the whole is wrapped in [<p>]. *)
Theorem renderMarkdown_lines lines :
  forallb line_ok lines = true -> lines <> [] ->
  renderMarkdown (str (text_of lines))
  = Ok (u "<p>" ++ blocks Start lines ++ u "</p>").
Proof.
  intros H Hn.
  rewrite (renderMarkdown_string _ (text_of_not_nil lines H Hn)).
  rewrite (render_lines lines H). reflexivity.
Qed.

Lemma renderMarkdown_lines_witness :
  renderMarkdown
    (str (u "# Plan" ++ nl ++ u "first" ++ nl ++ u "- a" ++ nl ++ u "- b" ++ nl
            ++ u "### More" ++ nl ++ u "x" ++ nl ++ u "y" ++ nl ++ u "- c"))
  = Ok (u "<p><h1>Plan</h1><br>first<ul><li>a</li><li>b</li></ul><h3>More</h3><br>x<br>y<ul><li>c</li></ul></p>").
Proof.
  apply (renderMarkdown_lines
           [Heading 1 (u "Plan"); Para (u "first"); Bullet (u "a"); Bullet (u "b");
            Heading 3 (u "More"); Para (u "x"); Para (u "y"); Bullet (u "c")]).
  - reflexivity.
  - discriminate.
Defined.
(* ================================================================= *)
(** ** Emphasis, code, links and plain words *)

Lemma plain_without c s :
  plain_text s = true -> inert c = false \/ c = 91%N -> ~ In c s.
Proof.
  intros H Hc I. destruct (plain_text_spec s H) as (_ & Hi & Hw).
  rewrite forallb_forall in Hi. unfold without in Hw. rewrite forallb_forall in Hw.
  destruct Hc as [Hc | ->].
  - rewrite (Hi c I) in Hc. discriminate.
  - specialize (Hw _ I). discriminate.
Qed.

Lemma inert_without c s : forallb inert s = true -> inert c = false -> ~ In c s.
Proof. intros H Hc. apply (forallb_not_In inert); assumption. Qed.

(** A unit is in none of the parts of a string. *)
Ltac notin :=
  let I := fresh "I" in
  intros I;
  repeat (apply in_app_or in I; destruct I as [I | I]);
  first [ solve [revert I; vm_compute; intuition discriminate]
        | solve [eapply plain_without; [ | | exact I];
                 [eassumption | first [left; reflexivity | right; reflexivity]]]
        | solve [eapply inert_without; [ | | exact I];
                 [eassumption | reflexivity]] ].

Lemma stage_source sp : stage 0 sp = span_source sp.
Proof. destruct sp; reflexivity. Qed.

Lemma stage_html sp : stage 5 sp = span_html sp.
Proof. destruct sp; reflexivity. Qed.

Lemma src_classify k spans :
  1 <= k -> src_of (map (classify k) spans) = concat (map (stage (pred k)) spans).
Proof.
  intros Hk. unfold src_of. rewrite map_map. f_equal. apply map_ext.
  intros sp. unfold classify, stage.
  destruct (Nat.eqb_spec (rank sp) k) as [E | E]; [|reflexivity].
  cbn [seg_src]. destruct (Nat.leb_spec (rank sp) (pred k)); [lia | reflexivity].
Qed.

Lemma out_classify k spans :
  1 <= k -> out_of (map (classify k) spans) = concat (map (stage k) spans).
Proof.
  intros Hk. unfold out_of. rewrite map_map. f_equal. apply map_ext.
  intros sp. unfold classify, stage.
  destruct (Nat.eqb_spec (rank sp) k) as [E | E]; cbn [seg_out].
  - rewrite E, Nat.leb_refl. reflexivity.
  - destruct (Nat.leb_spec (rank sp) (pred k)), (Nat.leb_spec (rank sp) k);
      try reflexivity; lia.
Qed.

(** A span that is no emphasis does not begin with a star, before and
    after any pass. *)
Lemma span_head_calm k r :
  span_ok r = true -> is_emph r = false ->
  exists c z, seg_src (classify k r) = c :: z /\ c <> 42%N.
Proof.
  intros Ho He. destruct r as [s | s | s | s | text url | s]; try discriminate;
    unfold classify, stage; cbn [rank span_source span_html].
  - cbn [span_ok] in Ho. destruct (plain_text_spec s Ho) as ((c & s' & ->) & Hi & _).
    simpl in Hi. apply andb_true_iff in Hi as [Hc _].
    exists c, s'. split; [destruct (Nat.eqb 0 k); reflexivity|].
    intros ->. discriminate.
  - destruct (Nat.eqb 4 k), (Nat.leb 4 (pred k)); cbn [seg_src];
      eexists; eexists; (split; [reflexivity | discriminate]).
  - destruct (Nat.eqb 5 k), (Nat.leb 5 (pred k)); cbn [seg_src];
      eexists; eexists; (split; [reflexivity | discriminate]).
Qed.

Lemma src_of_app x y : src_of (x ++ y) = src_of x ++ src_of y.
Proof. unfold src_of. rewrite map_app, concat_app. reflexivity. Qed.

Lemma out_of_app x y : out_of (x ++ y) = out_of x ++ out_of y.
Proof. unfold out_of. rewrite map_app, concat_app. reflexivity. Qed.

(** The skeleton of a pass over spans, with what follows them. *)
Section SpanPass.
Variables (re : list regex) (t : list piece) (k : nat).
Hypothesis step :
  forall sp R p,
    span_ok sp = true -> (is_emph sp = true -> calm_head R) ->
    match classify k sp with
    | Hit w o =>
        w <> [] /\ exists caps, exec re p (w ++ R) = Some (caps, R) /\ subst t w caps = o
    | Skip y => silent re p y R
    end.

Lemma spans_tail tail :
  calm_head (src_of tail) -> (forall p, segs_ok re t p tail) ->
  forall spans p,
    forallb span_ok spans = true -> spaced spans = true ->
    segs_ok re t p (map (classify k) spans ++ tail).
Proof.
  intros Hc Ht. induction spans as [|sp rest IH]; intros p Hok Hsp; [apply Ht|].
  simpl in Hok. apply andb_true_iff in Hok as [Ho Hok].
  cbn [spaced] in Hsp. apply andb_true_iff in Hsp as [Hs Hsp].
  cbn [map app segs_ok]. split; [|apply IH; assumption].
  assert (is_emph sp = true -> calm_head (src_of (map (classify k) rest ++ tail)))
    as Hf.
  { intros He. destruct rest as [|r rest']; [exact Hc|].
    rewrite He in Hs. simpl in Hs. apply negb_true_iff in Hs.
    simpl in Hok. apply andb_true_iff in Hok as [Hr _].
    destruct (span_head_calm k r Hr Hs) as (c & z & E & Hne).
    unfold src_of. cbn [map app concat]. rewrite E. exact Hne. }
  pose proof (step sp (src_of (map (classify k) rest ++ tail)) p Ho Hf) as K.
  destruct (classify k sp); exact K.
Qed.

Lemma spans_segs_ok :
  (forall p, exec re p [] = None) ->
  forall spans p,
    forallb span_ok spans = true -> spaced spans = true ->
    segs_ok re t p (map (classify k) spans).
Proof.
  intros Hend spans p Hok Hsp.
  rewrite <- (app_nil_r (map (classify k) spans)).
  apply spans_tail; [exact I | exact Hend | exact Hok | exact Hsp].
Qed.
End SpanPass.

Lemma starts_with_stars n :
  forall j z, j < n -> calm_head z ->
    starts_with (stars n) (stars j ++ z) = false.
Proof.
  unfold starts_with.
  induction n as [|n IH]; intros j z Hj Hz; [lia|].
  destruct j as [|j]; cbn [stars repeat app strip_prefix].
  - destruct z as [|c z]; [reflexivity|]. simpl in Hz.
    destruct (N.eqb 42 c) eqn:E; [|reflexivity].
    apply N.eqb_eq in E. congruence.
  - rewrite N.eqb_refl. apply (IH j z); [lia | exact Hz].
Qed.

Lemma stars_clear n :
  forall j z, j < n -> calm_head z -> clear_of (stars n) (stars j) z = true.
Proof.
  induction j as [|j IH]; intros z Hj Hz; [reflexivity|].
  cbn [stars repeat clear_of].
  change (42%N :: repeat 42%N j) with (stars (S j)).
  rewrite (starts_with_stars n (S j) z Hj Hz). cbn [negb andb].
  apply IH; [lia | exact Hz].
Qed.

(** An emphasis with fewer stars than the pattern asks for. *)
Lemma emph_clear n j s z :
  j < n -> plain_text s = true -> calm_head z ->
  clear_of (stars n) (stars j ++ s ++ stars j) z = true.
Proof.
  intros Hj Hs Hz.
  assert (~ In 42%N s) as H42 by (apply (plain_without 42 s Hs); left; reflexivity).
  rewrite !clear_of_app.
  rewrite (stars_clear n j z Hj Hz), andb_true_r.
  destruct n as [|n]; [lia|].
  rewrite (clear_of_no_head 42 (repeat 42%N n) s _ H42), andb_true_r.
  apply stars_clear; [exact Hj|].
  destruct (plain_text_spec s Hs) as ((c & s' & ->) & _).
  cbn [app calm_head]. intros ->. apply H42. left. reflexivity.
Qed.

Lemma delimited_end a0 a g m cls b p :
  exec [Chars (a0 :: a); Grp [Rep g m cls]; Chars b] p [] = None.
Proof.
  suppose E. destruct (head_delimited _ _ _ _ _ _ _ _ _ _ E) as (s' & K).
  discriminate.
Qed.

Lemma silent_stars n y rest p :
  1 <= n ->
  clear_of (stars n) y rest = true ->
  silent [Chars (stars n); Grp [Rep false 1 dot]; Chars (stars n)] p y rest.
Proof.
  intros Hn H. apply (silent_by _ [stars n]).
  - intros p0 s caps r E.
    destruct (shape_delimited _ _ _ _ _ _ _ _ _ E) as (x & -> & _).
    exists (stars n). split; [left; reflexivity|].
    apply starts_with_spec. eexists. reflexivity.
  - intros h [<- | []]. exact H.
Qed.

Lemma silent_no_stars n y rest p :
  1 <= n -> ~ In 42%N y ->
  silent [Chars (stars n); Grp [Rep false 1 dot]; Chars (stars n)] p y rest.
Proof.
  intros Hn H. apply silent_stars; [exact Hn|].
  destruct n as [|n]; [lia|]. apply (clear_of_no_head 42 (repeat 42%N n)), H.
Qed.

Lemma exec_stars n s rest p :
  1 <= n -> plain_text s = true ->
  exec [Chars (stars n); Grp [Rep false 1 dot]; Chars (stars n)] p
       ((stars n ++ s ++ stars n) ++ rest)
  = Some ([s], rest).
Proof.
  intros Hn Hs. destruct n as [|n]; [lia|].
  rewrite <- !app_assoc.
  change (stars (S n)) with (42%N :: stars n).
  destruct (plain_text_spec s Hs) as ((c & s' & E) & Hi & _).
  apply exec_lazy.
  - rewrite E. discriminate.
  - exact (forallb_weaken _ _ _ inert_dot Hi).
  - apply (plain_without 42 s Hs). left. reflexivity.
Qed.

(** *** The three emphasis passes *)

Lemma subst_wrap' o c w x : subst [Lit o; Cap 1; Lit c] w [x] = o ++ x ++ c.
Proof. apply subst_wrap. Qed.

Ltac span_cases sp Ho :=
  destruct sp as [s | s | s | s | text url | s];
  cbn [span_ok] in Ho;
  try (destruct (well_formed_link _ _ Ho) as (_ & _ & _ & _ & Hit & Hiu)).

Lemma bold_italic_step sp R p :
  span_ok sp = true -> (is_emph sp = true -> calm_head R) ->
  match classify 1 sp with
  | Hit w o =>
      w <> []
      /\ exists caps,
           exec [Chars (stars 3); Grp [Rep false 1 dot]; Chars (stars 3)] p (w ++ R)
           = Some (caps, R)
           /\ subst [Lit (u "<strong><em>"); Cap 1; Lit (u "</em></strong>")] w caps = o
  | Skip y => silent [Chars (stars 3); Grp [Rep false 1 dot]; Chars (stars 3)] p y R
  end.
Proof.
  intros Ho Hc.
  span_cases sp Ho; unfold classify, stage; cbn [rank Nat.eqb Nat.leb pred span_source span_html].
  - apply silent_no_stars; [lia | notin].
  - split; [discriminate|]. exists [s].
    split; [apply exec_stars; [lia | exact Ho] | apply subst_wrap].
  - apply silent_stars; [lia|]. apply emph_clear; [lia | exact Ho | exact (Hc eq_refl)].
  - apply silent_stars; [lia|]. apply emph_clear; [lia | exact Ho | exact (Hc eq_refl)].
  - apply silent_no_stars; [lia|]. unfold markdown_of. notin.
  - apply silent_no_stars; [lia | notin].
Qed.

Lemma bold_step sp R p :
  span_ok sp = true -> (is_emph sp = true -> calm_head R) ->
  match classify 2 sp with
  | Hit w o =>
      w <> []
      /\ exists caps,
           exec [Chars (stars 2); Grp [Rep false 1 dot]; Chars (stars 2)] p (w ++ R)
           = Some (caps, R)
           /\ subst [Lit (u "<strong>"); Cap 1; Lit (u "</strong>")] w caps = o
  | Skip y => silent [Chars (stars 2); Grp [Rep false 1 dot]; Chars (stars 2)] p y R
  end.
Proof.
  intros Ho Hc.
  span_cases sp Ho; unfold classify, stage; cbn [rank Nat.eqb Nat.leb pred span_source span_html].
  - apply silent_no_stars; [lia | notin].
  - apply silent_no_stars; [lia | notin].
  - split; [discriminate|]. exists [s].
    split; [apply exec_stars; [lia | exact Ho] | apply subst_wrap].
  - apply silent_stars; [lia|]. apply emph_clear; [lia | exact Ho | exact (Hc eq_refl)].
  - apply silent_no_stars; [lia|]. unfold markdown_of. notin.
  - apply silent_no_stars; [lia | notin].
Qed.

Lemma italic_step sp R p :
  span_ok sp = true -> (is_emph sp = true -> calm_head R) ->
  match classify 3 sp with
  | Hit w o =>
      w <> []
      /\ exists caps,
           exec [Chars (stars 1); Grp [Rep false 1 dot]; Chars (stars 1)] p (w ++ R)
           = Some (caps, R)
           /\ subst [Lit (u "<em>"); Cap 1; Lit (u "</em>")] w caps = o
  | Skip y => silent [Chars (stars 1); Grp [Rep false 1 dot]; Chars (stars 1)] p y R
  end.
Proof.
  intros Ho Hc.
  span_cases sp Ho; unfold classify, stage; cbn [rank Nat.eqb Nat.leb pred span_source span_html].
  - apply silent_no_stars; [lia | notin].
  - apply silent_no_stars; [lia | notin].
  - apply silent_no_stars; [lia | notin].
  - split; [discriminate|]. exists [s].
    split; [apply exec_stars; [lia | exact Ho] | apply subst_wrap].
  - apply silent_no_stars; [lia|]. unfold markdown_of. notin.
  - apply silent_no_stars; [lia | notin].
Qed.

(** *** The link pass and the code pass *)

Lemma link_end p : exec Markdown.re_link p [] = None.
Proof. suppose E. destruct (link_trigger _ _ _ _ E) as (s' & K). discriminate. Qed.

Lemma link_step sp R p :
  span_ok sp = true -> (is_emph sp = true -> calm_head R) ->
  match classify 4 sp with
  | Hit w o =>
      w <> []
      /\ exists caps,
           exec Markdown.re_link p (w ++ R) = Some (caps, R)
           /\ subst Markdown.anchor w caps = o
  | Skip y => silent Markdown.re_link p y R
  end.
Proof.
  intros Ho _.
  assert (forall y z, ~ In 91%N y -> silent Markdown.re_link p y z) as Q
      by (intros y z H; apply (silent_no_trigger _ 91%N _ _ link_trigger H)).
  destruct sp as [s | s | s | s | text url | s]; cbn [span_ok] in Ho;
    unfold classify, stage; cbn [rank Nat.eqb Nat.leb pred span_source span_html].
  - apply Q. notin.
  - apply Q. notin.
  - apply Q. notin.
  - apply Q. notin.
  - destruct (well_formed_link _ _ Ho) as (Ht & Ht' & Hu & Hu' & _).
    split; [discriminate|]. exists [text; url].
    split; [apply exec_link; assumption | apply subst_anchor].
  - apply Q. notin.
Qed.

Lemma code_step sp R p :
  span_ok sp = true -> (is_emph sp = true -> calm_head R) ->
  match classify 5 sp with
  | Hit w o =>
      w <> []
      /\ exists caps,
           exec Markdown.re_code p (w ++ R) = Some (caps, R)
           /\ subst (Markdown.wrap_in "code") w caps = o
  | Skip y => silent Markdown.re_code p y R
  end.
Proof.
  intros Ho _.
  assert (forall y z, ~ In 96%N y -> silent Markdown.re_code p y z) as Q
      by (intros y z H;
          apply (silent_no_trigger _ 96%N _ _ (head_delimited _ _ _ _ _ _) H)).
  span_cases sp Ho; unfold classify, stage; cbn [rank Nat.eqb Nat.leb pred span_source span_html].
  - apply Q. notin.
  - apply Q. notin.
  - apply Q. notin.
  - apply Q. notin.
  - apply Q. unfold anchor_of. notin.
  - split; [discriminate|]. exists [s].
    split; [|apply subst_wrap].
    rewrite <- !app_assoc.
    destruct (plain_text_spec s Ho) as ((c & s' & E) & Hi & _).
    apply (exec_greedy (u "`") 96 s).
    + rewrite E. discriminate.
    + apply (forallb_weaken inert); [|exact Hi].
      intros d Hd. unfold inert in Hd. unfold other_than.
      rewrite !negb_true_iff, !orb_false_iff in *. tauto.
Qed.

Lemma bold_italic_ok spans p :
  forallb span_ok spans = true -> spaced spans = true ->
  segs_ok [Chars (stars 3); Grp [Rep false 1 dot]; Chars (stars 3)]
          [Lit (u "<strong><em>"); Cap 1; Lit (u "</em></strong>")]
          p (map (classify 1) spans).
Proof.
  apply spans_segs_ok; [exact bold_italic_step | intros; apply delimited_end].
Qed.

Lemma bold_ok spans p :
  forallb span_ok spans = true -> spaced spans = true ->
  segs_ok [Chars (stars 2); Grp [Rep false 1 dot]; Chars (stars 2)]
          [Lit (u "<strong>"); Cap 1; Lit (u "</strong>")]
          p (map (classify 2) spans).
Proof.
  apply spans_segs_ok; [exact bold_step | intros; apply delimited_end].
Qed.

Lemma italic_ok spans p :
  forallb span_ok spans = true -> spaced spans = true ->
  segs_ok [Chars (stars 1); Grp [Rep false 1 dot]; Chars (stars 1)]
          [Lit (u "<em>"); Cap 1; Lit (u "</em>")]
          p (map (classify 3) spans).
Proof.
  apply spans_segs_ok; [exact italic_step | intros; apply delimited_end].
Qed.

Lemma link_ok spans p :
  forallb span_ok spans = true -> spaced spans = true ->
  segs_ok Markdown.re_link Markdown.anchor p (map (classify 4) spans).
Proof. apply spans_segs_ok; [exact link_step | apply link_end]. Qed.

Lemma code_ok spans p :
  forallb span_ok spans = true -> spaced spans = true ->
  segs_ok Markdown.re_code (Markdown.wrap_in "code") p (map (classify 5) spans).
Proof.
  apply spans_segs_ok; [exact code_step | intros; apply delimited_end].
Qed.

(** *** The units of a text of spans *)

Section SpanUnits.
Variable P : N -> bool.
Hypothesis P_inert : forall c, inert c = true -> P c = true.

Lemma span_source_forall sp :
  forallb P (u "*`[]()") = true ->
  span_ok sp = true -> forallb P (span_source sp) = true.
Proof.
  intros HP Ho. simpl in HP. rewrite !andb_true_iff in HP.
  destruct HP as (A & B & C & D & E & F & _).
  destruct sp as [s | s | s | s | text url | s]; cbn [span_ok] in Ho;
    try (destruct (plain_text_spec s Ho) as (_ & Hi & _);
         pose proof (forallb_weaken _ _ _ P_inert Hi) as Hs);
    try (destruct (well_formed_link _ _ Ho) as (_ & _ & _ & _ & Hit & Hiu);
         pose proof (forallb_weaken _ _ _ P_inert Hit) as Ht;
         pose proof (forallb_weaken _ _ _ P_inert Hiu) as Hu);
    unfold span_source, markdown_of, stars; rewrite ?forallb_app; simpl;
    rewrite ?Hs, ?Ht, ?Hu, ?A, ?B, ?C, ?D, ?E, ?F; reflexivity.
Qed.

Lemma span_html_forall sp :
  forallb P (u "<>/=_ strongemcodeahrftblkp") = true -> P dq = true ->
  span_ok sp = true -> forallb P (span_html sp) = true.
Proof.
  intros HP Hq Ho.
  assert (forall l, forallb (fun c => existsb (N.eqb c) (dq :: u "<>/=_ strongemcodeahrftblkp")) l = true ->
                    forallb P l = true) as Lit.
  { intros l Hl. rewrite forallb_forall in *. intros c Hc.
    specialize (Hl c Hc). apply existsb_exists in Hl as (d & Hd & E).
    apply N.eqb_eq in E. subst d. destruct Hd as [<- | Hd]; [exact Hq|].
    exact (HP c Hd). }
  destruct sp as [s | s | s | s | text url | s]; cbn [span_ok] in Ho;
    try (destruct (plain_text_spec s Ho) as (_ & Hi & _);
         pose proof (forallb_weaken _ _ _ P_inert Hi) as Hs);
    try (destruct (well_formed_link _ _ Ho) as (_ & _ & _ & _ & Hit & Hiu);
         pose proof (forallb_weaken _ _ _ P_inert Hit) as Ht;
         pose proof (forallb_weaken _ _ _ P_inert Hiu) as Hu);
    unfold span_html, anchor_of; rewrite ?forallb_app, ?Hs, ?Ht, ?Hu;
    rewrite ?Lit by reflexivity; reflexivity.
Qed.

Lemma forallb_concat_map (f : span -> jstring) spans :
  (forall sp, span_ok sp = true -> forallb P (f sp) = true) ->
  forallb span_ok spans = true -> forallb P (concat (map f spans)) = true.
Proof.
  intros H. induction spans as [|sp rest IH]; intros Ho; [reflexivity|].
  simpl in Ho. apply andb_true_iff in Ho as [A B].
  cbn [map concat]. rewrite forallb_app, (H sp A), (IH B). reflexivity.
Qed.
End SpanUnits.

Lemma concat_map_ext_ok (f g : span -> jstring) spans :
  (forall sp, f sp = g sp) -> concat (map f spans) = concat (map g spans).
Proof. intros H. f_equal. apply map_ext. exact H. Qed.

(** *** The other passes find nothing *)

Lemma inline_no_item p s :
  safe_in inline_tags s = true -> exec Markdown.re_br_item_br p s = None.
Proof.
  intros H. suppose E.
  destruct (shape_br_item_br _ _ _ _ E) as (a & x & b & -> & _ & [-> | ->] & _);
    simpl in H; discriminate.
Qed.

Lemma inline_no_li_tag p s :
  safe_in inline_tags s = true -> exec Markdown.re_li_tag p s = None.
Proof.
  intros H. suppose E.
  destruct (shape_li_tag _ _ _ _ E) as (tag & [-> | ->] & -> & _);
    simpl in H; discriminate.
Qed.

Lemma inline_step (p : option N) c s :
  safe_in inline_tags (c :: s) = true -> safe_in inline_tags s = true.
Proof. intros H. apply safe_in_cons in H as [_ H]. exact H. Qed.

Lemma tidy_items_inline s :
  safe_in inline_tags s = true -> Markdown.tidy_items s = s.
Proof.
  intros H. unfold Markdown.tidy_items, replace.
  rewrite replace_from_whole.
  apply (replace_from_idle _ (fun _ s => safe_in inline_tags s = true)
                           inline_no_item inline_step).
  exact H.
Qed.

Lemma group_items_inline s :
  safe_in inline_tags s = true ->
  Markdown.group_items false (split Markdown.re_li_tag s) = s.
Proof.
  intros H.
  assert (split Markdown.re_li_tag s = [s]) as ->.
  { unfold split. destruct s as [|c s']; [reflexivity|].
    apply (split_from_idle _ (fun _ s => safe_in inline_tags s = true)
                           inline_no_li_tag inline_step).
    exact H. }
  cbn [Markdown.group_items].
  destruct (jeqb s (u "<li>")) eqn:E1;
    [apply jeqb_eq in E1; subst s; simpl in H; discriminate|].
  destruct (jeqb s (u "</li>")) eqn:E2;
    [apply jeqb_eq in E2; subst s; simpl in H; discriminate|].
  apply app_nil_r.
Qed.

Lemma html_of_spans_safe spans :
  forallb span_ok spans = true -> safe_in inline_tags (html_of_spans spans) = true.
Proof.
  unfold html_of_spans. induction spans as [|sp rest IH]; intros H; [reflexivity|].
  simpl in H. apply andb_true_iff in H as [Ho H].
  cbn [map concat]. apply safe_in_app; [|exact (IH H)].
  assert (forall s, forallb inert s = true -> safe_in inline_tags s = true) as Q
      by (intros s Hs; apply no_lt_safe_in, (forallb_not_In inert);
          [reflexivity | exact Hs]).
  destruct sp as [s | s | s | s | text url | s]; cbn [span_ok] in Ho;
    try (destruct (plain_text_spec s Ho) as (_ & Hi & _));
    try (destruct (well_formed_link _ _ Ho) as (_ & _ & _ & _ & Hit & Hiu));
    unfold span_html, anchor_of;
    repeat first [apply Q; assumption
                 | apply safe_in_app; [first [reflexivity | apply Q; assumption]|]
                 | reflexivity].
Qed.

(** *** The whole chain *)

Lemma span_source_head sp :
  span_ok sp = true -> exists c r, span_source sp = c :: r.
Proof.
  intros Ho. destruct sp as [s | s | s | s | text url | s];
    try (eexists; eexists; reflexivity).
  cbn [span_ok] in Ho. destruct (plain_text_spec s Ho) as ((c & s' & ->) & _).
  eexists; eexists; reflexivity.
Qed.

Lemma html_of_spans_plainly spans :
  forallb span_ok spans = true ->
  starts_plainly (text_of_spans spans) = true ->
  starts_plainly (html_of_spans spans) = true.
Proof.
  unfold text_of_spans, html_of_spans. intros Ho H.
  destruct spans as [|sp rest]; [reflexivity|].
  simpl in Ho. apply andb_true_iff in Ho as [Ho _].
  cbn [map concat] in *.
  destruct sp as [s | s | s | s | text url | s]; try reflexivity.
  cbn [span_ok] in Ho. destruct (plain_text_spec s Ho) as ((c & s' & ->) & _).
  exact H.
Qed.

Lemma inline_markup_spans spans :
  forallb span_ok spans = true -> spaced spans = true ->
  starts_plainly (text_of_spans spans) = true ->
  Markdown.inline_markup (text_of_spans spans) = html_of_spans spans.
Proof.
  intros Ho Hsp Hs.
  assert (forallb dot (text_of_spans spans) = true) as Dt.
  { apply forallb_concat_map; [|exact Ho].
    intros sp Hsp'. apply span_source_forall; [exact inert_dot | reflexivity | exact Hsp']. }
  assert (forallb calm (html_of_spans spans) = true) as Ch.
  { apply forallb_concat_map; [|exact Ho].
    intros sp Hsp'.
    apply span_html_forall; [exact inert_calm | reflexivity | reflexivity | exact Hsp']. }
  assert (forall t, replace Markdown.re_h3 t (text_of_spans spans) = text_of_spans spans) as H3
      by (intros t; apply (replace_line_idle 35%N);
          [exact Dt | apply starts_plainly_head; auto]).
  assert (forall t, replace Markdown.re_h2 t (text_of_spans spans) = text_of_spans spans) as H2
      by (intros t; apply (replace_line_idle 35%N);
          [exact Dt | apply starts_plainly_head; auto]).
  assert (forall t, replace Markdown.re_h1 t (text_of_spans spans) = text_of_spans spans) as H1
      by (intros t; apply (replace_line_idle 35%N);
          [exact Dt | apply starts_plainly_head; auto]).
  unfold Markdown.inline_markup. rewrite H3, H2, H1.
  assert (text_of_spans spans = concat (map (stage 0) spans)) as ->
      by (symmetry; apply concat_map_ext_ok, stage_source).
  rewrite (replace_by_segs Markdown.re_bold_italic _ (map (classify 1) spans)
             _ (concat (map (stage 1) spans)));
    [| rewrite src_classify by lia; reflexivity
     | rewrite out_classify by lia; reflexivity
     | apply bold_italic_ok; assumption].
  rewrite (replace_by_segs Markdown.re_bold _ (map (classify 2) spans)
             _ (concat (map (stage 2) spans)));
    [| rewrite src_classify by lia; reflexivity
     | rewrite out_classify by lia; reflexivity
     | apply bold_ok; assumption].
  rewrite (replace_by_segs Markdown.re_italic _ (map (classify 3) spans)
             _ (concat (map (stage 3) spans)));
    [| rewrite src_classify by lia; reflexivity
     | rewrite out_classify by lia; reflexivity
     | apply italic_ok; assumption].
  rewrite (replace_by_segs Markdown.re_link _ (map (classify 4) spans)
             _ (concat (map (stage 4) spans)));
    [| rewrite src_classify by lia; reflexivity
     | rewrite out_classify by lia; reflexivity
     | apply link_ok; assumption].
  rewrite (replace_by_segs Markdown.re_code _ (map (classify 5) spans)
             _ (concat (map (stage 5) spans)));
    [| rewrite src_classify by lia; reflexivity
     | rewrite out_classify by lia; reflexivity
     | apply code_ok; assumption].
  assert (concat (map (stage 5) spans) = html_of_spans spans) as ->
      by (apply concat_map_ext_ok, stage_html).
  assert (replace Markdown.re_item (Markdown.wrap_in "li") (html_of_spans spans)
          = html_of_spans spans) as ->.
  { apply (replace_line_idle 45%N).
    - exact (forallb_weaken _ _ _ calm_dot Ch).
    - apply starts_plainly_head; [|auto].
      apply html_of_spans_plainly; assumption. }
  rewrite (replace_no_trigger Markdown.re_blank_line _ 10%N _ (head_chars _ _));
    [|apply (forallb_not_In calm); [reflexivity | exact Ch]].
  apply (replace_no_trigger Markdown.re_newline _ 10%N _ (head_chars _ _)).
  apply (forallb_not_In calm); [reflexivity | exact Ch].
Qed.

Lemma escape_html_spans spans :
  forallb span_ok spans = true ->
  Markdown.escape_html (text_of_spans spans) = text_of_spans spans.
Proof.
  intros H. rewrite escape_html_units.
  apply (flat_map_id _ (fun c => negb (N.eqb c 38 || N.eqb c 60 || N.eqb c 62)%N)).
  - intros c Hc. unfold escape_unit.
    apply negb_true_iff in Hc. rewrite !orb_false_iff in Hc.
    destruct Hc as [[-> ->] ->]. reflexivity.
  - apply forallb_concat_map; [|exact H].
    intros sp Ho. apply span_source_forall; [|reflexivity | exact Ho].
    intros c Hc. unfold inert in Hc.
    rewrite !negb_true_iff, !orb_false_iff in *. tauto.
Qed.

Lemma text_of_spans_not_nil spans :
  forallb span_ok spans = true -> spans <> [] -> text_of_spans spans <> [].
Proof.
  intros H Hn. destruct spans as [|sp rest]; [congruence|].
  simpl in H. apply andb_true_iff in H as [Ho _].
  destruct (span_source_head sp Ho) as (c & r & E).
  unfold text_of_spans. cbn [map concat]. rewrite E. discriminate.
Qed.

(** X19. A text of one line made of plain words, [***bold italic***],
    [**bold**], [*italic*], [[text](url)] and [`code`], with plain text in
    each and no emphasis directly after an emphasis: every span is rendered
    by the tag of its kind, around its text, and the words in between stay
    as they are; the whole is wrapped in [<p>]. *)
Theorem renderMarkdown_spans spans :
  forallb span_ok spans = true -> spaced spans = true ->
  starts_plainly (text_of_spans spans) = true -> spans <> [] ->
  renderMarkdown (str (text_of_spans spans))
  = Ok (u "<p>" ++ html_of_spans spans ++ u "</p>").
Proof.
  intros Ho Hsp Hs Hn.
  rewrite (renderMarkdown_string _ (text_of_spans_not_nil spans Ho Hn)).
  unfold Markdown.render.
  rewrite (escape_html_spans spans Ho), (inline_markup_spans spans Ho Hsp Hs).
  rewrite (tidy_items_inline _ (html_of_spans_safe spans Ho)).
  rewrite (group_items_inline _ (html_of_spans_safe spans Ho)).
  reflexivity.
Qed.

Lemma renderMarkdown_spans_witness :
  renderMarkdown (str (u "**bold** and *italic*"))
  = Ok (u "<p><strong>bold</strong> and <em>italic</em></p>").
Proof.
  apply (renderMarkdown_spans [Bold (u "bold"); Words (u " and "); Italic (u "italic")]).
  - reflexivity.
  - reflexivity.
  - reflexivity.
  - discriminate.
Defined.
(* ================================================================= *)
(** ** Lines with emphasis, code and links in them *)

Lemma content_ok_spec sp :
  content_ok sp = true ->
  sp <> [] /\ forallb span_ok sp = true /\ spaced sp = true.
Proof.
  destruct sp as [|a sp]; [discriminate|]. unfold content_ok.
  rewrite andb_true_iff. intros [A B]. repeat split; [discriminate | exact A | exact B].
Qed.

Lemma block_ok_content b :
  block_ok b = true ->
  (match b with Gap => True | _ => spans_of b <> [] end)
  /\ forallb span_ok (spans_of b) = true /\ spaced (spans_of b) = true.
Proof.
  destruct b as [n sp | sp | sp |]; cbn [block_ok spans_of]; rewrite ?andb_true_iff.
  - intros [_ H]. exact (content_ok_spec sp H).
  - intros H. exact (content_ok_spec sp H).
  - intros [[H _] _]. exact (content_ok_spec sp H).
  - intros _. repeat split.
Qed.

Lemma Forall_map_blocks (P : jstring -> Prop) (f : block -> jstring) blocks :
  (forall b, block_ok b = true -> P (f b)) ->
  forallb block_ok blocks = true -> Forall P (map f blocks).
Proof.
  intros H. induction blocks as [|b rest IH]; intros Hb; [constructor|].
  simpl in Hb. apply andb_true_iff in Hb as [A B].
  constructor; [exact (H b A) | exact (IH B)].
Qed.

Lemma map_ext_blocks (f g : block -> jstring) blocks :
  (forall b, block_ok b = true -> f b = g b) ->
  forallb block_ok blocks = true -> map f blocks = map g blocks.
Proof.
  intros H. induction blocks as [|b rest IH]; intros Hb; [reflexivity|].
  simpl in Hb. apply andb_true_iff in Hb as [A B].
  cbn [map]. rewrite (H b A), (IH B). reflexivity.
Qed.

Lemma stage_cases k sp : stage k sp = span_source sp \/ stage k sp = span_html sp.
Proof. unfold stage. destruct (Nat.leb (rank sp) k); auto. Qed.

(** One of the listed units. *)
Ltac listed H :=
  apply (proj1 (forallb_forall _ _) H);
  repeat (first [left; reflexivity | right]).

(** What holds of the units of the spans and of the units that the
    renderer writes holds of all units of a line, at every stage. *)
Section BlockUnits.
Variable P : N -> bool.
Hypothesis P_inert : forall c, inert c = true -> P c = true.
Hypothesis P_source : forallb P (u "*`[]()") = true.
Hypothesis P_html : forallb P (u "<>/=_ strongemcodeahrftblkp") = true.
Hypothesis P_dq : P dq = true.
Hypothesis P_line : forallb P (u "- 123li") = true.

Lemma stage_forall k sp : span_ok sp = true -> forallb P (stage k sp) = true.
Proof.
  intros Ho. destruct (stage_cases k sp) as [-> | ->].
  - apply span_source_forall; assumption.
  - apply span_html_forall; assumption.
Qed.

Lemma stages_forall k sp :
  forallb span_ok sp = true -> forallb P (concat (map (stage k) sp)) = true.
Proof. apply forallb_concat_map. intros s Hs. apply stage_forall, Hs. Qed.

Lemma heading_tags_forall n :
  Nat.leb 1 n && Nat.leb n 3 = true ->
  forallb P (heading_open n) = true /\ forallb P (heading_close n) = true.
Proof.
  intros Hn.
  assert (P 60 = true)%N as A by listed P_html.
  assert (P 62 = true)%N as B by listed P_html.
  assert (P 47 = true)%N as C by listed P_html.
  assert (P 104 = true)%N as H by listed P_html.
  assert (P 49 = true)%N as D1 by listed P_line.
  assert (P 50 = true)%N as D2 by listed P_line.
  assert (P 51 = true)%N as D3 by listed P_line.
  unfold heading_open, heading_close, digit.
  destruct (level_cases n Hn) as [-> | [-> | ->]]; simpl;
    rewrite ?A, ?B, ?C, ?H, ?D1, ?D2, ?D3; split; reflexivity.
Qed.

Lemma stage_line_forall k b :
  block_ok b = true -> forallb P (stage_line k b) = true.
Proof.
  intros Hb. destruct (block_ok_content b Hb) as (_ & Ho & _).
  unfold stage_line. rewrite !forallb_app, (stages_forall k _ Ho).
  assert (P 45 = true)%N as D by listed P_line.
  assert (P 32 = true)%N as S by listed P_line.
  destruct b as [n sp | sp | sp |]; cbn [before_spans after_spans block_ok] in *.
  - apply andb_true_iff in Hb as [Hn _].
    destruct (heading_tags_forall n Hn) as [-> ->]. reflexivity.
  - simpl. rewrite D, S. reflexivity.
  - reflexivity.
  - reflexivity.
Qed.

Lemma block_html_forall b :
  block_ok b = true -> forallb P (block_html b) = true.
Proof.
  intros Hb. destruct (block_ok_content b Hb) as (_ & Ho & _).
  assert (forall sp, forallb span_ok sp = true -> forallb P (html_of_spans sp) = true)
    as Hh by (intros sp Hsp; apply forallb_concat_map; [|exact Hsp];
              intros s Hs; apply span_html_forall; assumption).
  assert (P 60 = true)%N as A by listed P_html.
  assert (P 62 = true)%N as B by listed P_html.
  assert (P 47 = true)%N as C by listed P_html.
  assert (P 108 = true)%N as L by listed P_line.
  assert (P 105 = true)%N as I9 by listed P_line.
  destruct b as [n sp | sp | sp |]; cbn [block_html spans_of block_ok] in *.
  - apply andb_true_iff in Hb as [Hn _].
    destruct (heading_tags_forall n Hn) as [E1 E2].
    rewrite !forallb_app, E1, E2, (Hh sp Ho). reflexivity.
  - rewrite !forallb_app, (Hh sp Ho). simpl. rewrite A, B, C, L, I9. reflexivity.
  - apply Hh, Ho.
  - reflexivity.
Qed.
End BlockUnits.

Lemma block_source_forall (P : N -> bool) b :
  (forall c, inert c = true -> P c = true) ->
  forallb P (u "*`[]()# -") = true ->
  block_ok b = true -> forallb P (block_source b) = true.
Proof.
  intros Hi HP Hb. destruct (block_ok_content b Hb) as (_ & Ho & _).
  assert (forallb P (u "*`[]()") = true) as HP'.
  { simpl in *. rewrite !andb_true_iff in *. tauto. }
  assert (forall sp, forallb span_ok sp = true -> forallb P (text_of_spans sp) = true)
    as Ht by (intros sp Hsp; apply forallb_concat_map; [|exact Hsp];
              intros s Hs; apply span_source_forall; assumption).
  assert (P 35 = true)%N as H35 by listed HP.
  assert (P 32 = true)%N as H32 by listed HP.
  assert (P 45 = true)%N as H45 by listed HP.
  destruct b as [n sp | sp | sp |]; cbn [block_source spans_of block_ok] in *.
  - apply andb_true_iff in Hb as [Hn _]. unfold hashes.
    rewrite !forallb_app, (Ht sp Ho).
    destruct (level_cases n Hn) as [-> | [-> | ->]]; simpl; rewrite ?H35, ?H32; reflexivity.
  - rewrite forallb_app, (Ht sp Ho). simpl. rewrite H45, H32. reflexivity.
  - apply Ht, Ho.
  - reflexivity.
Qed.

Lemma text_of_blocks_forall (P : N -> bool) blocks :
  (forall c, inert c = true -> P c = true) ->
  forallb P (u "*`[]()# -") = true -> P 10%N = true ->
  forallb block_ok blocks = true -> forallb P (text_of_blocks blocks) = true.
Proof.
  intros Hi HP H10 H. unfold text_of_blocks.
  apply forallb_join; [simpl; rewrite H10; reflexivity|].
  apply Forall_map_blocks; [|exact H].
  intros b Hb. apply block_source_forall; assumption.
Qed.

Lemma escape_html_blocks blocks :
  forallb block_ok blocks = true ->
  Markdown.escape_html (text_of_blocks blocks) = text_of_blocks blocks.
Proof.
  intros H. rewrite escape_html_units.
  apply (flat_map_id _ (fun c => negb (N.eqb c 38 || N.eqb c 60 || N.eqb c 62)%N)).
  - intros c Hc. unfold escape_unit.
    apply negb_true_iff in Hc. rewrite !orb_false_iff in Hc.
    destruct Hc as [[-> ->] ->]. reflexivity.
  - apply text_of_blocks_forall; try reflexivity; [|exact H].
    intros c Hc. unfold inert in Hc.
    rewrite !negb_true_iff, !orb_false_iff in *. tauto.
Qed.

(** *** The heading passes *)

Lemma text_of_spans_head sp :
  content_ok sp = true -> exists c r, text_of_spans sp = c :: r.
Proof.
  intros H. destruct (content_ok_spec sp H) as (Hn & Ho & _).
  destruct sp as [|s rest]; [congruence|].
  simpl in Ho. apply andb_true_iff in Ho as [Hs _].
  destruct (span_source_head s Hs) as (c & r & E).
  unfold text_of_spans. cbn [map concat]. rewrite E. eexists; eexists; reflexivity.
Qed.

Lemma span_html_head s :
  span_ok s = true -> exists c r, span_html s = c :: r.
Proof.
  intros Ho. destruct s as [s | s | s | s | text url | s];
    try (eexists; eexists; reflexivity).
  cbn [span_ok] in Ho. destruct (plain_text_spec s Ho) as ((c & s' & ->) & _).
  eexists; eexists; reflexivity.
Qed.

Lemma html_of_spans_head sp :
  content_ok sp = true -> exists c r, html_of_spans sp = c :: r.
Proof.
  intros H. destruct (content_ok_spec sp H) as (Hn & Ho & _).
  destruct sp as [|s rest]; [congruence|].
  simpl in Ho. apply andb_true_iff in Ho as [Hs _].
  destruct (span_html_head s Hs) as (c & r & E).
  unfold html_of_spans. cbn [map concat]. rewrite E. eexists; eexists; reflexivity.
Qed.

Lemma stage0_text sp : concat (map (stage 0) sp) = text_of_spans sp.
Proof. apply concat_map_ext_ok, stage_source. Qed.

Lemma stage5_html sp : concat (map (stage 5) sp) = html_of_spans sp.
Proof. apply concat_map_ext_ok, stage_html. Qed.

Lemma prose_head sp :
  block_ok (Prose sp) = true ->
  exists c r, text_of_spans sp = c :: r /\ N.eqb 35%N c = false /\ N.eqb 45%N c = false
              /\ is_space c = false.
Proof.
  cbn [block_ok]. rewrite !andb_true_iff. intros [[Hc Hs] Hb].
  destruct (text_of_spans_head sp Hc) as (c & r & E). rewrite E in *.
  exists c, r. simpl in Hs, Hb.
  apply negb_true_iff in Hs, Hb. apply orb_false_iff in Hs as [S1 S2].
  rewrite (N.eqb_sym 35%N), (N.eqb_sym 45%N). auto.
Qed.

Lemma block_heading_rules b :
  block_ok b = true ->
  line_rule (u "# ") (u "<" ++ u "h1" ++ u ">") (u "</" ++ u "h1" ++ u ">")
    (line_rule (u "## ") (u "<" ++ u "h2" ++ u ">") (u "</" ++ u "h2" ++ u ">")
       (line_rule (u "### ") (u "<" ++ u "h3" ++ u ">") (u "</" ++ u "h3" ++ u ">")
          (block_source b)))
  = stage_line 0 b.
Proof.
  intros H. unfold stage_line. rewrite stage0_text.
  destruct b as [n sp | sp | sp |]; cbn [block_source before_spans after_spans spans_of].
  - simpl in H. apply andb_true_iff in H as [Hn Hc].
    destruct (text_of_spans_head sp Hc) as (c & r & ->).
    destruct (level_cases n Hn) as [-> | [-> | ->]]; reflexivity.
  - rewrite app_nil_r. reflexivity.
  - destruct (prose_head sp H) as (c & r & -> & H35 & _).
    rewrite !line_rule_skip by exact H35. rewrite app_nil_r. reflexivity.
  - reflexivity.
Qed.

Lemma block_heading_passes blocks :
  forallb block_ok blocks = true ->
  replace Markdown.re_h1 (Markdown.wrap_in "h1")
    (replace Markdown.re_h2 (Markdown.wrap_in "h2")
       (replace Markdown.re_h3 (Markdown.wrap_in "h3") (text_of_blocks blocks)))
  = join nl (map (stage_line 0) blocks).
Proof.
  intros H. unfold text_of_blocks, Markdown.re_h1, Markdown.re_h2, Markdown.re_h3,
    Markdown.wrap_in.
  assert (forall b, block_ok b = true -> forallb dot (block_source b) = true) as D
      by (intros b Hb; apply block_source_forall;
          [exact inert_dot | reflexivity | exact Hb]).
  rewrite (line_pass (u "### ")); [|discriminate | reflexivity |].
  2: { apply Forall_map_blocks; [exact D | exact H]. }
  rewrite (line_pass (u "## ")); [|discriminate | reflexivity |].
  2: { rewrite map_map. apply Forall_map_blocks; [|exact H].
       intros b Hb. apply line_rule_dot; [reflexivity | reflexivity |].
       apply D, Hb. }
  rewrite (line_pass (u "# ")); [|discriminate | reflexivity |].
  2: { rewrite !map_map. apply Forall_map_blocks; [|exact H].
       intros b Hb. apply line_rule_dot; [reflexivity | reflexivity |].
       apply line_rule_dot; [reflexivity | reflexivity |].
       apply D, Hb. }
  rewrite !map_map. f_equal. apply map_ext_blocks; [|exact H].
  exact block_heading_rules.
Qed.

(** *** The inline passes *)

Lemma src_of_cons s segs : src_of (s :: segs) = seg_src s ++ src_of segs.
Proof. reflexivity. Qed.

Lemma out_of_cons s segs : out_of (s :: segs) = seg_out s ++ out_of segs.
Proof. reflexivity. Qed.

Lemma src_block_segs k b tail :
  1 <= k -> src_of (block_segs k b tail) = stage_line (pred k) b ++ src_of tail.
Proof.
  intros Hk. unfold block_segs, stage_line.
  rewrite src_of_cons, src_of_app, src_of_cons, (src_classify k _ Hk).
  cbn [seg_src]. rewrite <- !app_assoc. reflexivity.
Qed.

Lemma out_block_segs k b tail :
  1 <= k -> out_of (block_segs k b tail) = stage_line k b ++ out_of tail.
Proof.
  intros Hk. unfold block_segs, stage_line.
  rewrite out_of_cons, out_of_app, out_of_cons, (out_classify k _ Hk).
  cbn [seg_out]. rewrite <- !app_assoc. reflexivity.
Qed.

Lemma src_inline_segs k blocks :
  1 <= k -> src_of (inline_segs k blocks) = join nl (map (stage_line (pred k)) blocks).
Proof.
  intros Hk. induction blocks as [|b rest IH]; [reflexivity|].
  cbn [inline_segs map join]. rewrite (src_block_segs k b _ Hk).
  destruct rest as [|b' rest]; [apply app_nil_r|].
  rewrite src_of_cons, IH. reflexivity.
Qed.

Lemma out_inline_segs k blocks :
  1 <= k -> out_of (inline_segs k blocks) = join nl (map (stage_line k) blocks).
Proof.
  intros Hk. induction blocks as [|b rest IH]; [reflexivity|].
  cbn [inline_segs map join]. rewrite (out_block_segs k b _ Hk).
  destruct rest as [|b' rest]; [apply app_nil_r|].
  rewrite out_of_cons, IH. reflexivity.
Qed.

Lemma around_tame b :
  block_ok b = true ->
  forallb tame (before_spans b) = true /\ forallb tame (after_spans b) = true.
Proof.
  intros Hb. destruct b as [n sp | sp | sp |]; try (split; reflexivity).
  simpl in Hb. apply andb_true_iff in Hb as [Hn _].
  destruct (level_cases n Hn) as [-> | [-> | ->]]; split; reflexivity.
Qed.

Lemma calm_after y z : forallb tame y = true -> calm_head z -> calm_head (y ++ z).
Proof.
  intros Hy Hz. destruct y as [|c y]; [exact Hz|].
  simpl in Hy. apply andb_true_iff in Hy as [Hc _].
  cbn [app calm_head]. intros ->. discriminate.
Qed.

(** The skeleton of an inline pass over the lines. *)
Section LinesPass.
Variables (re : list regex) (t : list piece) (k : nat) (c0 : N).
Hypothesis trigger :
  forall p s caps rest, exec re p s = Some (caps, rest) -> exists s', s = c0 :: s'.
Hypothesis c0_wild : tame c0 = false.
Hypothesis step :
  forall sp R p,
    span_ok sp = true -> (is_emph sp = true -> calm_head R) ->
    match classify k sp with
    | Hit w o =>
        w <> [] /\ exists caps, exec re p (w ++ R) = Some (caps, R) /\ subst t w caps = o
    | Skip y => silent re p y R
    end.
Hypothesis k_pos : 1 <= k.

Lemma tame_silent y R p : forallb tame y = true -> silent re p y R.
Proof.
  intros H. apply (silent_no_trigger re c0 y R trigger).
  apply (forallb_not_In tame); [exact c0_wild | exact H].
Qed.

Lemma pass_end p : exec re p [] = None.
Proof. suppose E. destruct (trigger _ _ _ _ E) as (s' & K). discriminate. Qed.

Lemma inline_segs_ok blocks :
  forallb block_ok blocks = true -> forall p, segs_ok re t p (inline_segs k blocks).
Proof.
  induction blocks as [|b rest IH]; intros H p; [apply pass_end|].
  simpl in H. apply andb_true_iff in H as [Hb H].
  destruct (block_ok_content b Hb) as (_ & Ho & Hsp).
  destruct (around_tame b Hb) as [Tb Ta].
  cbn [inline_segs]. unfold block_segs. cbn [segs_ok]. split; [apply tame_silent, Tb|].
  apply (spans_tail re t k step); [| |exact Ho | exact Hsp].
  - rewrite src_of_cons. cbn [seg_src]. apply calm_after; [exact Ta|].
    destruct rest; [exact I | cbn; discriminate].
  - intros p'. cbn [segs_ok]. split; [apply tame_silent, Ta|].
    destruct rest as [|b' rest]; [apply pass_end|].
    cbn [segs_ok]. split; [apply tame_silent; reflexivity|].
    apply IH, H.
Qed.

Lemma inline_pass blocks :
  forallb block_ok blocks = true ->
  replace re t (join nl (map (stage_line (pred k)) blocks))
  = join nl (map (stage_line k) blocks).
Proof.
  intros H. apply (replace_by_segs re t (inline_segs k blocks)).
  - symmetry. apply src_inline_segs, k_pos.
  - symmetry. apply out_inline_segs, k_pos.
  - apply inline_segs_ok, H.
Qed.
End LinesPass.

Lemma inline_passes blocks :
  forallb block_ok blocks = true ->
  replace Markdown.re_code (Markdown.wrap_in "code")
    (replace Markdown.re_link Markdown.anchor
       (replace Markdown.re_italic (Markdown.wrap_in "em")
          (replace Markdown.re_bold (Markdown.wrap_in "strong")
             (replace Markdown.re_bold_italic
                [Lit (u "<strong><em>"); Cap 1; Lit (u "</em></strong>")]
                (join nl (map (stage_line 0) blocks))))))
  = join nl (map (stage_line 5) blocks).
Proof.
  intros H.
  pose proof (inline_pass Markdown.re_bold_italic
                [Lit (u "<strong><em>"); Cap 1; Lit (u "</em></strong>")] 1 42%N
                (head_delimited _ _ _ _ _ _) eq_refl bold_italic_step (le_n 1)
                blocks H) as K1.
  pose proof (inline_pass Markdown.re_bold (Markdown.wrap_in "strong") 2 42%N
                (head_delimited _ _ _ _ _ _) eq_refl bold_step
                (le_S _ _ (le_n 1)) blocks H) as K2.
  pose proof (inline_pass Markdown.re_italic (Markdown.wrap_in "em") 3 42%N
                (head_delimited _ _ _ _ _ _) eq_refl italic_step
                (le_S _ _ (le_S _ _ (le_n 1))) blocks H) as K3.
  pose proof (inline_pass Markdown.re_link Markdown.anchor 4 91%N
                link_trigger eq_refl link_step
                (le_S _ _ (le_S _ _ (le_S _ _ (le_n 1)))) blocks H) as K4.
  pose proof (inline_pass Markdown.re_code (Markdown.wrap_in "code") 5 96%N
                (head_delimited _ _ _ _ _ _) eq_refl code_step
                (le_S _ _ (le_S _ _ (le_S _ _ (le_S _ _ (le_n 1))))) blocks H) as K5.
  cbn [pred] in K1, K2, K3, K4, K5.
  rewrite K1, K2, K3, K4. exact K5.
Qed.

(** *** The item pass *)

Lemma block_item_rule b :
  block_ok b = true ->
  line_rule (u "- ") (u "<" ++ u "li" ++ u ">") (u "</" ++ u "li" ++ u ">")
            (stage_line 5 b)
  = block_html b.
Proof.
  intros H. unfold stage_line. rewrite stage5_html.
  destruct b as [n sp | sp | sp |]; cbn [block_html before_spans after_spans spans_of].
  - unfold heading_open at 1. cbn [app].
    rewrite line_rule_skip by reflexivity. reflexivity.
  - simpl in H. destruct (html_of_spans_head sp H) as (c & r & ->).
    rewrite app_nil_r. reflexivity.
  - rewrite app_nil_r.
    assert (starts_plainly (html_of_spans sp) = true) as Hs.
    { cbn [block_ok] in H. rewrite !andb_true_iff in H. destruct H as [[Hc Hs] _].
      destruct (content_ok_spec sp Hc) as (_ & Ho & _).
      apply html_of_spans_plainly; assumption. }
    destruct (html_of_spans sp) as [|c r]; [reflexivity|].
    simpl in Hs. apply negb_true_iff, orb_false_iff in Hs as [_ S2].
    apply line_rule_skip. change (N.eqb 45 c = false). rewrite N.eqb_sym. exact S2.
  - reflexivity.
Qed.

Lemma stage_line_dot k b : block_ok b = true -> forallb dot (stage_line k b) = true.
Proof.
  apply stage_line_forall; try reflexivity. exact inert_dot.
Qed.

Lemma block_item_pass blocks :
  forallb block_ok blocks = true ->
  replace Markdown.re_item (Markdown.wrap_in "li") (join nl (map (stage_line 5) blocks))
  = join nl (map block_html blocks).
Proof.
  intros H. unfold Markdown.re_item, Markdown.wrap_in.
  rewrite (line_pass (u "- ")); [|discriminate | reflexivity |].
  2: { apply Forall_map_blocks; [exact (stage_line_dot 5) | exact H]. }
  rewrite map_map. f_equal. apply map_ext_blocks; [|exact H].
  exact block_item_rule.
Qed.

(** *** Paragraphs and line breaks *)

Lemma block_html_not_nl b :
  block_ok b = true -> forallb (other_than 10) (block_html b) = true.
Proof.
  apply block_html_forall; try reflexivity.
  intros c Hc. unfold inert, other_than, is_line_terminator in *.
  rewrite !negb_true_iff, !orb_false_iff in *. tauto.
Qed.

Lemma block_html_not_nil b :
  block_ok b = true -> match b with Gap => True | _ => block_html b <> [] end.
Proof.
  intros Hb. destruct b as [n sp | sp | sp |]; try discriminate; [|exact I].
  cbn [block_ok] in Hb. rewrite !andb_true_iff in Hb. destruct Hb as [[Hc _] _].
  destruct (html_of_spans_head sp Hc) as (c & r & E).
  cbn [block_html]. rewrite E. discriminate.
Qed.

Lemma gap_silent y R p :
  forallb (other_than 10) y = true -> silent Markdown.re_blank_line p y R.
Proof.
  intros Hy. apply (silent_no_trigger _ 10%N _ _ (head_chars _ _)).
  apply (forallb_not_In (other_than 10)); [reflexivity | exact Hy].
Qed.

Lemma gap_silent_nl y R p :
  y <> [] -> forallb (other_than 10) y = true ->
  silent Markdown.re_blank_line p (nl ++ y) R.
Proof.
  intros Hn Hy. split; [|apply gap_silent, Hy].
  suppose E. destruct (shape_chars _ _ _ _ _ E) as (K & _).
  destruct y as [|c y]; [congruence|]. simpl in Hy.
  apply andb_true_iff in Hy as [Hc _]. unfold nl in K. simpl in K.
  injection K as K _.
  subst c. discriminate.
Qed.

Lemma gap_segs_ok blocks :
  forallb block_ok blocks = true ->
  forall due p,
    segs_ok Markdown.re_blank_line [Lit (u "</p><p>")] p (gap_segs due blocks).
Proof.
  induction blocks as [|b rest IH]; intros H due p.
  - cbn [gap_segs segs_ok]. suppose E.
    destruct (shape_chars _ _ _ _ _ E) as (K & _). discriminate.
  - simpl in H. apply andb_true_iff in H as [Hb H].
    pose proof (block_html_not_nl b Hb) as Hnl.
    pose proof (block_html_not_nil b Hb) as Hne.
    assert (forall R, block_html b <> [] ->
                      silent Markdown.re_blank_line p
                        ((if due then nl else []) ++ block_html b) R) as Q.
    { intros R Hn. destruct due; [|apply gap_silent, Hnl].
      apply gap_silent_nl; assumption. }
    destruct b as [n sp | sp | sp |]; cbn [gap_segs segs_ok];
      (split; [|apply IH, H]); try (apply Q; exact Hne).
    split; [discriminate|]. exists [].
    split; [|reflexivity].
    exact (run_Chars _ [10; 10]%N p (src_of (gap_segs false rest)) [] _).
Qed.

Lemma src_gap_segs blocks :
  forall pv,
    gaps_ok pv blocks = true ->
    src_of (gap_segs match pv with Start => false | _ => true end blocks)
    = match blocks with
      | [] => []
      | _ => match pv with Start => [] | _ => nl end
               ++ join nl (map block_html blocks)
      end.
Proof.
  induction blocks as [|b rest IH]; intros pv G; [reflexivity|].
  assert (forall x (y : jstring),
             y ++ x ++ match rest with
                       | [] => []
                       | _ => nl ++ join nl (map block_html rest)
                       end
             = y ++ join nl (x :: map block_html rest)) as J.
  { intros x y. destruct rest; [rewrite app_nil_r|]; reflexivity. }
  destruct b as [n sp | sp | sp |]; cbn [gaps_ok follows] in G.
  - cbn [gap_segs map]. rewrite src_of_cons, (IH AfterText G). cbn [seg_src].
    rewrite <- app_assoc, J. destruct pv; reflexivity.
  - cbn [gap_segs map]. rewrite src_of_cons, (IH AfterItem G). cbn [seg_src].
    rewrite <- app_assoc, J. destruct pv; reflexivity.
  - cbn [gap_segs map]. rewrite src_of_cons, (IH AfterText G). cbn [seg_src].
    rewrite <- app_assoc, J. destruct pv; reflexivity.
  - destruct pv; [discriminate | |];
      cbn [gap_segs map]; rewrite src_of_cons, (IH Start G); cbn [seg_src];
      (destruct rest; [discriminate G | reflexivity]).
Qed.

Lemma out_gap_segs blocks :
  forall due, out_of (gap_segs due blocks) = broken nl due blocks.
Proof.
  induction blocks as [|b rest IH]; intros due; [reflexivity|].
  destruct b as [n sp | sp | sp |]; cbn [gap_segs broken];
    rewrite out_of_cons, IH; cbn [seg_out]; rewrite <- ?app_assoc; reflexivity.
Qed.

Lemma blank_line_blocks blocks :
  forallb block_ok blocks = true -> gaps_ok Start blocks = true ->
  replace Markdown.re_blank_line [Lit (u "</p><p>")] (join nl (map block_html blocks))
  = broken nl false blocks.
Proof.
  intros H G.
  apply (replace_by_segs _ _ (gap_segs false blocks)).
  - rewrite (src_gap_segs blocks Start G). destruct blocks; reflexivity.
  - symmetry. apply out_gap_segs.
  - apply gap_segs_ok, H.
Qed.

Lemma newline_blocks blocks :
  forallb block_ok blocks = true ->
  forall due,
    replace Markdown.re_newline [Lit (u "<br>")] (broken nl due blocks)
    = broken br due blocks.
Proof.
  intros H due. unfold Markdown.re_newline. rewrite replace_units.
  revert due. induction blocks as [|b rest IH]; intros due; [reflexivity|].
  simpl in H. apply andb_true_iff in H as [Hb H].
  assert (flat_map (replace_unit 10 (u "<br>")) (block_html b) = block_html b) as K.
  { apply (flat_map_id _ (other_than 10)); [|apply block_html_not_nl, Hb].
    intros c Hc. unfold replace_unit, other_than in *.
    apply negb_true_iff in Hc. rewrite N.eqb_sym, Hc. reflexivity. }
  destruct b as [n sp | sp | sp |]; cbn [broken];
    rewrite !flat_map_app, ?K, (IH H); destruct due; reflexivity.
Qed.

Lemma inline_markup_blocks blocks :
  forallb block_ok blocks = true -> gaps_ok Start blocks = true ->
  Markdown.inline_markup (text_of_blocks blocks) = broken br false blocks.
Proof.
  intros H G. unfold Markdown.inline_markup.
  rewrite (block_heading_passes blocks H), (inline_passes blocks H).
  rewrite (block_item_pass blocks H), (blank_line_blocks blocks H G).
  apply newline_blocks, H.
Qed.

(** *** The tidying pass *)

(** A lazy class repetition stops at the first place where the rest of the
    pattern matches; it passes the places where [b] does not start. *)
Lemma rep_lazy_clear R cls (k : option N -> jstring -> option R) b rest res :
  (forall p' s, starts_with b s = false -> k p' s = None) ->
  forall x min p,
    forallb cls x = true -> clear_of b x rest = true -> min <= List.length x ->
    k (last_unit x p) rest = Some res ->
    rep_lazy cls min p (x ++ rest) k = Some res.
Proof.
  intros Hk. induction x as [|a x IH]; intros min p Hx Hb Hm K.
  - simpl in Hm. assert (min = 0) as -> by lia.
    change (last_unit [] p) with p in K.
    cbn [app]. destruct rest as [|c r]; simpl; rewrite K; reflexivity.
  - simpl in Hx. apply andb_true_iff in Hx as [Ha Hx].
    rewrite last_unit_cons in K.
    cbn [clear_of] in Hb. apply andb_true_iff in Hb as [Hb0 Hb].
    apply negb_true_iff in Hb0. cbn [app] in Hb0.
    cbn [app rep_lazy]. rewrite Ha.
    destruct min as [|min].
    + rewrite (Hk p _ Hb0).
      apply (IH 0 (Some a) Hx Hb); [lia | exact K].
    + apply (IH min (Some a) Hx Hb); [simpl in Hm; lia | exact K].
Qed.

Lemma exec_entry a x b rest p :
  a = [] \/ a = br ->
  b = br \/ (b = [] /\ starts_with br rest = false) ->
  clear_of li_close x (li_close ++ b ++ rest) = true ->
  exec Markdown.re_br_item_br p (a ++ (li_open ++ x ++ li_close) ++ b ++ rest)
  = Some ([li_open ++ x ++ li_close], rest).
Proof.
  intros Ha Hb Hx. unfold exec, Markdown.re_br_item_br. cbn [run_seq].
  assert (forall p',
             run (Grp [Chars (u "<li>"); Rep false 0 any; Chars (u "</li>")]) p'
                 ((li_open ++ x ++ li_close) ++ b ++ rest) []
                 (fun p1 s1 c1 =>
                    run (Opt [Chars (u "<br>")]) p1 s1 c1
                        (fun _ s' caps => Some (caps, s')))
             = Some ([li_open ++ x ++ li_close], rest)) as G.
  { intros p'. rewrite run_Grp3.
    replace ((li_open ++ x ++ li_close) ++ b ++ rest)
      with (li_open ++ x ++ li_close ++ b ++ rest) at 1
      by (rewrite <- !app_assoc; reflexivity).
    unfold li_open at 1. rewrite run_Chars, run_Rep_lazy.
    apply (rep_lazy_clear _ any _ li_close).
    - intros p1 s Hs. apply run_Chars_none. exact Hs.
    - apply forallb_forall. reflexivity.
    - exact Hx.
    - lia.
    - unfold li_close at 1. rewrite run_Chars, firstn_app_minus, run_Opt1.
      destruct Hb as [-> | [-> Hr]].
      + unfold br. rewrite run_Chars. reflexivity.
      + cbn [app]. rewrite (run_Chars_none _ _ _ _ _ _ Hr). reflexivity. }
  rewrite run_Opt1. destruct Ha as [-> | ->].
  - cbn [app]. rewrite run_Chars_none by reflexivity. apply G.
  - unfold br at 1. rewrite run_Chars, G. reflexivity.
Qed.

(** No item and no item tag starts in the HTML of a span. *)
Lemma span_html_clear h s z :
  In h [li_open; li_close; br ++ li_open] -> span_ok s = true ->
  clear_of h (span_html s) z = true.
Proof.
  intros Hh Ho.
  assert (forall x y, ~ In lt x -> clear_of h x y = true) as Q.
  { intros x y Hx. simpl in Hh.
    destruct Hh as [<- | [<- | [<- | []]]]; apply clear_of_no_head, Hx. }
  assert (forall x, forallb inert x = true -> ~ In lt x) as Hlt
      by (intros x Hx; apply (forallb_not_In inert); [reflexivity | exact Hx]).
  destruct s as [s | s | s | s | text url | s]; cbn [span_ok] in Ho;
    try (destruct (plain_text_spec s Ho) as (_ & Hi & _));
    try (destruct (well_formed_link _ _ Ho) as (_ & _ & _ & _ & Hit & Hiu));
    unfold span_html, anchor_of; rewrite ?clear_of_app;
    repeat match goal with
           | |- context [clear_of _ ?x ?y] =>
               is_var x; rewrite (Q x y) by (apply Hlt; assumption)
           end;
    simpl in Hh; destruct Hh as [<- | [<- | [<- | []]]]; reflexivity.
Qed.

Lemma html_of_spans_clear h sp z :
  In h [li_open; li_close; br ++ li_open] -> forallb span_ok sp = true ->
  clear_of h (html_of_spans sp) z = true.
Proof.
  intros Hh. unfold html_of_spans. revert z.
  induction sp as [|s rest IH]; intros z Ho; [reflexivity|].
  simpl in Ho. apply andb_true_iff in Ho as [Hs Ho].
  cbn [map concat]. rewrite clear_of_app, (span_html_clear h s _ Hh Hs), (IH z Ho).
  reflexivity.
Qed.

Lemma opens_cases s :
  opens s = true ->
  (exists c r, s = c :: r /\ N.eqb c 60 = false)
  \/ (exists d r, s = 60%N :: d :: r /\ In d (u "hseac"))
  \/ exists r, s = 60%N :: 47%N :: 112%N :: r.
Proof.
  destruct s as [|c r]; [discriminate|]. cbn [opens].
  destruct (N.eqb c 60) eqn:E; [|intros _; left; eauto].
  apply N.eqb_eq in E. subst c. cbn [negb orb].
  destruct r as [|d r']; [discriminate|].
  destruct (existsb (N.eqb d) (u "hseac")) eqn:X.
  - intros _. right. left. exists d, r'. split; [reflexivity|].
    apply existsb_exists in X as (e & He & Ee). apply N.eqb_eq in Ee. subst e. exact He.
  - cbn [orb]. intros H. apply andb_true_iff in H as [H1 H2].
    apply N.eqb_eq in H1. subst d. destruct r' as [|e r'']; [discriminate|].
    apply N.eqb_eq in H2. subst e. right. right. eauto.
Qed.

Ltac opening H :=
  destruct (opens_cases _ H) as [(?c & ?r & ?E & ?Hc) | [(?d & ?r & ?E & ?Hd) | (?r & ?E)]];
  [ | simpl in Hd; destruct Hd as [<- | [<- | [<- | [<- | [<- | []]]]]] | ].

Lemma opens_app acc z : opens acc = true -> opens (acc ++ z) = true.
Proof.
  intros H. opening H; subst acc; try reflexivity.
  cbn [app opens]. rewrite Hc. reflexivity.
Qed.

Lemma spans_open sp z :
  content_ok sp = true -> opens (html_of_spans sp ++ z) = true.
Proof.
  intros H. destruct (content_ok_spec sp H) as (Hn & Ho & _).
  destruct sp as [|s rest]; [congruence|].
  simpl in Ho. apply andb_true_iff in Ho as [Hs _].
  unfold html_of_spans. cbn [map concat]. rewrite <- app_assoc.
  destruct s as [s | s | s | s | text url | s]; try reflexivity.
  cbn [span_ok] in Hs. destruct (plain_text_spec s Hs) as ((c & s' & ->) & Hi & _).
  simpl in Hi. apply andb_true_iff in Hi as [Hc _].
  cbn [span_html app opens].
  assert (N.eqb c 60 = false) as ->; [|reflexivity].
  unfold inert in Hc. rewrite !negb_true_iff, !orb_false_iff in Hc. tauto.
Qed.

Lemma spans_black sp z :
  content_ok sp = true -> begins_blackb (text_of_spans sp) = true ->
  begins_blackb (html_of_spans sp ++ z) = true.
Proof.
  intros H Hb. destruct (content_ok_spec sp H) as (Hn & Ho & _).
  destruct sp as [|s rest]; [congruence|].
  simpl in Ho. apply andb_true_iff in Ho as [Hs _].
  unfold html_of_spans, text_of_spans in *. cbn [map concat] in *.
  rewrite <- app_assoc.
  destruct s as [s | s | s | s | text url | s]; try reflexivity.
  cbn [span_ok] in Hs. destruct (plain_text_spec s Hs) as ((c & s' & ->) & _).
  exact Hb.
Qed.

(** A line that is no item begins like text. *)
Lemma block_opens b z :
  block_ok b = true ->
  match b with Entry _ | Gap => False | _ => True end ->
  opens (block_html b ++ z) = true /\ begins_blackb (block_html b ++ z) = true.
Proof.
  intros Hb Hk. destruct b as [n sp | sp | sp |]; try contradiction.
  - split; reflexivity.
  - cbn [block_ok] in Hb. rewrite !andb_true_iff in Hb. destruct Hb as [[Hc _] Hbl].
    split; [apply spans_open, Hc | apply spans_black; assumption].
Qed.

(** A line that is no item, with or without the [<br>] before it, holds no
    place where an item or an item tag starts. *)
Lemma block_clear h b sep rest :
  In h [li_open; li_close; br ++ li_open] ->
  block_ok b = true ->
  match b with Entry _ | Gap => False | _ => True end ->
  sep = [] \/ sep = br ->
  clear_of h (sep ++ block_html b) rest = true.
Proof.
  intros Hh Hb Hk Hsep.
  destruct (block_ok_content b Hb) as (_ & Ho & _).
  rewrite clear_of_app. apply andb_true_intro. split.
  - destruct Hsep as [-> | ->]; [reflexivity|].
    destruct (block_opens b rest Hb Hk) as [Hop _].
    simpl in Hh.
    opening Hop; rewrite E;
      destruct Hh as [<- | [<- | [<- | []]]]; try reflexivity.
    cbv -[N.eqb]. rewrite (N.eqb_sym 60 c), Hc. reflexivity.
  - destruct b as [n sp | sp | sp |]; try contradiction; cbn [block_html spans_of] in *.
    + simpl in Hb. apply andb_true_iff in Hb as [Hn _].
      rewrite !clear_of_app, (html_of_spans_clear h sp _ Hh Ho).
      simpl in Hh.
      destruct (level_cases n Hn) as [-> | [-> | ->]];
        destruct Hh as [<- | [<- | [<- | []]]]; reflexivity.
    + apply html_of_spans_clear; assumption.
Qed.

Lemma broken_due sep rest :
  broken sep true rest
  = match rest with [] | Gap :: _ => [] | _ => sep end ++ broken sep false rest.
Proof. destruct rest as [|[n sp | sp | sp |] rest]; reflexivity. Qed.

Lemma src_entry_segs blocks :
  forall pv,
    src_of (entry_segs pv blocks)
    = broken br match pv with AfterText => true | _ => false end blocks.
Proof.
  induction blocks as [|b rest IH]; intros pv; [reflexivity|].
  destruct b as [n sp | sp | sp |]; cbn [entry_segs broken];
    rewrite src_of_cons, IH; cbn [seg_src block_html].
  - rewrite <- app_assoc. destruct pv; reflexivity.
  - rewrite (broken_due br rest). unfold trailing.
    rewrite <- !app_assoc. destruct pv; reflexivity.
  - rewrite <- app_assoc. destruct pv; reflexivity.
  - reflexivity.
Qed.

Lemma entry_segs_ok blocks :
  forallb block_ok blocks = true ->
  forall pv p, segs_ok Markdown.re_br_item_br [Cap 1] p (entry_segs pv blocks).
Proof.
  induction blocks as [|b rest IH]; intros H pv p.
  - cbn [entry_segs segs_ok]. suppose E.
    destruct (br_item_heads _ _ _ _ E) as (h & [<- | [<- | []]] & K); discriminate.
  - simpl in H. apply andb_true_iff in H as [Hb H].
    destruct (block_ok_content b Hb) as (_ & Ho & _).
    assert (forall sep, sep = match pv with AfterText => br | _ => [] end ->
                        sep = [] \/ sep = br) as Hsep
        by (intros sep ->; destruct pv; auto).
    assert (forall h, In h [li_open; br ++ li_open] ->
                      In h [li_open; li_close; br ++ li_open]) as Hin
        by (simpl; tauto).
    destruct b as [n sp | sp | sp |]; cbn [entry_segs segs_ok]; (split; [|apply IH, H]).
    + apply (silent_by _ [li_open; br ++ li_open] _ _ _ br_item_heads).
      intros h Ih. apply block_clear; auto.
    + split; [destruct pv; discriminate|].
      exists [li_open ++ html_of_spans sp ++ li_close].
      split; [|unfold subst; cbn [flat_map nth pred]; apply app_nil_r].
      rewrite <- !app_assoc.
      rewrite (app_assoc li_open), (app_assoc (li_open ++ html_of_spans sp)).
      rewrite <- (app_assoc li_open).
      apply exec_entry.
      * apply Hsep. reflexivity.
      * unfold trailing.
        destruct rest as [|[n' sp' | sp' | sp' |] rest];
          first [left; reflexivity | right; split; reflexivity].
      * apply html_of_spans_clear; [simpl; tauto | exact Ho].
    + apply (silent_by _ [li_open; br ++ li_open] _ _ _ br_item_heads).
      intros h Ih. apply block_clear; auto.
    + apply (silent_by _ [li_open; br ++ li_open] _ _ _ br_item_heads).
      intros h [<- | [<- | []]]; reflexivity.
Qed.

Lemma tidy_items_blocks blocks :
  forallb block_ok blocks = true ->
  Markdown.tidy_items (broken br false blocks) = out_of (entry_segs Start blocks).
Proof.
  intros H. unfold Markdown.tidy_items, replace at 2.
  rewrite replace_from_whole.
  apply (replace_by_segs _ _ (entry_segs Start blocks));
    [rewrite src_entry_segs; reflexivity | reflexivity | apply entry_segs_ok, H].
Qed.

(** *** The split and the grouping loop *)

Lemma split_blocks blocks :
  forallb block_ok blocks = true ->
  forall pv acc p f,
    split_measure acc (out_of (entry_segs pv blocks)) < f ->
    split_from f Markdown.re_li_tag p acc (out_of (entry_segs pv blocks))
    = pieces acc pv blocks.
Proof.
  induction blocks as [|b rest IH]; intros H pv acc p f L.
  - destruct f as [|f]; [lia | reflexivity].
  - simpl in H. apply andb_true_iff in H as [Hb H].
    destruct (block_ok_content b Hb) as (_ & Ho & _).
    assert (forall h, In h [li_open; li_close] ->
                      In h [li_open; li_close; br ++ li_open]) as Hin
        by (simpl; tauto).
    assert (match b with Entry _ | Gap => False | _ => True end ->
            split_from f Markdown.re_li_tag p acc
              ((match pv with AfterText => br | _ => [] end ++ block_html b)
                 ++ out_of (entry_segs AfterText rest))
            = pieces (acc ++ match pv with AfterText => br | _ => [] end ++ block_html b)
                     AfterText rest) as Line.
    { intros Hk. apply split_over.
      - apply (silent_by _ [li_open; li_close] _ _ _ li_tag_heads).
        intros h Ih. apply block_clear; auto. destruct pv; auto.
      - destruct b; [exact L | contradiction | exact L | contradiction].
      - intros f' L'. apply IH; assumption. }
    destruct b as [n sp | sp | sp |]; cbn [entry_segs pieces]; rewrite out_of_cons;
      cbn [seg_out].
    + apply Line. exact I.
    + cbn [entry_segs] in L. rewrite out_of_cons in L. cbn [seg_out] in L.
      rewrite <- !app_assoc. rewrite <- !app_assoc in L.
      apply split_at; [left; reflexivity | exact L |].
      intros f1 L1. apply split_over.
      * apply (silent_by _ [li_open; li_close] _ _ _ li_tag_heads).
        intros h Ih. apply html_of_spans_clear; auto.
      * exact L1.
      * intros f2 L2. cbn [app] in *.
        apply split_at; [right; reflexivity | exact L2 |].
        intros f3 L3. apply IH; assumption.
    + apply Line. exact I.
    + cbn [entry_segs] in L. rewrite out_of_cons in L. cbn [seg_out] in L.
      apply split_over.
      * apply (silent_by _ [li_open; li_close] _ _ _ li_tag_heads).
        intros h [<- | [<- | []]]; reflexivity.
      * exact L.
      * intros f' L'. apply IH; assumption.
Qed.

Lemma split_of_blocks blocks :
  forallb block_ok blocks = true ->
  split Markdown.re_li_tag (out_of (entry_segs Start blocks)) = pieces [] Start blocks.
Proof.
  intros H. unfold split.
  destruct (out_of (entry_segs Start blocks)) as [|c s] eqn:E.
  - destruct blocks as [|[n sp | sp | sp |] rest]; try discriminate; [reflexivity|].
    cbn [forallb] in H. apply andb_true_iff in H as [Hb _].
    pose proof (block_html_not_nil _ Hb) as Hn. cbn [entry_segs] in E.
    rewrite out_of_cons in E. cbn [seg_out app] in E.
    destruct (block_html (Prose sp)); [congruence | discriminate].
  - rewrite <- E. apply split_blocks; [exact H|].
    unfold split_measure. rewrite E. simpl. lia.
Qed.

Lemma opens_not_tag acc : opens acc = true -> is_li_tag acc = false.
Proof.
  intros H. opening H; subst acc; try reflexivity.
  unfold is_li_tag. cbn [u map list_ascii_of_string jeqb].
  change (N_of_ascii "<") with 60%N. rewrite Hc. reflexivity.
Qed.

Lemma replace_br_tag d r :
  In d (u "hseac/") ->
  exists x, replace Markdown.re_br [] (60%N :: d :: r) = 60%N :: d :: x.
Proof.
  intros Hd. unfold replace. cbn [List.length replace_from].
  assert (exec Markdown.re_br None (60%N :: d :: r) = None) as ->
      by (unfold exec, Markdown.re_br; cbn [run_seq]; apply run_Chars_none;
          simpl in Hd; destruct Hd as [<- | [<- | [<- | [<- | [<- | [<- | []]]]]]];
          reflexivity).
  assert (exec Markdown.re_br (Some 60%N) (d :: r) = None) as ->
      by (unfold exec, Markdown.re_br; cbn [run_seq]; apply run_Chars_none;
          simpl in Hd; destruct Hd as [<- | [<- | [<- | [<- | [<- | [<- | []]]]]]];
          reflexivity).
  eexists. reflexivity.
Qed.

Lemma opens_next acc rest :
  opens acc = true -> begins_blackb acc = true ->
  Markdown.next_is_li (acc :: rest) = false.
Proof.
  intros H Hb. cbn [Markdown.next_is_li].
  assert (exists c y, trim (replace Markdown.re_br [] acc) = c :: y
                      /\ jeqb (c :: y) (u "<li>") = false) as (c & y & -> & ->);
    [|reflexivity].
  assert (forall d r, In d (u "hseac/") ->
                      exists c y, trim (replace Markdown.re_br [] (60%N :: d :: r)) = c :: y
                                  /\ jeqb (c :: y) (u "<li>") = false) as Tag.
  { intros d r Hd. destruct (replace_br_tag d r Hd) as (x & ->).
    assert (is_space d = false) as Sd
        by (simpl in Hd; destruct Hd as [<- | [<- | [<- | [<- | [<- | [<- | []]]]]]];
            reflexivity).
    rewrite trim_cons, (rtrim_cons _ _ Sd) by reflexivity.
    eexists. eexists. split; [reflexivity|].
    simpl in Hd; destruct Hd as [<- | [<- | [<- | [<- | [<- | [<- | []]]]]]];
      reflexivity. }
  destruct (opens_cases _ H) as [(c & r & E & Hc) | [(d & r & E & Hd) | (r & E)]];
    subst acc.
  - simpl in Hb. apply negb_true_iff in Hb.
    assert (c <> lt) as Hne by (intros ->; discriminate).
    destruct (replace_br_head c r Hne) as (x & ->).
    rewrite (trim_cons _ _ Hb).
    eexists. eexists. split; [reflexivity|].
    cbn [u map list_ascii_of_string jeqb].
    change (N_of_ascii "<") with 60%N. rewrite Hc. reflexivity.
  - apply Tag. simpl in *. tauto.
  - apply Tag. simpl. tauto.
Qed.

Lemma pieces_head blocks :
  forall acc pv, exists z tail, pieces acc pv blocks = (acc ++ z) :: tail.
Proof.
  induction blocks as [|b rest IH]; intros acc pv.
  - exists [], []. rewrite app_nil_r. reflexivity.
  - destruct b as [n sp | sp | sp |]; cbn [pieces].
    + destruct (IH (acc ++ match pv with AfterText => br | _ => [] end
                        ++ block_html (Title n sp)) AfterText)
        as (z & tail & ->).
      eexists. eexists. rewrite <- app_assoc. reflexivity.
    + eexists [], _. rewrite app_nil_r. reflexivity.
    + destruct (IH (acc ++ match pv with AfterText => br | _ => [] end
                        ++ block_html (Prose sp)) AfterText)
        as (z & tail & ->).
      eexists. eexists. rewrite <- app_assoc. reflexivity.
    + destruct (IH (acc ++ u "</p><p>") Start) as (z & tail & ->).
      eexists. eexists. rewrite <- app_assoc. reflexivity.
Qed.

Lemma pieces_next blocks acc pv :
  opens acc = true -> begins_blackb acc = true ->
  Markdown.next_is_li (pieces acc pv blocks) = false.
Proof.
  intros H Hb. destruct (pieces_head blocks acc pv) as (z & tail & E).
  pose proof (opens_next (acc ++ z) tail (opens_app acc z H)) as K.
  unfold jstring in *. rewrite E. apply K.
  destruct acc; [discriminate | exact Hb].
Qed.

Lemma group_items_entry b acc sp rest :
  is_li_tag acc = false -> content_ok sp = true ->
  Markdown.group_items b
    (acc :: li_open :: html_of_spans sp :: li_close :: pieces [] AfterItem rest)
  = acc ++ (if negb b then u "<ul>" else []) ++ li_open ++ html_of_spans sp ++ li_close
        ++ after_entry rest.
Proof.
  intros Ha Hc. rewrite (group_items_plain b acc _ Ha), group_items_open_any.
  assert (is_li_tag (html_of_spans sp) = false) as Hx.
  { apply opens_not_tag. rewrite <- (app_nil_r (html_of_spans sp)).
    apply spans_open, Hc. }
  rewrite (group_items_plain true _ _ Hx), group_items_close.
  unfold after_entry. rewrite andb_true_r.
  destruct (Markdown.next_is_li (pieces [] AfterItem rest)); reflexivity.
Qed.

Lemma entry_content sp : block_ok (Entry sp) = true -> content_ok sp = true.
Proof. intros H. exact H. Qed.

Lemma group_items_blocks blocks :
  forallb block_ok blocks = true ->
  (forall acc pv,
      opens acc = true -> begins_blackb acc = true ->
      match pv with AfterItem => False | _ => True end ->
      Markdown.group_items false (pieces acc pv blocks)
      = acc ++ html_of_blocks pv blocks)
  /\ Markdown.group_items false (pieces [] Start blocks) = html_of_blocks Start blocks
  /\ after_entry blocks = html_of_blocks AfterItem blocks.
Proof.
  induction blocks as [|b rest IH]; intros H.
  - split; [|split].
    + intros acc pv Ha _ Hpv. cbn [pieces html_of_blocks].
      rewrite (group_items_plain false acc [] (opens_not_tag acc Ha)).
      destruct pv; [reflexivity | contradiction | reflexivity].
    + reflexivity.
    + reflexivity.
  - simpl in H. apply andb_true_iff in H as [Hb H].
    destruct (IH H) as (T & S & A).
    assert (match b with Entry _ | Gap => False | _ => True end ->
            (forall acc pv,
                opens acc = true -> begins_blackb acc = true ->
                match pv with AfterItem => False | _ => True end ->
                Markdown.group_items false
                  (pieces (acc ++ match pv with AfterText => br | _ => [] end
                               ++ block_html b) AfterText rest)
                = acc ++ match pv with
                         | Start => []
                         | AfterItem => u "</ul>"
                         | AfterText => br
                         end ++ block_html b ++ html_of_blocks AfterText rest)
            /\ Markdown.group_items false (pieces (block_html b) AfterText rest)
               = block_html b ++ html_of_blocks AfterText rest
            /\ (if negb (Markdown.next_is_li (pieces (block_html b) AfterText rest))
                   && true
                then u "</ul>" ++ Markdown.group_items false
                                    (pieces (block_html b) AfterText rest)
                else Markdown.group_items true (pieces (block_html b) AfterText rest))
               = u "</ul>" ++ block_html b ++ html_of_blocks AfterText rest) as Line.
    { intros Hk.
      destruct (block_opens b [] Hb Hk) as [Hop Hbl]. rewrite app_nil_r in Hop, Hbl.
      split; [|split].
      - intros acc pv Ha Hbk Hpv.
        rewrite T; [| apply opens_app, Ha | destruct acc; [discriminate | exact Hbk]
                    | exact I].
        rewrite <- !app_assoc. destruct pv; [reflexivity | contradiction | reflexivity].
      - apply T; [exact Hop | exact Hbl | exact I].
      - rewrite (pieces_next rest _ AfterText Hop Hbl). cbn [negb andb].
        rewrite T; [reflexivity | exact Hop | exact Hbl | exact I]. }
    destruct b as [n sp | sp | sp |].
    + destruct (Line I) as (L1 & L2 & L3). split; [|split].
      * intros acc pv Ha Hbk Hpv. cbn [pieces html_of_blocks].
        apply L1; assumption.
      * cbn [pieces html_of_blocks app]. exact L2.
      * unfold after_entry. cbn [pieces html_of_blocks app]. exact L3.
    + pose proof (entry_content sp Hb) as Hc. split; [|split].
      * intros acc pv Ha Hbk Hpv. cbn [pieces html_of_blocks].
        rewrite (group_items_entry false acc sp rest (opens_not_tag acc Ha) Hc), A.
        destruct pv; [reflexivity | contradiction | reflexivity].
      * cbn [pieces html_of_blocks].
        rewrite (group_items_entry false [] sp rest eq_refl Hc), A. reflexivity.
      * unfold after_entry. cbn [pieces html_of_blocks].
        change (Markdown.next_is_li ([] :: li_open :: ?x)) with true.
        cbn [negb andb].
        rewrite (group_items_entry true [] sp rest eq_refl Hc), A. reflexivity.
    + destruct (Line I) as (L1 & L2 & L3). split; [|split].
      * intros acc pv Ha Hbk Hpv. cbn [pieces html_of_blocks].
        apply L1; assumption.
      * cbn [pieces html_of_blocks app]. exact L2.
      * unfold after_entry. cbn [pieces html_of_blocks app]. exact L3.
    + split; [|split].
      * intros acc pv Ha Hbk Hpv. cbn [pieces html_of_blocks].
        rewrite T; [| apply opens_app, Ha | destruct acc; [discriminate | exact Hbk]
                    | exact I].
        rewrite <- !app_assoc. destruct pv; [reflexivity | contradiction | reflexivity].
      * cbn [pieces html_of_blocks app]. apply T; [reflexivity | reflexivity | exact I].
      * unfold after_entry. cbn [pieces html_of_blocks app].
        rewrite (pieces_next rest (u "</p><p>") Start eq_refl eq_refl).
        cbn [negb andb]. rewrite T; [reflexivity | reflexivity | reflexivity | exact I].
Qed.

Lemma render_blocks blocks :
  forallb block_ok blocks = true -> gaps_ok Start blocks = true ->
  Markdown.render (text_of_blocks blocks)
  = u "<p>" ++ html_of_blocks Start blocks ++ u "</p>".
Proof.
  intros H G. unfold Markdown.render.
  rewrite (escape_html_blocks blocks H), (inline_markup_blocks blocks H G).
  rewrite (tidy_items_blocks blocks H), (split_of_blocks blocks H).
  destruct (group_items_blocks blocks H) as (_ & -> & _). reflexivity.
Qed.

Lemma text_of_blocks_not_nil blocks :
  forallb block_ok blocks = true -> gaps_ok Start blocks = true ->
  text_of_blocks blocks <> [].
Proof.
  intros H G. destruct blocks as [|b rest]; [discriminate|].
  simpl in H. apply andb_true_iff in H as [Hb _].
  assert (exists c r, block_source b = c :: r) as (c & r & E).
  { destruct b as [n sp | sp | sp |].
    - simpl in Hb. apply andb_true_iff in Hb as [Hn _].
      destruct (level_cases n Hn) as [-> | [-> | ->]]; eexists; eexists; reflexivity.
    - eexists; eexists; reflexivity.
    - destruct (prose_head sp Hb) as (c & r & E & _). eauto.
    - discriminate. }
  unfold text_of_blocks. cbn [map join]. rewrite E.
  destruct (map block_source rest); discriminate.
Qed.

(** X20. A text of lines separated by single newlines, each line a heading
    ([# ], [## ], [### ]), a list item ([- ]), a plain line or, between two
    other lines, an empty line, and each line but the empty ones made of
    plain words, [***bold italic***], [**bold**], [*italic*], [[text](url)]
    and [`code`]: every span is rendered by the tag of its kind, every
    heading becomes [<h1>] to [<h3>], every run of consecutive items becomes
    one [<ul>] of [<li>] elements, two lines that are no items are separated
    by [<br>], every empty line closes the paragraph and opens the next one
    ([</p><p>]), and the whole is wrapped in [<p>]. *)
Theorem renderMarkdown_blocks blocks :
  forallb block_ok blocks = true -> gaps_ok Start blocks = true ->
  renderMarkdown (str (text_of_blocks blocks))
  = Ok (u "<p>" ++ html_of_blocks Start blocks ++ u "</p>").
Proof.
  intros H G.
  rewrite (renderMarkdown_string _ (text_of_blocks_not_nil blocks H G)).
  rewrite (render_blocks blocks H G). reflexivity.
Qed.

Lemma renderMarkdown_blocks_witness :
  renderMarkdown
    (str (u "## Plan **now**" ++ nl ++ u "*x* y" ++ nl ++ u "- a `c`" ++ nl
            ++ u "- ***b***" ++ nl ++ nl ++ u "end"))
  = Ok (u "<p><h2>Plan <strong>now</strong></h2><br><em>x</em> y<ul><li>a <code>c</code></li><li><strong><em>b</em></strong></li></ul></p><p>end</p>").
Proof.
  apply (renderMarkdown_blocks
           [Title 2 [Words (u "Plan "); Bold (u "now")];
            Prose [Italic (u "x"); Words (u " y")];
            Entry [Words (u "a "); Mono (u "c")];
            Entry [BoldItalic (u "b")];
            Gap;
            Prose [Words (u "end")]]).
  - reflexivity.
  - reflexivity.
Defined.
